(** * fabric.js: the Group composite node and the ancestry resolver

    A shallow embedding of [src/shapes/group.class.ts] (class [Group]) and of
    the ancestry mixin ([FabricObjectAncestryMixin]) that follows it in the
    same source file.

    The JavaScript object graph is a heap of nodes addressed by identifiers;
    [===] on objects is equality of identifiers.  Loops and recursions that
    walk the [group] chain carry a fuel argument and return [None] when it
    runs out (the JavaScript loop would not return on a cyclic chain).

    Code of the base class ([FabricObject]), of the [Point] class and of the
    transform utilities is not part of the two source files: what the group
    code calls there is a field of the interface [BaseObject] below. *)

From Stdlib Require Import ZArith QArith Lia.
From stdpp Require Import base decidable option list sets strings.

Set Implicit Arguments.
Unset Strict Implicit.

(** ** JavaScript numbers and the base class, as interfaces *)

(** Values found where the source expects a number: numbers (with NaN) and
    [undefined], the value read from an absent property. *)
Class Scalars := {
  num : Type;
  n0 : num;                              (* 0 *)
  nHalf : num;                           (* 0.5 *)
  n2 : num;                              (* 2 *)
  undef : num;                           (* undefined *)
  nadd : num -> num -> num;              (* a + b *)
  nsub : num -> num -> num;              (* a - b *)
  nmul : num -> num -> num;              (* a * b *)
  ndiv : num -> num -> num;              (* a / b *)
  nneg : num -> num;                     (* -a *)
  nmin : num -> num -> num;              (* Math.min(a, b) *)
  nmax : num -> num -> num;              (* Math.max(a, b) *)
  nabs : num -> num;                     (* Math.abs(a) *)
  nsin : num -> num;                     (* util sin *)
  ncos : num -> num;                     (* util cos *)
  degreesToRadians : num -> num;
  truthy : num -> bool;                  (* ToBoolean *)
  isNumber : num -> bool;                (* typeof a === 'number' *)
  strictEq : num -> num -> bool;         (* a === b *)
  TMat : Type;                           (* transform matrices *)
  Extra : Type                           (* state of the base class that the group code never reads *)
}.

Section Model.
Context {SC : Scalars}.

(** [a || 0] *)
Definition or0 (a : num) : num := if truthy a then a else n0.

Record Point := { px : num; py : num }.

(** The methods of [Point] the group code calls, component by component. *)
Definition pt_add (p q : Point) : Point :=
  {| px := nadd (px p) (px q); py := nadd (py p) (py q) |}.
Definition pt_subtract (p q : Point) : Point :=
  {| px := nsub (px p) (px q); py := nsub (py p) (py q) |}.
Definition pt_multiply (p q : Point) : Point :=
  {| px := nmul (px p) (px q); py := nmul (py p) (py q) |}.
Definition pt_scalarAdd (p : Point) (s : num) : Point :=
  {| px := nadd (px p) s; py := nadd (py p) s |}.
Definition pt_scalarDivide (p : Point) (s : num) : Point :=
  {| px := ndiv (px p) s; py := ndiv (py p) s |}.
Definition pt_eq (p q : Point) : bool :=
  strictEq (px p) (px q) && strictEq (py p) (py q).
(** [this.midPointFrom(that)], the point half way from [this] to [that]. *)
Definition pt_midPointFrom (p q : Point) : Point :=
  {| px := nadd (px p) (nmul (nsub (px q) (px p)) nHalf);
     py := nadd (py p) (nmul (nsub (py q) (py p)) nHalf) |}.

(** The geometric properties of an object that the group code reads or
    writes by name; [geoExtra] stands for the rest (scale, flip, stroke). *)
Record Geo := {
  left : num; top : num; width : num; height : num;
  angle : num; skewX : num; skewY : num;
  originX : string; originY : string;
  geoExtra : Extra
}.

Definition set_left_top (g : Geo) (l t : num) : Geo :=
  {| left := l; top := t; width := width g; height := height g;
     angle := angle g; skewX := skewX g; skewY := skewY g;
     originX := originX g; originY := originY g; geoExtra := geoExtra g |}.
Definition set_width_height (g : Geo) (w h : num) : Geo :=
  {| left := left g; top := top g; width := w; height := h;
     angle := angle g; skewX := skewX g; skewY := skewY g;
     originX := originX g; originY := originY g; geoExtra := geoExtra g |}.
Definition set_angle_skew (g : Geo) (a sx sy : num) : Geo :=
  {| left := left g; top := top g; width := width g; height := height g;
     angle := a; skewX := sx; skewY := sy;
     originX := originX g; originY := originY g; geoExtra := geoExtra g |}.

(** The argument of [_getTransformedDimensions(options)]: the keys present
    override the object's own values. *)
Record DimOptions := {
  optWidth : option num; optHeight : option num; optStrokeWidth : option num
}.
Definition noDimOptions : DimOptions :=
  {| optWidth := None; optHeight := None; optStrokeWidth := None |}.

Definition id := nat.

(** What the group code calls in the base class and in the utilities. *)
Class BaseObject := {
  multiplyTransformMatrices : TMat -> TMat -> TMat;
  invertTransform : TMat -> TMat;
  (* transformPoint(p, t, ignoreOffset) *)
  transformPoint : Point -> TMat -> bool -> Point;
  calcOwnMatrix : Geo -> TMat;
  (* calcTransformMatrix of an object, from the geometry and the [group]
     reference of every object *)
  calcTransformMatrix : (id -> Geo) -> (id -> option id) -> id -> TMat;
  applyTransformToObject : Geo -> TMat -> Geo;
  getRelativeCenterPoint : Geo -> Point;
  getCenterPoint : (id -> Geo) -> (id -> option id) -> id -> Point;
  _getTransformedDimensions : Geo -> DimOptions -> Point;
  resolveOriginX : string -> num;
  resolveOriginY : string -> num;
  (* the [left]/[top] that setPositionByOrigin(center, 'center', 'center')
     assigns *)
  positionByOrigin : Geo -> Point -> Point
}.

Context {BO : BaseObject}.

(** ** The heap of nodes *)

Inductive Kind := KObject | KGroup | KCanvas.

#[global] Instance Kind_eq_dec : EqDecision Kind.
Proof. solve_decision. Defined.

Record Node := {
  kind : Kind;                    (* plain object, Group, or StaticCanvas *)
  group : option id;
  canvas : option id;
  _objects : list id;
  _activeObjects : list id;
  _firstLayoutDone : bool;
  layout : string;
  subTargetCheck : bool;
  interactive : bool;
  dirty : bool;
  clipPath : option id;
  absolutePositioned : bool;
  (* groups whose monitors are subscribed to this object's events *)
  watchers : list id;
  (* of a canvas: what getActiveObject() returns, if the method exists *)
  activeObject : option id;
  geo : Geo
}.

Definition with_group (n : Node) (v : option id) : Node :=
  {| kind := kind n; group := v; canvas := canvas n; _objects := _objects n;
     _activeObjects := _activeObjects n; _firstLayoutDone := _firstLayoutDone n;
     layout := layout n; subTargetCheck := subTargetCheck n;
     interactive := interactive n; dirty := dirty n; clipPath := clipPath n;
     absolutePositioned := absolutePositioned n; watchers := watchers n;
     activeObject := activeObject n; geo := geo n |}.
Definition with_canvas (n : Node) (v : option id) : Node :=
  {| kind := kind n; group := group n; canvas := v; _objects := _objects n;
     _activeObjects := _activeObjects n; _firstLayoutDone := _firstLayoutDone n;
     layout := layout n; subTargetCheck := subTargetCheck n;
     interactive := interactive n; dirty := dirty n; clipPath := clipPath n;
     absolutePositioned := absolutePositioned n; watchers := watchers n;
     activeObject := activeObject n; geo := geo n |}.
Definition with_objects (n : Node) (v : list id) : Node :=
  {| kind := kind n; group := group n; canvas := canvas n; _objects := v;
     _activeObjects := _activeObjects n; _firstLayoutDone := _firstLayoutDone n;
     layout := layout n; subTargetCheck := subTargetCheck n;
     interactive := interactive n; dirty := dirty n; clipPath := clipPath n;
     absolutePositioned := absolutePositioned n; watchers := watchers n;
     activeObject := activeObject n; geo := geo n |}.
Definition with_activeObjects (n : Node) (v : list id) : Node :=
  {| kind := kind n; group := group n; canvas := canvas n; _objects := _objects n;
     _activeObjects := v; _firstLayoutDone := _firstLayoutDone n;
     layout := layout n; subTargetCheck := subTargetCheck n;
     interactive := interactive n; dirty := dirty n; clipPath := clipPath n;
     absolutePositioned := absolutePositioned n; watchers := watchers n;
     activeObject := activeObject n; geo := geo n |}.
Definition with_firstLayoutDone (n : Node) (v : bool) : Node :=
  {| kind := kind n; group := group n; canvas := canvas n; _objects := _objects n;
     _activeObjects := _activeObjects n; _firstLayoutDone := v;
     layout := layout n; subTargetCheck := subTargetCheck n;
     interactive := interactive n; dirty := dirty n; clipPath := clipPath n;
     absolutePositioned := absolutePositioned n; watchers := watchers n;
     activeObject := activeObject n; geo := geo n |}.
Definition with_layout (n : Node) (v : string) : Node :=
  {| kind := kind n; group := group n; canvas := canvas n; _objects := _objects n;
     _activeObjects := _activeObjects n; _firstLayoutDone := _firstLayoutDone n;
     layout := v; subTargetCheck := subTargetCheck n;
     interactive := interactive n; dirty := dirty n; clipPath := clipPath n;
     absolutePositioned := absolutePositioned n; watchers := watchers n;
     activeObject := activeObject n; geo := geo n |}.
Definition with_dirty (n : Node) (v : bool) : Node :=
  {| kind := kind n; group := group n; canvas := canvas n; _objects := _objects n;
     _activeObjects := _activeObjects n; _firstLayoutDone := _firstLayoutDone n;
     layout := layout n; subTargetCheck := subTargetCheck n;
     interactive := interactive n; dirty := v; clipPath := clipPath n;
     absolutePositioned := absolutePositioned n; watchers := watchers n;
     activeObject := activeObject n; geo := geo n |}.
Definition with_watchers (n : Node) (v : list id) : Node :=
  {| kind := kind n; group := group n; canvas := canvas n; _objects := _objects n;
     _activeObjects := _activeObjects n; _firstLayoutDone := _firstLayoutDone n;
     layout := layout n; subTargetCheck := subTargetCheck n;
     interactive := interactive n; dirty := dirty n; clipPath := clipPath n;
     absolutePositioned := absolutePositioned n; watchers := v;
     activeObject := activeObject n; geo := geo n |}.
Definition with_geo (n : Node) (v : Geo) : Node :=
  {| kind := kind n; group := group n; canvas := canvas n; _objects := _objects n;
     _activeObjects := _activeObjects n; _firstLayoutDone := _firstLayoutDone n;
     layout := layout n; subTargetCheck := subTargetCheck n;
     interactive := interactive n; dirty := dirty n; clipPath := clipPath n;
     absolutePositioned := absolutePositioned n; watchers := watchers n;
     activeObject := activeObject n; geo := v |}.

Definition Heap := id -> Node.

(** [h] with the node at [o] replaced by [f (h o)]. *)
Definition upd (h : Heap) (o : id) (f : Node -> Node) : Heap :=
  fun i => if decide (i = o) then f (h o) else h i.

(** ** Arrays of object references *)

(** [l.indexOf(x)], counting from [i]. *)
Fixpoint indexOf_from (l : list id) (x : id) (i : Z) : Z :=
  match l with
  | [] => (-1)%Z
  | y :: l' => if decide (y = x) then i else indexOf_from l' x (i + 1)%Z
  end.
Definition indexOf (l : list id) (x : id) : Z := indexOf_from l x 0%Z.

(** [l.indexOf(x)] where [x] may be [undefined]; an array of objects never
    holds [undefined]. *)
Definition indexOf_opt (l : list id) (x : option id) : Z :=
  match x with Some y => indexOf l y | None => (-1)%Z end.

(** [l.includes(x)] *)
Definition includes (l : list id) (x : id) : bool := bool_decide (x ∈ l).

(** [index = l.indexOf(x); if (index > -1) l.splice(index, 1)]: the first
    occurrence of [x] goes. *)
Fixpoint remove_first (x : id) (l : list id) : list id :=
  match l with
  | [] => []
  | y :: l' => if decide (y = x) then l' else y :: remove_first x l'
  end.

(** ** The ancestry mixin *)

(** [o.group || (strict ? undefined : o.canvas)] *)
Definition parentOf (strict : bool) (h : Heap) (o : id) : option id :=
  match group (h o) with
  | Some g => Some g
  | None => if strict then None else canvas (h o)
  end.

(** The [while (parent)] loop of [isDescendantOf]. *)
Fixpoint isDescendantOf_loop (fuel : nat) (h : Heap) (target : id)
    (parent : option id) : option bool :=
  match parent with
  | None => Some false
  | Some p =>
      if decide (target = p) then Some true
      else if decide (kind (h p) = KCanvas) then Some false
      else match fuel with
           | O => None
           | S f => isDescendantOf_loop f h target (parentOf false h p)
           end
  end.

Definition isDescendantOf (fuel : nat) (h : Heap) (this target : id) : option bool :=
  isDescendantOf_loop fuel h target (parentOf false h this).

(** The [while (parent)] loop of [getAncestors]. *)
Fixpoint getAncestors_loop (fuel : nat) (strict : bool) (h : Heap)
    (parent : option id) : option (list id) :=
  match parent with
  | None => Some []
  | Some p =>
      match fuel with
      | O => None
      | S f => cons p <$> getAncestors_loop f strict h (parentOf strict h p)
      end
  end.

Definition getAncestors (fuel : nat) (h : Heap) (this : id) (strict : bool)
    : option (list id) :=
  getAncestors_loop fuel strict h (parentOf strict h this).

Record AncestryComparison := {
  fork : list id;
  otherFork : list id;
  common : list id
}.

(** The inner [for (j ...)] loop of [findCommonAncestors]; [rest] is
    [otherAncestors] from index [j] on.  [None]: the loop ran to its end. *)
Fixpoint fca_inner (this other ancestor : id) (i : nat)
    (ancestors otherAncestors : list id) (j : nat) (rest : list id)
    : option AncestryComparison :=
  match rest with
  | [] => None
  | oa :: rest' =>
      if decide (this = oa) then
        Some {| fork := [];
                otherFork := other :: take j otherAncestors;
                common := this :: ancestors |}
      else if decide (ancestor = oa) then
        Some {| fork := this :: take i ancestors;
                otherFork := other :: take j otherAncestors;
                common := drop i ancestors |}
      else fca_inner this other ancestor i ancestors otherAncestors (S j) rest'
  end.

(** The outer [for (i ...)] loop; [rest] is [ancestors] from index [i] on. *)
Fixpoint fca_outer (this other : id) (ancestors otherAncestors : list id)
    (i : nat) (rest : list id) : option AncestryComparison :=
  match rest with
  | [] => None
  | ancestor :: rest' =>
      if decide (ancestor = other) then
        Some {| fork := this :: take i ancestors;
                otherFork := [];
                common := drop i ancestors |}
      else
        match fca_inner this other ancestor i ancestors otherAncestors 0
                otherAncestors with
        | Some r => Some r
        | None => fca_outer this other ancestors otherAncestors (S i) rest'
        end
  end.

(** [findCommonAncestors] once both ancestor lists are there ([this] and
    [other] differ). *)
Definition fca_compare (this other : id) (ancestors otherAncestors : list id)
    : AncestryComparison :=
  if bool_decide (ancestors = []) && bool_decide (otherAncestors <> [])
     && bool_decide (last otherAncestors = Some this)
  then
    {| fork := [];
       otherFork := other :: take (length otherAncestors - 1) otherAncestors;
       common := [this] |}
  else
    match fca_outer this other ancestors otherAncestors 0 ancestors with
    | Some r => r
    | None =>
        {| fork := this :: ancestors;
           otherFork := other :: otherAncestors;
           common := [] |}
    end.

Definition findCommonAncestors (fuel : nat) (h : Heap) (this other : id)
    (strict : bool) : option AncestryComparison :=
  if decide (this = other) then
    ancestors ← getAncestors fuel h this strict;
    Some {| fork := []; otherFork := []; common := this :: ancestors |}
  else
    ancestors ← getAncestors fuel h this strict;
    otherAncestors ← getAncestors fuel h other strict;
    Some (fca_compare this other ancestors otherAncestors).

Definition hasCommonAncestors (fuel : nat) (h : Heap) (this other : id)
    (strict : bool) : option bool :=
  r ← findCommonAncestors fuel h this other strict;
  Some (bool_decide (common r <> [])).

(** [isInFrontOf]: the inner [option] is JavaScript's [boolean | undefined]. *)
Definition isInFrontOf (fuel : nat) (h : Heap) (this other : id)
    : option (option bool) :=
  if decide (this = other) then Some None
  else
    ancestorData ← findCommonAncestors fuel h this other false;
    if includes (fork ancestorData) other then Some (Some true)
    else if includes (otherFork ancestorData) this then Some (Some false)
    else
      match head (common ancestorData) with
      | None => Some None
      | Some firstCommonAncestor =>
          let headOfFork := last (fork ancestorData) in
          let headOfOtherFork := last (otherFork ancestorData) in
          let thisIndex := indexOf_opt (_objects (h firstCommonAncestor)) headOfFork in
          let otherIndex := indexOf_opt (_objects (h firstCommonAncestor)) headOfOtherFork in
          Some (Some ((-1 <? thisIndex)%Z && (otherIndex <? thisIndex)%Z))
      end.


(** ** Layout contexts, layout results and the event log *)

Inductive LayoutContextType :=
  | initialization | object_modified | added | removed | layout_change
  | imperative.

#[global] Instance LayoutContextType_eq_dec : EqDecision LayoutContextType.
Proof. solve_decision. Defined.

(** The constructor options the layout code reads; an absent key reads as
    [undef]. *)
Record Options := {
  o_left : num; o_top : num; o_width : num; o_height : num;
  o_angle : num; o_skewX : num; o_skewY : num
}.
Definition noOptions : Options :=
  {| o_left := undef; o_top := undef; o_width := undef; o_height := undef;
     o_angle := undef; o_skewX := undef; o_skewY := undef |}.

(** [LayoutResult]; an absent key reads as [undef]. *)
Record LayoutResult := {
  centerX : num; centerY : num;
  correctionX : num; correctionY : num;
  r_width : num; r_height : num;
  offsetX : num; offsetY : num
}.
(** [{}] read as a layout result *)
Definition emptyResult : LayoutResult :=
  {| centerX := undef; centerY := undef; correctionX := undef;
     correctionY := undef; r_width := undef; r_height := undef;
     offsetX := undef; offsetY := undef |}.

(** [Partial<LayoutResult> & { layout?: string }], the argument of
    [triggerLayout]: [None] is an absent key. *)
Record PartialResult := {
  p_centerX : option num; p_centerY : option num;
  p_correctionX : option num; p_correctionY : option num;
  p_width : option num; p_height : option num;
  p_layout : option string
}.

(** [Object.assign(r, p)] *)
Definition assignResult (r : LayoutResult) (p : PartialResult) : LayoutResult :=
  {| centerX := default (centerX r) (p_centerX p);
     centerY := default (centerY r) (p_centerY p);
     correctionX := default (correctionX r) (p_correctionX p);
     correctionY := default (correctionY r) (p_correctionY p);
     r_width := default (r_width r) (p_width p);
     r_height := default (r_height r) (p_height p);
     offsetX := offsetX r; offsetY := offsetY r |}.

Record LayoutContext := {
  type : LayoutContextType;
  targets : list id;                    (* of 'added' and 'removed' *)
  options : option Options;             (* of 'initialization' *)
  objectsRelativeToGroup : bool;        (* of 'initialization' *)
  context : option PartialResult;       (* of 'imperative' *)
  path : list id
}.

Definition mkContext (t : LayoutContextType) (ts : list id) : LayoutContext :=
  {| type := t; targets := ts; options := None;
     objectsRelativeToGroup := false; context := None; path := [] |}.
Definition with_type (c : LayoutContext) (t : LayoutContextType) : LayoutContext :=
  {| type := t; targets := targets c; options := options c;
     objectsRelativeToGroup := objectsRelativeToGroup c;
     context := context c; path := path c |}.
(** [context.path.push(o)] (after [if (!context.path) context.path = []]) *)
Definition push_path (c : LayoutContext) (o : id) : LayoutContext :=
  {| type := type c; targets := targets c; options := options c;
     objectsRelativeToGroup := objectsRelativeToGroup c;
     context := context c; path := path c ++ [o] |}.

(** What [fire] was called with, in order.  A 'layout' event holds the
    context as it was when the event fired. *)
Inductive Event :=
  | EvAdded (object target : id)
  | EvRemoved (object target : id)
  | EvLayout (target : id) (ctx : LayoutContext) (result : LayoutResult)
             (diff : option Point).

Record World := { heap : Heap; events : list Event }.

Definition on_heap (f : Heap -> Heap) (w : World) : World :=
  {| heap := f (heap w); events := events w |}.
Definition fire (e : Event) (w : World) : World :=
  {| heap := heap w; events := events w ++ [e] |}.

(** [objects.forEach(f)] over a heap that [f] may change and may fail on. *)
Definition forEachM {S : Type} (f : id -> S -> option S) (objects : list id)
    (s : S) : option S :=
  fold_left (fun acc o => acc ≫= f o) objects (Some s).

(** ** Bounding boxes *)

(** One turn of the [forEach] of [getObjectsBoundingBox] up to the corners
    [a] and [b] of the object. *)
Definition object_corners (g : Geo) : Point * Point :=
  let objCenter := getRelativeCenterPoint g in
  let sizeVector := pt_scalarDivide (_getTransformedDimensions g noDimOptions) n2 in
  let sizeVector :=
    if truthy (angle g) then
      let rad := degreesToRadians (angle g) in
      let sinValue := nabs (nsin rad) in
      let cosValue := nabs (ncos rad) in
      let rx := nadd (nmul (px sizeVector) cosValue) (nmul (py sizeVector) sinValue) in
      let ry := nadd (nmul (px sizeVector) sinValue) (nmul (py sizeVector) cosValue) in
      {| px := rx; py := ry |}
    else sizeVector in
  (pt_subtract objCenter sizeVector, pt_add objCenter sizeVector).

(** The [i === 0] branch: [min] and [max] from the first object. *)
Definition bbox_first (ab : Point * Point) : Point * Point :=
  let '(a, b) := ab in
  ({| px := nmin (px a) (px b); py := nmin (py a) (py b) |},
   {| px := nmax (px a) (px b); py := nmax (py a) (py b) |}).

(** The [else] branch: [min.setXY(...)], [max.setXY(...)]. *)
Definition bbox_next (mm : Point * Point) (ab : Point * Point) : Point * Point :=
  let '(min, max) := mm in
  let '(a, b) := ab in
  ({| px := nmin (nmin (px min) (px a)) (px b);
      py := nmin (nmin (py min) (py a)) (py b) |},
   {| px := nmax (nmax (px max) (px a)) (px b);
      py := nmax (nmax (py max) (py a)) (py b) |}).

Definition getObjectsBoundingBox (h : Heap) (this : id) (objects : list id)
    (ignoreOffset : bool) : option LayoutResult :=
  match objects with
  | [] => None
  | first :: rest =>
      let '(min, max) :=
        fold_left (fun mm o => bbox_next mm (object_corners (geo (h o)))) rest
                  (bbox_first (object_corners (geo (h first)))) in
      let size := pt_subtract max min in
      let relativeCenter :=
        if ignoreOffset then pt_scalarDivide size n2 else pt_midPointFrom min max in
      let offset := transformPoint min (calcOwnMatrix (geo (h this))) false in
      let center := transformPoint relativeCenter (calcOwnMatrix (geo (h this))) false in
      Some {| offsetX := px offset; offsetY := py offset;
              centerX := px center; centerY := py center;
              r_width := px size; r_height := py size;
              correctionX := undef; correctionY := undef |}
  end.

Definition prepareInitialBoundingBox (h : Heap) (this : id)
    (layoutDirective : string) (objects : list id) (ctx : LayoutContext)
    : option LayoutResult :=
  let options := default noOptions (options ctx) in
  let hasX := isNumber (o_left options) in
  let hasY := isNumber (o_top options) in
  let hasWidth := isNumber (o_width options) in
  let hasHeight := isNumber (o_height options) in
  if (hasX && hasY && hasWidth && hasHeight && objectsRelativeToGroup ctx)
     || bool_decide (length objects = 0)
  then None
  else
    let me := geo (h this) in
    let bbox := default emptyResult (getObjectsBoundingBox h this objects false) in
    let width := if hasWidth then width me else or0 (r_width bbox) in
    let height := if hasHeight then height me else or0 (r_height bbox) in
    let calculatedCenter := {| px := or0 (centerX bbox); py := or0 (centerY bbox) |} in
    let origin := {| px := resolveOriginX (originX me); py := resolveOriginY (originY me) |} in
    let size := {| px := width; py := height |} in
    let strokeWidthVector :=
      _getTransformedDimensions me
        {| optWidth := Some n0; optHeight := Some n0; optStrokeWidth := None |} in
    let sizeAfter :=
      _getTransformedDimensions me
        {| optWidth := Some width; optHeight := Some height; optStrokeWidth := Some n0 |} in
    let bboxSizeAfter :=
      _getTransformedDimensions me
        {| optWidth := Some (r_width bbox); optHeight := Some (r_height bbox);
           optStrokeWidth := Some n0 |} in
    let rotationCorrection := {| px := n0; py := n0 |} in
    let originT := pt_scalarAdd origin nHalf in
    let originCorrection := pt_multiply sizeAfter originT in
    let centerCorrection :=
      {| px := if hasWidth then ndiv (px bboxSizeAfter) n2 else px originCorrection;
         py := if hasHeight then ndiv (py bboxSizeAfter) n2 else py originCorrection |} in
    let center :=
      {| px := if hasX
               then nsub (left me) (nmul (nadd (px sizeAfter) (px strokeWidthVector)) (px origin))
               else nsub (px calculatedCenter) (px centerCorrection);
         py := if hasY
               then nsub (top me) (nmul (nadd (py sizeAfter) (py strokeWidthVector)) (py origin))
               else nsub (py calculatedCenter) (py centerCorrection) |} in
    let offsetCorrection :=
      pt_add
        {| px := if hasX
                 then nadd (nsub (px center) (px calculatedCenter))
                           (nmul (px bboxSizeAfter) (if hasWidth then nHalf else n0))
                 else nneg (if hasWidth
                            then nmul (nsub (px sizeAfter) (px strokeWidthVector)) nHalf
                            else nmul (px sizeAfter) (px originT));
           py := if hasY
                 then nadd (nsub (py center) (py calculatedCenter))
                           (nmul (py bboxSizeAfter) (if hasHeight then nHalf else n0))
                 else nneg (if hasHeight
                            then nmul (nsub (py sizeAfter) (py strokeWidthVector)) nHalf
                            else nmul (py sizeAfter) (py originT)) |}
        rotationCorrection in
    let correction :=
      pt_add
        {| px := if hasWidth then ndiv (nneg (px sizeAfter)) n2 else n0;
           py := if hasHeight then ndiv (nneg (py sizeAfter)) n2 else n0 |}
        offsetCorrection in
    Some {| centerX := px center; centerY := py center;
            correctionX := px correction; correctionY := py correction;
            r_width := px size; r_height := py size;
            offsetX := undef; offsetY := undef |}.

Definition prepareBoundingBox (h : Heap) (this : id) (layoutDirective : string)
    (objects : list id) (ctx : LayoutContext) : option LayoutResult :=
  if decide (type ctx = initialization) then
    prepareInitialBoundingBox h this layoutDirective objects ctx
  else
    match bool_decide (type ctx = imperative), context ctx with
    | true, Some p =>
        Some (assignResult
                (default emptyResult (getObjectsBoundingBox h this objects false)) p)
    | _, _ => getObjectsBoundingBox h this objects false
    end.

(** The strategy resolver. *)
Definition getLayoutStrategyResult (h : Heap) (this : id)
    (layoutDirective : string) (objects : list id) (ctx : LayoutContext)
    : option LayoutResult :=
  if bool_decide (layoutDirective = "fit-content-lazy")
     && bool_decide (type ctx = added)
     && bool_decide (length (targets ctx) < length objects)
  then
    let addedObjects := targets ctx ++ [this] in
    prepareBoundingBox h this layoutDirective addedObjects ctx
  else if bool_decide (layoutDirective = "fit-content")
          || bool_decide (layoutDirective = "fit-content-lazy")
          || (bool_decide (layoutDirective = "fixed")
              && (bool_decide (type ctx = initialization)
                  || bool_decide (type ctx = imperative)))
  then prepareBoundingBox h this layoutDirective objects ctx
  else
    match bool_decide (layoutDirective = "clip-path"), clipPath (h this) with
    | true, Some cp =>
        let clipPath := h cp in
        let clipPathSizeAfter := _getTransformedDimensions (geo clipPath) noDimOptions in
        if absolutePositioned clipPath
           && (bool_decide (type ctx = initialization)
               || bool_decide (type ctx = layout_change))
        then
          let clipPathCenter :=
            getCenterPoint (fun i => geo (h i)) (fun i => group (h i)) cp in
          let clipPathCenter :=
            match group (h this) with
            | Some g =>
                let inv :=
                  invertTransform
                    (calcTransformMatrix (fun i => geo (h i)) (fun i => group (h i)) g) in
                transformPoint clipPathCenter inv false
            | None => clipPathCenter
            end in
          Some {| centerX := px clipPathCenter; centerY := py clipPathCenter;
                  r_width := px clipPathSizeAfter; r_height := py clipPathSizeAfter;
                  correctionX := undef; correctionY := undef;
                  offsetX := undef; offsetY := undef |}
        else if negb (absolutePositioned clipPath) then
          let clipPathRelativeCenter := getRelativeCenterPoint (geo clipPath) in
          let clipPathCenter :=
            transformPoint clipPathRelativeCenter (calcOwnMatrix (geo (h this))) true in
          if bool_decide (type ctx = initialization)
             || bool_decide (type ctx = layout_change)
          then
            let bbox :=
              default emptyResult
                (prepareBoundingBox h this layoutDirective objects ctx) in
            let center := {| px := or0 (centerX bbox); py := or0 (centerY bbox) |} in
            Some {| centerX := nadd (px center) (px clipPathCenter);
                    centerY := nadd (py center) (py clipPathCenter);
                    correctionX := nsub (correctionX bbox) (px clipPathCenter);
                    correctionY := nsub (correctionY bbox) (py clipPathCenter);
                    r_width := width (geo clipPath);
                    r_height := height (geo clipPath);
                    offsetX := undef; offsetY := undef |}
          else
            let center := getRelativeCenterPoint (geo (h this)) in
            Some {| centerX := nadd (px center) (px clipPathCenter);
                    centerY := nadd (py center) (py clipPathCenter);
                    r_width := px clipPathSizeAfter;
                    r_height := py clipPathSizeAfter;
                    correctionX := undef; correctionY := undef;
                    offsetX := undef; offsetY := undef |}
        else None
    | _, _ =>
        if bool_decide (layoutDirective = "svg")
           && bool_decide (type ctx = initialization)
        then
          let bbox := default emptyResult (getObjectsBoundingBox h this objects true) in
          Some {| centerX := centerX bbox; centerY := centerY bbox;
                  r_width := r_width bbox; r_height := r_height bbox;
                  offsetX := offsetX bbox; offsetY := offsetY bbox;
                  correctionX := or0 (nneg (offsetX bbox));
                  correctionY := or0 (nneg (offsetY bbox)) |}
        else None
    end.


(** ** The layout procedure *)

(** [{ left: object.left + diff.x, top: object.top + diff.y }] *)
Definition translate (diff : Point) (g : Geo) : Geo :=
  set_left_top g (nadd (left g) (px diff)) (nadd (top g) (py diff)).

Definition _adjustObjectPosition (object : id) (diff : Point) (h : Heap) : Heap :=
  upd h object (fun n => with_geo n (translate diff (geo n))).

(** [this._set('dirty', value)], for the flag of [this]: the base-class
    setter, which is not in the source files, is taken to assign the
    property; what it does to the flags of the groups above is not
    followed. *)
Definition _set_dirty (this : id) (value : bool) (h : Heap) : Heap :=
  upd h this (fun n => with_dirty n value).

(** [initialTransform]: the angle and skews of the constructor options, kept
    for the first layout only. *)
Definition initialTransformOf (ctx : LayoutContext) : option (num * num * num) :=
  let isFirstLayout := bool_decide (type ctx = initialization) in
  let options := if isFirstLayout then options ctx else None in
  (fun o => (or0 (o_angle o), or0 (o_skewX o), or0 (o_skewY o))) <$> options.

(** [initialTransform && this.set(initialTransform)] *)
Definition set_initialTransform (this : id) (ctx : LayoutContext) (h : Heap) : Heap :=
  match initialTransformOf ctx with
  | Some (a, sx, sy) =>
      upd h this (fun n => with_geo n (set_angle_skew (geo n) a sx sy))
  | None => h
  end.

(** The translation [diff] that a layout result asks for. *)
Definition layout_diff (h : Heap) (this : id) (center : Point)
    (result : LayoutResult) : Point :=
  let newCenter := {| px := centerX result; py := centerY result |} in
  let vector :=
    pt_add (pt_subtract center newCenter)
           {| px := or0 (correctionX result); py := or0 (correctionY result) |} in
  transformPoint vector (invertTransform (calcOwnMatrix (geo (h this)))) true.

(** The branch [if (result) { ... }] of [_applyLayoutStrategy].  [setCoords]
    refreshes cached corner coordinates only, which the heap does not hold;
    the base-class [set] is taken to assign the properties, and the [dirty]
    flags it may raise on the way are not followed. *)
Definition layout_apply_result (h : Heap) (this : id) (ctx : LayoutContext)
    (center : Point) (result : LayoutResult) : Heap :=
  let isFirstLayout := bool_decide (type ctx = initialization) in
  (* handle positioning *)
  let newCenter := {| px := centerX result; py := centerY result |} in
  let diff := layout_diff h this center result in
  (* set dimensions *)
  let h1 :=
    upd h this (fun n =>
      with_geo n (set_width_height (geo n) (r_width result) (r_height result))) in
  (* adjust objects to account for new center *)
  let h2 :=
    if objectsRelativeToGroup ctx then h1
    else fold_left (fun h o => _adjustObjectPosition o diff h)
                   (_objects (h1 this)) h1 in
  (* clip path as well *)
  let h3 :=
    if negb isFirstLayout && negb (bool_decide (layout (h2 this) = "clip-path"))
    then match clipPath (h2 this) with
         | Some cp =>
             if negb (absolutePositioned (h2 cp))
             then _adjustObjectPosition cp diff h2
             else h2
         | None => h2
         end
    else h2 in
  if negb (pt_eq newCenter center) || bool_decide (is_Some (initialTransformOf ctx))
  then
    (* set position *)
    let h' :=
      upd h3 this (fun n =>
        let p := positionByOrigin (geo n) newCenter in
        with_geo n (set_left_top (geo n) (px p) (py p))) in
    set_initialTransform this ctx h'
  else h3.

(** How the body of [_applyLayoutStrategy] ends, before it turns to the
    parent group. *)
Inductive LayoutOutcome :=
  | Rejected                   (* layout request before initialization layout *)
  | NoResult                   (* no `result` so we return *)
  | Completed (h : Heap) (result : LayoutResult) (diff : option Point).

Definition layout_body (this : id) (ctx : LayoutContext) (h : Heap)
    : LayoutOutcome :=
  let isFirstLayout := bool_decide (type ctx = initialization) in
  if negb isFirstLayout && negb (_firstLayoutDone (h this)) then Rejected
  else
    let center := getRelativeCenterPoint (geo (h this)) in
    let result :=
      getLayoutStrategyResult h this (layout (h this)) (_objects (h this)) ctx in
    match result with
    | Some result =>
        Completed (layout_apply_result h this ctx center result) result
                  (Some (layout_diff h this center result))
    | None =>
        if isFirstLayout then
          (* fill `result` with initial values for the layout hook *)
          let result :=
            {| centerX := px center; centerY := py center;
               r_width := width (geo (h this)); r_height := height (geo (h this));
               correctionX := undef; correctionY := undef;
               offsetX := undef; offsetY := undef |} in
          Completed (set_initialTransform this ctx h) result None
        else NoResult
    end.

(** [_applyLayoutStrategy]; [onLayout] is the empty hook. *)
Fixpoint _applyLayoutStrategy (fuel : nat) (this : id) (ctx : LayoutContext)
    (w : World) : option World :=
  match layout_body this ctx (heap w) with
  | Rejected | NoResult => Some w
  | Completed h' result diff =>
      (* flag for next layouts *)
      let h'' := upd h' this (fun n => with_firstLayoutDone n true) in
      (* fire layout hook and event *)
      let w' := fire (EvLayout this ctx result diff)
                     {| heap := h''; events := events w |} in
      (* recursive up *)
      match group (h'' this) with
      | Some g =>
          if decide (kind (h'' g) = KGroup) then
            match fuel with
            | O => None
            | S f => _applyLayoutStrategy f g (push_path ctx this) w'
            end
          else Some w'
      | None => Some w'
      end
  end.

(** [triggerLayout(context)]; [context.layout] counts when it is truthy: a
    string that is not empty. *)
Definition triggerLayout (fuel : nat) (this : id) (c : option PartialResult)
    (w : World) : option World :=
  let w1 :=
    match c ≫= p_layout with
    | Some l =>
        if decide (l = "") then w
        else on_heap (fun h => upd h this (fun n => with_layout n l)) w
    | None => w
    end in
  _applyLayoutStrategy fuel this
    {| type := imperative; targets := []; options := None;
       objectsRelativeToGroup := false; context := c; path := [] |} w1.

(** [_onAfterObjectsChange(type, targets)] *)
Definition _onAfterObjectsChange (fuel : nat) (this : id)
    (t : LayoutContextType) (ts : list id) (w : World) : option World :=
  w1 ← _applyLayoutStrategy fuel this (mkContext t ts) w;
  Some (on_heap (_set_dirty this true) w1).

(** [__objectMonitor(opt)]; [opt] is the event data, read as a context. *)
Definition __objectMonitor (fuel : nat) (this : id) (opt : LayoutContext)
    (w : World) : option World :=
  w1 ← _applyLayoutStrategy fuel this (with_type opt object_modified) w;
  Some (on_heap (_set_dirty this true) w1).

(** ** Tracking the selected objects *)

(** [l.splice(index, 1)] for an index in range *)
Definition splice_out (index : Z) (l : list id) : list id :=
  take (Z.to_nat index) l ++ drop (S (Z.to_nat index)) l.

(** [__objectSelectionMonitor(selected, opt)] with [opt.target = object] *)
Definition __objectSelectionMonitor (this : id) (selected : bool) (object : id)
    (h : Heap) : Heap :=
  if selected then
    let h1 := upd h this (fun n => with_activeObjects n (_activeObjects n ++ [object])) in
    _set_dirty this true h1
  else if bool_decide (0 < length (_activeObjects (h this))) then
    let index := indexOf (_activeObjects (h this)) object in
    if (-1 <? index)%Z then
      let h1 := upd h this (fun n =>
                  with_activeObjects n (splice_out index (_activeObjects n))) in
      _set_dirty this true h1
    else h
  else h.

(** [_watchObject(watch, object)].  Modelled from the spec: the event emitter
    ([on]/[off]) is not in the source files; the four handlers of a group are
    subscribed and unsubscribed together, so an object records the groups
    watching it. *)
Definition _watchObject (this : id) (watch : bool) (object : id) (h : Heap) : Heap :=
  let off (h : Heap) :=
    upd h object (fun n => with_watchers n (filter (fun g => g <> this) (watchers n))) in
  if watch then
    (* make sure we listen only once *)
    upd (off h) object (fun n => with_watchers n (watchers n ++ [this]))
  else off h.

(** ** Entering and leaving a group *)

(** [object.calcTransformMatrix()] in heap [h] *)
Definition matrixOf (h : Heap) (object : id) : TMat :=
  calcTransformMatrix (fun i => geo (h i)) (fun i => group (h i)) object.

(** [object._set('canvas', value)]: the base-class setter assigns; the
    override of [Group] then hands the value down to its objects when it
    changed. *)
Fixpoint _set_canvas (fuel : nat) (object : id) (value : option id) (h : Heap)
    : option Heap :=
  let prev := canvas (h object) in
  let h1 := upd h object (fun n => with_canvas n value) in
  if decide (kind (h object) = KGroup) then
    if decide (prev = value) then Some h1
    else
      match fuel with
      | O => None
      | S f => forEachM (fun o h => _set_canvas f o value h) (_objects (h1 object)) h1
      end
  else Some h1.

Definition canEnterGroup (fuel : nat) (h : Heap) (this object : id) : option bool :=
  if decide (object = this) then Some false
  else
    d ← isDescendantOf fuel h this object;
    if (d : bool) then
      (* prevent circular object tree *)
      Some false
    else if negb (indexOf (_objects (h this)) object =? -1)%Z then
      (* is already in the objects array *)
      Some false
    else Some true.

(** The [filter] callback of [_filterObjectsBeforeEnteringGroup], applied
    from [index] on; [rest] is [array] from [index] on. *)
Fixpoint filter_from (fuel : nat) (h : Heap) (this : id) (array : list id)
    (index : Z) (rest : list id) : option (list id) :=
  match rest with
  | [] => Some []
  | object :: rest' =>
      ok ← canEnterGroup fuel h this object;
      tl ← filter_from fuel h this array (index + 1)%Z rest';
      (* can enter AND is the first occurrence of the object in the passed args *)
      Some (if (ok : bool) && (indexOf array object =? index)%Z
            then object :: tl else tl)
  end.

Definition _filterObjectsBeforeEnteringGroup (fuel : nat) (h : Heap) (this : id)
    (objects : list id) : option (list id) :=
  filter_from fuel h this objects 0%Z objects.

Definition _exitGroup (this object : id) (removeParentTransform : bool)
    (h : Heap) : Heap :=
  let h1 := upd h object (fun n => with_group n None) in
  let h2 :=
    if removeParentTransform then h1
    else upd h1 object (fun n =>
           with_geo n (applyTransformToObject (geo n)
                         (multiplyTransformMatrices (matrixOf h1 this)
                                                    (matrixOf h1 object)))) in
  let h3 := _watchObject this false object h2 in
  let index :=
    if bool_decide (0 < length (_activeObjects (h3 this)))
    then indexOf (_activeObjects (h3 this)) object else (-1)%Z in
  if (-1 <? index)%Z then
    upd h3 this (fun n => with_activeObjects n (splice_out index (_activeObjects n)))
  else h3.

Definition exitGroup (fuel : nat) (this object : id)
    (removeParentTransform : bool) (h : Heap) : option Heap :=
  _set_canvas fuel object None (_exitGroup this object removeParentTransform h).

Definition _onObjectRemoved (fuel : nat) (this object : id)
    (removeParentTransform : bool) (w : World) : option World :=
  h ← exitGroup fuel this object removeParentTransform (heap w);
  Some (fire (EvRemoved object this) {| heap := h; events := events w |}).

(** Modelled from the spec: [remove] of the collection mixin, which is not in
    the source files ("removes listed nodes that are direct children",
    "returns the nodes actually removed"): each listed object found in
    [_objects] is taken out, recorded and handed to the callback. *)
Fixpoint collection_remove (this : id) (objectsToRemove : list id)
    (callback : id -> World -> option World) (removedObjects : list id) (w : World)
    : option (list id * World) :=
  match objectsToRemove with
  | [] => Some (removedObjects, w)
  | object :: rest =>
      let index := indexOf (_objects (heap w this)) object in
      if (index =? -1)%Z then collection_remove this rest callback removedObjects w
      else
        let w1 := on_heap (fun h => upd h this (fun n =>
                    with_objects n (splice_out index (_objects n)))) w in
        w2 ← callback object w1;
        collection_remove this rest callback (removedObjects ++ [object]) w2
  end.

Definition remove (fuel : nat) (this : id) (objects : list id) (w : World)
    : option (list id * World) :=
  '(removedObjects, w1) ←
     collection_remove this objects
       (fun o => _onObjectRemoved fuel this o false) [] w;
  w2 ← _onAfterObjectsChange fuel this removed removedObjects w1;
  Some (removedObjects, w2).

Definition removeAll (fuel : nat) (this : id) (w : World)
    : option (list id * World) :=
  let w1 := on_heap (fun h => upd h this (fun n => with_activeObjects n [])) w in
  remove fuel this (_objects (heap w1 this)) w1.

Definition _enterGroup (fuel : nat) (this object : id)
    (removeParentTransform : bool) (h : Heap) : option Heap :=
  let h1 :=
    if removeParentTransform then
      upd h object (fun n =>
        with_geo n (applyTransformToObject (geo n)
                      (multiplyTransformMatrices
                         (invertTransform (matrixOf h this))
                         (matrixOf h object))))
    else h in
  let h2 := upd h1 object (fun n => with_group n (Some this)) in
  h3 ← _set_canvas fuel object (canvas (h2 this)) h2;
  let h4 := if interactive (h3 this) then _watchObject this true object h3 else h3 in
  let activeObject := canvas (h4 this) ≫= (fun c => activeObject (h4 c)) in
  let push (h : Heap) :=
    upd h this (fun n => with_activeObjects n (_activeObjects n ++ [object])) in
  (* if we are adding the activeObject in a group *)
  match activeObject with
  | Some a =>
      if decide (a = object) then Some (push h4)
      else
        d ← isDescendantOf fuel h4 object a;
        Some (if (d : bool) then push h4 else h4)
  | None => Some h4
  end.

Definition enterGroup (fuel : nat) (this object : id)
    (removeParentTransform : bool) (w : World) : option World :=
  w1 ← match group (heap w object) with
       | Some g => snd <$> remove fuel g [object] w
       | None => Some w
       end;
  h ← _enterGroup fuel this object removeParentTransform (heap w1);
  Some {| heap := h; events := events w1 |}.

Definition _onObjectAdded (fuel : nat) (this object : id) (w : World)
    : option World :=
  w1 ← enterGroup fuel this object true w;
  Some (fire (EvAdded object this) w1).

Definition _onRelativeObjectAdded (fuel : nat) (this object : id) (w : World)
    : option World :=
  w1 ← enterGroup fuel this object false w;
  Some (fire (EvAdded object this) w1).

(** [l.splice(index, 0, ...items)]: a negative index counts from the end,
    and the position is clamped to the array. *)
Definition splice_in (index : Z) (items l : list id) : list id :=
  let len := Z.of_nat (length l) in
  let start :=
    if (index <? 0)%Z then Z.max (len + index) 0 else Z.min index len in
  take (Z.to_nat start) l ++ items ++ drop (Z.to_nat start) l.

(** Modelled from the spec: [add] and [insertAt] of the collection mixin,
    which are not in the source files ("accepted nodes are
    appended/inserted"): the objects go into [_objects], then the callback
    runs on each in order. *)
Definition collection_add (this : id) (objects : list id)
    (callback : id -> World -> option World) (w : World) : option World :=
  let w1 := on_heap (fun h => upd h this (fun n =>
              with_objects n (_objects n ++ objects))) w in
  forEachM callback objects w1.

Definition collection_insertAt (this : id) (objects : list id) (index : Z)
    (callback : id -> World -> option World) (w : World) : option World :=
  let w1 := on_heap (fun h => upd h this (fun n =>
              with_objects n (splice_in index objects (_objects n)))) w in
  forEachM callback objects w1.

Definition add (fuel : nat) (this : id) (objects : list id) (w : World)
    : option World :=
  allowedObjects ← _filterObjectsBeforeEnteringGroup fuel (heap w) this objects;
  w1 ← collection_add this allowedObjects (_onObjectAdded fuel this) w;
  _onAfterObjectsChange fuel this added allowedObjects w1.

Definition insertAt (fuel : nat) (this : id) (objects : list id) (index : Z)
    (w : World) : option World :=
  allowedObjects ← _filterObjectsBeforeEnteringGroup fuel (heap w) this objects;
  w1 ← collection_insertAt this allowedObjects index (_onObjectAdded fuel this) w;
  _onAfterObjectsChange fuel this added allowedObjects w1.


(** ** The specification's reading of the resolver and of the bounding box *)

(** The ancestor chain as a relation: [chain strict h p l] when following
    [parentOf] from [p] visits exactly [l] and then stops. *)
Inductive chain (strict : bool) (h : Heap) : option id -> list id -> Prop :=
  | chain_nil : chain strict h None []
  | chain_cons p l :
      chain strict h (parentOf strict h p) l -> chain strict h (Some p) (p :: l).

(** [findCommonAncestors] for two different nodes as the specification
    describes it: special case 2; then whether [this] is one of [other]'s
    ancestors; then the first of [this]'s ancestors, in its own order, that
    is [other] or one of [other]'s ancestors; otherwise nothing is shared. *)
Definition findCommonAncestors_spec (this other : id)
    (ancestors otherAncestors : list id) : AncestryComparison :=
  if bool_decide (ancestors = [] /\ last otherAncestors = Some this) then
    {| fork := [];
       otherFork := other :: take (length otherAncestors - 1) otherAncestors;
       common := [this] |}
  else
    match list_find (fun oa => this = oa) otherAncestors with
    | Some (j, _) =>
        {| fork := [];
           otherFork := other :: take j otherAncestors;
           common := this :: ancestors |}
    | None =>
        match list_find (fun a => a = other \/ a ∈ otherAncestors) ancestors with
        | Some (i, a) =>
            {| fork := this :: take i ancestors;
               otherFork :=
                 if decide (a = other) then []
                 else other :: take (default 0 (fst <$> list_find (fun oa => a = oa) otherAncestors))
                                    otherAncestors;
               common := drop i ancestors |}
        | None =>
            {| fork := this :: ancestors;
               otherFork := other :: otherAncestors;
               common := [] |}
        end
    end.

(** The half-extent of an object, widened when the object is rotated. *)
Definition half_extent (g : Geo) : Point :=
  let d := _getTransformedDimensions g noDimOptions in
  let hw := ndiv (px d) n2 in
  let hh := ndiv (py d) n2 in
  if truthy (angle g) then
    let theta := degreesToRadians (angle g) in
    {| px := nadd (nmul hw (nabs (ncos theta))) (nmul hh (nabs (nsin theta)));
       py := nadd (nmul hw (nabs (nsin theta))) (nmul hh (nabs (ncos theta))) |}
  else {| px := hw; py := hh |}.

(** Both corners of every object, in order: the centre minus and plus the
    half-extent, coordinate by coordinate. *)
Definition all_corners (h : Heap) (objects : list id) : list Point :=
  flat_map (fun o =>
    let c := getRelativeCenterPoint (geo (h o)) in
    let e := half_extent (geo (h o)) in
    [ {| px := nsub (px c) (px e); py := nsub (py c) (py e) |};
      {| px := nadd (px c) (px e); py := nadd (py c) (py e) |} ]) objects.

(** The accumulated minimum (maximum) of a list of numbers; none for the
    empty list. *)
Definition accumulate (f : num -> num -> num) (xs : list num) : option num :=
  match xs with
  | [] => None
  | x :: xs' => Some (fold_left f xs' x)
  end.

(** Numbers without rounding: going half the way from [a] to [b], as
    [midPointFrom] does, ends at the mean of the two. *)
Definition exact_midpoint : Prop :=
  forall a b : num, nadd a (nmul (nsub b a) nHalf) = ndiv (nadd a b) n2.

Definition getObjectsBoundingBox_spec (h : Heap) (this : id) (objects : list id)
    (ignoreOffset : bool) : option LayoutResult :=
  let cs := all_corners h objects in
  minX ← accumulate nmin (px <$> cs);
  minY ← accumulate nmin (py <$> cs);
  maxX ← accumulate nmax (px <$> cs);
  maxY ← accumulate nmax (py <$> cs);
  let min := {| px := minX; py := minY |} in
  let size := {| px := nsub maxX minX; py := nsub maxY minY |} in
  let relativeCenter :=
    if ignoreOffset then {| px := ndiv (px size) n2; py := ndiv (py size) n2 |}
    else {| px := ndiv (nadd minX maxX) n2; py := ndiv (nadd minY maxY) n2 |} in
  let offset := transformPoint min (calcOwnMatrix (geo (h this))) false in
  let center := transformPoint relativeCenter (calcOwnMatrix (geo (h this))) false in
  Some {| offsetX := px offset; offsetY := py offset;
          centerX := px center; centerY := py center;
          r_width := px size; r_height := py size;
          correctionX := undef; correctionY := undef |}.

(** ** Well-formed heaps *)

(** The invariants of the data model: parent references and child sequences
    agree, no child sequence holds an object twice, a [canvas] reference
    points at a canvas, and every [group] chain ends within [N] steps. *)
Record wf (N : nat) (h : Heap) : Prop := {
  wf_member : forall o g,
    group (h o) = Some g <-> (kind (h g) = KGroup /\ o ∈ _objects (h g));
  wf_nodup : forall g, kind (h g) = KGroup -> NoDup (_objects (h g));
  wf_canvas_kind : forall o c, canvas (h o) = Some c -> kind (h c) = KCanvas;
  wf_bounded : forall o, exists l, chain true h (Some o) l /\ length l <= N
}.

(** ** The specification's reading of the filter of [add] and [insertAt] *)

(** What [isDescendantOf] walks from [this]: the groups above it,
    [ancestors], then the canvas of the topmost one. *)
Definition walked (h : Heap) (this : id) (ancestors : list id) : list id :=
  ancestors ++ option_list (canvas (h (default this (last ancestors)))).

(** Conditions (1) to (3): not the group itself, not an ancestor of it, not
    already one of its objects. *)
Definition may_enter (h : Heap) (this : id) (ancestors : list id) (o : id) : Prop :=
  o <> this /\ (o ∉ walked h this ancestors) /\ (o ∉ _objects (h this)).

(** The arguments that are accepted: those that may enter and (4) did not
    occur [before] in the argument list, in argument order. *)
Fixpoint accepted_from (h : Heap) (this : id) (ancestors before rest : list id)
    : list id :=
  match rest with
  | [] => []
  | o :: rest' =>
      if decide (may_enter h this ancestors o /\ (o ∉ before))
      then o :: accepted_from h this ancestors (before ++ [o]) rest'
      else accepted_from h this ancestors (before ++ [o]) rest'
  end.

Definition accepted (h : Heap) (this : id) (ancestors objects : list id) : list id :=
  accepted_from h this ancestors [] objects.


(** The two halves of the membership invariant, as the operations leave
    them. *)
Definition membership_consistent (h : Heap) : Prop :=
  forall g o, kind (h g) = KGroup -> (o ∈ _objects (h g) <-> group (h o) = Some g).
Definition exclusive (h : Heap) : Prop :=
  forall g g' o, kind (h g) = KGroup -> kind (h g') = KGroup ->
                 o ∈ _objects (h g) -> o ∈ _objects (h g') -> g = g'.

(** ** Vocabulary of the proofs *)

(** A projection of a node that a change of geometry does not reach. *)
Definition geo_blind {A} (f : Node -> A) : Prop := forall n g, f (with_geo n g) = f n.

(** Two heaps with the same tree: kinds, parents and child sequences. *)
Definition same_tree (h h' : Heap) : Prop :=
  forall i, kind (h' i) = kind (h i) /\ group (h' i) = group (h i)
            /\ _objects (h' i) = _objects (h i).
Definition same_canvas (h h' : Heap) : Prop :=
  forall i, canvas (h' i) = canvas (h i).
(** A change of a node that reaches neither the tree nor the canvas. *)
Definition tree_blind (f : Node -> Node) : Prop :=
  forall n, kind (f n) = kind n /\ group (f n) = group n
            /\ _objects (f n) = _objects n /\ canvas (f n) = canvas n.

(** What [_set_canvas] with value [v] may change. *)
Definition canvas_step (v : option id) (h h' : Heap) : Prop :=
  same_tree h h' /\ forall i, canvas (h' i) = canvas (h i) \/ canvas (h' i) = v.

Definition bounded (B : nat) (h : Heap) : Prop :=
  forall x, exists l, chain true h (Some x) l /\ length l <= B.
(** Below [o], every group is the parent of each of its objects. *)
Definition consistent_below (h : Heap) (o : id) : Prop :=
  forall d l c, chain true h (Some d) l -> o ∈ l -> kind (h d) = KGroup ->
                c ∈ _objects (h d) -> group (h c) = Some d.
Definition typed_canvas (h : Heap) : Prop :=
  forall i c, canvas (h i) = Some c -> kind (h c) = KCanvas.

(** The heap after [_objects.splice(index, 1)] on [g], with
    [index = _objects.indexOf(o)]. *)
Definition spliced (g o : id) (h : Heap) : Heap :=
  upd h g (fun n => with_objects n (splice_out (indexOf (_objects (h g)) o) (_objects n))).

(** The heaps that [add] and [insertAt] on [this] go through, from [h0]:
    [X] is already the child sequence of [this]; the objects of [R] have
    left their former groups and those of [E] have entered [this]. *)
Definition T (h0 : Heap) (this : id) (X : list id) (E R : list id) (h : Heap) : Prop :=
  forall i,
    kind (h i) = kind (h0 i)
    /\ group (h i) = (if decide (i ∈ E) then Some this
                      else if decide (i ∈ R) then None else group (h0 i))
    /\ _objects (h i) = (if decide (i = this) then X
                         else if decide (kind (h0 i) = KGroup)
                              then filter (fun x => x ∉ R) (_objects (h0 i))
                              else _objects (h0 i)).

End Model.

(** * More of the group: the setter, the constructor, caching, and the
    vocabulary of the properties proved about them *)

Section Vocabulary.
Context {SC : Scalars} {BO : BaseObject}.

Definition with_interactive (n : Node) (v : bool) : Node :=
  {| kind := kind n; group := group n; canvas := canvas n; _objects := _objects n;
     _activeObjects := _activeObjects n; _firstLayoutDone := _firstLayoutDone n;
     layout := layout n; subTargetCheck := subTargetCheck n;
     interactive := v; dirty := dirty n; clipPath := clipPath n;
     absolutePositioned := absolutePositioned n; watchers := watchers n;
     activeObject := activeObject n; geo := geo n |}.

(** ** The property setter of a group *)

(** The keys that [Group._set] looks at, with the value to assign. *)
Inductive Assignment :=
  | SetCanvas (value : option id)
  | SetLayout (value : string)
  | SetInteractive (value : bool).

(** [this._set(key, value)] of [Group]: the base-class setter is taken to
    assign (the [dirty] flags it may raise are not followed), then
    a new canvas goes down to the objects, a new layout asks for a
    'layout_change' layout (the keys [layout] and [prevLayout] of that
    context are read nowhere in the group code and are left out), and the
    objects are watched or unwatched as [interactive] says. *)
Definition _set (fuel : nat) (this : id) (a : Assignment) (w : World) : option World :=
  match a with
  | SetCanvas value =>
      h ← _set_canvas fuel this value (heap w);
      Some {| heap := h; events := events w |}
  | SetLayout value =>
      let prev := layout (heap w this) in
      let w1 := on_heap (fun h => upd h this (fun n => with_layout n value)) w in
      if decide (prev = value) then Some w1
      else _applyLayoutStrategy fuel this (mkContext layout_change []) w1
  | SetInteractive value =>
      let h1 := upd (heap w) this (fun n => with_interactive n value) in
      Some {| heap := fold_left (fun h o => _watchObject this value o h)
                                (_objects (h1 this)) h1;
              events := events w |}
  end.

(** ** The constructor *)

(** [this.set({ ...options, angle: 0, skewX: 0, skewY: 0 })] for options
    that hold geometry only (as [Options] has it; a key whose value is
    [undefined] counts as absent): the base-class setter assigns each key
    that is there. *)
Definition set_options (o : option Options) (g : Geo) : Geo :=
  let o := default noOptions o in
  let pick (a b : num) := if isNumber a then a else b in
  {| left := pick (o_left o) (left g); top := pick (o_top o) (top g);
     width := pick (o_width o) (width g); height := pick (o_height o) (height g);
     angle := n0; skewX := n0; skewY := n0;
     originX := originX g; originY := originY g; geoExtra := geoExtra g |}.

(** [new Group(objects, options, objectsRelativeToGroup)], on the node
    [this] as [super()] and the field initialisers leave it: no group, no
    objects, no first layout yet.  [forEachObject] goes through the objects
    as they are when it starts. *)
Definition constructor (fuel : nat) (this : id) (objects : list id)
    (opts : option Options) (relative : bool) (w : World) : option World :=
  let w0 := on_heap (fun h => upd h this (fun n =>
               with_geo n (set_options opts (geo n)))) w in
  let w1 := on_heap (fun h => upd h this (fun n => with_objects n objects)) w0 in
  w2 ← forEachM (fun object => enterGroup fuel this object false)
                (_objects (heap w1 this)) w1;
  _applyLayoutStrategy fuel this
    {| type := initialization; targets := []; options := opts;
       objectsRelativeToGroup := relative; context := None; path := [] |} w2.

(** ['removed'] on leaving the former group, if there was one. *)
Definition leaving_events (h : Heap) (o : id) : list Event :=
  match group (h o) with
  | Some g => [EvRemoved o g]
  | None => []
  end.

(** ** Shadows and caching

    What the base class answers for one object is a parameter:
    [super.willDrawShadow()] (the object's own shadow), [super.shouldCache()]
    and the field [ownCaching]. *)

(** [for (...) { if (f(objects[i])) return true; } return false] *)
Fixpoint first_true (f : id -> option bool) (objects : list id) : option bool :=
  match objects with
  | [] => Some false
  | o :: rest => b ← f o; if (b : bool) then Some true else first_true f rest
  end.

(** [willDrawShadow()]: the override of [Group] on a group, the base-class
    method on any other object. *)
Fixpoint willDrawShadow (fuel : nat) (super_willDrawShadow : id -> bool)
    (h : Heap) (this : id) : option bool :=
  if decide (kind (h this) = KGroup) then
    if super_willDrawShadow this then Some true
    else
      match fuel with
      | O => None
      | S f => first_true (willDrawShadow f super_willDrawShadow h) (_objects (h this))
      end
  else Some (super_willDrawShadow this).

(** [shouldCache()] of a group: the answer, and what is then written to
    [this.ownCaching] ([None]: left as the base class set it). *)
Definition shouldCache (fuel : nat) (super_shouldCache super_willDrawShadow : id -> bool)
    (h : Heap) (this : id) : option (bool * option bool) :=
  if super_shouldCache this then
    b ← first_true (willDrawShadow fuel super_willDrawShadow h) (_objects (h this));
    Some (if (b : bool) then (false, Some false) else (true, None))
  else Some (false, None).

(** [isOnACache()] *)
Fixpoint isOnACache (fuel : nat) (ownCaching : id -> bool) (h : Heap) (this : id)
    : option bool :=
  if ownCaching this then Some true
  else
    match group (h this) with
    | Some g =>
        match fuel with
        | O => None
        | S f => isOnACache f ownCaching h g
        end
    | None => Some false
    end.

(** [swap r]: the comparison seen from the other node. *)
Definition swap_forks (r : AncestryComparison) : AncestryComparison :=
  {| fork := otherFork r; otherFork := fork r; common := common r |}.

(** Two nodes that differ at most in their geometry and in the flag of the
    first layout, which is not reset. *)
Definition same_but_layout (n n' : Node) : Prop :=
  with_firstLayoutDone (with_geo n' (geo n)) (_firstLayoutDone n) = n
  /\ (_firstLayoutDone n = true -> _firstLayoutDone n' = true).

Definition layout_frame (h h' : Heap) : Prop :=
  forall i, same_but_layout (h i) (h' i).

(** The context that the [k]-th group above the origin of a layout
    receives: [trail] holds the groups the layout went through. *)
Definition with_path (c : LayoutContext) (trail : list id) : LayoutContext :=
  {| type := type c; targets := targets c; options := options c;
     objectsRelativeToGroup := objectsRelativeToGroup c;
     context := context c; path := path c ++ trail |}.

(** [h'] differs from [h] in [canvas] references at most. *)
Definition canvas_only (h h' : Heap) : Prop :=
  forall i, with_canvas (h' i) (canvas (h i)) = h i.

(** The 'added' and 'removed' events of a log, in order. *)
Definition membership_events (evs : list Event) : list Event :=
  omap (fun e => match e with EvLayout _ _ _ _ => None | _ => Some e end) evs.

(** What an object fires when it enters [this] from heap [h]: 'removed' on
    leaving its former group, if it had one, then 'added'. *)
Definition entering_events (h : Heap) (this o : id) : list Event :=
  match group (h o) with
  | Some g => [EvRemoved o g; EvAdded o this]
  | None => [EvAdded o this]
  end.

(** [reach h o i]: [i] is [o], or an object of a group that [o] reaches:
    the nodes that the [canvas] setter of [o] walks through. *)
Inductive reach (h : Heap) (o : id) : id -> Prop :=
  | reach_refl : reach h o o
  | reach_child d c :
      reach h o d -> kind (h d) = KGroup -> c ∈ _objects (h d) -> reach h o c.

(** Every object has the canvas of its group. *)
Definition canvas_consistent (h : Heap) : Prop :=
  forall o g, group (h o) = Some g -> canvas (h o) = canvas (h g).

(** No group below [o] is found again below one of its own objects. *)
Definition acyclic_below (h : Heap) (o : id) : Prop :=
  forall d c, reach h o d -> kind (h d) = KGroup -> c ∈ _objects (h d) -> ~ reach h c d.

(** Below [o], a group whose canvas is [v] in [hx] has objects with canvas
    [v]; the tree is that of [h]. *)
Definition closed_below (v : option id) (h hx : Heap) (o : id) : Prop :=
  forall d c, reach h o d -> kind (h d) = KGroup -> c ∈ _objects (h d) ->
              canvas (hx d) = v -> canvas (hx c) = v.

(** Two nodes that differ at most in their geometry, in their [dirty] flag
    and in the flag of the first layout, which is not reset. *)
Definition layout_may_change (n n' : Node) : Prop :=
  with_dirty (with_firstLayoutDone (with_geo n' (geo n)) (_firstLayoutDone n)) (dirty n) = n
  /\ (_firstLayoutDone n = true -> _firstLayoutDone n' = true).

(** The layout that [triggerLayout(context)] leaves the group in. *)
Definition layout_asked (c : option PartialResult) (current : string) : string :=
  match c ≫= p_layout with
  | Some l => if decide (l = "") then current else l
  | None => current
  end.

(** The target and the path of each 'layout' event of a log. *)
Definition layout_trail (evs : list Event) : list (option (id * list id)) :=
  (fun e => match e with
            | EvLayout t c _ _ => Some (t, path c)
            | _ => None
            end) <$> evs.

End Vocabulary.


(** ** A sample base class

    Exact rational arithmetic and objects that are axis-aligned, unscaled
    and stroke-free, whose transform is the translation to their centre.
    It gives the interfaces an inhabitant on which the group code runs. *)

Module Sample.

Inductive jsnum := JNum (q : Q) | JNaN | JUndef.

Definition lift2 (f : Q -> Q -> Q) (a b : jsnum) : jsnum :=
  match a, b with
  | JNum x, JNum y => JNum (Qred (f x y))
  | _, _ => JNaN
  end.
Definition lift1 (f : Q -> Q) (a : jsnum) : jsnum :=
  match a with JNum x => JNum (Qred (f x)) | _ => JNaN end.
Definition qmin (x y : Q) : Q := if Qle_bool x y then x else y.
Definition qmax (x y : Q) : Q := if Qle_bool x y then y else x.
Definition qabs (x : Q) : Q := if Qle_bool 0 x then x else Qopp x.

(** Sine, cosine and the conversion to radians are exact at 0 only; every
    other angle gives NaN. *)
Definition at0 (v : Q) (a : jsnum) : jsnum :=
  match a with
  | JNum x => if Qeq_bool x 0 then JNum v else JNaN
  | _ => JNaN
  end.

#[global] Instance scalars : Scalars := {|
  num := jsnum;
  n0 := JNum 0; nHalf := JNum (1 # 2); n2 := JNum 2; undef := JUndef;
  nadd := lift2 Qplus; nsub := lift2 Qminus; nmul := lift2 Qmult;
  ndiv := lift2 Qdiv; nneg := lift1 Qopp;
  nmin := lift2 qmin; nmax := lift2 qmax; nabs := lift1 qabs;
  nsin := at0 0; ncos := at0 1; degreesToRadians := at0 0;
  truthy := fun a => match a with JNum x => negb (Qeq_bool x 0) | _ => false end;
  isNumber := fun a => match a with JUndef => false | _ => true end;
  strictEq := fun a b =>
    match a, b with
    | JNum x, JNum y => Qeq_bool x y
    | JUndef, JUndef => true
    | _, _ => false
    end;
  TMat := (jsnum * jsnum)%type;      (* a translation *)
  Extra := unit
|}.


Definition origin_offset (neg pos s : string) : jsnum :=
  if bool_decide (s = neg) then JNum (-1 # 2)
  else if bool_decide (s = pos) then JNum (1 # 2)
  else JNum 0.

Definition dims (g : Geo) (o : DimOptions) : Point :=
  {| px := default (width g) (optWidth o); py := default (height g) (optHeight o) |}.

Definition relativeCenter (g : Geo) : Point :=
  {| px := nsub (left g) (nmul (origin_offset "left" "right" (originX g)) (width g));
     py := nsub (top g) (nmul (origin_offset "top" "bottom" (originY g)) (height g)) |}.

Definition position (g : Geo) (c : Point) : Point :=
  {| px := nadd (px c) (nmul (origin_offset "left" "right" (originX g)) (width g));
     py := nadd (py c) (nmul (origin_offset "top" "bottom" (originY g)) (height g)) |}.

(** The translation of an object composed with those of its groups, at most
    [n] levels up. *)
Fixpoint totalMatrix (n : nat) (geos : id -> Geo) (groups : id -> option id)
    (o : id) : jsnum * jsnum :=
  let c := relativeCenter (geos o) in
  match n, groups o with
  | S n', Some g =>
      let m := totalMatrix n' geos groups g in
      (nadd (fst m) (px c), nadd (snd m) (py c))
  | _, _ => (px c, py c)
  end.

#[global] Instance base : BaseObject := {|
  multiplyTransformMatrices := fun a b => (nadd (fst a) (fst b), nadd (snd a) (snd b));
  invertTransform := fun a => (nneg (fst a), nneg (snd a));
  transformPoint := fun p t ignoreOffset =>
    if ignoreOffset then p
    else {| px := nadd (px p) (fst t); py := nadd (py p) (snd t) |};
  calcOwnMatrix := fun g => let c := relativeCenter g in (px c, py c);
  calcTransformMatrix := totalMatrix 64;
  applyTransformToObject := fun g t =>
    let p := position g {| px := fst t; py := snd t |} in
    set_left_top g (px p) (py p);
  getRelativeCenterPoint := relativeCenter;
  getCenterPoint := fun geos groups o =>
    let m := totalMatrix 64 geos groups o in {| px := fst m; py := snd m |};
  _getTransformedDimensions := dims;
  resolveOriginX := origin_offset "left" "right";
  resolveOriginY := origin_offset "top" "bottom";
  positionByOrigin := position
|}.

(** A plain object centred at [(x, y)], of size [w] by [h]. *)
Definition box (x y w h : Q) : Geo :=
  {| left := JNum x; top := JNum y; width := JNum w; height := JNum h;
     angle := JNum 0; skewX := JNum 0; skewY := JNum 0;
     originX := "center"; originY := "center"; geoExtra := tt |}.

Definition node (k : Kind) (g : Geo) : Node :=
  {| kind := k; group := None; canvas := None; _objects := [];
     _activeObjects := []; _firstLayoutDone := false; layout := "fit-content";
     subTargetCheck := false; interactive := false; dirty := false;
     clipPath := None; absolutePositioned := false; watchers := [];
     activeObject := None; geo := g |}.

Definition with_clipPath (n : Node) (v : option id) : Node :=
  {| kind := kind n; group := group n; canvas := canvas n; _objects := _objects n;
     _activeObjects := _activeObjects n; _firstLayoutDone := _firstLayoutDone n;
     layout := layout n; subTargetCheck := subTargetCheck n;
     interactive := interactive n; dirty := dirty n; clipPath := v;
     absolutePositioned := absolutePositioned n; watchers := watchers n;
     activeObject := activeObject n; geo := geo n |}.

(** The heap holding the listed nodes at 0, 1, 2, ... and plain empty
    objects everywhere else. *)
Definition heap_of (ns : list Node) : Heap :=
  fun i => default (node KObject (box 0 0 0 0)) (ns !! i).


Definition with_mode (n : Node) (l : string) (done : bool) : Node :=
  with_firstLayoutDone (with_layout n l) done.

(** A group anchored at its top left corner, as fabric's defaults have it. *)
Definition corner_box (x y w h : Q) : Geo :=
  {| left := JNum x; top := JNum y; width := JNum w; height := JNum h;
     angle := JNum 0; skewX := JNum 0; skewY := JNum 0;
     originX := "left"; originY := "top"; geoExtra := tt |}.

(** Group 0 holds 1 and 4, group 2 is empty, 3 is on its own. *)
Definition family : Heap := heap_of [
  with_mode (with_objects (node KGroup (box 0 0 100 100)) [1; 4]) "fixed" true;
  with_group (node KObject (box (-10) 0 20 20)) (Some 0);
  node KGroup (box 200 0 0 0);
  node KObject (box 300 0 20 20);
  with_group (node KObject (box 30 0 20 20)) (Some 0) ].

(** A lazily fitted group whose recorded size (20 by 20) is out of date. *)
Definition lazy_group : Heap := heap_of [
  with_mode (with_objects (node KGroup (box 0 0 20 20)) [1; 2]) "fit-content-lazy" true;
  with_group (node KObject (box (-10) 0 20 20)) (Some 0);
  with_group (node KObject (box 30 0 20 20)) (Some 0) ].

(** The same group with its second object moved. *)
Definition lazy_group_moved : Heap := heap_of [
  with_mode (with_objects (node KGroup (box 0 0 20 20)) [1; 2]) "fit-content-lazy" true;
  with_group (node KObject (box (-10) 0 20 20)) (Some 0);
  with_group (node KObject (box 70 0 20 20)) (Some 0) ].

(** A group under construction, with two objects and the clip path 3. *)
Definition clipped_group : Heap := heap_of [
  with_clipPath (with_objects (node KGroup (corner_box 0 0 0 0)) [1; 2]) (Some 3);
  with_group (node KObject (box 10 10 20 20)) (Some 0);
  with_group (node KObject (box 50 10 20 20)) (Some 0);
  node KObject (box 5 5 10 10) ].

(** The same group once built. *)
Definition clipped_group_built : Heap := heap_of [
  with_mode (with_clipPath (with_objects (node KGroup (corner_box 0 0 0 0)) [1; 2]) (Some 3))
            "fit-content" true;
  with_group (node KObject (box 10 10 20 20)) (Some 0);
  with_group (node KObject (box 50 10 20 20)) (Some 0);
  node KObject (box 5 5 10 10) ].

(** Group 0 holds group 1, which holds 2. *)
Definition nested : Heap := heap_of [
  with_objects (node KGroup (box 0 0 100 100)) [1];
  with_group (with_objects (node KGroup (box 0 0 50 50)) [2]) (Some 0);
  with_group (node KObject (box 0 0 20 20)) (Some 1) ].

(** Canvas 0 shows group 1 and object 4; group 1 holds 2 and group 3, which
    holds 5. *)
Definition staged : Heap := heap_of [
  with_objects (node KCanvas (box 0 0 0 0)) [1; 4];
  with_canvas (with_mode (with_objects (node KGroup (box 0 0 100 100)) [2; 3]) "fit-content" true) (Some 0);
  with_canvas (with_group (node KObject (box (-10) 0 20 20)) (Some 1)) (Some 0);
  with_canvas (with_group (with_mode (with_objects (node KGroup (box 30 0 20 20)) [5]) "fit-content" true) (Some 1)) (Some 0);
  with_canvas (node KObject (box 300 0 20 20)) (Some 0);
  with_canvas (with_group (node KObject (box 0 0 20 20)) (Some 3)) (Some 0) ].

(** A group in layout 'clip-path' that has no clip path. *)
Definition unclipped : Heap := heap_of [
  with_mode (node KGroup (box 0 0 10 10)) "clip-path" true ].

(** The options of a group whose box is given in full. *)
Definition boxed : Options :=
  {| o_left := JNum 0; o_top := JNum 0; o_width := JNum 100; o_height := JNum 50;
     o_angle := JUndef; o_skewX := JUndef; o_skewY := JUndef |}.

(** The first layout of a group built with these options around objects
    that are given in its own plane. *)
Definition boxed_first_layout : LayoutContext :=
  {| type := initialization; targets := []; options := Some boxed;
     objectsRelativeToGroup := true; context := None; path := [] |}.

End Sample.

(** * Proofs *)

(** ** Heap updates and arrays *)

Section Facts.
Context {SC : Scalars} {BO : BaseObject}.

Lemma upd_eq (h : Heap) o f : upd h o f o = f (h o).
Proof. unfold upd. by rewrite decide_True. Qed.

Lemma upd_ne (h : Heap) o f i : i <> o -> upd h o f i = h i.
Proof. intros. unfold upd. by rewrite decide_False. Qed.

Lemma indexOf_from_ge l x i : indexOf_from l x i = (-1)%Z \/ (i <= indexOf_from l x i)%Z.
Proof.
  revert i. induction l as [|y l IH]; intros i; simpl; [by left|].
  destruct (decide (y = x)); [right; lia|].
  destruct (IH (i + 1)%Z); [by left | right; lia].
Qed.

Lemma indexOf_from_notin l x i : x ∉ l -> indexOf_from l x i = (-1)%Z.
Proof.
  revert i. induction l as [|y l IH]; intros i Hx; simpl; [done|].
  rewrite not_elem_of_cons in Hx. destruct Hx as [Hne Hx].
  rewrite decide_False by done. by apply IH.
Qed.

Lemma indexOf_from_in l x i :
  (0 <= i)%Z -> x ∈ l ->
  (i <= indexOf_from l x i)%Z /\
  splice_out (indexOf_from l x i - i) l = remove_first x l.
Proof.
  revert i. induction l as [|y l IH]; intros i Hi Hx; [by apply elem_of_nil in Hx|].
  simpl. destruct (decide (y = x)) as [->|Hne].
  - split; [lia|]. replace (i - i)%Z with 0%Z by lia. done.
  - apply elem_of_cons in Hx as [->|Hx]; [done|].
    destruct (IH (i + 1)%Z ltac:(lia) Hx) as [Hle Heq]. split; [lia|].
    unfold splice_out in *.
    replace (Z.to_nat (indexOf_from l x (i + 1) - i)) with
      (S (Z.to_nat (indexOf_from l x (i + 1) - (i + 1)))) by lia.
    simpl. by rewrite Heq.
Qed.

Lemma indexOf_in l x : x ∈ l -> (-1 < indexOf l x)%Z /\ splice_out (indexOf l x) l = remove_first x l.
Proof.
  intros Hx. destruct (@indexOf_from_in l x 0%Z ltac:(lia) Hx) as [H1 H2].
  unfold indexOf. split; [lia|]. by rewrite Z.sub_0_r in H2.
Qed.

Lemma indexOf_notin l x : x ∉ l -> indexOf l x = (-1)%Z.
Proof. apply indexOf_from_notin. Qed.

Lemma indexOf_neg_iff l x : indexOf l x = (-1)%Z <-> x ∉ l.
Proof.
  split; [|apply indexOf_notin]. intros H Hx.
  apply indexOf_in in Hx as [? _]. lia.
Qed.

Lemma remove_first_notin x l : x ∉ l -> remove_first x l = l.
Proof.
  induction l as [|y l IH]; simpl; [done|]. rewrite not_elem_of_cons. intros [? ?].
  rewrite decide_False by done. by rewrite IH.
Qed.

End Facts.


(** ** The layout procedure *)

Section Rejection.
Context {SC : Scalars} {BO : BaseObject}.

Lemma layout_body_rejected this ctx (h : Heap) :
  _firstLayoutDone (h this) = false -> type ctx <> initialization ->
  layout_body this ctx h = Rejected.
Proof.
  intros Hd Ht. unfold layout_body.
  rewrite Hd, bool_decide_eq_false_2 by done. done.
Qed.

Lemma applyLayout_unfold fuel this ctx w :
  _applyLayoutStrategy fuel this ctx w =
  match layout_body this ctx (heap w) with
  | Rejected | NoResult => Some w
  | Completed h' result diff =>
      let h'' := upd h' this (fun n => with_firstLayoutDone n true) in
      let w' := fire (EvLayout this ctx result diff)
                     {| heap := h''; events := events w |} in
      match group (h'' this) with
      | Some g =>
          if decide (kind (h'' g) = KGroup) then
            match fuel with
            | O => None
            | S f => _applyLayoutStrategy f g (push_path ctx this) w'
            end
          else Some w'
      | None => Some w'
      end
  end.
Proof. destruct fuel; reflexivity. Qed.

(** C3 (layout requests before the first layout).  While
    [_firstLayoutDone] is false, [_applyLayoutStrategy] with a context of a
    type other than [initialization] returns at once: the heap (sizes,
    positions, objects) and the event log are exactly as before. *)
Theorem layout_rejected_before_first_layout fuel this ctx w :
  _firstLayoutDone (heap w this) = false -> type ctx <> initialization ->
  layout_body this ctx (heap w) = Rejected /\
  _applyLayoutStrategy fuel this ctx w = Some w.
Proof.
  intros Hd Ht. pose proof (layout_body_rejected Hd Ht) as Hr.
  split; [done|]. rewrite applyLayout_unfold, Hr. done.
Qed.

Lemma resolver_fixed (h : Heap) this objs ctx :
  getLayoutStrategyResult h this "fixed" objs ctx =
  if bool_decide (type ctx = initialization) || bool_decide (type ctx = imperative)
  then prepareBoundingBox h this "fixed" objs ctx
  else None.
Proof.
  unfold getLayoutStrategyResult.
  repeat case_bool_decide; simplify_eq; simpl; try done.
  all: by destruct (clipPath (h this)).
Qed.

(** C4 (layout 'fixed').  For a group that has had its first layout and
    whose layout is "fixed", the triggers [added], [removed],
    [object_modified] and [layout_change] give no layout result and
    [_applyLayoutStrategy] leaves the heap and the event log exactly as they
    were; the resolver measures a bounding box on [initialization] and
    [imperative] only. *)
Theorem fixed_layout_keeps_declared_size fuel this ctx w :
  layout (heap w this) = "fixed" ->
  _firstLayoutDone (heap w this) = true ->
  type ctx ∈ [added; removed; object_modified; layout_change] ->
  getLayoutStrategyResult (heap w) this "fixed" (_objects (heap w this)) ctx = None
  /\ layout_body this ctx (heap w) = NoResult
  /\ _applyLayoutStrategy fuel this ctx w = Some w
  /\ forall objs ctx',
       getLayoutStrategyResult (heap w) this "fixed" objs ctx' =
       if bool_decide (type ctx' = initialization) || bool_decide (type ctx' = imperative)
       then prepareBoundingBox (heap w) this "fixed" objs ctx'
       else None.
Proof.
  intros Hl Hd Ht.
  assert (Hres : getLayoutStrategyResult (heap w) this "fixed" (_objects (heap w this)) ctx = None).
  { rewrite resolver_fixed. rewrite !elem_of_cons, elem_of_nil in Ht.
    repeat case_bool_decide; simpl; try done; intuition congruence. }
  assert (Hb : layout_body this ctx (heap w) = NoResult).
  { unfold layout_body. rewrite Hd, Hl, Hres.
    rewrite andb_false_r. rewrite bool_decide_eq_false_2; [done|].
    intros E. rewrite E, !elem_of_cons, elem_of_nil in Ht. intuition congruence. }
  split; [done|]. split; [done|]. split.
  - rewrite applyLayout_unfold, Hb. done.
  - intros. apply resolver_fixed.
Qed.
End Rejection.

Section Resolver.
Context {SC : Scalars} {BO : BaseObject}.

Lemma prepareBoundingBox_plain (h : Heap) this l objs ctx :
  type ctx <> initialization -> type ctx <> imperative ->
  prepareBoundingBox h this l objs ctx = getObjectsBoundingBox h this objs false.
Proof.
  intros H1 H2. unfold prepareBoundingBox.
  rewrite decide_False by done. rewrite bool_decide_eq_false_2 by done. done.
Qed.

(* the box depends on the geometry of the measured objects and of the group only *)
Lemma getObjectsBoundingBox_ext (h h' : Heap) this objs ign :
  (forall o, o ∈ this :: objs -> geo (h o) = geo (h' o)) ->
  getObjectsBoundingBox h this objs ign = getObjectsBoundingBox h' this objs ign.
Proof.
  intros Hg. unfold getObjectsBoundingBox. destruct objs as [|o0 rest]; [done|].
  rewrite <- (Hg this) by (apply elem_of_cons; by left).
  rewrite <- (Hg o0) by (rewrite !elem_of_cons; auto).
  assert (Hr : forall o, o ∈ rest -> geo (h o) = geo (h' o)).
  { intros o Ho. apply Hg. rewrite !elem_of_cons; auto. }
  generalize (bbox_first (object_corners (geo (h o0)))). clear Hg.
  induction rest as [|o rest IH]; intros mm; simpl; [done|].
  rewrite <- (Hr o) by (apply elem_of_cons; by left).
  apply IH. intros o' Ho'. apply Hr. apply elem_of_cons; by right.
Qed.

(** C5, as amended (layout 'fit-content-lazy'). On [added] with more objects
    than targets the resolver measures the targets together with the group
    itself, and that box does not depend on the geometry of any other object;
    on [removed], [object_modified], [layout_change], and on [added] with no
    more objects than targets (into a group that was empty), it measures all
    objects; on [imperative] it measures all objects and lets the values given
    with the call override the box; on [initialization] it prepares the
    initial box, which measures nothing and gives no result when the options
    give left, top, width and height as numbers and the objects are relative
    to the group, or when there is no object, and which otherwise gives a box
    whose width (height) is the group's own where the options give one and
    that of the box of all objects where they do not. *)
Theorem fit_content_lazy_resolver (h h' : Heap) this objs ctx :
  (forall o, o ∈ this :: targets ctx -> geo (h o) = geo (h' o)) ->
  getLayoutStrategyResult h this "fit-content-lazy" objs ctx =
    match type ctx with
    | added =>
        if bool_decide (length (targets ctx) < length objs)
        then getObjectsBoundingBox h this (targets ctx ++ [this]) false
        else getObjectsBoundingBox h this objs false
    | removed | object_modified | layout_change =>
        getObjectsBoundingBox h this objs false
    | imperative =>
        match context ctx with
        | Some p =>
            Some (assignResult
                    (default emptyResult (getObjectsBoundingBox h this objs false)) p)
        | None => getObjectsBoundingBox h this objs false
        end
    | initialization =>
        prepareInitialBoundingBox h this "fit-content-lazy" objs ctx
    end
  /\ getObjectsBoundingBox h this (targets ctx ++ [this]) false =
     getObjectsBoundingBox h' this (targets ctx ++ [this]) false
  /\ (let opts := default noOptions (options ctx) in
      let box := default emptyResult (getObjectsBoundingBox h this objs false) in
      if (isNumber (o_left opts) && isNumber (o_top opts)
          && isNumber (o_width opts) && isNumber (o_height opts)
          && objectsRelativeToGroup ctx)
         || bool_decide (length objs = 0)
      then prepareInitialBoundingBox h this "fit-content-lazy" objs ctx = None
      else exists r,
        prepareInitialBoundingBox h this "fit-content-lazy" objs ctx = Some r
        /\ r_width r = (if isNumber (o_width opts) then width (geo (h this))
                        else or0 (r_width box))
        /\ r_height r = (if isNumber (o_height opts) then height (geo (h this))
                         else or0 (r_height box))).
Proof.
  intros Hg. split; [|split].
  - unfold getLayoutStrategyResult.
    rewrite (bool_decide_eq_true_2 ("fit-content-lazy" = "fit-content-lazy")) by done.
    rewrite orb_true_r. simpl.
    destruct (type ctx) eqn:Ht; simpl; try done.
    all: try (rewrite prepareBoundingBox_plain by (rewrite Ht; done); done).
    + unfold prepareBoundingBox. rewrite Ht. rewrite decide_True by done. done.
    + case_bool_decide; rewrite prepareBoundingBox_plain by (rewrite Ht; done); done.
    + unfold prepareBoundingBox. rewrite Ht. rewrite decide_False by done.
      rewrite bool_decide_eq_true_2 by done. by destruct (context ctx).
  - apply getObjectsBoundingBox_ext. intros o Ho. apply Hg.
    rewrite elem_of_cons, elem_of_app, elem_of_cons, elem_of_nil in Ho.
    rewrite elem_of_cons. intuition.
  - intros opts box. unfold prepareInitialBoundingBox. fold opts.
    destruct (_ || _); [done|]. eexists. split; [reflexivity|]. simpl. done.
Qed.

(* the two corners of an object, as the specification writes them *)
Lemma object_corners_spec (g : Geo) :
  object_corners g =
  ({| px := nsub (px (getRelativeCenterPoint g)) (px (half_extent g));
      py := nsub (py (getRelativeCenterPoint g)) (py (half_extent g)) |},
   {| px := nadd (px (getRelativeCenterPoint g)) (px (half_extent g));
      py := nadd (py (getRelativeCenterPoint g)) (py (half_extent g)) |}).
Proof.
  unfold object_corners, half_extent. destruct (truthy (angle g)); done.
Qed.

Lemma fold_bbox_next (h : Heap) rest mn mx :
  fold_left (fun mm o => bbox_next mm (object_corners (geo (h o)))) rest (mn, mx) =
  ({| px := fold_left nmin (px <$> all_corners h rest) (px mn);
      py := fold_left nmin (py <$> all_corners h rest) (py mn) |},
   {| px := fold_left nmax (px <$> all_corners h rest) (px mx);
      py := fold_left nmax (py <$> all_corners h rest) (py mx) |}).
Proof.
  revert mn mx. induction rest as [|o rest IH]; intros mn mx.
  - simpl. by destruct mn, mx.
  - cbn [fold_left]. rewrite object_corners_spec. cbn [bbox_next].
    rewrite IH. reflexivity.
Qed.


End Resolver.

Section ClipPath.
Context {SC : Scalars} {BO : BaseObject}.


Lemma upd_geo_blind {A} (f : Node -> A) (h : Heap) o G i :
  geo_blind f -> f (upd h o (fun n => with_geo n (G n)) i) = f (h i).
Proof.
  intros Hf. destruct (decide (i = o)) as [->|Hne].
  - by rewrite upd_eq.
  - by rewrite upd_ne.
Qed.

Lemma adjust_fold_blind {A} (f : Node -> A) diff objs (h : Heap) i :
  geo_blind f ->
  f (fold_left (fun h o => _adjustObjectPosition o diff h) objs h i) = f (h i).
Proof.
  intros Hf. revert h. induction objs as [|o objs IH]; intros h; simpl; [done|].
  rewrite IH. unfold _adjustObjectPosition. by apply upd_geo_blind.
Qed.

Lemma adjust_fold_geo diff objs (h : Heap) i :
  NoDup objs ->
  geo (fold_left (fun h o => _adjustObjectPosition o diff h) objs h i) =
  if bool_decide (i ∈ objs) then translate diff (geo (h i)) else geo (h i).
Proof.
  revert h. induction objs as [|o objs IH]; intros h Hnd; simpl; [done|].
  apply NoDup_cons in Hnd as [Hno Hnd]. rewrite IH by done.
  unfold _adjustObjectPosition. destruct (decide (i = o)) as [->|Hne].
  - rewrite upd_eq. rewrite (bool_decide_eq_false_2 (o ∈ objs)) by done.
    rewrite bool_decide_eq_true_2 by (apply elem_of_cons; by left). done.
  - rewrite upd_ne by done. 
    destruct (decide (i ∈ objs)).
    + rewrite !bool_decide_eq_true_2; [done| |done]. apply elem_of_cons; by right.
    + rewrite !bool_decide_eq_false_2; [done| |done]. rewrite elem_of_cons. intuition.
Qed.

Lemma adjust_fold_notin diff objs (h : Heap) i :
  i ∉ objs ->
  fold_left (fun h o => _adjustObjectPosition o diff h) objs h i = h i.
Proof.
  revert h. induction objs as [|o objs IH]; intros h Hi; simpl; [done|].
  apply not_elem_of_cons in Hi as [Hne Hi]. rewrite IH by done.
  unfold _adjustObjectPosition. by rewrite upd_ne.
Qed.

Lemma set_initialTransform_ne this ctx (h : Heap) i :
  i <> this -> set_initialTransform this ctx h i = h i.
Proof.
  intros. unfold set_initialTransform. destruct (initialTransformOf ctx) as [[[? ?] ?]|]; [|done].
  by rewrite upd_ne.
Qed.

(** C7, as amended (clip path during layout).  In a layout that has a
    result, a clip path that is not absolutely positioned (and is neither the
    group nor one of its objects) is translated by [diff], like the objects,
    exactly when the layout is not the initialization layout and the mode is
    not "clip-path"; otherwise its geometry stays as it was. *)
Theorem clip_path_shift this ctx (h h' : Heap) result diff cp :
  layout_body this ctx h = Completed h' result (Some diff) ->
  clipPath (h this) = Some cp ->
  absolutePositioned (h cp) = false ->
  cp <> this ->
  cp ∉ _objects (h this) ->
  diff = layout_diff h this (getRelativeCenterPoint (geo (h this))) result
  /\ geo (h' cp) =
       (if bool_decide (type ctx <> initialization)
           && bool_decide (layout (h this) <> "clip-path")
        then translate diff (geo (h cp)) else geo (h cp))
  /\ (objectsRelativeToGroup ctx = false ->
      NoDup (_objects (h this)) ->
      this ∉ _objects (h this) ->
      forall o, o ∈ _objects (h this) -> geo (h' o) = translate diff (geo (h o))).
Proof.
  intros Hb Hcp Habs Hne Hnot. unfold layout_body in Hb.
  destruct (negb _ && negb _); [done|].
  destruct (getLayoutStrategyResult _ _ _ _ _) as [r|] eqn:Hr;
    [|by destruct (bool_decide _)].
  injection Hb as <- <- <-. split; [done|].
  set (center := getRelativeCenterPoint (geo (h this))).
  set (diff := layout_diff h this center r).
  unfold layout_apply_result. fold diff.
  set (h1 := upd h this _).
  assert (Hobjs : _objects (h1 this) = _objects (h this)).
  { unfold h1. by rewrite (upd_geo_blind (f := _objects)). }
  rewrite Hobjs.
  set (h2 := if objectsRelativeToGroup ctx then h1 else _).
  assert (Hblind : forall A (f : Node -> A) i, geo_blind f -> f (h2 i) = f (h i)).
  { intros A f i Hf. unfold h2. destruct (objectsRelativeToGroup ctx).
    - unfold h1. by apply upd_geo_blind.
    - rewrite adjust_fold_blind by done. unfold h1. by apply upd_geo_blind. }
  rewrite (Hblind _ layout this) by done.
  rewrite (Hblind _ clipPath this) by done. rewrite Hcp.
  rewrite (Hblind _ absolutePositioned cp) by done. rewrite Habs. simpl negb.
  assert (Hcp2 : geo (h2 cp) = geo (h cp)).
  { unfold h2. destruct (objectsRelativeToGroup ctx).
    - unfold h1. by rewrite upd_ne.
    - rewrite adjust_fold_notin by done. unfold h1. by rewrite upd_ne. }
  set (h3 := if negb (bool_decide (type ctx = initialization)) && _ then _ else h2).
  assert (Hfin : forall i, i <> this ->
            (if negb (pt_eq {| px := centerX r; py := centerY r |} center)
                || bool_decide (is_Some (initialTransformOf ctx))
             then set_initialTransform this ctx
                    (upd h3 this (fun n =>
                       let p := positionByOrigin (geo n) {| px := centerX r; py := centerY r |} in
                       with_geo n (set_left_top (geo n) (px p) (py p))))
             else h3) i = h3 i).
  { intros i Hi. destruct (_ || _); [|done].
    rewrite set_initialTransform_ne by done. by rewrite upd_ne. }
  split.
  - rewrite Hfin by done. unfold h3.
    destruct (decide (type ctx = initialization)) as [Hi|Hi].
    + rewrite (bool_decide_eq_true_2 _ Hi). simpl.
      rewrite (bool_decide_eq_false_2 (type ctx <> initialization)) by auto. done.
    + rewrite (bool_decide_eq_false_2 _ Hi). simpl.
      rewrite (bool_decide_eq_true_2 (type ctx <> initialization)) by auto. simpl.
      destruct (decide (layout (h this) = "clip-path")) as [Hl|Hl].
      * rewrite (bool_decide_eq_true_2 _ Hl). simpl.
        rewrite (bool_decide_eq_false_2 (layout (h this) <> "clip-path")) by auto. done.
      * rewrite (bool_decide_eq_false_2 _ Hl). simpl.
        rewrite (bool_decide_eq_true_2 (layout (h this) <> "clip-path")) by auto.
        unfold _adjustObjectPosition. rewrite upd_eq. simpl. by rewrite Hcp2.
  - intros Hrel Hnd Hthis o Ho.
    assert (o <> this) by (intros ->; done).
    assert (o <> cp) by (intros ->; done).
    rewrite Hfin by done.
    assert (Ho2 : geo (h2 o) = translate diff (geo (h o))).
    { unfold h2. rewrite Hrel. rewrite adjust_fold_geo by done.
      rewrite bool_decide_eq_true_2 by done. unfold h1. by rewrite upd_ne. }
    unfold h3. destruct (negb _ && negb _); [|done].
    cbn [negb]. unfold _adjustObjectPosition. by rewrite upd_ne.
Qed.
End ClipPath.


(** ** The list of active objects *)

Section Selection.
Context {SC : Scalars}.

Lemma exitGroup_activeObjects this o rpt (h : Heap) {BO : BaseObject} :
  _activeObjects (_exitGroup this o rpt h this) = remove_first o (_activeObjects (h this)).
Proof.
  unfold _exitGroup.
  set (h1 := upd h o _). set (h2 := if rpt then h1 else _).
  set (h3 := _watchObject this false o h2).
  assert (H3 : _activeObjects (h3 this) = _activeObjects (h this)).
  { unfold h3, _watchObject. destruct (decide (this = o)) as [<-|Hne].
    - rewrite upd_eq. simpl. unfold h2. destruct rpt.
      + unfold h1. by rewrite upd_eq.
      + rewrite upd_eq. simpl. unfold h1. by rewrite upd_eq.
    - rewrite upd_ne by done. unfold h2. destruct rpt.
      + unfold h1. by rewrite upd_ne.
      + rewrite upd_ne by done. unfold h1. by rewrite upd_ne. }
  rewrite H3. destruct (decide (o ∈ _activeObjects (h this))) as [Hin|Hin].
  - destruct (indexOf_in Hin) as [Hlt Hsp].
    rewrite bool_decide_eq_true_2.
    2:{ destruct (_activeObjects (h this)); [by apply elem_of_nil in Hin | simpl; lia]. }
    apply Z.ltb_lt in Hlt as Hlt'. rewrite Hlt'. rewrite upd_eq. simpl.
    by rewrite H3.
  - rewrite remove_first_notin by done.
    rewrite (indexOf_notin Hin). 
    destruct (bool_decide _); simpl; done.
Qed.

Lemma deselect_pointwise this o (h : Heap) i :
  __objectSelectionMonitor this false o h i =
  (if bool_decide (o ∈ _activeObjects (h this))
   then _set_dirty this true
          (upd h this (fun n =>
             with_activeObjects n (remove_first o (_activeObjects n))))
   else h) i.
Proof.
  unfold __objectSelectionMonitor.
  destruct (decide (o ∈ _activeObjects (h this))) as [Hin|Hin].
  - rewrite (bool_decide_eq_true_2 _ Hin).
    destruct (indexOf_in Hin) as [Hlt Hsp].
    rewrite bool_decide_eq_true_2.
    2:{ destruct (_activeObjects (h this)); [by apply elem_of_nil in Hin | simpl; lia]. }
    apply Z.ltb_lt in Hlt as Hlt'. rewrite Hlt'.
    unfold _set_dirty. destruct (decide (i = this)) as [->|Hne].
    + rewrite !upd_eq. simpl. by rewrite Hsp.
    + by rewrite !upd_ne.
  - rewrite (bool_decide_eq_false_2 _ Hin). rewrite (indexOf_notin Hin).
    by destruct (bool_decide _).
Qed.

(** C10 (the list of active objects).  A 'selected' event appends the
    object and sets [dirty] whatever the list holds, so two events in a row
    leave it there twice; a 'deselected' event, like leaving the group, takes
    out the first occurrence only, and sets [dirty] only when the object was
    in the list. *)
Theorem active_objects_plain_list this o (h : Heap) :
  (* a 'selected' event appends the child, whatever the list holds *)
  _activeObjects (__objectSelectionMonitor this true o h this) = _activeObjects (h this) ++ [o]
  /\ dirty (__objectSelectionMonitor this true o h this) = true
  (* selected twice: two entries *)
  /\ _activeObjects (__objectSelectionMonitor this true o
                       (__objectSelectionMonitor this true o h) this)
     = _activeObjects (h this) ++ [o; o]
  (* a 'deselected' event takes out the first occurrence only *)
  /\ _activeObjects (__objectSelectionMonitor this false o h this)
     = remove_first o (_activeObjects (h this))
  /\ dirty (__objectSelectionMonitor this false o h this)
     = (if bool_decide (o ∈ _activeObjects (h this)) then true else dirty (h this))
  /\ (forall i, __objectSelectionMonitor this false o h i
       = (if bool_decide (o ∈ _activeObjects (h this))
          then _set_dirty this true
                 (upd h this (fun n =>
                    with_activeObjects n (remove_first o (_activeObjects n))))
          else h) i)
  (* so does leaving the group *)
  /\ forall (BO : BaseObject) rpt,
       _activeObjects (_exitGroup this o rpt h this)
       = remove_first o (_activeObjects (h this)).
Proof.
  assert (Hsel : forall h : Heap,
    _activeObjects (__objectSelectionMonitor this true o h this) = _activeObjects (h this) ++ [o]).
  { intros h0. unfold __objectSelectionMonitor, _set_dirty. by rewrite !upd_eq. }
  split; [apply Hsel|]. split.
  { unfold __objectSelectionMonitor, _set_dirty. by rewrite !upd_eq. }
  split. { rewrite !Hsel. by rewrite <- app_assoc. }
  split.
  { rewrite deselect_pointwise. case_bool_decide as Hin.
    - unfold _set_dirty. by rewrite !upd_eq.
    - by rewrite remove_first_notin. }
  split.
  { rewrite deselect_pointwise. case_bool_decide as Hin; [|done].
    unfold _set_dirty. by rewrite !upd_eq. }
  split; [apply deselect_pointwise|].
  intros. apply exitGroup_activeObjects.
Qed.
End Selection.


(** ** Ancestor chains *)

Section Chains.
Context {SC : Scalars}.
Implicit Types (h : Heap) (l : list id).

Lemma getAncestors_loop_chain fuel strict h par l :
  getAncestors_loop fuel strict h par = Some l -> chain strict h par l.
Proof.
  revert par l. induction fuel as [|f IH]; intros [p|] l H; simpl in H;
    simplify_eq; try constructor.
  destruct (getAncestors_loop f strict h (parentOf strict h p)) as [l'|] eqn:E;
    simpl in H; simplify_eq.
  constructor. by apply IH.
Qed.

Lemma chain_fuel strict h par l fuel :
  chain strict h par l -> length l <= fuel ->
  getAncestors_loop fuel strict h par = Some l.
Proof.
  intros Hc. revert fuel. induction Hc as [|p l Hc IH]; intros fuel Hlen.
  - by destruct fuel.
  - simpl in Hlen. destruct fuel as [|f]; [lia|]. simpl.
    rewrite IH by lia. done.
Qed.

Lemma chain_functional strict h par l l' :
  chain strict h par l -> chain strict h par l' -> l = l'.
Proof.
  intros Hc. revert l'. induction Hc as [|p l Hc IH]; intros l' Hc'; inversion Hc'; subst; [done|].
  f_equal. by apply IH.
Qed.

Lemma chain_drop strict h par l j x :
  chain strict h par l -> l !! j = Some x ->
  chain strict h (parentOf strict h x) (drop (S j) l).
Proof.
  intros Hc. revert j. induction Hc as [|p l Hc IH]; intros j Hj; [done|].
  destruct j as [|j]; simpl in *.
  - simplify_eq. by rewrite drop_0.
  - by apply IH.
Qed.

Lemma chain_not_self strict h x l :
  chain strict h (parentOf strict h x) l -> x ∉ l.
Proof.
  intros Hc Hx. apply list_elem_of_lookup in Hx as [j Hj].
  pose proof (chain_drop Hc Hj) as Hd.
  pose proof (chain_functional Hc Hd) as Heq.
  apply (f_equal length) in Heq. rewrite length_drop in Heq.
  apply lookup_lt_Some in Hj. lia.
Qed.

Lemma chain_NoDup strict h par l : chain strict h par l -> NoDup l.
Proof.
  induction 1 as [|p l Hc IH]; constructor; [|done].
  by apply chain_not_self in Hc.
Qed.

Lemma chain_suffix strict h par l j x :
  chain strict h par l -> l !! j = Some x ->
  forall l', chain strict h (parentOf strict h x) l' -> l = take (S j) l ++ l'.
Proof.
  intros Hc Hj l' Hl'. rewrite <- (take_drop (S j) l) at 1. f_equal.
  eapply chain_functional; [|done]. by eapply chain_drop.
Qed.

End Chains.

Section Comparison.
Context {SC : Scalars}.
Implicit Types (h : Heap) (l : list id).

Lemma fca_inner_this this other a i anc oanc pre post j :
  this ∉ pre -> a ∉ pre ->
  fca_inner this other a i anc oanc j (pre ++ this :: post) =
  Some {| fork := []; otherFork := other :: take (j + length pre) oanc;
          common := this :: anc |}.
Proof.
  revert j. induction pre as [|x pre IH]; intros j Ht Ha; simpl.
  - rewrite decide_True by done. by rewrite Nat.add_0_r.
  - apply not_elem_of_cons in Ht as [? ?]. apply not_elem_of_cons in Ha as [? ?].
    rewrite !decide_False by done. rewrite IH by done.
    by replace (S j + length pre) with (j + S (length pre)) by lia.
Qed.

Lemma fca_inner_ancestor this other a i anc oanc pre post j :
  this ∉ pre -> a ∉ pre -> this <> a ->
  fca_inner this other a i anc oanc j (pre ++ a :: post) =
  Some {| fork := this :: take i anc; otherFork := other :: take (j + length pre) oanc;
          common := drop i anc |}.
Proof.
  revert j. induction pre as [|x pre IH]; intros j Ht Ha Hne; simpl.
  - rewrite decide_False by done. rewrite decide_True by done. by rewrite Nat.add_0_r.
  - apply not_elem_of_cons in Ht as [? ?]. apply not_elem_of_cons in Ha as [? ?].
    rewrite !decide_False by done. rewrite IH by done.
    by replace (S j + length pre) with (j + S (length pre)) by lia.
Qed.

Lemma fca_inner_none this other a i anc oanc rest j :
  this ∉ rest -> a ∉ rest ->
  fca_inner this other a i anc oanc j rest = None.
Proof.
  revert j. induction rest as [|x rest IH]; intros j Ht Ha; simpl; [done|].
  apply not_elem_of_cons in Ht as [? ?]. apply not_elem_of_cons in Ha as [? ?].
  rewrite !decide_False by done. by apply IH.
Qed.

Lemma fca_outer_skip this other anc oanc pre rest i :
  this ∉ oanc ->
  (forall a, a ∈ pre -> a <> other /\ a ∉ oanc) ->
  fca_outer this other anc oanc i (pre ++ rest) =
  fca_outer this other anc oanc (i + length pre) rest.
Proof.
  intros Ht. revert i. induction pre as [|x pre IH]; intros i Hpre; simpl.
  - by rewrite Nat.add_0_r.
  - destruct (Hpre x) as [Hx1 Hx2]; [apply elem_of_cons; by left|].
    rewrite decide_False by done. rewrite fca_inner_none by done.
    rewrite IH. { by replace (S i + length pre) with (i + S (length pre)) by lia. }
    intros a Ha. apply Hpre. apply elem_of_cons; by right.
Qed.

Lemma first_index_split (P : id -> Prop) `{forall x, Decision (P x)} l i x :
  list_find P l = Some (i, x) ->
  l = take i l ++ x :: drop (S i) l /\ length (take i l) = i /\ P x /\
  forall y, y ∈ take i l -> ~ P y.
Proof.
  intros Hf. apply list_find_Some in Hf as (Hi & HP & Hbefore).
  split; [by rewrite take_drop_middle|]. split.
  { apply lookup_lt_Some in Hi. rewrite length_take. lia. }
  split; [done|]. intros y Hy. apply list_elem_of_lookup in Hy as [k Hk].
  apply lookup_take_Some in Hk as [Hk Hlt]. eauto.
Qed.

(** The comparison of two ancestor lists, when they are chains of the heap,
    gives what the specification describes. *)
Lemma fca_compare_refines_spec h strict this other anc oanc :
  this <> other ->
  chain strict h (parentOf strict h this) anc ->
  chain strict h (parentOf strict h other) oanc ->
  fca_compare this other anc oanc = findCommonAncestors_spec this other anc oanc.
Proof.
  intros Hne Hca Hco. unfold fca_compare, findCommonAncestors_spec.
  pose proof (chain_not_self Hca) as Hta. pose proof (chain_not_self Hco) as Hoo.
  pose proof (chain_NoDup Hca) as Hnda. pose proof (chain_NoDup Hco) as Hndo.
  destruct (decide (anc = [] /\ last oanc = Some this)) as [[-> Hl]|Hcase2].
  { rewrite (bool_decide_eq_true_2 ([] = [])) by done.
    rewrite (bool_decide_eq_true_2 _ Hl).
    rewrite bool_decide_eq_true_2 by (intros ->; done).
    rewrite bool_decide_eq_true_2 by done. done. }
  rewrite (bool_decide_eq_false_2 _ Hcase2).
  replace (bool_decide (anc = []) && bool_decide (oanc <> []) && bool_decide (last oanc = Some this))
    with false.
  2:{ symmetry. repeat case_bool_decide; simpl; try done. exfalso; auto. }
  destruct (list_find (fun oa => this = oa) oanc) as [[j x]|] eqn:Hfind.
  - (* [this] is one of [other]'s ancestors *)
    apply first_index_split in Hfind as (Hsplit & Hlen & <- & Hpre).
    assert (Hj : oanc !! j = Some this).
    { rewrite Hsplit. rewrite lookup_app_r by lia. by rewrite Hlen, Nat.sub_diag. }
    pose proof (chain_drop Hco Hj) as Hd.
    pose proof (chain_functional Hca Hd) as Hanc.
    destruct anc as [|a0 anc'].
    { exfalso. apply Hcase2. split; [done|].
      rewrite Hsplit, <- Hanc. rewrite last_app. done. }
    simpl. rewrite decide_False.
    2:{ intros ->. apply Hoo. rewrite Hsplit, <- Hanc. set_solver. }
    rewrite Hsplit at 2. rewrite fca_inner_this.
    + by rewrite Hlen.
    + intros Hin. by apply (Hpre this).
    + intros Hin. rewrite Hsplit, <- Hanc in Hndo.
      apply NoDup_app in Hndo as (_ & Hdisj & _). apply (Hdisj a0 Hin). set_solver.
  - (* it is not *)
    assert (Hto : this ∉ oanc).
    { intros Hin. apply list_elem_of_lookup in Hin as [j Hj].
      eapply list_find_None in Hfind. rewrite Forall_forall in Hfind.
      apply (Hfind this); [|done]. by eapply list_elem_of_lookup_2. }
    destruct (list_find (fun a => a = other \/ a ∈ oanc) anc) as [[i a]|] eqn:Hfa.
    + apply first_index_split in Hfa as (Hsplit & Hlen & Ha & Hpre).
      rewrite Hsplit at 2. rewrite fca_outer_skip; [|done|].
      2:{ intros y Hy. specialize (Hpre y Hy). tauto. }
      rewrite Hlen. simpl. destruct (decide (a = other)) as [->|Hao]; [done|].
      destruct Ha as [?|Hain]; [done|].
      destruct (list_find (fun oa => a = oa) oanc) as [[j y]|] eqn:Hfj.
      * apply first_index_split in Hfj as (Hsplit' & Hlen' & <- & Hpre').
        rewrite Hsplit' at 2. rewrite fca_inner_ancestor.
        -- by rewrite Hlen'.
        -- intros Hin. apply Hto. rewrite Hsplit'. set_solver.
        -- intros Hin. by apply (Hpre' a).
        -- intros ->. done.
      * exfalso. eapply list_find_None in Hfj. rewrite Forall_forall in Hfj.
        by apply (Hfj a).
    + eapply list_find_None in Hfa. rewrite Forall_forall in Hfa.
      rewrite <- (app_nil_r anc) at 2. rewrite fca_outer_skip; [done|done|].
      intros y Hy. specialize (Hfa y Hy). tauto.
Qed.

End Comparison.

Section Forks.
Context {SC : Scalars}.
Implicit Types (h : Heap) (l : list id).

Lemma getAncestors_chain fuel h this strict l :
  getAncestors fuel h this strict = Some l -> chain strict h (parentOf strict h this) l.
Proof. apply getAncestors_loop_chain. Qed.

Lemma findCommonAncestors_ne fuel h this other strict anc oanc :
  this <> other ->
  getAncestors fuel h this strict = Some anc ->
  getAncestors fuel h other strict = Some oanc ->
  findCommonAncestors fuel h this other strict =
  Some (findCommonAncestors_spec this other anc oanc).
Proof.
  intros Hne Ha Ho. unfold findCommonAncestors. rewrite decide_False by done.
  rewrite Ha, Ho. simpl. f_equal.
  eapply fca_compare_refines_spec; eauto using getAncestors_chain.
Qed.

(* Neither fork of the comparison holds the other node. *)
Lemma spec_forks this other anc oanc :
  this <> other -> this ∉ anc -> other ∉ oanc -> NoDup oanc ->
  (other ∉ fork (findCommonAncestors_spec this other anc oanc))
  /\ (this ∉ otherFork (findCommonAncestors_spec this other anc oanc)).
Proof.
  intros Hne Hta Hoo Hnd. unfold findCommonAncestors_spec.
  case_bool_decide as Hc2.
  { destruct Hc2 as [-> Hl]. simpl. split; [set_solver|].
    apply last_Some in Hl as [l' ->]. rewrite length_app. simpl.
    replace (length l' + 1 - 1) with (length l') by lia.
    rewrite take_app_length. apply NoDup_app in Hnd as (_ & Hd & _).
    intros Hin. apply elem_of_cons in Hin as [?|Hin]; [done|].
    apply (Hd this Hin). set_solver. }
  destruct (list_find (fun oa => this = oa) oanc) as [[j x]|] eqn:Hfind.
  { apply first_index_split in Hfind as (Hsplit & Hlen & <- & Hpre). simpl.
    split; [set_solver|]. intros Hin. apply elem_of_cons in Hin as [?|Hin]; [done|].
    by apply (Hpre this). }
  assert (Hto : this ∉ oanc).
  { intros Hin. eapply list_find_None in Hfind. rewrite Forall_forall in Hfind.
    by apply (Hfind this). }
  destruct (list_find (fun a => a = other \/ a ∈ oanc) anc) as [[i a]|] eqn:Hfa.
  - apply first_index_split in Hfa as (Hsplit & Hlen & Ha & Hpre). simpl. split.
    + intros Hin. apply elem_of_cons in Hin as [?|Hin]; [done|].
      apply (Hpre other Hin). by left.
    + destruct (decide (a = other)); [set_solver|].
      intros Hin. apply elem_of_cons in Hin as [?|Hin]; [done|].
      apply Hto. rewrite <- (take_drop (default 0 (fst <$> list_find (fun oa => a = oa) oanc)) oanc).
      apply elem_of_app; by left.
  - eapply list_find_None in Hfa. rewrite Forall_forall in Hfa. simpl. split.
    + intros Hin. apply elem_of_cons in Hin as [?|Hin]; [done|].
      apply (Hfa other Hin). by left.
    + set_solver.
Qed.

Lemma isInFrontOf_indices fuel h this other r :
  this <> other ->
  findCommonAncestors fuel h this other false = Some r ->
  isInFrontOf fuel h this other =
  Some (match head (common r) with
        | None => None
        | Some c =>
            let thisIndex := indexOf_opt (_objects (h c)) (last (fork r)) in
            let otherIndex := indexOf_opt (_objects (h c)) (last (otherFork r)) in
            Some ((-1 <? thisIndex)%Z && (otherIndex <? thisIndex)%Z)
        end).
Proof.
  intros Hne Hf. unfold isInFrontOf. rewrite decide_False by done. rewrite Hf. simpl.
  unfold findCommonAncestors in Hf. rewrite decide_False in Hf by done.
  destruct (getAncestors fuel h this false) as [anc|] eqn:Ha; [|done].
  destruct (getAncestors fuel h other false) as [oanc|] eqn:Ho; [|done].
  simpl in Hf. injection Hf as <-.
  apply getAncestors_chain in Ha, Ho.
  rewrite (fca_compare_refines_spec Hne Ha Ho).
  destruct (@spec_forks this other anc oanc Hne) as [H1 H2];
    eauto using chain_not_self, chain_NoDup.
  unfold includes. rewrite !bool_decide_eq_false_2 by done. by destruct (head _).
Qed.


Lemma last_cons_take (x : id) l i d :
  l !! i = Some d ->
  exists c, last (x :: take i l) = Some c /\
            (i = 0 /\ c = x \/ exists k, i = S k /\ l !! k = Some c).
Proof.
  intros Hi. destruct i as [|k].
  - exists x. rewrite take_0. split; [done|]. by left.
  - assert (Hk : is_Some (l !! k)).
    { apply lookup_lt_is_Some. apply lookup_lt_Some in Hi. lia. }
    destruct Hk as [c Hc]. exists c. split; [|right; eauto].
    rewrite (take_S_r _ _ _ Hc). rewrite app_comm_cons. by rewrite last_snoc.
Qed.

(* The head of a fork is a child of the node the fork stops at. *)
Lemma fork_head_parent strict h this anc i d :
  chain strict h (parentOf strict h this) anc ->
  anc !! i = Some d ->
  exists c, last (this :: take i anc) = Some c /\ parentOf strict h c = Some d.
Proof.
  intros Hc Hi. destruct (last_cons_take this Hi) as (c & Hl & [[-> ->]|(k & -> & Hk)]).
  - exists this. split; [done|]. inversion Hc; subst; [done|].
    simpl in Hi. by simplify_eq.
  - exists c. split; [done|]. pose proof (chain_drop Hc Hk) as Hd.
    rewrite (drop_S _ _ _ Hi) in Hd. by inversion Hd.
Qed.

Lemma isInFrontOf_nested fuel h this other anc :
  getAncestors fuel h this false = Some anc ->
  other ∈ anc ->
  kind (h other) <> KCanvas ->
  (forall o c, canvas (h o) = Some c -> kind (h c) = KCanvas) ->
  (forall o g, group (h o) = Some g -> o ∈ _objects (h g)) ->
  isInFrontOf fuel h this other = Some (Some true).
Proof.
  intros Ha Hin Hk Hcan Hmem. pose proof (getAncestors_chain Ha) as Hc.
  pose proof (chain_not_self Hc) as Hta. pose proof (chain_NoDup Hc) as Hnd.
  assert (Hne : this <> other) by (intros ->; done).
  apply list_elem_of_lookup in Hin as [k Hk'].
  pose proof (chain_drop Hc Hk') as Hco.
  assert (Ho : getAncestors fuel h other false = Some (drop (S k) anc)).
  { apply chain_fuel; [done|]. rewrite length_drop.
    assert (length anc <= fuel); [|lia].
    clear -Ha. unfold getAncestors in Ha. revert Ha.
    generalize (parentOf false h this). revert anc.
    induction fuel as [|f IH]; intros anc [p|] H; simpl in H; simplify_eq; simpl; try lia.
    destruct (getAncestors_loop f false h (parentOf false h p)) eqn:E; simpl in H; simplify_eq.
    simpl. apply IH in E. lia. }
  rewrite (isInFrontOf_indices Hne (findCommonAncestors_ne Hne Ha Ho)).
  unfold findCommonAncestors_spec.
  assert (Hto : this ∉ drop (S k) anc).
  { intros Hx. apply Hta. rewrite <- (take_drop (S k) anc). apply elem_of_app; by right. }
  rewrite bool_decide_eq_false_2.
  2:{ intros [_ Hl]. apply Hto. apply last_Some in Hl as [l' ->]. set_solver. }
  replace (list_find (fun oa => this = oa) (drop (S k) anc)) with (@None (nat * id)).
  2:{ symmetry. apply list_find_None, Forall_forall. intros x Hx ->. done. }
  assert (Hfind : list_find (fun a => a = other \/ a ∈ drop (S k) anc) anc = Some (k, other)).
  { apply list_find_Some. split; [done|]. split; [by left|].
    intros j y Hj Hlt [->|Hy].
    - eapply NoDup_lookup in Hnd; [|exact Hj|exact Hk']. lia.
    - apply list_elem_of_lookup in Hy as [m Hm]. rewrite lookup_drop in Hm.
      eapply NoDup_lookup in Hnd; [|exact Hj|exact Hm]. lia. }
  rewrite Hfind. simpl. rewrite decide_True by done.
  rewrite (drop_S _ _ _ Hk'). simpl.
  destruct (fork_head_parent Hc Hk') as (c & Hl & Hp).
  simpl in Hl. rewrite Hl. simpl.
  assert (Hg : group (h c) = Some other).
  { unfold parentOf in Hp. destruct (group (h c)) eqn:Eg; [done|].
    apply Hcan in Hp. done. }
  apply Hmem in Hg. apply indexOf_in in Hg as [Hlt _].
  apply Z.ltb_lt in Hlt. by rewrite Hlt.
Qed.

Lemma isInFrontOf_nesting fuel h this other oanc anc :
  this <> other ->
  getAncestors fuel h this false = Some anc ->
  getAncestors fuel h other false = Some oanc ->
  this ∈ oanc ->
  isInFrontOf fuel h this other = Some (Some false).
Proof.
  intros Hne Ha Ho Hin.
  rewrite (isInFrontOf_indices Hne (findCommonAncestors_ne Hne Ha Ho)).
  unfold findCommonAncestors_spec. case_bool_decide; [done|].
  destruct (list_find (fun oa => this = oa) oanc) as [[j x]|] eqn:Hfind; [done|].
  exfalso. eapply list_find_None in Hfind. rewrite Forall_forall in Hfind.
  by apply (Hfind this).
Qed.

Lemma isInFrontOf_siblings fuel h x y g anc :
  x <> y ->
  group (h x) = Some g -> group (h y) = Some g ->
  getAncestors fuel h x false = Some anc ->
  (0 <= indexOf (_objects (h g)) x < indexOf (_objects (h g)) y)%Z ->
  isInFrontOf fuel h y x = Some (Some true) /\
  isInFrontOf fuel h x y = Some (Some false).
Proof.
  intros Hne Hx Hy Ha Hidx.
  assert (Hay : getAncestors fuel h y false = Some anc).
  { unfold getAncestors, parentOf in *. by rewrite Hy; rewrite Hx in Ha. }
  pose proof (getAncestors_chain Ha) as Hcx. pose proof (getAncestors_chain Hay) as Hcy.
  pose proof (chain_not_self Hcx) as Hxa. pose proof (chain_not_self Hcy) as Hya.
  assert (exists l, anc = g :: l) as [l ->].
  { unfold parentOf in Hcx. rewrite Hx in Hcx. inversion Hcx; eauto. }
  assert (Hspec : forall a b, a <> b -> a ∉ g :: l -> b ∉ g :: l ->
            findCommonAncestors_spec a b (g :: l) (g :: l) =
            {| fork := [a]; otherFork := [b]; common := g :: l |}).
  { intros a b Hab Ha' Hb'. unfold findCommonAncestors_spec.
    rewrite bool_decide_eq_false_2 by (intros [? _]; done).
    replace (list_find (fun oa => a = oa) (g :: l)) with (@None (nat * id)).
    2:{ symmetry. apply list_find_None, Forall_forall. intros z Hz ->. done. }
    simpl. rewrite decide_True by (right; apply elem_of_cons; by left). simpl.
    rewrite decide_False by (intros ->; apply Hb'; apply elem_of_cons; by left).
    rewrite decide_True by done. done. }
  split.
  - rewrite (isInFrontOf_indices (not_eq_sym Hne)
               (findCommonAncestors_ne (not_eq_sym Hne) Hay Ha)).
    rewrite Hspec by done. simpl.
    replace (-1 <? indexOf (_objects (h g)) y)%Z with true by (symmetry; apply Z.ltb_lt; lia).
    replace (indexOf (_objects (h g)) x <? indexOf (_objects (h g)) y)%Z with true
      by (symmetry; apply Z.ltb_lt; lia). done.
  - rewrite (isInFrontOf_indices Hne (findCommonAncestors_ne Hne Ha Hay)).
    rewrite Hspec by done. simpl.
    replace (indexOf (_objects (h g)) y <? indexOf (_objects (h g)) x)%Z with false
      by (symmetry; apply Z.ltb_ge; lia). by rewrite andb_false_r.
Qed.

End Forks.


(** ** What the operations leave untouched *)

Section Frames.
Context {SC : Scalars} {BO : BaseObject}.
Implicit Types (h : Heap) (l : list id).


Lemma same_tree_refl h : same_tree h h.
Proof. by intros i. Qed.
Lemma same_tree_trans h1 h2 h3 : same_tree h1 h2 -> same_tree h2 h3 -> same_tree h1 h3.
Proof.
  intros H1 H2 i. destruct (H1 i) as (?&?&?), (H2 i) as (?&?&?). repeat split; congruence.
Qed.
Lemma same_canvas_refl h : same_canvas h h.
Proof. by intros i. Qed.
Lemma same_canvas_trans h1 h2 h3 : same_canvas h1 h2 -> same_canvas h2 h3 -> same_canvas h1 h3.
Proof. intros H1 H2 i. rewrite H2. apply H1. Qed.

Lemma upd_tree_blind h o f :
  tree_blind f -> same_tree h (upd h o f) /\ same_canvas h (upd h o f).
Proof.
  intros Hf. split; intros i; destruct (decide (i = o)) as [->|Hne];
    rewrite ?upd_eq, ?upd_ne by done; try done; destruct (Hf (h o)) as (?&?&?&?); auto.
Qed.

Lemma tree_blind_geo G : tree_blind (fun n => with_geo n (G n)).
Proof. by intros n. Qed.
Lemma tree_blind_firstLayoutDone b : tree_blind (fun n => with_firstLayoutDone n b).
Proof. by intros n. Qed.
Lemma tree_blind_dirty b : tree_blind (fun n => with_dirty n b).
Proof. by intros n. Qed.
Lemma tree_blind_watchers G : tree_blind (fun n => with_watchers n (G n)).
Proof. by intros n. Qed.
Lemma tree_blind_activeObjects G : tree_blind (fun n => with_activeObjects n (G n)).
Proof. by intros n. Qed.

Lemma adjust_fold_tree diff objs h :
  same_tree h (fold_left (fun h o => _adjustObjectPosition o diff h) objs h)
  /\ same_canvas h (fold_left (fun h o => _adjustObjectPosition o diff h) objs h).
Proof.
  revert h. induction objs as [|o objs IH]; intros h; simpl.
  - split; [apply same_tree_refl | apply same_canvas_refl].
  - destruct (IH (_adjustObjectPosition o diff h)) as [H1 H2].
    destruct (@upd_tree_blind h o (fun n => with_geo n (translate diff (geo n))))
      as [H3 H4]; [apply tree_blind_geo|].
    split; [eapply same_tree_trans | eapply same_canvas_trans]; eauto.
Qed.

Lemma set_initialTransform_tree this ctx h :
  same_tree h (set_initialTransform this ctx h)
  /\ same_canvas h (set_initialTransform this ctx h).
Proof.
  unfold set_initialTransform. destruct (initialTransformOf ctx) as [[[a sx] sy]|].
  - apply upd_tree_blind. by intros n.
  - split; [apply same_tree_refl | apply same_canvas_refl].
Qed.

Lemma frames_trans h1 h2 h3 :
  same_tree h1 h2 /\ same_canvas h1 h2 ->
  same_tree h2 h3 /\ same_canvas h2 h3 ->
  same_tree h1 h3 /\ same_canvas h1 h3.
Proof.
  intros [? ?] [? ?]. split; [eapply same_tree_trans | eapply same_canvas_trans]; eauto.
Qed.

Lemma frames_refl h : same_tree h h /\ same_canvas h h.
Proof. split; [apply same_tree_refl | apply same_canvas_refl]. Qed.

Lemma layout_apply_result_tree h this ctx center result :
  same_tree h (layout_apply_result h this ctx center result)
  /\ same_canvas h (layout_apply_result h this ctx center result).
Proof.
  unfold layout_apply_result.
  set (h1 := upd h this _).
  assert (F1 : same_tree h h1 /\ same_canvas h h1) by (apply upd_tree_blind; by intros n).
  set (h2 := if objectsRelativeToGroup ctx then h1 else _).
  assert (F2 : same_tree h h2 /\ same_canvas h h2).
  { unfold h2. destruct (objectsRelativeToGroup ctx); [done|].
    eapply frames_trans; [exact F1|]. apply adjust_fold_tree. }
  set (h3 := if negb (bool_decide (type ctx = initialization)) && _ then _ else h2).
  assert (F3 : same_tree h h3 /\ same_canvas h h3).
  { unfold h3. destruct (negb _ && negb _); [|done].
    destruct (clipPath (h2 this)); [|done].
    destruct (negb _); [|done].
    eapply frames_trans; [exact F2|]. apply upd_tree_blind. by intros n. }
  destruct (_ || _); [|done].
  eapply frames_trans; [exact F3|].
  eapply frames_trans; [|apply set_initialTransform_tree].
  apply upd_tree_blind. by intros n.
Qed.

Lemma layout_body_tree this ctx h h' r d :
  layout_body this ctx h = Completed h' r d ->
  same_tree h h' /\ same_canvas h h'.
Proof.
  unfold layout_body. destruct (negb _ && negb _); [done|].
  destruct (getLayoutStrategyResult _ _ _ _ _).
  - intros [= <- _ _]. apply layout_apply_result_tree.
  - destruct (bool_decide _); [|done]. intros [= <- _ _].
    apply set_initialTransform_tree.
Qed.

Lemma chain_same_tree h h' par l :
  same_tree h h' -> chain true h par l -> chain true h' par l.
Proof.
  intros Hs. induction 1 as [|p l Hc IH]; constructor.
  unfold parentOf in *. destruct (Hs p) as (_ & -> & _). done.
Qed.

Lemma applyLayout_frame fuel this ctx w w' :
  _applyLayoutStrategy fuel this ctx w = Some w' ->
  same_tree (heap w) (heap w') /\ same_canvas (heap w) (heap w').
Proof.
  revert this ctx w. induction fuel as [|f IH]; intros this ctx w;
    rewrite applyLayout_unfold;
    destruct (layout_body this ctx (heap w)) as [| |h' r d] eqn:Hb;
    try (intros [= <-]; apply frames_refl).
  all: apply layout_body_tree in Hb.
  all: set (h'' := upd h' this _).
  all: assert (F : same_tree (heap w) h'' /\ same_canvas (heap w) h'')
         by (eapply frames_trans; [exact Hb|]; apply upd_tree_blind; by intros n).
  all: cbv zeta; destruct (group (h'' this)) as [g|]; [|by intros [= <-]].
  all: destruct (decide (kind (h'' g) = KGroup)); [|by intros [= <-]].
  - done.
  - intros H. apply IH in H. eapply frames_trans; [exact F|]. exact H.
Qed.

Lemma applyLayout_total fuel this ctx w l :
  chain true (heap w) (parentOf true (heap w) this) l ->
  length l <= fuel ->
  is_Some (_applyLayoutStrategy fuel this ctx w).
Proof.
  revert this ctx w l. induction fuel as [|f IH]; intros this ctx w l Hc Hl;
    rewrite applyLayout_unfold;
    destruct (layout_body this ctx (heap w)) as [| |h' r d] eqn:Hb; try (by eexists).
  all: apply layout_body_tree in Hb.
  all: set (h'' := upd h' this _).
  all: assert (F : same_tree (heap w) h'' /\ same_canvas (heap w) h'')
         by (eapply frames_trans; [exact Hb|]; apply upd_tree_blind; by intros n).
  all: destruct F as [F _]; cbv zeta.
  all: destruct (group (h'' this)) as [g|] eqn:Hg; [|by eexists].
  all: destruct (decide (kind (h'' g) = KGroup)); [|by eexists].
  all: destruct (F this) as (_ & Hgr & _); rewrite Hg in Hgr.
  all: assert (Hp : parentOf true (heap w) this = Some g) by (unfold parentOf; by rewrite <- Hgr).
  all: rewrite Hp in Hc; inversion Hc; subst.
  - simpl in Hl. lia.
  - eapply IH; [|simpl in Hl; apply le_S_n, Hl].
    simpl. eapply chain_same_tree; [exact F|].
    replace (parentOf true h'' g) with (parentOf true (heap w) g); [done|].
    unfold parentOf. by destruct (F g) as (_ & -> & _).
Qed.

End Frames.

Section Canvas.
Context {SC : Scalars}.
Implicit Types (h : Heap) (l : list id).

Lemma forEachM_nil {S} (f : id -> S -> option S) s : forEachM f [] s = Some s.
Proof. done. Qed.

Lemma fold_bind_None {S} (f : id -> S -> option S) objs :
  fold_left (fun acc o => acc ≫= f o) objs None = None.
Proof. induction objs; simpl; done. Qed.

Lemma forEachM_cons {S} (f : id -> S -> option S) o objs s :
  forEachM f (o :: objs) s = f o s ≫= forEachM f objs.
Proof.
  unfold forEachM. simpl. destruct (f o s); simpl; [done|]. apply fold_bind_None.
Qed.

Lemma forEachM_inv {S} (P : S -> S -> Prop) (f : id -> S -> option S) objs :
  (forall s, P s s) -> (forall s1 s2 s3, P s1 s2 -> P s2 s3 -> P s1 s3) ->
  (forall o s s', o ∈ objs -> f o s = Some s' -> P s s') ->
  forall s s', forEachM f objs s = Some s' -> P s s'.
Proof.
  intros Hr Ht. induction objs as [|o objs IH]; intros Hf s s' H.
  - injection H as <-. apply Hr.
  - rewrite forEachM_cons in H. destruct (f o s) as [s1|] eqn:E; [|done]. simpl in H.
    eapply Ht.
    + eapply Hf; [|exact E]. apply elem_of_cons; by left.
    + eapply IH; [|exact H]. intros o' s2 s3 Ho'. apply Hf. apply elem_of_cons; by right.
Qed.

Lemma forEachM_total {S} (I : S -> Prop) (f : id -> S -> option S) objs :
  (forall o s, o ∈ objs -> I s -> exists s', f o s = Some s' /\ I s') ->
  forall s, I s -> exists s', forEachM f objs s = Some s' /\ I s'.
Proof.
  induction objs as [|o objs IH]; intros Hf s Hs.
  - exists s. done.
  - rewrite forEachM_cons. destruct (Hf o s) as (s1 & -> & Hs1); [apply elem_of_cons; by left|done|].
    simpl. apply IH; [|done]. intros o' s2 Ho'. apply Hf. apply elem_of_cons; by right.
Qed.


Lemma canvas_step_refl v h : canvas_step v h h.
Proof. split; [apply same_tree_refl|]. by left. Qed.
Lemma canvas_step_trans v h1 h2 h3 :
  canvas_step v h1 h2 -> canvas_step v h2 h3 -> canvas_step v h1 h3.
Proof.
  intros [H1 Cv1] [H2 Cv2]. split; [by eapply same_tree_trans|].
  intros i. destruct (Cv2 i) as [->| ->]; [apply Cv1 | by right].
Qed.

Lemma set_canvas_unfold fuel o v h :
  _set_canvas fuel o v h =
  let prev := canvas (h o) in
  let h1 := upd h o (fun n => with_canvas n v) in
  if decide (kind (h o) = KGroup) then
    if decide (prev = v) then Some h1
    else
      match fuel with
      | O => None
      | S f => forEachM (fun o h => _set_canvas f o v h) (_objects (h1 o)) h1
      end
  else Some h1.
Proof. by destruct fuel. Qed.

Lemma upd_canvas_step v h o : canvas_step v h (upd h o (fun n => with_canvas n v)).
Proof.
  split.
  - intros i. destruct (decide (i = o)) as [->|?]; rewrite ?upd_eq, ?upd_ne by done; done.
  - intros i. destruct (decide (i = o)) as [->|?]; rewrite ?upd_eq, ?upd_ne by done; auto.
Qed.

Lemma set_canvas_frame fuel o v h h' :
  _set_canvas fuel o v h = Some h' -> canvas_step v h h'.
Proof.
  revert o h h'. induction fuel as [|f IH]; intros o h h'; rewrite set_canvas_unfold; cbv zeta.
  - destruct (decide _); [destruct (decide _); [|done]|]; intros [= <-]; apply upd_canvas_step.
  - destruct (decide _); [destruct (decide _)|]; try (intros [= <-]; apply upd_canvas_step).
    intros H. eapply canvas_step_trans; [apply upd_canvas_step|].
    eapply (forEachM_inv (P := canvas_step v)); [apply canvas_step_refl|apply canvas_step_trans| |exact H].
    intros o' s s' _. apply IH.
Qed.

Lemma set_canvas_total (B : nat) (h0 : Heap) o v :
  (forall x l, chain true h0 (Some x) l -> length l <= B) ->
  (forall d l c, chain true h0 (Some d) l -> o ∈ l -> kind (h0 d) = KGroup ->
                 c ∈ _objects (h0 d) -> group (h0 c) = Some d) ->
  forall fuel d l h,
    chain true h0 (Some d) l -> o ∈ l -> B < fuel + length l ->
    same_tree h0 h ->
    exists h', _set_canvas fuel d v h = Some h' /\ same_tree h0 h'.
Proof.
  intros HB Hcons. induction fuel as [|f IH]; intros d l h Hc Ho Hlt Hs;
    rewrite set_canvas_unfold; cbv zeta.
  all: pose proof (upd_canvas_step v h d) as [Hs1 _].
  all: assert (Hs01 : same_tree h0 (upd h d (fun n => with_canvas n v)))
         by (by eapply same_tree_trans).
  all: destruct (decide _) as [Hk|]; [destruct (decide _)|]; eauto.
  - apply HB in Hc. lia.
  - destruct (Hs d) as (Hkd & _ & _). destruct (Hs01 d) as (_ & _ & Hobj). rewrite Hobj.
    apply (forEachM_total (I := same_tree h0)); [|done].
    intros c s Hc' Hs'. eapply IH; [| | |done].
    + constructor. unfold parentOf. rewrite (Hcons d l c); [exact Hc|done|done|congruence|done].
    + apply elem_of_cons; by right.
    + simpl. lia.
Qed.

Lemma isDescendantOf_total fuel h target p l :
  (forall i c, canvas (h i) = Some c -> kind (h c) = KCanvas) ->
  chain true h (Some p) l -> length l <= fuel ->
  is_Some (isDescendantOf_loop fuel h target (Some p)).
Proof.
  intros Hcan. revert p l. induction fuel as [|f IH]; intros p l Hc Hl.
  - inversion Hc; subst. simpl in Hl. lia.
  - simpl. destruct (decide (target = p)); [by eexists|].
    destruct (decide (kind (h p) = KCanvas)); [by eexists|].
    inversion Hc as [|? l' Hc']; subst. simpl in Hl.
    unfold parentOf in *. destruct (group (h p)) as [g|] eqn:Hg.
    + eapply IH; [exact Hc'|lia].
    + destruct (canvas (h p)) as [c|] eqn:Hcp.
      * apply Hcan in Hcp. destruct f; simpl.
        -- destruct (decide (target = c)); [by eexists|]. rewrite decide_True by done. by eexists.
        -- destruct (decide (target = c)); [by eexists|]. rewrite decide_True by done. by eexists.
      * destruct f; simpl; by eexists.
Qed.

End Canvas.

Section Steps.
Context {SC : Scalars} {BO : BaseObject}.
Implicit Types (h : Heap) (l : list id).


Lemma same_tree_sym h h' : same_tree h h' -> same_tree h' h.
Proof. intros H i. destruct (H i) as (?&?&?). auto. Qed.

Lemma bounded_same_tree B h h' : same_tree h h' -> bounded B h -> bounded B h'.
Proof.
  intros Hs Hb x. destruct (Hb x) as (l & Hc & Hl). exists l. split; [|done].
  by eapply chain_same_tree.
Qed.

Lemma bounded_le B h x l : bounded B h -> chain true h (Some x) l -> length l <= B.
Proof.
  intros Hb Hc. destruct (Hb x) as (l' & Hc' & Hl).
  by rewrite (chain_functional Hc Hc').
Qed.

Lemma consistent_below_same_tree h h' o :
  same_tree h h' -> consistent_below h o -> consistent_below h' o.
Proof.
  intros Hs Hc d l c Hch Ho Hk Hin.
  destruct (Hs d) as (Hkd & _ & Hod), (Hs c) as (_ & Hgc & _).
  rewrite Hgc. eapply Hc; eauto.
  - eapply chain_same_tree; [apply same_tree_sym, Hs|done].
  - congruence.
  - congruence.
Qed.

(* the tree after [_exitGroup] *)
Lemma exitGroup_tree this o rpt h i :
  kind (_exitGroup this o rpt h i) = kind (h i)
  /\ _objects (_exitGroup this o rpt h i) = _objects (h i)
  /\ canvas (_exitGroup this o rpt h i) = canvas (h i)
  /\ group (_exitGroup this o rpt h i) = (if decide (i = o) then None else group (h i)).
Proof.
  unfold _exitGroup.
  set (h1 := upd h o _). set (h2 := if rpt then h1 else _).
  set (h3 := _watchObject this false o h2).
  assert (H1 : kind (h1 i) = kind (h i) /\ _objects (h1 i) = _objects (h i)
               /\ canvas (h1 i) = canvas (h i)
               /\ group (h1 i) = (if decide (i = o) then None else group (h i))).
  { unfold h1. destruct (decide (i = o)) as [->|?]; rewrite ?upd_eq, ?upd_ne by done; done. }
  assert (F2 : same_tree h1 h2 /\ same_canvas h1 h2).
  { unfold h2. destruct rpt; [apply frames_refl|]. apply upd_tree_blind. by intros n. }
  assert (F3 : same_tree h2 h3 /\ same_canvas h2 h3).
  { unfold h3, _watchObject. apply upd_tree_blind. by intros n. }
  match goal with
  | |- context [if ?c then upd h3 this ?f else h3] =>
      assert (F4 : same_tree h3 (if c then upd h3 this f else h3)
                   /\ same_canvas h3 (if c then upd h3 this f else h3))
  end.
  { destruct (_ <? _)%Z; [|apply frames_refl]. apply upd_tree_blind. by intros n. }
  pose proof (frames_trans F2 (frames_trans F3 F4)) as [Ft Fc].
  destruct (Ft i) as (-> & -> & ->). rewrite Fc. tauto.
Qed.

Lemma onObjectRemoved_ok fuel B this o w :
  let hx := _exitGroup this o false (heap w) in
  bounded B hx -> consistent_below hx o -> B <= fuel ->
  exists w', _onObjectRemoved fuel this o false w = Some w'
    /\ same_tree hx (heap w')
    /\ (forall i, canvas (heap w' i) = canvas (heap w i) \/ canvas (heap w' i) = None).
Proof.
  intros hx Hb Hc Hf. unfold _onObjectRemoved, exitGroup. fold hx.
  destruct (Hb o) as (l & Hl & Hlen).
  assert (Hl1 : l = [o]).
  { inversion Hl as [|? l' Hl']; subst. unfold parentOf in Hl'.
    destruct (exitGroup_tree this o false (heap w) o) as (_ & _ & _ & Hg).
    fold hx in Hg. rewrite decide_True in Hg by done. rewrite Hg in Hl'.
    by inversion Hl'. }
  subst l.
  destruct (@set_canvas_total _ B hx o None) with (fuel := fuel) (d := o) (l := [o]) (h := hx)
    as (h' & Hs & Ht); eauto using bounded_le, same_tree_refl.
  { apply elem_of_cons; by left. }
  { simpl. lia. }
  rewrite Hs. simpl. eexists. split; [done|]. simpl. split; [done|].
  intros i. apply set_canvas_frame in Hs as [_ Hcv].
  destruct (exitGroup_tree this o false (heap w) i) as (_ & _ & Hcx & _). fold hx in Hcx.
  rewrite <- Hcx. apply Hcv.
Qed.

End Steps.

Section Entering.
Context {SC : Scalars} {BO : BaseObject}.
Implicit Types (h : Heap) (l : list id).

Lemma typed_canvas_step (h h' : Heap) v :
  typed_canvas h -> (forall c, kind (h' c) = kind (h c)) ->
  (forall c, v = Some c -> kind (h c) = KCanvas) ->
  (forall i, canvas (h' i) = canvas (h i) \/ canvas (h' i) = v) ->
  typed_canvas h'.
Proof.
  intros Ht Hs Hv Hc i c Hi. rewrite Hs.
  destruct (Hc i) as [E|E]; rewrite E in Hi; eauto.
Qed.

Lemma enterGroup_inner_ok fuel B this o rpt h :
  (forall h2 : Heap,
      (forall i, kind (h2 i) = kind (h i) /\ _objects (h2 i) = _objects (h i)
                 /\ group (h2 i) = (if decide (i = o) then Some this else group (h i))) ->
      bounded B h2 /\ consistent_below h2 o) ->
  typed_canvas h -> B <= fuel ->
  exists h', _enterGroup fuel this o rpt h = Some h'
    /\ (forall i, kind (h' i) = kind (h i) /\ _objects (h' i) = _objects (h i)
                  /\ group (h' i) = (if decide (i = o) then Some this else group (h i)))
    /\ typed_canvas h'.
Proof.
  intros Hcond Htc Hf. unfold _enterGroup.
  set (h1 := if rpt then _ else h).
  assert (F1 : same_tree h h1 /\ same_canvas h h1).
  { unfold h1. destruct rpt; [|apply frames_refl]. apply upd_tree_blind. by intros n. }
  set (h2 := upd h1 o (fun n => with_group n (Some this))).
  assert (T2 : forall i, kind (h2 i) = kind (h i) /\ _objects (h2 i) = _objects (h i)
                 /\ group (h2 i) = (if decide (i = o) then Some this else group (h i))).
  { intros i. destruct F1 as [F1 _]. destruct (F1 i) as (Hk & Hg & Ho). unfold h2.
    destruct (decide (i = o)) as [->|?]; rewrite ?upd_eq, ?upd_ne by done; simpl; auto. }
  assert (Cv2 : same_canvas h h2).
  { intros i. destruct F1 as [_ F1]. rewrite <- (F1 i). unfold h2.
    destruct (decide (i = o)) as [->|?]; rewrite ?upd_eq, ?upd_ne by done; done. }
  destruct (Hcond h2 T2) as [Hb Hc].
  destruct (Hb o) as (l & Hl & Hlen).
  destruct (@set_canvas_total _ B h2 o (canvas (h2 this))) with (fuel := fuel) (d := o) (l := l) (h := h2)
    as (h3 & Hs & Ht); eauto using bounded_le, same_tree_refl.
  { inversion Hl; subst. apply elem_of_cons; by left. }
  { inversion Hl; subst. simpl. lia. }
  rewrite Hs. simpl.
  pose proof (set_canvas_frame Hs) as [_ Hcv].
  assert (Htc3 : typed_canvas h3).
  { intros i c Hi. destruct (Ht c) as (-> & _ & _). destruct (T2 c) as (-> & _ & _).
    destruct (Hcv i) as [E|E]; rewrite E in Hi; rewrite Cv2 in Hi; eauto. }
  set (h4 := if interactive (h3 this) then _ else h3).
  assert (F4 : same_tree h3 h4 /\ same_canvas h3 h4).
  { unfold h4. destruct (interactive _); [|apply frames_refl].
    unfold _watchObject. eapply frames_trans; apply upd_tree_blind; by intros n. }
  destruct F4 as [F4 Cv4].
  assert (T4 : forall i, kind (h4 i) = kind (h i) /\ _objects (h4 i) = _objects (h i)
                 /\ group (h4 i) = (if decide (i = o) then Some this else group (h i))).
  { intros i. destruct (F4 i) as (-> & -> & ->). destruct (Ht i) as (-> & -> & ->). apply T2. }
  assert (Htc4 : typed_canvas h4).
  { intros i c Hi. rewrite Cv4 in Hi. apply Htc3 in Hi. by destruct (F4 c) as (-> & _ & _). }
  assert (Hpush : forall h5 : Heap, (forall i, kind (h5 i) = kind (h i) /\ _objects (h5 i) = _objects (h i)
                 /\ group (h5 i) = (if decide (i = o) then Some this else group (h i))) ->
             typed_canvas h5 ->
             (forall i, kind (upd h5 this (fun n => with_activeObjects n (_activeObjects n ++ [o])) i) = kind (h i)
                /\ _objects (upd h5 this (fun n => with_activeObjects n (_activeObjects n ++ [o])) i) = _objects (h i)
                /\ group (upd h5 this (fun n => with_activeObjects n (_activeObjects n ++ [o])) i)
                   = (if decide (i = o) then Some this else group (h i)))
             /\ typed_canvas (upd h5 this (fun n => with_activeObjects n (_activeObjects n ++ [o])))).
  { intros h5 T5 Htc5.
    destruct (@upd_tree_blind _ h5 this (fun n => with_activeObjects n (_activeObjects n ++ [o])))
      as [F5 Cv5]; [by intros n|].
    split.
    - intros i. destruct (F5 i) as (-> & -> & ->). apply T5.
    - intros i c Hi. rewrite Cv5 in Hi. apply Htc5 in Hi. by destruct (F5 c) as (-> & _ & _). }
  destruct (canvas (h4 this) ≫= (fun c => activeObject (h4 c))) as [a|]; [|eauto].
  destruct (decide (a = o)); [eexists; split; [done|]; by apply Hpush|].
  assert (Hd : is_Some (isDescendantOf fuel h4 o a)).
  { unfold isDescendantOf.
    assert (Hp : parentOf false h4 o = Some this).
    { unfold parentOf. destruct (T4 o) as (_ & _ & ->). by rewrite decide_True. }
    rewrite Hp.
    assert (Hb4 : bounded B h4).
    { eapply bounded_same_tree; [exact F4|]. eapply bounded_same_tree; [exact Ht|]. done. }
    destruct (Hb4 this) as (lt & Hlt & Hlen').
    eapply isDescendantOf_total; [exact Htc4|exact Hlt|lia]. }
  destruct Hd as [d Hd]. rewrite Hd. simpl.
  eexists; split; [done|]. destruct d; [by apply Hpush|]. done.
Qed.


Lemma spliced_tree g o h i :
  o ∈ _objects (h g) ->
  kind (spliced g o h i) = kind (h i) /\ group (spliced g o h i) = group (h i)
  /\ canvas (spliced g o h i) = canvas (h i)
  /\ _objects (spliced g o h i) =
       (if decide (i = g) then remove_first o (_objects (h g)) else _objects (h i)).
Proof.
  intros Hin. unfold spliced. destruct (decide (i = g)) as [->|?];
    rewrite ?upd_eq, ?upd_ne by done; [|done]. simpl.
  by destruct (indexOf_in Hin) as [_ ->].
Qed.

Lemma collection_remove_found this o rest cb acc w :
  o ∈ _objects (heap w this) ->
  collection_remove this (o :: rest) cb acc w =
  cb o (on_heap (spliced this o) w) ≫= collection_remove this rest cb (acc ++ [o]).
Proof.
  intros Hin. simpl. destruct (indexOf_in Hin) as [Hlt _].
  replace (indexOf (_objects (heap w this)) o =? -1)%Z with false by (symmetry; apply Z.eqb_neq; lia).
  done.
Qed.

Lemma collection_remove_skip this o rest cb acc w :
  o ∉ _objects (heap w this) ->
  collection_remove this (o :: rest) cb acc w = collection_remove this rest cb acc w.
Proof. intros Hin. simpl. by rewrite (indexOf_notin Hin). Qed.

(* one object leaves its group: [remove(o)] on [g] *)
Lemma remove_one_ok fuel B g o w :
  o ∈ _objects (heap w g) ->
  (forall hx : Heap,
      (forall i, kind (hx i) = kind (heap w i)
                 /\ group (hx i) = (if decide (i = o) then None else group (heap w i))
                 /\ _objects (hx i) = (if decide (i = g) then remove_first o (_objects (heap w g))
                                       else _objects (heap w i))) ->
      bounded B hx /\ consistent_below hx o) ->
  typed_canvas (heap w) -> B <= fuel ->
  exists w', remove fuel g [o] w = Some ([o], w')
    /\ (forall i, kind (heap w' i) = kind (heap w i)
                  /\ group (heap w' i) = (if decide (i = o) then None else group (heap w i))
                  /\ _objects (heap w' i) = (if decide (i = g) then remove_first o (_objects (heap w g))
                                             else _objects (heap w i)))
    /\ typed_canvas (heap w').
Proof.
  intros Hin Hcond Htc Hf. unfold remove. rewrite collection_remove_found by done.
  set (w1 := on_heap (spliced g o) w).
  set (hx := _exitGroup g o false (heap w1)).
  assert (Tx : forall i, kind (hx i) = kind (heap w i)
                 /\ group (hx i) = (if decide (i = o) then None else group (heap w i))
                 /\ _objects (hx i) = (if decide (i = g) then remove_first o (_objects (heap w g))
                                       else _objects (heap w i))).
  { intros i. destruct (exitGroup_tree g o false (heap w1) i) as (Hk & Ho & _ & Hg).
    fold hx in Hk, Ho, Hg. rewrite Hk, Ho, Hg. unfold w1. simpl.
    destruct (spliced_tree (h := heap w) i Hin) as (-> & -> & _ & ->). done. }
  destruct (Hcond hx Tx) as [Hb Hc].
  destruct (@onObjectRemoved_ok _ _ fuel B g o w1 Hb Hc Hf) as (w2 & -> & Hs2 & Hc2).
  simpl.
  assert (Hb2 : bounded B (heap w2)) by (by eapply bounded_same_tree).
  destruct (Hb2 g) as (l & Hl & Hlen). inversion Hl as [|? l' Hl']; subst.
  unfold _onAfterObjectsChange.
  destruct (@applyLayout_total _ _ fuel g (mkContext removed [o]) w2 l') as [w3 Hw3];
    [done|simpl in Hlen; lia|].
  rewrite Hw3. simpl. eexists. split; [done|].
  apply applyLayout_frame in Hw3 as [F3 Cv3].
  destruct (@upd_tree_blind _ (heap w3) g (fun n => with_dirty n true)) as [F4 Cv4]; [by intros n|].
  assert (Hdesc : forall i, kind (heap (on_heap (_set_dirty g true) w3) i) = kind (heap w i)
                  /\ group (heap (on_heap (_set_dirty g true) w3) i)
                     = (if decide (i = o) then None else group (heap w i))
                  /\ _objects (heap (on_heap (_set_dirty g true) w3) i)
                     = (if decide (i = g) then remove_first o (_objects (heap w g))
                        else _objects (heap w i))).
  { intros i. simpl. unfold _set_dirty. destruct (F4 i) as (-> & -> & ->).
    destruct (F3 i) as (-> & -> & ->). destruct (Hs2 i) as (-> & -> & ->). apply Tx. }
  split; [exact Hdesc|].
  eapply (typed_canvas_step (v := None)); [exact Htc| |done|].
  - intros c. by destruct (Hdesc c) as (-> & _).
  - intros i. simpl. unfold _set_dirty. rewrite Cv4, Cv3.
    destruct (Hc2 i) as [E|E]; rewrite E; [|by right]. left.
    unfold w1. simpl. by destruct (spliced_tree (h := heap w) i Hin) as (_ & _ & -> & _).
Qed.

End Entering.


(** ** Adding objects to a group *)

Section Rewiring.
Context {SC : Scalars}.
Implicit Types (h : Heap) (l : list id).

Lemma chain_avoid h0 h par l :
  chain true h0 par l -> (forall i, i ∈ l -> group (h i) = group (h0 i)) ->
  chain true h par l.
Proof.
  induction 1 as [|p l Hc IH]; intros Hg; constructor.
  unfold parentOf in *. rewrite (Hg p) by (apply elem_of_cons; by left).
  apply IH. intros i Hi. apply Hg. apply elem_of_cons; by right.
Qed.

Lemma chain_rewire h0 h (S : list id) (k : nat) :
  (forall i, i ∉ S -> group (h i) = group (h0 i)) ->
  (forall s, s ∈ S -> group (h s) = None \/
     exists t lt, group (h s) = Some t /\ chain true h (Some t) lt /\ length lt <= k) ->
  forall l x, chain true h0 (Some x) l ->
  exists l', chain true h (Some x) l' /\ length l' <= length l + k.
Proof.
  intros Hsame HS. induction l as [|y l IH]; intros x Hc.
  { inversion Hc. }
  assert (x = y) as -> by (by inversion Hc).
  assert (Hc' : chain true h0 (parentOf true h0 y) l) by (by inversion Hc).
  destruct (decide (y ∈ S)) as [Hin|Hin].
  - destruct (HS y Hin) as [Hn|(t & lt & Ht & Hlt & Hlen)].
    + exists [y]. split; [|simpl; lia]. constructor. unfold parentOf. rewrite Hn. constructor.
    + exists (y :: lt). split; [|simpl; lia]. constructor. unfold parentOf. by rewrite Ht.
  - pose proof (Hsame y Hin) as Hg. unfold parentOf in Hc'.
    destruct (group (h0 y)) as [p|] eqn:Hp.
    + destruct (IH p Hc') as (l' & Hl' & Hlen). exists (y :: l'). split; [|simpl; lia].
      constructor. unfold parentOf. by rewrite Hg.
    + exists [y]. split; [|simpl; lia]. constructor. unfold parentOf. rewrite Hg. constructor.
Qed.

Lemma remove_first_filter (P : id -> Prop) `{forall x, Decision (P x)} o l :
  NoDup l ->
  remove_first o (filter P l) = filter (fun x => P x /\ x <> o) l.
Proof.
  induction l as [|y l IH]; intros Hnd; [done|]. apply NoDup_cons in Hnd as [Hy Hnd].
  rewrite !filter_cons. destruct (decide (P y)) as [Hp|Hp].
  - simpl. destruct (decide (y = o)) as [->|Hne].
    + rewrite decide_False by tauto. 
      clear IH. induction l as [|z l IH]; [done|].
      apply not_elem_of_cons in Hy as [? ?]. apply NoDup_cons in Hnd as [? ?].
      rewrite !filter_cons. destruct (decide (P z)).
      * rewrite decide_True by (split; congruence). f_equal. by apply IH.
      * rewrite decide_False by tauto. by apply IH.
    + rewrite decide_True by done. f_equal. by apply IH.
  - rewrite decide_False by tauto. by apply IH.
Qed.

Lemma filter_ext_in (P Q : id -> Prop) `{forall x, Decision (P x)} `{forall x, Decision (Q x)} l :
  (forall x, x ∈ l -> (P x <-> Q x)) -> filter P l = filter Q l.
Proof.
  induction l as [|y l IH]; intros HPQ; [done|]. rewrite !filter_cons.
  assert (P y <-> Q y) by (apply HPQ; apply elem_of_cons; by left).
  rewrite IH by (intros x Hx; apply HPQ; apply elem_of_cons; by right).
  destruct (decide (P y)), (decide (Q y)); tauto.
Qed.

Lemma filter_all (P : id -> Prop) `{forall x, Decision (P x)} l :
  (forall x, x ∈ l -> P x) -> filter P l = l.
Proof.
  induction l as [|y l IH]; intros HP; [done|]. rewrite filter_cons.
  rewrite decide_True by (apply HP; apply elem_of_cons; by left).
  f_equal. apply IH. intros x Hx. apply HP. apply elem_of_cons; by right.
Qed.

End Rewiring.

Section Adding.
Context {SC : Scalars} {BO : BaseObject}.
Variables (N : nat) (h0 : Heap) (this : id) (lt : list id) (A X : list id).
Hypothesis Hwf : wf N h0.
Hypothesis Hlt : chain true h0 (Some this) lt.
Hypothesis HA : forall a, a ∈ A -> (a ∉ lt) /\ (a ∉ _objects (h0 this)).
Hypothesis Hkind : kind (h0 this) = KGroup.

Local Abbreviation St := (T h0 this X).

Lemma lt_length : length lt <= N.
Proof.
  destruct (wf_bounded Hwf this) as (l & Hl & Hlen). by rewrite (chain_functional Hlt Hl).
Qed.

Lemma T_chain_this E R h :
  St E R h -> E ⊆ R -> R ⊆ A -> chain true h (Some this) lt.
Proof.
  intros HT HER HRA. eapply chain_avoid; [exact Hlt|].
  intros i Hi. destruct (HT i) as (_ & -> & _).
  assert (i ∉ R) by (intros Hin; apply HRA, HA in Hin as [? _]; done).
  assert (i ∉ E) by set_solver.
  by rewrite !decide_False.
Qed.

Lemma T_bounded E R h :
  St E R h -> E ⊆ R -> R ⊆ A -> bounded (N + N) h.
Proof.
  intros HT HER HRA x. destruct (wf_bounded Hwf x) as (l & Hl & Hlen).
  destruct (@chain_rewire _ h0 h R N) with (l := l) (x := x) as (l' & Hl' & Hlen'); [| |done|].
  - intros i Hi. destruct (HT i) as (_ & -> & _).
    assert (i ∉ E) by set_solver. by rewrite !decide_False.
  - intros s Hs. destruct (HT s) as (_ & -> & _). destruct (decide (s ∈ E)).
    + right. exists this, lt. split; [done|]. split; [by eapply T_chain_this|apply lt_length].
    + left. by rewrite decide_True.
  - exists l'. split; [done|lia].
Qed.

Lemma T_consistent E R h o :
  St E R h -> E ⊆ R -> R ⊆ A -> o ∈ A -> consistent_below h o.
Proof.
  intros HT HER HRA Ho d l c Hc Hol Hk Hin.
  assert (d <> this).
  { intros ->. pose proof (T_chain_this HT HER HRA) as Hc'.
    rewrite (chain_functional Hc Hc') in Hol. by apply HA in Ho as [? _]. }
  destruct (HT d) as (Hkd & _ & Hod). rewrite Hkd in Hk.
  rewrite Hod, decide_False, decide_True in Hin by done.
  apply list_elem_of_filter in Hin as [HcR Hc0].
  destruct (HT c) as (_ & -> & _).
  assert (c ∉ E) by set_solver. rewrite !decide_False by done.
  apply (wf_member Hwf). done.
Qed.

(* an object of [A] leaves its former group *)
Lemma T_cut E o h hx :
  St E E h -> E ⊆ A -> o ∈ A -> o ∉ E ->
  (forall i, kind (hx i) = kind (h i)
             /\ group (hx i) = (if decide (i = o) then None else group (h i))
             /\ _objects (hx i) =
                  (match group (h0 o) with
                   | Some g => if decide (i = g) then remove_first o (_objects (h g))
                               else _objects (h i)
                   | None => _objects (h i)
                   end)) ->
  St E (E ++ [o]) hx.
Proof.
  intros HT HEA Ho HoE Hx i. destruct (Hx i) as (-> & -> & ->).
  destruct (HT i) as (-> & -> & Hobj). split; [done|]. split.
  - repeat case_decide; simplify_eq; try done; set_solver.
  - assert (Hfilter : forall j, kind (h0 j) = KGroup -> group (h0 o) <> Some j ->
              filter (fun x => x ∉ E) (_objects (h0 j))
              = filter (fun x => x ∉ E ++ [o]) (_objects (h0 j))).
    { intros j Hj Hgo. apply filter_ext_in. intros x Hxj.
      assert (x <> o) by (intros ->; apply Hgo; by apply (wf_member Hwf)).
      set_solver. }
    destruct (group (h0 o)) as [g|] eqn:Hg.
    + apply (wf_member Hwf) in Hg as Hg'. destruct Hg' as [Hkg Hog].
      assert (g <> this) by (intros ->; by apply HA in Ho as [_ ?]).
      destruct (decide (i = g)) as [->|Hig].
      * rewrite decide_False by done. rewrite decide_True by done.
        destruct (HT g) as (_ & _ & ->). rewrite decide_False, decide_True by done.
        rewrite remove_first_filter by (by apply (wf_nodup Hwf)).
        apply filter_ext_in. intros x _. set_solver.
      * rewrite Hobj. destruct (decide (i = this)); [done|].
        destruct (decide (kind (h0 i) = KGroup)); [|done].
        apply Hfilter; [done|]. congruence.
    + rewrite Hobj. destruct (decide (i = this)); [done|].
      destruct (decide (kind (h0 i) = KGroup)); [|done].
      apply Hfilter; [done|]. congruence.
Qed.

(* then enters [this] *)
Lemma T_graft E o h h2 :
  St E (E ++ [o]) h ->
  (forall i, kind (h2 i) = kind (h i) /\ _objects (h2 i) = _objects (h i)
             /\ group (h2 i) = (if decide (i = o) then Some this else group (h i))) ->
  St (E ++ [o]) (E ++ [o]) h2.
Proof.
  intros HT H2 i. destruct (H2 i) as (-> & -> & ->). destruct (HT i) as (-> & -> & ->).
  split; [done|]. split; [|done].
  repeat case_decide; simplify_eq; try done; set_solver.
Qed.

Lemma onObjectAdded_ok E o fuel w :
  St E E (heap w) -> typed_canvas (heap w) ->
  E ⊆ A -> o ∈ A -> o ∉ E -> N + N <= fuel ->
  exists w', _onObjectAdded fuel this o w = Some w'
    /\ St (E ++ [o]) (E ++ [o]) (heap w') /\ typed_canvas (heap w').
Proof.
  intros HT Htc HEA Ho HoE Hf. unfold _onObjectAdded, enterGroup.
  assert (HEA' : E ++ [o] ⊆ A) by set_solver.
  assert (Hstep1 : exists w1,
     match group (heap w o) with
     | Some g => snd <$> remove fuel g [o] w
     | None => Some w
     end = Some w1 /\ St E (E ++ [o]) (heap w1) /\ typed_canvas (heap w1)).
  { destruct (HT o) as (_ & Hgo & _). repeat (rewrite decide_False in Hgo by done).
    rewrite Hgo. destruct (group (h0 o)) as [g|] eqn:Hg.
    - apply (wf_member Hwf) in Hg as Hg'. destruct Hg' as [Hkg Hog].
      assert (g <> this) by (intros ->; by apply HA in Ho as [_ ?]).
      assert (Hin : o ∈ _objects (heap w g)).
      { destruct (HT g) as (_ & _ & ->). rewrite decide_False, decide_True by done.
        apply list_elem_of_filter. done. }
      destruct (@remove_one_ok _ _ fuel (N + N) g o w Hin) as (w1 & Hr & Hd & Htc1); [|done|done|].
      + intros hx Hx.
        assert (St E (E ++ [o]) hx).
        { eapply T_cut; eauto. intros i. rewrite Hg. apply Hx. }
        split; [eapply T_bounded | eapply T_consistent]; eauto; set_solver.
      + exists w1. split; [by rewrite Hr|]. split; [|done].
        eapply T_cut; eauto. intros i. rewrite Hg. apply Hd.
    - eexists. split; [done|]. split; [|done].
      eapply T_cut; eauto. intros i. rewrite Hg. split; [done|]. split; [|done].
      destruct (decide (i = o)) as [->|]; [|done]. done. }
  destruct Hstep1 as (w1 & -> & HT1 & Htc1). simpl.
  destruct (@enterGroup_inner_ok _ _ fuel (N + N) this o true (heap w1)) as (h' & -> & Hd & Htc');
    [|done|done|].
  - intros h2 H2. assert (St (E ++ [o]) (E ++ [o]) h2) by (by eapply T_graft).
    split; [eapply T_bounded | eapply T_consistent]; eauto.
  - simpl. eexists. split; [done|]. simpl. split; [|done]. by eapply T_graft.
Qed.

Lemma callbacks_ok fuel rest :
  N + N <= fuel ->
  forall E w, E ++ rest = A -> NoDup A ->
  St E E (heap w) -> typed_canvas (heap w) ->
  exists w', forEachM (_onObjectAdded fuel this) rest w = Some w'
    /\ St A A (heap w') /\ typed_canvas (heap w').
Proof.
  intros Hf. induction rest as [|o rest IH]; intros E w HEA Hnd HT Htc.
  - rewrite app_nil_r in HEA. subst E. eauto.
  - rewrite forEachM_cons.
    assert (o ∈ A) by (rewrite <- HEA; set_solver).
    assert (o ∉ E).
    { rewrite <- HEA in Hnd. apply NoDup_app in Hnd as (_ & Hd & _).
      intros Hin. apply (Hd o Hin). set_solver. }
    assert (E ⊆ A) by (rewrite <- HEA; set_solver).
    destruct (@onObjectAdded_ok E o fuel w) as (w1 & -> & HT1 & Htc1); try done.
    simpl. apply (IH (E ++ [o])); try done. by rewrite <- app_assoc.
Qed.

End Adding.

Section Filter.
Context {SC : Scalars}.
Implicit Types (h : Heap) (l : list id).

Lemma indexOf_from_app_notin pre l x i :
  x ∉ pre -> indexOf_from (pre ++ l) x i = indexOf_from l x (i + Z.of_nat (length pre)).
Proof.
  revert i. induction pre as [|y pre IH]; intros i Hx; simpl.
  - f_equal. lia.
  - apply not_elem_of_cons in Hx as [? ?]. rewrite decide_False by done.
    rewrite IH by done. f_equal. lia.
Qed.

Lemma indexOf_from_app_in pre l x i :
  x ∈ pre -> (indexOf_from (pre ++ l) x i < i + Z.of_nat (length pre))%Z.
Proof.
  revert i. induction pre as [|y pre IH]; intros i Hx; [by apply elem_of_nil in Hx|].
  simpl. destruct (decide (y = x)); [lia|].
  apply elem_of_cons in Hx as [?|Hx]; [done|]. specialize (IH (i + 1)%Z Hx). lia.
Qed.

Lemma first_occurrence before o rest :
  (indexOf (before ++ o :: rest) o =? Z.of_nat (length before))%Z = bool_decide (o ∉ before).
Proof.
  unfold indexOf. destruct (decide (o ∈ before)) as [Hin|Hin].
  - rewrite bool_decide_eq_false_2 by auto.
    pose proof (@indexOf_from_app_in before (o :: rest) o 0%Z Hin). apply Z.eqb_neq. lia.
  - rewrite bool_decide_eq_true_2 by done. rewrite indexOf_from_app_notin by done.
    simpl. rewrite decide_True by done. apply Z.eqb_eq. lia.
Qed.

Lemma isDescendantOf_walked fuel h target :
  typed_canvas h ->
  (forall i g, group (h i) = Some g -> kind (h g) = KGroup) ->
  forall anc x, chain true h (parentOf true h x) anc -> length anc <= fuel ->
  isDescendantOf_loop fuel h target (parentOf false h x)
  = Some (bool_decide (target ∈ walked h x anc)).
Proof.
  intros Htc Hgk. revert fuel. intros fuel anc. revert fuel.
  induction anc as [|g anc IH]; intros fuel x Hc Hl.
  - assert (Hg : group (h x) = None).
    { unfold parentOf in Hc. destruct (group (h x)); [inversion Hc|done]. }
    unfold walked, parentOf. rewrite Hg. simpl.
    destruct (canvas (h x)) as [c|] eqn:Hcx.
    + apply Htc in Hcx.
      assert (Hloop : isDescendantOf_loop fuel h target (Some c)
                      = Some (bool_decide (target = c))).
      { destruct fuel; simpl; destruct (decide (target = c)) as [->|Hne].
        all: try by rewrite bool_decide_eq_true_2.
        all: rewrite decide_True by done; by rewrite bool_decide_eq_false_2. }
      rewrite Hloop. f_equal. apply bool_decide_ext. set_solver.
    + assert (Hloop : isDescendantOf_loop fuel h target None = Some false).
      { by destruct fuel. }
      rewrite Hloop. by rewrite bool_decide_eq_false_2 by set_solver.
  - assert (Hg : group (h x) = Some g).
    { unfold parentOf in Hc. destruct (group (h x)); inversion Hc; by subst. }
    assert (Hc' : chain true h (parentOf true h g) anc).
    { unfold parentOf in Hc. rewrite Hg in Hc. by inversion Hc. }
    unfold parentOf at 1. rewrite Hg.
    destruct fuel as [|f]; [simpl in Hl; lia|]. simpl in Hl.
    assert (Hw : forall t, t ∈ walked h x (g :: anc) <-> t = g \/ t ∈ walked h g anc).
    { intros t. unfold walked. rewrite last_cons.
      destruct (last anc) as [z|] eqn:Hz; simpl; set_solver. }
    simpl. destruct (decide (target = g)) as [->|Hne].
    + rewrite bool_decide_eq_true_2; [done|]. apply Hw. by left.
    + rewrite decide_False by (rewrite (Hgk _ _ Hg); done).
      rewrite (IH f g Hc') by lia. f_equal. apply bool_decide_ext. rewrite Hw. tauto.
Qed.

Lemma canEnterGroup_spec fuel h this anc o :
  typed_canvas h ->
  (forall i g, group (h i) = Some g -> kind (h g) = KGroup) ->
  chain true h (parentOf true h this) anc -> length anc <= fuel ->
  canEnterGroup fuel h this o = Some (bool_decide (may_enter h this anc o)).
Proof.
  intros Htc Hgk Hc Hl. unfold canEnterGroup, may_enter.
  destruct (decide (o = this)) as [->|Hne].
  { by rewrite bool_decide_eq_false_2 by tauto. }
  unfold isDescendantOf. rewrite (isDescendantOf_walked o Htc Hgk Hc Hl). simpl.
  case_bool_decide as Hw.
  { by rewrite bool_decide_eq_false_2 by tauto. }
  destruct (decide (o ∈ _objects (h this))) as [Hin|Hin].
  - destruct (indexOf_in Hin) as [Hlt _].
    replace (indexOf (_objects (h this)) o =? -1)%Z with false by (symmetry; apply Z.eqb_neq; lia).
    simpl. by rewrite bool_decide_eq_false_2 by tauto.
  - rewrite (indexOf_notin Hin). simpl. by rewrite bool_decide_eq_true_2 by tauto.
Qed.

Lemma filter_from_spec fuel h this anc :
  typed_canvas h ->
  (forall i g, group (h i) = Some g -> kind (h g) = KGroup) ->
  chain true h (parentOf true h this) anc -> length anc <= fuel ->
  forall rest before,
  filter_from fuel h this (before ++ rest) (Z.of_nat (length before)) rest
  = Some (accepted_from h this anc before rest).
Proof.
  intros Htc Hgk Hc Hl. induction rest as [|o rest IH]; intros before; [done|].
  simpl. rewrite (canEnterGroup_spec o Htc Hgk Hc Hl). simpl.
  specialize (IH (before ++ [o])). rewrite <- app_assoc in IH. simpl in IH.
  rewrite length_app in IH. simpl in IH.
  replace (Z.of_nat (length before) + 1)%Z with (Z.of_nat (length before + 1)) by lia.
  rewrite IH. simpl. rewrite first_occurrence. f_equal.
  destruct (decide (may_enter h this anc o /\ o ∉ before)) as [[H1 H2]|Hn].
  - by rewrite !bool_decide_eq_true_2 by done.
  - repeat case_bool_decide; simpl; try done. tauto.
Qed.

Lemma filter_spec fuel h this anc objects :
  typed_canvas h ->
  (forall i g, group (h i) = Some g -> kind (h g) = KGroup) ->
  chain true h (parentOf true h this) anc -> length anc <= fuel ->
  _filterObjectsBeforeEnteringGroup fuel h this objects
  = Some (accepted h this anc objects).
Proof.
  intros. unfold _filterObjectsBeforeEnteringGroup, accepted.
  by apply (@filter_from_spec fuel h this anc) with (before := []).
Qed.

Lemma accepted_from_elem h this anc rest before a :
  a ∈ accepted_from h this anc before rest ->
  may_enter h this anc a /\ a ∈ rest /\ a ∉ before.
Proof.
  revert before. induction rest as [|o rest IH]; intros before Ha; [by apply elem_of_nil in Ha|].
  simpl in Ha. destruct (decide _) as [[H1 H2]|_].
  - apply elem_of_cons in Ha as [->|Ha]; [set_solver|].
    apply IH in Ha as (? & ? & ?). set_solver.
  - apply IH in Ha as (? & ? & ?). set_solver.
Qed.

Lemma accepted_from_NoDup h this anc rest before :
  NoDup (accepted_from h this anc before rest).
Proof.
  revert before. induction rest as [|o rest IH]; intros before; simpl; [constructor|].
  destruct (decide _); [|apply IH]. constructor; [|apply IH].
  intros Ha. apply accepted_from_elem in Ha as (_ & _ & Hb). set_solver.
Qed.

Lemma accepted_from_complete h this anc rest before a :
  a ∈ rest -> a ∉ before -> may_enter h this anc a ->
  a ∈ accepted_from h this anc before rest.
Proof.
  revert before. induction rest as [|o rest IH]; intros before Ha Hb Hm; [by apply elem_of_nil in Ha|].
  simpl. destruct (decide (a = o)) as [->|Hne].
  - rewrite decide_True by done. set_solver.
  - apply elem_of_cons in Ha as [?|Ha]; [done|].
    assert (a ∈ accepted_from h this anc (before ++ [o]) rest) by (apply IH; set_solver).
    destruct (decide _); set_solver.
Qed.

End Filter.

Section Insertion.
Context {SC : Scalars} {BO : BaseObject}.
Implicit Types (h : Heap) (l : list id).

Lemma wf_typed N h : wf N h -> typed_canvas h.
Proof. intros H i c. apply (wf_canvas_kind H). Qed.

Lemma wf_group_kind N h i g : wf N h -> group (h i) = Some g -> kind (h g) = KGroup.
Proof. intros H Hg. by apply (wf_member H) in Hg as [? _]. Qed.

Lemma wf_from_T N h0 this lt A X h :
  wf N h0 -> chain true h0 (Some this) lt ->
  (forall a, a ∈ A -> (a ∉ lt) /\ (a ∉ _objects (h0 this))) ->
  kind (h0 this) = KGroup ->
  NoDup X -> (forall o, o ∈ X <-> o ∈ _objects (h0 this) \/ o ∈ A) ->
  T h0 this X A A h -> typed_canvas h ->
  wf (N + N) h.
Proof.
  intros Hwf Hlt HA Hk HndX HX HT Htc. split.
  - intros o g. destruct (HT o) as (_ & -> & _). destruct (HT g) as (-> & _ & ->).
    destruct (decide (o ∈ A)) as [HoA|HoA].
    + split.
      * intros Heq. assert (g = this) as -> by congruence.
        split; [done|]. rewrite decide_True by done. apply HX. by right.
      * intros [Hkg Hin]. destruct (decide (g = this)) as [->|Hne]; [done|].
        rewrite decide_True in Hin by done. apply list_elem_of_filter in Hin as [? _]. done.
    + rewrite (wf_member Hwf).
      split; intros [Hkg Hin]; (split; [done|]).
      * destruct (decide (g = this)) as [->|Hne]; [apply HX; by left|].
        rewrite decide_True by done. by apply list_elem_of_filter.
      * destruct (decide (g = this)) as [->|Hne].
        -- apply HX in Hin as [?|?]; done.
        -- rewrite decide_True in Hin by done. by apply list_elem_of_filter in Hin as [_ ?].
  - intros g. destruct (HT g) as (-> & _ & ->). intros Hkg.
    destruct (decide (g = this)); [done|]. rewrite decide_True by done.
    apply NoDup_filter. by apply (wf_nodup Hwf).
  - done.
  - eapply T_bounded; eauto.
Qed.

Lemma splice_in_perm index items l : splice_in index items l ≡ₚ l ++ items.
Proof.
  unfold splice_in. set (k := Z.to_nat _).
  rewrite <- (take_drop k l) at 3.
  rewrite <- app_assoc. apply Permutation_app_head, Permutation_app_comm.
Qed.

(* the callbacks and the layout that follow the insertion of the accepted
   objects into [_objects] *)
Lemma entering_ok N fuel this lt A X w w1 :
  wf N (heap w) -> chain true (heap w) (Some this) lt ->
  (forall a, a ∈ A -> (a ∉ lt) /\ (a ∉ _objects (heap w this))) -> NoDup A ->
  kind (heap w this) = KGroup -> N + N <= fuel ->
  (forall i, kind (heap w1 i) = kind (heap w i) /\ group (heap w1 i) = group (heap w i)
             /\ canvas (heap w1 i) = canvas (heap w i)
             /\ _objects (heap w1 i) = (if decide (i = this) then X else _objects (heap w i))) ->
  exists w', (forEachM (_onObjectAdded fuel this) A w1
              ≫= _onAfterObjectsChange fuel this added A) = Some w'
    /\ T (heap w) this X A A (heap w') /\ typed_canvas (heap w').
Proof.
  intros Hwf Hlt HA Hnd Hk Hf H1.
  assert (HT0 : T (heap w) this X [] [] (heap w1)).
  { intros i. destruct (H1 i) as (-> & -> & _ & ->). split; [done|]. split; [done|].
    destruct (decide (i = this)); [done|]. destruct (decide _); [|done].
    symmetry. apply filter_all. set_solver. }
  assert (Htc1 : typed_canvas (heap w1)).
  { intros i c Hi. destruct (H1 i) as (_ & _ & Hc & _). rewrite Hc in Hi.
    destruct (H1 c) as (-> & _). by apply (wf_canvas_kind Hwf) in Hi. }
  destruct (callbacks_ok Hwf Hlt HA Hk Hf (X := X) (rest := A) (E := []) (w := w1))
    as (w2 & -> & HT2 & Htc2); try done.
  simpl. unfold _onAfterObjectsChange.
  assert (Hc2 : chain true (heap w2) (Some this) lt).
  { eapply (T_chain_this Hwf Hlt HA Hk); [exact HT2|done|done]. }
  inversion Hc2 as [|? l' Hc2']; subst.
  destruct (@applyLayout_total _ _ fuel this (mkContext added A) w2 l') as [w3 Hw3]; [done| |].
  { pose proof (lt_length Hwf Hlt). simpl in *. lia. }
  rewrite Hw3. simpl. eexists. split; [done|].
  apply applyLayout_frame in Hw3 as [F3 Cv3].
  destruct (@upd_tree_blind _ (heap w3) this (fun n => with_dirty n true)) as [F4 Cv4]; [by intros n|].
  split.
  - intros i. simpl. unfold _set_dirty. destruct (F4 i) as (-> & -> & ->).
    destruct (F3 i) as (-> & -> & ->). apply HT2.
  - intros i c Hi. simpl in *. unfold _set_dirty in *. rewrite Cv4, Cv3 in Hi.
    destruct (F4 c) as (-> & _ & _). destruct (F3 c) as (-> & _ & _). eauto.
Qed.

End Insertion.

Section Removal.
Context {SC : Scalars} {BO : BaseObject}.
Implicit Types (h : Heap) (l : list id).

Lemma accepted_props N h this anc objs :
  wf N h -> chain true h (parentOf true h this) anc ->
  forall a, a ∈ accepted h this anc objs -> (a ∉ this :: anc) /\ (a ∉ _objects (h this)).
Proof.
  intros Hwf Hc a Ha. apply accepted_from_elem in Ha as ((H1 & H2 & H3) & _ & _).
  split; [|done]. unfold walked in H2. set_solver.
Qed.

Lemma add_ok N fuel this anc objs w :
  wf N (heap w) -> kind (heap w this) = KGroup ->
  chain true (heap w) (parentOf true (heap w) this) anc -> N + N <= fuel ->
  exists w', add fuel this objs w = Some w'
    /\ T (heap w) this (_objects (heap w this) ++ accepted (heap w) this anc objs)
         (accepted (heap w) this anc objs) (accepted (heap w) this anc objs) (heap w')
    /\ typed_canvas (heap w').
Proof.
  intros Hwf Hk Hc Hf.
  assert (Hlt : chain true (heap w) (Some this) (this :: anc)) by (by constructor).
  pose proof (lt_length Hwf Hlt) as Hlen. simpl in Hlen.
  unfold add. rewrite (@filter_spec _ fuel (heap w) this anc objs);
    [|by eapply wf_typed|intros; by eapply wf_group_kind|done|lia].
  simpl. unfold collection_add.
  eapply entering_ok; eauto using accepted_props.
  - apply accepted_from_NoDup.
  - intros i. simpl. destruct (decide (i = this)) as [->|?];
      rewrite ?upd_eq, ?upd_ne by done; done.
Qed.

Lemma insertAt_ok N fuel this anc objs index w :
  wf N (heap w) -> kind (heap w this) = KGroup ->
  chain true (heap w) (parentOf true (heap w) this) anc -> N + N <= fuel ->
  exists w', insertAt fuel this objs index w = Some w'
    /\ T (heap w) this (splice_in index (accepted (heap w) this anc objs) (_objects (heap w this)))
         (accepted (heap w) this anc objs) (accepted (heap w) this anc objs) (heap w')
    /\ typed_canvas (heap w').
Proof.
  intros Hwf Hk Hc Hf.
  assert (Hlt : chain true (heap w) (Some this) (this :: anc)) by (by constructor).
  pose proof (lt_length Hwf Hlt) as Hlen. simpl in Hlen.
  unfold insertAt. rewrite (@filter_spec _ fuel (heap w) this anc objs);
    [|by eapply wf_typed|intros; by eapply wf_group_kind|done|lia].
  simpl. unfold collection_insertAt.
  eapply entering_ok; eauto using accepted_props.
  - apply accepted_from_NoDup.
  - intros i. simpl. destruct (decide (i = this)) as [->|?];
      rewrite ?upd_eq, ?upd_ne by done; done.
Qed.

Lemma wf_same_tree N h h' : same_tree h h' -> typed_canvas h' -> wf N h -> wf N h'.
Proof.
  intros Hs Htc Hwf. split.
  - intros o g. destruct (Hs o) as (_ & -> & _). destruct (Hs g) as (-> & _ & ->).
    apply (wf_member Hwf).
  - intros g. destruct (Hs g) as (-> & _ & ->). apply (wf_nodup Hwf).
  - done.
  - eapply bounded_same_tree; [done|]. intros x. apply (wf_bounded Hwf).
Qed.

Lemma elem_of_remove_first o l x :
  NoDup l -> x ∈ remove_first o l <-> x ∈ l /\ x <> o.
Proof.
  intros Hnd. rewrite <- (filter_all (P := fun _ => True) (l := l)) at 1 by done.
  rewrite remove_first_filter by done. rewrite list_elem_of_filter. tauto.
Qed.

Lemma NoDup_remove_first o l : NoDup l -> NoDup (remove_first o l).
Proof.
  intros Hnd. rewrite <- (filter_all (P := fun _ => True) (l := l)) by done.
  rewrite remove_first_filter by done. by apply NoDup_filter.
Qed.

Lemma wf_cut N h hx g o :
  wf N h -> group (h o) = Some g ->
  (forall i, kind (hx i) = kind (h i)
             /\ group (hx i) = (if decide (i = o) then None else group (h i))
             /\ _objects (hx i) = (if decide (i = g) then remove_first o (_objects (h g))
                                   else _objects (h i))) ->
  typed_canvas hx -> wf N hx.
Proof.
  intros Hwf Hg Hx Htc.
  apply (wf_member Hwf) in Hg as Hg'. destruct Hg' as [Hkg Hog].
  pose proof (wf_nodup Hwf Hkg) as Hnd.
  split.
  - intros o' g'. destruct (Hx o') as (_ & -> & _). destruct (Hx g') as (-> & _ & ->).
    destruct (decide (o' = o)) as [->|Hne].
    + split; [done|]. intros [Hk' Hin]. exfalso.
      destruct (decide (g' = g)) as [->|Hgg].
      * apply elem_of_remove_first in Hin as [_ ?]; done.
      * assert (group (h o) = Some g') by (by apply (wf_member Hwf)). congruence.
    + rewrite (wf_member Hwf). destruct (decide (g' = g)) as [->|Hgg]; [|done].
      rewrite elem_of_remove_first by done. tauto.
  - intros g'. destruct (Hx g') as (-> & _ & ->). intros Hk'.
    destruct (decide (g' = g)); [by apply NoDup_remove_first|by apply (wf_nodup Hwf)].
  - done.
  - intros x. destruct (wf_bounded Hwf x) as (l & Hl & Hlen).
    destruct (@chain_rewire _ h hx [o] 0) with (l := l) (x := x) as (l' & Hl' & Hlen'); [| |done|].
    + intros i Hi. destruct (Hx i) as (_ & -> & _). rewrite decide_False; [done|set_solver].
    + intros s Hs. left. destruct (Hx s) as (_ & -> & _). rewrite decide_True; [done|set_solver].
    + exists l'. split; [done|lia].
Qed.

Lemma wf_consistent_below N h o : wf N h -> consistent_below h o.
Proof. intros Hwf d l c _ _ Hk Hin. by apply (wf_member Hwf). Qed.

Lemma collection_remove_wf N fuel this :
  N <= fuel ->
  forall objs acc w, wf N (heap w) -> kind (heap w this) = KGroup ->
  exists r w',
    collection_remove this objs (fun o => _onObjectRemoved fuel this o false) acc w
    = Some (r, w')
    /\ wf N (heap w') /\ kind (heap w' this) = KGroup.
Proof.
  intros Hf. induction objs as [|o objs IH]; intros acc w Hwf Hk; [by eauto|].
  destruct (decide (o ∈ _objects (heap w this))) as [Hin|Hin].
  2:{ rewrite collection_remove_skip by done. by apply IH. }
  rewrite collection_remove_found by done.
  set (w1 := on_heap (spliced this o) w).
  set (hx := _exitGroup this o false (heap w1)).
  assert (Hg : group (heap w o) = Some this) by (by apply (wf_member Hwf)).
  assert (Tx : forall i, kind (hx i) = kind (heap w i)
                 /\ group (hx i) = (if decide (i = o) then None else group (heap w i))
                 /\ _objects (hx i) = (if decide (i = this) then remove_first o (_objects (heap w this))
                                       else _objects (heap w i))).
  { intros i. destruct (exitGroup_tree this o false (heap w1) i) as (Hk' & Ho & _ & Hg').
    fold hx in Hk', Ho, Hg'. rewrite Hk', Ho, Hg'. unfold w1. simpl.
    destruct (spliced_tree (h := heap w) i Hin) as (-> & -> & _ & ->). done. }
  assert (Cx : forall i, canvas (hx i) = canvas (heap w i)).
  { intros i. destruct (exitGroup_tree this o false (heap w1) i) as (_ & _ & Hc & _).
    fold hx in Hc. rewrite Hc. unfold w1. simpl.
    by destruct (spliced_tree (h := heap w) i Hin) as (_ & _ & -> & _). }
  assert (Htcx : typed_canvas hx).
  { intros i c Hi. rewrite Cx in Hi. destruct (Tx c) as (-> & _). by apply (wf_canvas_kind Hwf) in Hi. }
  pose proof (wf_cut Hwf Hg Tx Htcx) as Hwfx.
  destruct (@onObjectRemoved_ok _ _ fuel N this o w1) as (w2 & Hw2 & Hs2 & Hc2);
    [intros x; apply (wf_bounded Hwfx)|by eapply wf_consistent_below|done|].
  rewrite Hw2. simpl. apply IH.
  - eapply wf_same_tree; [exact Hs2| |exact Hwfx].
    eapply (typed_canvas_step (v := None)); [eapply wf_typed, Hwf| |done|].
    + intros c. etransitivity; [apply Hs2|apply Tx].
    + intros i. destruct (Hc2 i) as [E|E]; rewrite E; [|by right]. left.
      unfold w1. simpl. by destruct (spliced_tree (h := heap w) i Hin) as (_ & _ & -> & _).
  - rewrite <- Hk. etransitivity; [apply Hs2|apply Tx].
Qed.

Lemma afterObjectsChange_wf N fuel this t ts w :
  wf N (heap w) -> N <= fuel ->
  exists w', _onAfterObjectsChange fuel this t ts w = Some w' /\ wf N (heap w').
Proof.
  intros Hwf Hf. unfold _onAfterObjectsChange.
  destruct (wf_bounded Hwf this) as (l & Hl & Hlen). inversion Hl as [|? l' Hl']; subst.
  destruct (@applyLayout_total _ _ fuel this (mkContext t ts) w l') as [w3 Hw3];
    [done|simpl in Hlen; lia|].
  rewrite Hw3. simpl. eexists. split; [done|].
  apply applyLayout_frame in Hw3 as [F3 Cv3].
  destruct (@upd_tree_blind _ (heap w3) this (fun n => with_dirty n true)) as [F4 Cv4]; [by intros n|].
  eapply wf_same_tree; [eapply same_tree_trans; [exact F3|exact F4]| |done].
  intros i c Hi. simpl in *. unfold _set_dirty in *. rewrite Cv4, Cv3 in Hi.
  destruct (F4 c) as (-> & _ & _). destruct (F3 c) as (-> & _ & _).
  by apply (wf_canvas_kind Hwf) in Hi.
Qed.

Lemma remove_ok N fuel this objs w :
  wf N (heap w) -> kind (heap w this) = KGroup -> N <= fuel ->
  exists r w', remove fuel this objs w = Some (r, w') /\ wf N (heap w').
Proof.
  intros Hwf Hk Hf. unfold remove.
  destruct (@collection_remove_wf N fuel this Hf objs [] w Hwf Hk) as (r & w1 & -> & Hwf1 & Hk1).
  simpl. destruct (@afterObjectsChange_wf N fuel this removed r w1 Hwf1 Hf) as (w2 & -> & Hwf2).
  simpl. eauto.
Qed.

Lemma removeAll_ok N fuel this w :
  wf N (heap w) -> kind (heap w this) = KGroup -> N <= fuel ->
  exists r w', removeAll fuel this w = Some (r, w') /\ wf N (heap w').
Proof.
  intros Hwf Hk Hf. unfold removeAll.
  destruct (@upd_tree_blind _ (heap w) this (fun n => with_activeObjects n [])) as [F C]; [by intros n|].
  apply remove_ok; [|simpl; by destruct (F this) as (-> & _)|done].
  simpl. eapply wf_same_tree; [exact F| |done].
  intros i c Hi. rewrite C in Hi. destruct (F c) as (-> & _ & _).
  by apply (wf_canvas_kind Hwf) in Hi.
Qed.

End Removal.


(** ** The membership invariant *)

Section Invariant.
Context {SC : Scalars} {BO : BaseObject}.
Implicit Types (h : Heap) (l : list id).


Lemma wf_membership N h : wf N h -> membership_consistent h /\ exclusive h.
Proof.
  intros Hwf. split.
  - intros g o Hk. rewrite (wf_member Hwf). tauto.
  - intros g g' o Hk Hk' Hin Hin'.
    assert (group (h o) = Some g) by (by apply (wf_member Hwf)).
    assert (group (h o) = Some g') by (by apply (wf_member Hwf)). congruence.
Qed.

Lemma wf_ancestors N h this : wf N h -> exists anc, chain true h (parentOf true h this) anc.
Proof.
  intros Hwf. destruct (wf_bounded Hwf this) as (l & Hl & _). inversion Hl; subst. eauto.
Qed.

Lemma wf_after_adding N h0 this anc objs X h :
  wf N h0 -> kind (h0 this) = KGroup ->
  chain true h0 (parentOf true h0 this) anc ->
  X ≡ₚ _objects (h0 this) ++ accepted h0 this anc objs ->
  T h0 this X (accepted h0 this anc objs) (accepted h0 this anc objs) h ->
  typed_canvas h -> wf (N + N) h.
Proof.
  intros Hwf Hk Hc HX HT Htc.
  eapply (@wf_from_T _ N h0 this (this :: anc)); eauto using accepted_props.
  - by constructor.
  - rewrite HX. apply NoDup_app. split; [by apply (wf_nodup Hwf)|]. split.
    + intros x Hx Ha. by apply (accepted_props Hwf Hc) in Ha as [_ ?].
    + apply accepted_from_NoDup.
  - intros o. rewrite HX. apply elem_of_app.
Qed.

(** C1 (membership invariant).  From a well-formed heap, [add], [insertAt],
    [remove] and [removeAll] on a group complete (given fuel for the longest
    [group] chain) and leave a well-formed heap: for every group [g] and node
    [o], [o] is among the objects of [g] if and only if [group o = g], and
    no node is among the objects of two groups. *)
Theorem membership_invariant N fuel w this objs index :
  wf N (heap w) -> kind (heap w this) = KGroup -> N + N <= fuel ->
  (exists w', add fuel this objs w = Some w'
     /\ wf (N + N) (heap w') /\ membership_consistent (heap w') /\ exclusive (heap w'))
  /\ (exists w', insertAt fuel this objs index w = Some w'
     /\ wf (N + N) (heap w') /\ membership_consistent (heap w') /\ exclusive (heap w'))
  /\ (exists r w', remove fuel this objs w = Some (r, w')
     /\ wf N (heap w') /\ membership_consistent (heap w') /\ exclusive (heap w'))
  /\ (exists r w', removeAll fuel this w = Some (r, w')
     /\ wf N (heap w') /\ membership_consistent (heap w') /\ exclusive (heap w')).
Proof.
  intros Hwf Hk Hf. destruct (wf_ancestors this Hwf) as [anc Hc].
  split; [|split; [|split]].
  - destruct (add_ok objs Hwf Hk Hc Hf) as (w' & Hw & HT & Htc).
    exists w'. split; [done|].
    assert (wf (N + N) (heap w')).
    { eapply wf_after_adding; [exact Hwf|exact Hk|exact Hc| |exact HT|exact Htc]. done. }
    split; [done|]. by eapply wf_membership.
  - destruct (insertAt_ok objs index Hwf Hk Hc Hf) as (w' & Hw & HT & Htc).
    exists w'. split; [done|].
    assert (wf (N + N) (heap w')).
    { eapply wf_after_adding; [exact Hwf|exact Hk|exact Hc| |exact HT|exact Htc].
      apply splice_in_perm. }
    split; [done|]. by eapply wf_membership.
  - destruct (@remove_ok _ _ N fuel this objs w Hwf Hk) as (r & w' & Hw & Hwf'); [lia|].
    exists r, w'. split; [done|]. split; [done|]. by eapply wf_membership.
  - destruct (@removeAll_ok _ _ N fuel this w Hwf Hk) as (r & w' & Hw & Hwf'); [lia|].
    exists r, w'. split; [done|]. split; [done|]. by eapply wf_membership.
Qed.

Lemma accepted_from_sublist h this anc rest before :
  sublist (accepted_from h this anc before rest) rest.
Proof.
  revert before. induction rest as [|o rest IH]; intros before; simpl; [constructor|].
  destruct (decide _); [apply sublist_skip | apply sublist_cons]; apply IH.
Qed.

(* what the heap after [add]/[insertAt] says about membership *)
Lemma T_membership h0 this X A h :
  T h0 this X A A h ->
  _objects (h this) = X
  /\ (forall o, group (h o) = if decide (o ∈ A) then Some this else group (h0 o))
  /\ (forall g, g <> this ->
        _objects (h g) = if decide (kind (h0 g) = KGroup)
                         then filter (fun x => x ∉ A) (_objects (h0 g))
                         else _objects (h0 g)).
Proof.
  intros HT. split; [|split].
  - destruct (HT this) as (_ & _ & ->). by rewrite decide_True.
  - intros o. destruct (HT o) as (_ & -> & _). by repeat case_decide.
  - intros g Hg. destruct (HT g) as (_ & _ & ->). by rewrite decide_False.
Qed.

(** C2 (the filter of [add] and [insertAt]).  From a well-formed heap the
    filter keeps exactly the arguments that are not the group, not one of its
    ancestors, not already one of its objects, and that did not occur
    earlier in the argument list, in argument order; [add] appends them and
    [insertAt] inserts them at the index, each of them gets the group as its
    parent and leaves its former group, everything else keeps its parent, and
    both calls return.  When nothing is accepted (as when a node is added to
    one of its descendants) parents and child sequences stay as they were. *)
Theorem add_accepts_valid_nodes N fuel w this objs index anc :
  wf N (heap w) -> kind (heap w this) = KGroup ->
  chain true (heap w) (parentOf true (heap w) this) anc ->
  N + N <= fuel ->
  let h := heap w in
  let A := accepted h this anc objs in
  _filterObjectsBeforeEnteringGroup fuel h this objs = Some A
  /\ (forall o, o ∈ A <-> o ∈ objs /\ may_enter h this anc o)
  /\ NoDup A /\ sublist A objs
  /\ (exists w', add fuel this objs w = Some w'
        /\ _objects (heap w' this) = _objects (h this) ++ A
        /\ (forall o, group (heap w' o) = if decide (o ∈ A) then Some this else group (h o))
        /\ (forall g, g <> this ->
              _objects (heap w' g) = if decide (kind (h g) = KGroup)
                                     then filter (fun x => x ∉ A) (_objects (h g))
                                     else _objects (h g)))
  /\ (exists w', insertAt fuel this objs index w = Some w'
        /\ _objects (heap w' this) = splice_in index A (_objects (h this))
        /\ (forall o, group (heap w' o) = if decide (o ∈ A) then Some this else group (h o))
        /\ (forall g, g <> this ->
              _objects (heap w' g) = if decide (kind (h g) = KGroup)
                                     then filter (fun x => x ∉ A) (_objects (h g))
                                     else _objects (h g)))
  /\ (A = [] ->
      exists w', add fuel this objs w = Some w'
        /\ forall i, group (heap w' i) = group (h i) /\ _objects (heap w' i) = _objects (h i)).
Proof.
  intros Hwf Hk Hc Hf h A.
  assert (Hlt : chain true h (Some this) (this :: anc)) by (by constructor).
  pose proof (lt_length Hwf Hlt) as Hlen. simpl in Hlen.
  destruct (add_ok objs Hwf Hk Hc Hf) as (w1 & Hw1 & HT1 & _).
  destruct (insertAt_ok objs index Hwf Hk Hc Hf) as (w2 & Hw2 & HT2 & _).
  apply T_membership in HT1 as HM1. apply T_membership in HT2 as HM2.
  split.
  { apply filter_spec; [by eapply wf_typed|intros; by eapply wf_group_kind|done|lia]. }
  split.
  { intros o. split.
    - intros Ha. apply accepted_from_elem in Ha as (? & ? & _). done.
    - intros [Ho Hm]. apply accepted_from_complete; [done|set_solver|done]. }
  split; [apply accepted_from_NoDup|]. split; [apply accepted_from_sublist|].
  split; [by exists w1|]. split; [by exists w2|].
  intros HA. exists w1. split; [done|]. intros i.
  destruct HM1 as (Hthis & Hgrp & Hoth). fold h A in Hthis, Hgrp, Hoth. split.
  - rewrite Hgrp, HA. by rewrite decide_False by set_solver.
  - destruct (decide (i = this)) as [->|Hne].
    + rewrite Hthis, HA. by rewrite app_nil_r.
    + rewrite Hoth by done. destruct (decide _); [|done]. rewrite HA.
      apply filter_all. set_solver.
Qed.

End Invariant.


(** ** Ancestors and the order of painting *)

Section Ancestry.
Context {SC : Scalars}.
Implicit Types (h : Heap) (l : list id).

Lemma walked_cons h x p l : walked h x (p :: l) = p :: walked h p l.
Proof.
  unfold walked. simpl. do 2 f_equal. rewrite last_cons. by destruct (last l).
Qed.

Lemma chain_with_canvas h :
  typed_canvas h ->
  (forall c, kind (h c) = KCanvas -> group (h c) = None /\ canvas (h c) = None) ->
  forall p anc, chain true h p anc ->
  forall x, p = parentOf true h x ->
  chain false h (parentOf false h x) (walked h x anc).
Proof.
  intros Ht Hc p anc Hch. induction Hch as [|p l Hch IH]; intros x Hx.
  - unfold walked, parentOf in *. simpl. destruct (group (h x)); [done|].
    destruct (canvas (h x)) as [c|] eqn:Hcv; simpl; [|constructor].
    constructor. unfold parentOf. destruct (Hc c) as [-> ->]; [by eapply Ht|constructor].
  - rewrite walked_cons. unfold parentOf in Hx |- *.
    destruct (group (h x)); simplify_eq. constructor. by apply IH.
Qed.

Lemma wf_strict_ancestors N h this :
  wf N h ->
  exists anc, chain true h (parentOf true h this) anc /\ S (length anc) <= N
              /\ Forall (fun a => kind (h a) = KGroup) anc.
Proof.
  intros Hwf. destruct (wf_bounded Hwf this) as (l & Hl & Hlen).
  inversion Hl as [|p l' Hl' Hp]; subst. exists l'. split; [done|]. split; [simpl in Hlen; lia|].
  clear Hlen Hl. remember (parentOf true h this) as p eqn:Hp. revert this Hp.
  induction Hl' as [|p l Hch IH]; intros x Hx; constructor.
  - unfold parentOf in Hx. destruct (group (h x)) eqn:Hg; simplify_eq.
    eapply wf_member in Hg as [? _]; eauto.
  - by eapply IH.
Qed.

(* in a well-formed heap the walk up returns, with or without the canvas *)
Lemma getAncestors_returns N fuel h this strict :
  wf N h ->
  (forall c, kind (h c) = KCanvas -> group (h c) = None /\ canvas (h c) = None) ->
  N <= fuel ->
  exists anc, getAncestors fuel h this strict = Some anc.
Proof.
  intros Hwf Hc Hfuel. destruct (wf_strict_ancestors this Hwf) as (anc & Hch & Hlen & Hk).
  destruct strict.
  - exists anc. apply chain_fuel; [done|lia].
  - exists (walked h this anc). apply chain_fuel.
    + eapply chain_with_canvas; eauto. intros i c. apply (wf_canvas_kind Hwf).
    + unfold walked. rewrite length_app. destruct (canvas _); simpl; lia.
Qed.

(** C8 ([findCommonAncestors]). In a well-formed heap whose canvases have no
    parent, with fuel for its nodes, both walks up the ancestors return, and
    for two different nodes [findCommonAncestors] returns the result the
    specification describes: special case 2, else [this] found among [other]'s
    ancestors, else the first of [this]'s ancestors, in its own order, that is
    [other] or among [other]'s ancestors (with the first position of it
    there), else nothing shared: [common] empty and each fork the node
    followed by all its ancestors. *)
Theorem findCommonAncestors_refines_spec N fuel h this other strict :
  wf N h ->
  (forall c, kind (h c) = KCanvas -> group (h c) = None /\ canvas (h c) = None) ->
  N <= fuel ->
  this <> other ->
  exists anc oanc,
    getAncestors fuel h this strict = Some anc
    /\ getAncestors fuel h other strict = Some oanc
    /\ findCommonAncestors fuel h this other strict =
         Some (findCommonAncestors_spec this other anc oanc)
    /\ (this ∉ oanc -> (forall a, a ∈ anc -> a <> other /\ a ∉ oanc) ->
        findCommonAncestors fuel h this other strict =
          Some {| fork := this :: anc; otherFork := other :: oanc; common := [] |}).
Proof.
  intros Hwf Hc Hfuel Hne.
  destruct (getAncestors_returns this strict Hwf Hc Hfuel) as [anc Ha].
  destruct (getAncestors_returns other strict Hwf Hc Hfuel) as [oanc Ho].
  exists anc, oanc. split; [done|]. split; [done|].
  pose proof (findCommonAncestors_ne Hne Ha Ho) as Hf.
  split; [done|]. intros Ht Hnone. rewrite Hf. f_equal.
  unfold findCommonAncestors_spec.
  rewrite bool_decide_eq_false_2.
  2:{ intros [_ Hl]. apply Ht. apply last_Some in Hl as [l' ->]. set_solver. }
  replace (list_find (fun oa => this = oa) oanc) with (@None (nat * id)).
  2:{ symmetry. apply list_find_None, Forall_forall. intros x Hx ->. done. }
  replace (list_find (fun a => a = other \/ a ∈ oanc) anc) with (@None (nat * id)); [done|].
  symmetry. apply list_find_None, Forall_forall. intros x Hx. pose proof (Hnone x Hx). tauto.
Qed.

(** C9 ([isInFrontOf]). In a well-formed heap whose canvases have no parent,
    with fuel for its nodes, [isInFrontOf] returns: [undefined] for a node and
    itself and, for two different nodes, exactly when [common] is empty; it is
    the comparison of the indices of the two fork heads among the objects of
    the first common ancestor; it is [true] when [other] is an ancestor of
    [this] and [false] when [this] is an ancestor of [other]; of two siblings
    the one later in the child sequence is in front. *)
Theorem isInFrontOf_decides_order N fuel h this other :
  wf N h ->
  (forall c, kind (h c) = KCanvas -> group (h c) = None /\ canvas (h c) = None) ->
  N <= fuel ->
  kind (h other) <> KCanvas ->
  isInFrontOf fuel h this this = Some None
  /\ (this <> other ->
      exists anc oanc,
        getAncestors fuel h this false = Some anc
        /\ getAncestors fuel h other false = Some oanc
        /\ let r := findCommonAncestors_spec this other anc oanc in
           findCommonAncestors fuel h this other false = Some r
           /\ isInFrontOf fuel h this other =
                Some (match head (common r) with
                      | None => None
                      | Some c =>
                          let thisIndex := indexOf_opt (_objects (h c)) (last (fork r)) in
                          let otherIndex := indexOf_opt (_objects (h c)) (last (otherFork r)) in
                          Some ((-1 <? thisIndex)%Z && (otherIndex <? thisIndex)%Z)
                      end)
           /\ (isInFrontOf fuel h this other = Some None <-> common r = [])
           /\ (other ∈ anc -> isInFrontOf fuel h this other = Some (Some true))
           /\ (this ∈ oanc -> isInFrontOf fuel h this other = Some (Some false))
           /\ (forall g, group (h this) = Some g -> group (h other) = Some g ->
                 (0 <= indexOf (_objects (h g)) other < indexOf (_objects (h g)) this)%Z ->
                 isInFrontOf fuel h this other = Some (Some true)
                 /\ isInFrontOf fuel h other this = Some (Some false))).
Proof.
  intros Hwf Hc Hfuel Hk. split.
  { unfold isInFrontOf. by rewrite decide_True. }
  intros Hne.
  destruct (getAncestors_returns this false Hwf Hc Hfuel) as [anc Ha].
  destruct (getAncestors_returns other false Hwf Hc Hfuel) as [oanc Ho].
  assert (Hcan : forall o c, canvas (h o) = Some c -> kind (h c) = KCanvas)
    by (intros o c; apply (wf_canvas_kind Hwf)).
  assert (Hmem : forall o g, group (h o) = Some g -> o ∈ _objects (h g))
    by (intros o g Hg; by apply (wf_member Hwf) in Hg as [_ ?]).
  exists anc, oanc. split; [done|]. split; [done|]. intros r.
  pose proof (findCommonAncestors_ne Hne Ha Ho) as Hf. fold r in Hf.
  pose proof (isInFrontOf_indices Hne Hf) as Hi.
  split; [done|]. split; [done|]. split.
  { rewrite Hi. destruct (common r) as [|c cs]; simpl; [done|]. split; intros; done. }
  split; [intros Hin; by eapply isInFrontOf_nested|].
  split; [intros Hin; by eapply isInFrontOf_nesting|].
  intros g Hg Hg' Hidx.
  destruct (@isInFrontOf_siblings _ fuel h other this g oanc); auto.
Qed.

(** X1 (the ancestors of a node). In a well-formed heap whose canvases have no
    parent, [getAncestors] returns (fuel for the longest chain suffices); the
    strict ancestors are all groups, and the ancestors that are not strict are
    the strict ones followed by the canvas of the topmost of them (of the node
    itself when it is in no group), if it is on one. *)
Theorem getAncestors_ends_at_canvas N fuel h this :
  wf N h ->
  (forall c, kind (h c) = KCanvas -> group (h c) = None /\ canvas (h c) = None) ->
  N <= fuel ->
  exists anc,
    getAncestors fuel h this true = Some anc
    /\ Forall (fun a => kind (h a) = KGroup) anc
    /\ getAncestors fuel h this false
       = Some (anc ++ option_list (canvas (h (default this (last anc))))).
Proof.
  intros Hwf Hc Hfuel. destruct (wf_strict_ancestors this Hwf) as (anc & Hch & Hlen & Hk).
  exists anc. split; [|split; [done|]].
  - apply chain_fuel; [done|lia].
  - apply chain_fuel.
    + eapply chain_with_canvas; eauto. intros i c. apply (wf_canvas_kind Hwf).
    + rewrite length_app. destruct (canvas _); simpl; lia.
Qed.

(** X2 ([isDescendantOf] and [getAncestors]). In a well-formed heap whose
    canvases have no parent, [isDescendantOf(target)] returns and is true
    exactly when [target] is among the ancestors, canvas included, that
    [getAncestors] lists. *)
Theorem isDescendantOf_iff_ancestor N fuel h this target :
  wf N h ->
  (forall c, kind (h c) = KCanvas -> group (h c) = None /\ canvas (h c) = None) ->
  N <= fuel ->
  exists l, getAncestors fuel h this false = Some l
    /\ isDescendantOf fuel h this target = Some (bool_decide (target ∈ l)).
Proof.
  intros Hwf Hc Hfuel. destruct (wf_strict_ancestors this Hwf) as (anc & Hch & Hlen & Hk).
  exists (walked h this anc). split.
  - apply chain_fuel.
    + eapply chain_with_canvas; eauto. intros i c. apply (wf_canvas_kind Hwf).
    + unfold walked. rewrite length_app. destruct (canvas _); simpl; lia.
  - unfold isDescendantOf. eapply isDescendantOf_walked; eauto; [| |lia].
    + intros i c. apply (wf_canvas_kind Hwf).
    + intros i g Hg. eapply wf_member in Hg as [? _]; eauto.
Qed.

Lemma elem_of_take_full (x : id) n l : x ∈ take n l -> x ∈ l.
Proof. intros Hx. rewrite <- (take_drop n l). set_solver. Qed.

(* the path of a node: the node, then its ancestors *)
Lemma path_chain strict h x l :
  chain strict h (parentOf strict h x) l -> chain strict h (Some x) (x :: l).
Proof. by constructor. Qed.

Lemma chain_split strict h p l pre c post :
  chain strict h p l -> l = pre ++ c :: post ->
  chain strict h (Some c) (c :: post).
Proof.
  intros Hch. revert pre. induction Hch as [|p l Hch IH]; intros pre Heq.
  - by destruct pre.
  - destruct pre as [|q pre]; simplify_eq/=.
    + by constructor.
    + by eapply IH.
Qed.

Lemma chain_last_parent strict h p l pre c post :
  chain strict h p l -> l = pre ++ c :: post -> pre <> [] ->
  exists y, last pre = Some y /\ parentOf strict h y = Some c.
Proof.
  intros Hch. revert pre. induction Hch as [|p l Hch IH]; intros pre Heq Hne.
  - by destruct pre.
  - destruct pre as [|q pre]; [done|]. simplify_eq/=.
    destruct pre as [|q' pre].
    + exists q. split; [done|]. simpl in Hch. inversion Hch; subst. congruence.
    + destruct (IH (q' :: pre)) as (y & Hy & Hp); [done..|].
      exists y. split; [|done]. by rewrite last_cons_cons.
Qed.

Lemma fca_spec_partition h strict this other anc oanc :
  this <> other ->
  chain strict h (parentOf strict h this) anc ->
  chain strict h (parentOf strict h other) oanc ->
  let r := findCommonAncestors_spec this other anc oanc in
  fork r ++ common r = this :: anc
  /\ otherFork r ++ common r = other :: oanc
  /\ (forall x, x ∈ fork r -> x ∉ otherFork r).
Proof.
  intros Hne Ha Ho. unfold findCommonAncestors_spec.
  case_bool_decide as Hsp.
  { destruct Hsp as [-> Hl]. simpl. split; [done|]. split; [|set_solver].
    apply last_Some in Hl as [l' ->]. rewrite length_app. simpl.
    replace (length l' + 1 - 1) with (length l') by lia.
    by rewrite take_app_length. }
  destruct (list_find (fun oa => this = oa) oanc) as [[j x]|] eqn:Hj.
  { apply list_find_Some in Hj as (Hjx & <- & _). simpl.
    split; [done|]. split; [|set_solver].
    f_equal. rewrite <- (take_drop_middle _ _ _ Hjx) at 2. f_equal. f_equal.
    eapply chain_functional; [exact Ha|]. eapply chain_drop; eauto. }
  assert (this ∉ oanc) as Hto.
  { intros Hin. apply list_elem_of_lookup in Hin as [k Hk].
    assert (is_Some (list_find (fun oa => this = oa) oanc)) as [? ?]; [|congruence].
    eapply list_find_elem_of; [by eapply list_elem_of_lookup_2|done]. }
  destruct (list_find (fun a => a = other \/ a ∈ oanc) anc) as [[i a]|] eqn:Hi.
  - apply first_index_split in Hi as (Hsplit & Hlen & HP & Hbefore). simpl.
    assert (anc !! i = Some a) as Hia.
    { rewrite Hsplit. rewrite lookup_app_r by lia. by rewrite Hlen, Nat.sub_diag. }
    split; [by rewrite take_drop|].
    assert (drop i anc = a :: drop (S i) anc) as Hd by (by erewrite drop_S).
    pose proof (chain_drop Ha Hia) as Hca.
    split.
    + case_decide as Hao.
      * subst a. simpl. rewrite Hd. f_equal. eapply chain_functional; eauto.
      * destruct HP as [?|Hin]; [done|].
        destruct (list_find (fun oa => a = oa) oanc) as [[j x]|] eqn:Hj2.
        2: { exfalso. assert (is_Some (list_find (fun oa => a = oa) oanc)) as [? ?]; [|congruence].
             eapply list_find_elem_of; [exact Hin|done]. }
        apply list_find_Some in Hj2 as (Hjx & <- & _). simpl.
        f_equal. rewrite Hd. rewrite <- (take_drop_middle _ _ _ Hjx) at 2. f_equal. f_equal.
        eapply chain_functional; [exact Hca|]. eapply chain_drop; eauto.
    + intros x Hx Hx'. case_decide; [set_solver|].
      apply elem_of_cons in Hx as [->|Hx].
      * apply elem_of_cons in Hx' as [?|Hx']; [done|].
        apply Hto. by eapply elem_of_take_full.
      * apply (Hbefore x Hx). apply elem_of_cons in Hx' as [->|Hx']; [by left|].
        right. by eapply elem_of_take_full.
  - simpl. rewrite !app_nil_r. split; [done|]. split; [done|].
    intros x Hx Hx'.
    assert (forall y, y ∈ anc -> ~ (y = other \/ y ∈ oanc)) as Hnone.
    { intros y Hy HP. assert (is_Some (list_find (fun a => a = other \/ a ∈ oanc) anc)) as [? ?]; [|congruence].
      eapply list_find_elem_of; [exact Hy|done]. }
    apply elem_of_cons in Hx as [->|Hx].
    + apply elem_of_cons in Hx' as [?|?]; done.
    + apply (Hnone x Hx). apply elem_of_cons in Hx' as [->|?]; auto.
Qed.

Lemma fca_partition fuel h this other strict anc oanc r :
  getAncestors fuel h this strict = Some anc ->
  getAncestors fuel h other strict = Some oanc ->
  findCommonAncestors fuel h this other strict = Some r ->
  fork r ++ common r = this :: anc
  /\ otherFork r ++ common r = other :: oanc
  /\ (forall x, x ∈ fork r -> x ∉ otherFork r).
Proof.
  intros Ha Ho Hr. destruct (decide (this = other)) as [<-|Hne].
  - unfold findCommonAncestors in Hr. rewrite decide_True in Hr by done.
    rewrite Ha in Hr. simpl in Hr. simplify_eq. simpl. set_solver.
  - rewrite (findCommonAncestors_ne Hne Ha Ho) in Hr. simplify_eq.
    eapply fca_spec_partition; eauto using getAncestors_chain.
Qed.


Lemma partition_unique (f g c f' g' c' P Q : list id) :
  f ++ c = P -> g ++ c = Q -> f' ++ c' = P -> g' ++ c' = Q ->
  (forall x, x ∈ f -> x ∉ g) -> (forall x, x ∈ f' -> x ∉ g') ->
  f = f' /\ g = g' /\ c = c'.
Proof.
  intros Hf Hg Hf' Hg' Hd Hd'. subst P Q.
  apply app_eq_inv in Hf' as [(k & -> & ->)|(k & -> & ->)].
  - rewrite app_assoc in Hg'. apply app_inv_tail in Hg' as ->.
    destruct k as [|x k]; [by rewrite !app_nil_r|].
    exfalso. apply (Hd' x); set_solver.
  - rewrite app_assoc in Hg'. apply app_inv_tail in Hg'. subst g.
    destruct k as [|x k]; [by rewrite !app_nil_r|].
    exfalso. apply (Hd x); set_solver.
Qed.

Lemma fca_total fuel h this other strict anc oanc :
  getAncestors fuel h this strict = Some anc ->
  getAncestors fuel h other strict = Some oanc ->
  is_Some (findCommonAncestors fuel h this other strict).
Proof.
  intros Ha Ho. unfold findCommonAncestors. case_decide; rewrite Ha; simpl; [by eexists|].
  rewrite Ho. simpl. by eexists.
Qed.

Lemma fca_swap fuel h this other strict anc oanc r :
  getAncestors fuel h this strict = Some anc ->
  getAncestors fuel h other strict = Some oanc ->
  findCommonAncestors fuel h this other strict = Some r ->
  findCommonAncestors fuel h other this strict = Some (swap_forks r).
Proof.
  intros Ha Ho Hr. destruct (fca_total Ho Ha) as [r' Hr']. rewrite Hr'. f_equal.
  destruct (fca_partition Ha Ho Hr) as (H1 & H2 & H3).
  destruct (fca_partition Ho Ha Hr') as (H1' & H2' & H3').
  destruct (partition_unique H1 H2 H2' H1' H3) as (E1 & E2 & E3).
  { intros x Hx Hx'. by apply (H3' x). }
  destruct r, r'. unfold swap_forks. simpl in *. by subst.
Qed.

(** X3 (the forks and the common part). In a well-formed heap whose canvases
    have no parent, with fuel for its nodes, [findCommonAncestors] returns; in
    its result each fork followed by the common ancestors is the node followed
    by all its ancestors, and no node is in both forks. *)
Theorem findCommonAncestors_partition N fuel h this other strict :
  wf N h ->
  (forall c, kind (h c) = KCanvas -> group (h c) = None /\ canvas (h c) = None) ->
  N <= fuel ->
  exists anc oanc r,
    getAncestors fuel h this strict = Some anc
    /\ getAncestors fuel h other strict = Some oanc
    /\ findCommonAncestors fuel h this other strict = Some r
    /\ fork r ++ common r = this :: anc
    /\ otherFork r ++ common r = other :: oanc
    /\ (forall x, x ∈ fork r -> x ∉ otherFork r).
Proof.
  intros Hwf Hc Hfuel.
  destruct (getAncestors_returns this strict Hwf Hc Hfuel) as [anc Ha].
  destruct (getAncestors_returns other strict Hwf Hc Hfuel) as [oanc Ho].
  destruct (fca_total Ha Ho) as [r Hr].
  exists anc, oanc, r. split; [done|]. split; [done|]. split; [done|].
  by eapply fca_partition.
Qed.

(** X4 (the comparison is symmetric). When both ancestor lists are obtained,
    both comparisons return, and comparing [other] with [this] gives the
    result of comparing [this] with [other] with the two forks exchanged and
    the same common ancestors. *)
Theorem findCommonAncestors_swap fuel h this other strict anc oanc :
  getAncestors fuel h this strict = Some anc ->
  getAncestors fuel h other strict = Some oanc ->
  exists r,
    findCommonAncestors fuel h this other strict = Some r
    /\ findCommonAncestors fuel h other this strict
       = Some {| fork := otherFork r; otherFork := fork r; common := common r |}.
Proof.
  intros Ha Ho. destruct (fca_total Ha Ho) as [r Hr].
  exists r. split; [done|]. by eapply fca_swap.
Qed.

(* the two answers, on walks that have returned *)
Lemma hasCommonAncestors_meet fuel h this other strict anc oanc :
  getAncestors fuel h this strict = Some anc ->
  getAncestors fuel h other strict = Some oanc ->
  exists b,
    hasCommonAncestors fuel h this other strict = Some b
    /\ hasCommonAncestors fuel h other this strict = Some b
    /\ (b = true <-> exists x, x ∈ this :: anc /\ x ∈ other :: oanc).
Proof.
  intros Ha Ho. destruct (fca_total Ha Ho) as [r Hr].
  pose proof (fca_swap Ha Ho Hr) as Hr'.
  destruct (fca_partition Ha Ho Hr) as (H1 & H2 & H3).
  unfold hasCommonAncestors. rewrite Hr, Hr'. simpl.
  eexists. split; [done|]. split; [done|].
  rewrite bool_decide_eq_true. split.
  - intros Hc. destruct (common r) as [|c cs] eqn:Hcm; [done|].
    exists c. rewrite <- H1, <- H2. set_solver.
  - intros (x & Hx & Hx') Hc. rewrite Hc, app_nil_r in H1, H2.
    apply (H3 x); congruence.
Qed.

(** X5 ([hasCommonAncestors]). In a well-formed heap whose canvases have no
    parent, with fuel for its nodes, [hasCommonAncestors] returns, with the
    same answer in both directions, and the answer is true exactly when some
    node is on both paths (a node or one of its ancestors, on each side). *)
Theorem hasCommonAncestors_iff_paths_meet N fuel h this other strict :
  wf N h ->
  (forall c, kind (h c) = KCanvas -> group (h c) = None /\ canvas (h c) = None) ->
  N <= fuel ->
  exists anc oanc b,
    getAncestors fuel h this strict = Some anc
    /\ getAncestors fuel h other strict = Some oanc
    /\ hasCommonAncestors fuel h this other strict = Some b
    /\ hasCommonAncestors fuel h other this strict = Some b
    /\ (b = true <-> exists x, x ∈ this :: anc /\ x ∈ other :: oanc).
Proof.
  intros Hwf Hc Hfuel.
  destruct (getAncestors_returns this strict Hwf Hc Hfuel) as [anc Ha].
  destruct (getAncestors_returns other strict Hwf Hc Hfuel) as [oanc Ho].
  destruct (hasCommonAncestors_meet Ha Ho) as (b & H1 & H2 & H3).
  by exists anc, oanc, b.
Qed.

Lemma indexOf_from_inj l x y i :
  (0 <= i)%Z -> x ∈ l -> indexOf_from l x i = indexOf_from l y i -> x = y.
Proof.
  revert i. induction l as [|z l IH]; intros i Hi Hx Heq; [by apply elem_of_nil in Hx|].
  simpl in Heq. repeat case_decide; simplify_eq; try done.
  - destruct (indexOf_from_ge l y (i + 1)); lia.
  - destruct (indexOf_from_in (l := l) (x := x) (i := (i + 1)%Z)) as [? _]; [|set_solver|]; lia.
  - eapply (IH (i + 1)%Z); [lia|set_solver|done].
Qed.

Ltac ltb_cases :=
  repeat match goal with
         | |- context [(?a <? ?b)%Z] => destruct (Z.ltb_spec a b)
         end; simpl; try done; try lia.

(** X6 (the order of painting is antisymmetric). For two different nodes of a
    heap in which every node is among the objects of its parent, [isInFrontOf]
    from [other] is the negation of [isInFrontOf] from [this], and undefined
    when that one is. *)
Theorem isInFrontOf_antisymmetric fuel h this other anc oanc :
  this <> other ->
  getAncestors fuel h this false = Some anc ->
  getAncestors fuel h other false = Some oanc ->
  (forall o p, parentOf false h o = Some p -> o ∈ _objects (h p)) ->
  isInFrontOf fuel h other this = option_map negb <$> isInFrontOf fuel h this other.
Proof.
  intros Hne Ha Ho Hmem. destruct (fca_total Ha Ho) as [r Hr].
  pose proof (fca_swap Ha Ho Hr) as Hr'.
  destruct (fca_partition Ha Ho Hr) as (H1 & H2 & H3).
  rewrite (isInFrontOf_indices Hne Hr).
  rewrite (isInFrontOf_indices (not_eq_sym Hne) Hr'). simpl.
  destruct (common r) as [|c cs] eqn:Hc; [done|]. simpl. do 2 f_equal.
  pose proof (path_chain (getAncestors_chain Ha)) as Hpa.
  pose proof (path_chain (getAncestors_chain Ho)) as Hpo.
  assert (forall f P x, chain false h (Some x) P -> f ++ c :: cs = P -> f <> [] ->
            exists y, last f = Some y /\ y ∈ _objects (h c)) as Hhead.
  { intros f P x HP Hf Hnn. destruct (chain_last_parent HP (eq_sym Hf) Hnn) as (y & Hy & Hp).
    exists y. split; [done|]. by apply Hmem. }
  destruct (fork r) as [|f0 f] eqn:Hf; destruct (otherFork r) as [|g0 g] eqn:Hg.
  - simpl in *. congruence.
  - destruct (Hhead (g0 :: g) _ _ Hpo H2) as (y & -> & Hy); [done|].
    simpl. destruct (indexOf_in Hy) as [Hi _]. ltb_cases.
  - destruct (Hhead (f0 :: f) _ _ Hpa H1) as (y & -> & Hy); [done|].
    simpl. destruct (indexOf_in Hy) as [Hi _]. ltb_cases.
  - destruct (Hhead (f0 :: f) _ _ Hpa H1) as (y & Hly & Hy); [done|].
    destruct (Hhead (g0 :: g) _ _ Hpo H2) as (z & Hlz & Hz); [done|].
    rewrite Hly, Hlz. simpl.
    destruct (indexOf_in Hy) as [Hi _]. destruct (indexOf_in Hz) as [Hi' _].
    assert (y <> z) as Hyz.
    { intros ->. apply (H3 z).
      - apply last_Some in Hly as [l' ->]. set_solver.
      - apply last_Some in Hlz as [l' ->]. set_solver. }
    assert (indexOf (_objects (h c)) y <> indexOf (_objects (h c)) z) as Hd.
    { intros Heq. apply Hyz. eapply (@indexOf_from_inj _ y z 0%Z); [lia|done|exact Heq]. }
    ltb_cases.
Qed.

End Ancestry.


(** ** What a layout touches *)

Section LayoutFrame.
Context {SC : Scalars} {BO : BaseObject}.
Implicit Types (h : Heap) (l : list id).

Local Abbreviation lframe := layout_frame.

Lemma same_but_layout_refl n : same_but_layout n n.
Proof. split; [by destruct n|done]. Qed.

Lemma same_but_layout_trans n1 n2 n3 :
  same_but_layout n1 n2 -> same_but_layout n2 n3 -> same_but_layout n1 n3.
Proof.
  intros [H1 M1] [H2 M2]. split; [|auto].
  rewrite <- H1 at 3. rewrite <- H2. by destruct n3.
Qed.

Lemma lframe_refl h : lframe h h.
Proof. intros i. apply same_but_layout_refl. Qed.

Lemma lframe_trans h1 h2 h3 : lframe h1 h2 -> lframe h2 h3 -> lframe h1 h3.
Proof. intros H1 H2 i. eapply same_but_layout_trans; eauto. Qed.

Lemma lframe_geo h o G : lframe h (upd h o (fun n => with_geo n (G n))).
Proof.
  intros i. unfold upd. case_decide; [subst|apply same_but_layout_refl].
  split; [by destruct (h o)|done].
Qed.

Lemma lframe_flag h o : lframe h (upd h o (fun n => with_firstLayoutDone n true)).
Proof.
  intros i. unfold upd. case_decide; [subst|apply same_but_layout_refl].
  split; [by destruct (h o)|done].
Qed.

Lemma lframe_fold diff objs h :
  lframe h (fold_left (fun h o => _adjustObjectPosition o diff h) objs h).
Proof.
  revert h. induction objs as [|o objs IH]; intros h; simpl; [apply lframe_refl|].
  eapply lframe_trans; [|apply IH]. apply lframe_geo.
Qed.

Lemma lframe_initialTransform this ctx h : lframe h (set_initialTransform this ctx h).
Proof.
  unfold set_initialTransform. destruct (initialTransformOf ctx) as [[[a sx] sy]|];
    [apply lframe_geo|apply lframe_refl].
Qed.

Lemma lframe_apply_result h this ctx center result :
  lframe h (layout_apply_result h this ctx center result).
Proof.
  unfold layout_apply_result.
  set (h1 := upd h this _).
  assert (F1 : lframe h h1) by apply lframe_geo.
  set (h2 := if objectsRelativeToGroup ctx then h1 else _).
  assert (F2 : lframe h h2).
  { unfold h2. destruct (objectsRelativeToGroup ctx); [done|].
    eapply lframe_trans; [exact F1|]. apply lframe_fold. }
  set (h3 := if negb (bool_decide (type ctx = initialization)) && _ then _ else h2).
  assert (F3 : lframe h h3).
  { unfold h3. destruct (negb _ && negb _); [|done].
    destruct (clipPath (h2 this)); [|done].
    destruct (negb _); [|done].
    eapply lframe_trans; [exact F2|]. apply lframe_geo. }
  destruct (_ || _); [|done].
  eapply lframe_trans; [exact F3|].
  eapply lframe_trans; [|apply lframe_initialTransform].
  apply (@lframe_geo h3 this (fun n => set_left_top (geo n) _ _)).
Qed.

Lemma lframe_body this ctx h h' r d :
  layout_body this ctx h = Completed h' r d -> lframe h h'.
Proof.
  unfold layout_body. destruct (negb _ && negb _); [done|].
  destruct (getLayoutStrategyResult _ _ _ _ _).
  - intros [= <- _ _]. apply lframe_apply_result.
  - destruct (bool_decide _); [|done]. intros [= <- _ _].
    apply lframe_initialTransform.
Qed.

(* what a completed layout of [this] reaches *)
Lemma layout_body_footprint this ctx h h' r d i :
  layout_body this ctx h = Completed h' r d ->
  i <> this -> i ∉ _objects (h this) -> clipPath (h this) <> Some i ->
  h' i = h i.
Proof.
  intros Hb Hi Ho Hcp. unfold layout_body in Hb.
  destruct (negb _ && negb _); [done|].
  destruct (getLayoutStrategyResult _ _ _ _ _) as [res|].
  2: { destruct (bool_decide _); [|done]. simplify_eq.
       by apply set_initialTransform_ne. }
  simplify_eq. unfold layout_apply_result.
  set (h1 := upd h this _).
  assert (E1 : h1 i = h i) by (unfold h1; by rewrite upd_ne).
  assert (O1 : _objects (h1 this) = _objects (h this)) by (unfold h1; by rewrite upd_eq).
  assert (C1 : clipPath (h1 this) = clipPath (h this)) by (unfold h1; by rewrite upd_eq).
  set (h2 := if objectsRelativeToGroup ctx then h1 else _).
  assert (E2 : h2 i = h i).
  { unfold h2. destruct (objectsRelativeToGroup ctx); [done|].
    rewrite adjust_fold_notin; [done|by rewrite O1]. }
  assert (C2 : clipPath (h2 this) = clipPath (h this)).
  { unfold h2. destruct (objectsRelativeToGroup ctx); [done|].
    by rewrite (adjust_fold_blind (f := clipPath)). }
  set (h3 := if negb (bool_decide (type ctx = initialization)) && _ then _ else h2).
  assert (E3 : h3 i = h i).
  { unfold h3. destruct (negb _ && negb _); [|done].
    rewrite C2. destruct (clipPath (h this)) as [cp|]; [|done].
    destruct (negb _); [|done].
    unfold _adjustObjectPosition. rewrite upd_ne; [done|congruence]. }
  destruct (_ || _); [|done].
  rewrite set_initialTransform_ne by done. by rewrite upd_ne.
Qed.

Lemma applyLayout_lframe fuel this ctx w w' :
  _applyLayoutStrategy fuel this ctx w = Some w' -> lframe (heap w) (heap w').
Proof.
  revert this ctx w. induction fuel as [|f IH]; intros this ctx w;
    rewrite applyLayout_unfold;
    destruct (layout_body this ctx (heap w)) as [| |h' r d] eqn:Hb;
    try (intros [= <-]; apply lframe_refl).
  all: apply lframe_body in Hb.
  all: set (h'' := upd h' this _).
  all: assert (F : lframe (heap w) h'')
         by (eapply lframe_trans; [exact Hb|]; apply lframe_flag).
  all: cbv zeta; destruct (group (h'' this)) as [g|]; [|by intros [= <-]].
  all: destruct (decide (kind (h'' g) = KGroup)); [|by intros [= <-]].
  - done.
  - intros H. apply IH in H. eapply lframe_trans; [exact F|]. exact H.
Qed.

Lemma same_but_layout_fields n n' :
  same_but_layout n n' ->
  kind n' = kind n /\ group n' = group n /\ canvas n' = canvas n
  /\ _objects n' = _objects n /\ _activeObjects n' = _activeObjects n
  /\ layout n' = layout n /\ clipPath n' = clipPath n
  /\ absolutePositioned n' = absolutePositioned n
  /\ interactive n' = interactive n /\ dirty n' = dirty n
  /\ watchers n' = watchers n.
Proof. intros [<- _]. by destruct n'. Qed.

Lemma lframe_same_tree h h' : lframe h h' -> same_tree h h'.
Proof.
  intros F i. destruct (same_but_layout_fields (F i)) as (? & ? & ? & ? & _). done.
Qed.

Lemma applyLayout_footprint fuel this ctx w w' anc i :
  _applyLayoutStrategy fuel this ctx w = Some w' ->
  chain true (heap w) (parentOf true (heap w) this) anc ->
  (forall g, g ∈ this :: anc ->
     i <> g /\ (i ∉ _objects (heap w g)) /\ clipPath (heap w g) <> Some i) ->
  heap w' i = heap w i.
Proof.
  revert this ctx w anc. induction fuel as [|f IH]; intros this ctx w anc;
    rewrite applyLayout_unfold;
    destruct (layout_body this ctx (heap w)) as [| |h' r d] eqn:Hb;
    try (by intros [= <-]).
  all: intros Hr Hc Hfp.
  all: pose proof (lframe_body Hb) as Fb.
  all: destruct (Hfp this) as (Hi & Ho & Hcp); [set_solver|].
  all: pose proof (layout_body_footprint Hb Hi Ho Hcp) as Ei.
  all: set (h'' := upd h' this _) in *.
  all: assert (F : lframe (heap w) h'')
         by (eapply lframe_trans; [exact Fb|]; apply lframe_flag).
  all: assert (Ei' : h'' i = heap w i) by (unfold h''; by rewrite upd_ne).
  all: cbv zeta in Hr; destruct (group (h'' this)) as [g|] eqn:Hg; [|by simplify_eq].
  all: destruct (decide (kind (h'' g) = KGroup)); [|by simplify_eq].
  - done.
  - pose proof (lframe_same_tree F) as Ft.
    destruct (Ft this) as (_ & Hgr & _); rewrite Hg in Hgr.
    assert (Hp : parentOf true (heap w) this = Some g) by (unfold parentOf; by rewrite <- Hgr).
    rewrite Hp in Hc. inversion Hc as [|? anc' Hc']; subst.
    rewrite <- Ei'. eapply (IH g _ _ anc' Hr).
    + simpl. eapply chain_same_tree; [exact Ft|].
      replace (parentOf true h'' g) with (parentOf true (heap w) g); [done|].
      unfold parentOf. by destruct (Ft g) as (_ & -> & _).
    + intros g' Hg'. simpl.
      destruct (same_but_layout_fields (F g')) as (_ & _ & _ & -> & _ & _ & -> & _).
      apply Hfp. set_solver.
Qed.

Lemma with_path_nil c : with_path c [] = c.
Proof. unfold with_path. rewrite app_nil_r. by destruct c. Qed.

Lemma with_path_push c o l : with_path (push_path c o) l = with_path c (o :: l).
Proof. unfold with_path, push_path. simpl. by rewrite <- app_assoc. Qed.

(* the events of a layout that has returned *)
Lemma applyLayout_events fuel this ctx w w' anc :
  _applyLayoutStrategy fuel this ctx w = Some w' ->
  chain true (heap w) (parentOf true (heap w) this) anc ->
  exists evs, events w' = events w ++ evs
    /\ forall k e, evs !! k = Some e ->
         exists t r d, (this :: anc) !! k = Some t
           /\ e = EvLayout t (with_path ctx (take k (this :: anc))) r d
           /\ _firstLayoutDone (heap w' t) = true.
Proof.
  revert this ctx w anc. induction fuel as [|f IH]; intros this ctx w anc;
    rewrite applyLayout_unfold;
    destruct (layout_body this ctx (heap w)) as [| |h' r d] eqn:Hb;
    try (intros [= <-] _; exists []; rewrite app_nil_r; split; [done|]; by intros k e).
  all: intros Hr Hc.
  all: pose proof (lframe_body Hb) as Fb.
  all: set (h'' := upd h' this _) in *.
  all: assert (F : lframe (heap w) h'')
         by (eapply lframe_trans; [exact Fb|]; apply lframe_flag).
  all: assert (Hone : forall w1 : World, heap w1 = h'' ->
         forall k e, [EvLayout this ctx r d] !! k = Some e ->
         exists t r0 d0, (this :: anc) !! k = Some t
           /\ e = EvLayout t (with_path ctx (take k (this :: anc))) r0 d0
           /\ _firstLayoutDone (heap w1 t) = true).
  1,3: intros w1 Hw1 [|k] e He; [|done]; simpl in He; injection He as <-;
       exists this, r, d; split; [done|]; split; [by rewrite with_path_nil|];
       rewrite Hw1; unfold h''; by rewrite upd_eq.
  all: cbv zeta in Hr; destruct (group (h'' this)) as [g|] eqn:Hg.
  2,4: simplify_eq; eexists; split; [done|]; by apply Hone.
  all: destruct (decide (kind (h'' g) = KGroup)) as [Hkg|Hkg].
  2,4: simplify_eq; eexists; split; [done|]; by apply Hone.
  - done.
  - pose proof (lframe_same_tree F) as Ft.
    destruct (Ft this) as (_ & Hgr & _); rewrite Hg in Hgr.
    assert (Hp : parentOf true (heap w) this = Some g) by (unfold parentOf; by rewrite <- Hgr).
    rewrite Hp in Hc. inversion Hc as [|? anc' Hc']; subst.
    destruct (IH g _ _ anc' Hr) as (evs & Hev & Hk).
    { simpl. eapply chain_same_tree; [exact Ft|].
      replace (parentOf true h'' g) with (parentOf true (heap w) g); [done|].
      unfold parentOf. by destruct (Ft g) as (_ & -> & _). }
    exists (EvLayout this ctx r d :: evs). split.
    { rewrite Hev. simpl. by rewrite <- app_assoc. }
    intros [|k] e He; simpl in He.
    + simplify_eq. exists this, r, d. split; [done|]. split; [by rewrite with_path_nil|].
      destruct (applyLayout_lframe Hr this) as [_ Hm]. apply Hm. simpl.
      unfold h''. by rewrite upd_eq.
    + destruct (Hk k e He) as (t & r0 & d0 & Ht & -> & Hfl).
      exists t, r0, d0. split; [done|]. split; [|done].
      by rewrite with_path_push.
Qed.

(** X7 (the 'layout' events of one request). With fuel for the groups above, a
    layout request returns; its events are 'layout' events fired bottom up, at
    most one for the group and each group above it in order; each carries the
    context of the request with the path travelled so far, and every group
    that fired has had its first layout. *)
Theorem layout_events_follow_the_chain fuel this ctx w anc :
  chain true (heap w) (parentOf true (heap w) this) anc -> length anc <= fuel ->
  exists w' evs,
    _applyLayoutStrategy fuel this ctx w = Some w'
    /\ events w' = events w ++ evs
    /\ forall k e, evs !! k = Some e ->
         exists t r d, (this :: anc) !! k = Some t
           /\ e = EvLayout t (with_path ctx (take k (this :: anc))) r d
           /\ _firstLayoutDone (heap w' t) = true.
Proof.
  intros Hc Hl. destruct (applyLayout_total ctx Hc Hl) as [w' Hw'].
  destruct (applyLayout_events Hw' Hc) as (evs & Hev & Hk).
  by exists w', evs.
Qed.

End LayoutFrame.

(* tests on the layout directive, by computation on strings *)
Lemma bool_decide_string (a b : string) : bool_decide (a = b) = String.eqb a b.
Proof.
  case_bool_decide as H; symmetry; [by apply String.eqb_eq|by apply String.eqb_neq].
Qed.

Ltac string_tests :=
  rewrite ?bool_decide_string; cbn [String.eqb Ascii.eqb Bool.eqb andb orb negb].

Section LayoutRuns.
Context {SC : Scalars} {BO : BaseObject}.
Implicit Types (h : Heap) (l : list id).

Lemma applyLayout_extends fuel this ctx w w' :
  _applyLayoutStrategy fuel this ctx w = Some w' ->
  exists evs, events w' = events w ++ evs
    /\ forall e, e ∈ evs -> exists t c r d, e = EvLayout t c r d /\ type c = type ctx.
Proof.
  revert this ctx w. induction fuel as [|f IH]; intros this ctx w;
    rewrite applyLayout_unfold;
    destruct (layout_body this ctx (heap w)) as [| |h' r d] eqn:Hb;
    try (intros [= <-]; exists []; rewrite app_nil_r; split; [done|]; by intros e ?%elem_of_nil).
  all: cbv zeta; set (h'' := upd h' this _).
  all: assert (Hone : forall e, e ∈ [EvLayout this ctx r d] ->
                exists t c r0 d0, e = EvLayout t c r0 d0 /\ type c = type ctx)
         by (intros e ->%list_elem_of_singleton; by do 4 eexists).
  all: destruct (group (h'' this)) as [g|]; [|intros [= <-]; by eexists].
  all: destruct (decide (kind (h'' g) = KGroup)) as [Hk|Hk]; [|intros [= <-]; by eexists].
  - done.
  - intros Hr. apply IH in Hr as (evs & Hev & Hall). simpl in Hev.
    exists (EvLayout this ctx r d :: evs). split; [by rewrite Hev, <- app_assoc|].
    intros e [->|He]%elem_of_cons; [by do 4 eexists|].
    destruct (Hall e He) as (t & c & r0 & d0 & -> & Ht). by do 4 eexists.
Qed.

Lemma applyLayout_completed fuel this ctx w w' h' r d :
  layout_body this ctx (heap w) = Completed h' r d ->
  _applyLayoutStrategy fuel this ctx w = Some w' ->
  exists rest, events w' = events w ++ EvLayout this ctx r d :: rest
    /\ _firstLayoutDone (heap w' this) = true.
Proof.
  intros Hb. rewrite applyLayout_unfold, Hb. cbv zeta.
  set (h'' := upd h' this _).
  assert (Hfl : _firstLayoutDone (h'' this) = true) by (unfold h''; by rewrite upd_eq).
  destruct (group (h'' this)) as [g|].
  2: { intros [= <-]. by exists []. }
  destruct (decide (kind (h'' g) = KGroup)) as [Hk|Hk].
  2: { intros [= <-]. by exists []. }
  destruct fuel as [|f]; [done|]. intros Hr.
  destruct (applyLayout_extends Hr) as (evs & Hev & _). simpl in Hev.
  exists evs. split; [by rewrite Hev, <- app_assoc|].
  destruct (applyLayout_lframe Hr this) as [_ Hm]. by apply Hm.
Qed.

Lemma layout_body_initialization this ctx h :
  type ctx = initialization ->
  exists h' r d, layout_body this ctx h = Completed h' r d
    /\ (getLayoutStrategyResult h this (layout (h this)) (_objects (h this)) ctx = None ->
        h' = set_initialTransform this ctx h /\ d = None
        /\ r_width r = width (geo (h this)) /\ r_height r = height (geo (h this))).
Proof.
  intros Ht. unfold layout_body. rewrite bool_decide_eq_true_2 by done. simpl.
  destruct (getLayoutStrategyResult _ _ _ _ _); [by do 3 eexists|].
  by do 3 eexists.
Qed.

(** X8 (the first layout). A layout of type [initialization] is never rejected
    and never without a result: it returns (fuel for the chain of groups above
    suffices), sets [_firstLayoutDone] and fires a 'layout' event on the
    group, before anything that the groups above fire. *)
Theorem initialization_layout_completes fuel this ctx w anc :
  type ctx = initialization ->
  chain true (heap w) (parentOf true (heap w) this) anc -> length anc <= fuel ->
  exists w' r d rest,
    _applyLayoutStrategy fuel this ctx w = Some w'
    /\ _firstLayoutDone (heap w' this) = true
    /\ events w' = events w ++ EvLayout this ctx r d :: rest.
Proof.
  intros Ht Hc Hf. destruct (applyLayout_total ctx Hc Hf) as [w' Hw'].
  destruct (layout_body_initialization this (heap w) Ht) as (h' & r & d & Hb & _).
  destruct (applyLayout_completed Hb Hw') as (rest & Hev & Hfl).
  by exists w', r, d, rest.
Qed.

Lemma same_but_layout_may_change n n' : same_but_layout n n' -> layout_may_change n n'.
Proof. intros [E M]. split; [|done]. rewrite E. by destruct n. Qed.

(** X9 (what a layout can change). With fuel for the groups above, a layout
    returns; it changes nothing but geometry, [dirty] flags and the flag
    [_firstLayoutDone], which it never clears; and a node that is neither the
    group, nor one of the groups above it, nor an object or the clip path of
    one of these, keeps everything but, at most, its [dirty] flag. *)
Theorem layout_changes_geometry_only fuel this ctx w anc :
  chain true (heap w) (parentOf true (heap w) this) anc -> length anc <= fuel ->
  exists w',
    _applyLayoutStrategy fuel this ctx w = Some w'
    /\ forall i,
         layout_may_change (heap w i) (heap w' i)
         /\ ((forall g, g ∈ this :: anc ->
                i <> g /\ (i ∉ _objects (heap w g)) /\ clipPath (heap w g) <> Some i) ->
             with_dirty (heap w' i) (dirty (heap w i)) = heap w i).
Proof.
  intros Hc Hl. destruct (applyLayout_total ctx Hc Hl) as [w' Hr].
  exists w'. split; [done|]. intros i. split.
  - apply same_but_layout_may_change. by apply (applyLayout_lframe Hr).
  - intros Hout. rewrite (applyLayout_footprint Hr Hc Hout). by destruct (heap w i).
Qed.


(** X10 (a first layout with the box given). On [initialization], in the
    layouts "fit-content", "fit-content-lazy" and "fixed", when the options
    give left, top, width and height as numbers and the objects are relative
    to the group, or when the group has no objects, the strategy gives no
    result: the hook gets the group's own size, no other node changes, and the
    group gets the angle and skews of the options. *)
Theorem explicit_box_skips_measuring this ctx h o :
  type ctx = initialization ->
  layout (h this) ∈ ["fit-content"; "fit-content-lazy"; "fixed"] ->
  options ctx = Some o ->
  (isNumber (o_left o) = true /\ isNumber (o_top o) = true
   /\ isNumber (o_width o) = true /\ isNumber (o_height o) = true
   /\ objectsRelativeToGroup ctx = true)
  \/ _objects (h this) = [] ->
  getLayoutStrategyResult h this (layout (h this)) (_objects (h this)) ctx = None
  /\ exists r, layout_body this ctx h = Completed (set_initialTransform this ctx h) r None
       /\ r_width r = width (geo (h this)) /\ r_height r = height (geo (h this))
       /\ (forall i, i <> this -> set_initialTransform this ctx h i = h i)
       /\ geo (set_initialTransform this ctx h this)
          = set_angle_skew (geo (h this)) (or0 (o_angle o)) (or0 (o_skewX o)) (or0 (o_skewY o)).
Proof.
  intros Ht Hl Ho Hskip.
  assert (Hp : forall d : string, prepareBoundingBox h this d (_objects (h this)) ctx = None).
  { intros d. unfold prepareBoundingBox. rewrite decide_True by done.
    unfold prepareInitialBoundingBox. rewrite Ho. simpl.
    destruct Hskip as [(-> & -> & -> & -> & ->) | ->]; [done|].
    simpl. by rewrite orb_true_r. }
  assert (Hres : getLayoutStrategyResult h this (layout (h this)) (_objects (h this)) ctx = None).
  { unfold getLayoutStrategyResult.
    repeat (apply elem_of_cons in Hl as [Hl|Hl]); [| | |by apply elem_of_nil in Hl].
    all: rewrite Hl; string_tests; rewrite ?(bool_decide_eq_true_2 _ Ht);
      cbn [andb orb]; try apply Hp.
    rewrite (bool_decide_eq_false_2 (type ctx = added)) by congruence. apply Hp. }
  split; [done|].
  unfold layout_body. rewrite Hres. rewrite bool_decide_eq_true_2 by done. simpl.
  eexists. split; [done|]. simpl. split; [done|]. split; [done|].
  split; [intros i Hi; by apply set_initialTransform_ne|].
  unfold set_initialTransform, initialTransformOf.
  rewrite bool_decide_eq_true_2 by done. rewrite Ho. simpl. by rewrite upd_eq.
Qed.

(** X11 (modes that give no result). A layout that is none of the five known
    ones, or "clip-path" without a clip path, or "clip-path" with an
    absolutely positioned clip path on a trigger other than [initialization]
    and [layout_change], or "svg" on a trigger other than [initialization],
    gives no result; and a request that is not the first layout then leaves
    the heap and the events as they were. *)
Theorem no_strategy_no_layout fuel this ctx w :
  let h := heap w in
  (layout (h this) ∉ ["fit-content"; "fit-content-lazy"; "fixed"; "clip-path"; "svg"])
  \/ (layout (h this) = "clip-path" /\ clipPath (h this) = None)
  \/ (layout (h this) = "clip-path" /\ type ctx <> initialization /\ type ctx <> layout_change
      /\ exists cp, clipPath (h this) = Some cp /\ absolutePositioned (h cp) = true)
  \/ (layout (h this) = "svg" /\ type ctx <> initialization) ->
  getLayoutStrategyResult h this (layout (h this)) (_objects (h this)) ctx = None
  /\ (type ctx <> initialization -> _applyLayoutStrategy fuel this ctx w = Some w).
Proof.
  intros h Hcase.
  assert (Hres : getLayoutStrategyResult h this (layout (h this)) (_objects (h this)) ctx = None).
  { unfold getLayoutStrategyResult.
    destruct Hcase as [Hl|[[Hl Hcp]|[(Hl & Ht1 & Ht2 & cp & Hcp & Habs)|[Hl Ht]]]].
    - rewrite (bool_decide_eq_false_2 (layout (h this) = "fit-content")) by set_solver.
      rewrite (bool_decide_eq_false_2 (layout (h this) = "fit-content-lazy")) by set_solver.
      rewrite (bool_decide_eq_false_2 (layout (h this) = "fixed")) by set_solver.
      rewrite (bool_decide_eq_false_2 (layout (h this) = "clip-path")) by set_solver.
      rewrite (bool_decide_eq_false_2 (layout (h this) = "svg")) by set_solver.
      cbn [andb orb]. by destruct (clipPath (h this)).
    - rewrite Hl, Hcp. string_tests. done.
    - rewrite Hl, Hcp, Habs. string_tests.
      rewrite (bool_decide_eq_false_2 (type ctx = initialization)) by done.
      rewrite (bool_decide_eq_false_2 (type ctx = layout_change)) by done. done.
    - rewrite Hl. string_tests.
      rewrite (bool_decide_eq_false_2 (type ctx = initialization)) by done.
      by destruct (clipPath (h this)). }
  split; [done|]. intros Ht. rewrite applyLayout_unfold. unfold layout_body.
  fold h. rewrite Hres. rewrite (bool_decide_eq_false_2 (type ctx = initialization)) by done.
  simpl. by destruct (negb (_firstLayoutDone (h this))).
Qed.

(** X12 ([triggerLayout]). [triggerLayout] returns; a layout given in its
    argument that is not the empty string becomes the layout of the group and
    stays so through the layout that follows, and without one the group keeps
    its layout; every event fired is a 'layout' event of type [imperative];
    before the first layout nothing is fired and nothing else in the heap
    changes. *)
Theorem triggerLayout_sets_the_mode fuel this c w anc :
  chain true (heap w) (parentOf true (heap w) this) anc -> length anc <= fuel ->
  exists w' evs,
    triggerLayout fuel this c w = Some w'
    /\ layout (heap w' this) = layout_asked c (layout (heap w this))
    /\ events w' = events w ++ evs
    /\ (forall e, e ∈ evs ->
          exists t ctx r d, e = EvLayout t ctx r d /\ type ctx = imperative)
    /\ (_firstLayoutDone (heap w this) = false ->
        evs = []
        /\ forall i, heap w' i
                     = if decide (i = this)
                       then with_layout (heap w this)
                              (layout_asked c (layout (heap w this)))
                       else heap w i).
Proof.
  intros Hc Hlen. unfold triggerLayout.
  set (w1 := match c ≫= p_layout with Some l => _ | None => w end).
  set (ctx := {| type := imperative; targets := []; options := None;
                 objectsRelativeToGroup := false; context := c; path := [] |}).
  assert (Hw1 : forall i, heap w1 i
                 = if decide (i = this)
                   then with_layout (heap w this) (layout_asked c (layout (heap w this)))
                   else heap w i).
  { intros i. unfold w1, layout_asked. destruct (c ≫= p_layout) as [d|]; simpl.
    - destruct (decide (d = "")); simpl.
      + destruct (decide (i = this)) as [->|?]; [by destruct (heap w this)|done].
      + destruct (decide (i = this)) as [->|?]; rewrite ?upd_eq, ?upd_ne by done; done.
    - destruct (decide (i = this)) as [->|?]; [by destruct (heap w this)|done]. }
  assert (Hl1 : layout (heap w1 this) = layout_asked c (layout (heap w this))).
  { rewrite Hw1, decide_True by done. done. }
  assert (He1 : events w1 = events w).
  { unfold w1. destruct (c ≫= p_layout) as [d|]; [|done]. by destruct (decide (d = "")). }
  assert (Hf1 : _firstLayoutDone (heap w1 this) = _firstLayoutDone (heap w this)).
  { rewrite Hw1, decide_True by done. done. }
  assert (F1 : same_tree (heap w) (heap w1)).
  { intros i. rewrite Hw1. destruct (decide (i = this)) as [->|?]; done. }
  assert (Hc1 : chain true (heap w1) (parentOf true (heap w1) this) anc).
  { unfold parentOf in *. destruct (F1 this) as (_ & -> & _). by eapply chain_same_tree. }
  destruct (@applyLayout_total _ _ fuel this ctx w1 anc Hc1 Hlen) as [w' Hr].
  destruct (applyLayout_extends Hr) as (evs & Hev & Hall). rewrite He1 in Hev.
  exists w', evs. split; [done|]. split; [|split; [done|split; [done|]]].
  - destruct (same_but_layout_fields (applyLayout_lframe Hr this))
      as (_ & _ & _ & _ & _ & -> & _). done.
  - intros Hfl. rewrite applyLayout_unfold in Hr.
    rewrite layout_body_rejected in Hr; [|congruence|done].
    injection Hr as <-. split; [|done].
    rewrite He1 in Hev. apply (app_inv_head (events w)). by rewrite app_nil_r.
Qed.

Lemma fold_translate_size diff objs h i :
  width (geo (fold_left (fun h o => _adjustObjectPosition o diff h) objs h i)) = width (geo (h i))
  /\ height (geo (fold_left (fun h o => _adjustObjectPosition o diff h) objs h i)) = height (geo (h i)).
Proof.
  revert h. induction objs as [|o objs IH]; intros h; simpl; [done|].
  destruct (IH (_adjustObjectPosition o diff h)) as [-> ->].
  unfold _adjustObjectPosition, upd. by case_decide; subst.
Qed.

Lemma completed_size this ctx h h' r d :
  layout_body this ctx h = Completed h' r (Some d) ->
  width (geo (h' this)) = r_width r /\ height (geo (h' this)) = r_height r.
Proof.
  unfold layout_body. destruct (negb _ && negb _); [done|].
  destruct (getLayoutStrategyResult _ _ _ _ _) as [res|].
  2: { by destruct (bool_decide _). }
  intros [= <- <- _]. unfold layout_apply_result.
  set (h1 := upd h this _).
  assert (S1 : width (geo (h1 this)) = r_width res /\ height (geo (h1 this)) = r_height res)
    by (unfold h1; by rewrite upd_eq).
  set (h2 := if objectsRelativeToGroup ctx then h1 else _).
  assert (S2 : width (geo (h2 this)) = r_width res /\ height (geo (h2 this)) = r_height res).
  { unfold h2. destruct (objectsRelativeToGroup ctx); [done|].
    destruct (fold_translate_size (layout_diff h this (getRelativeCenterPoint (geo (h this))) res)
                (_objects (h1 this)) h1 this) as [-> ->]. done. }
  set (h3 := if negb (bool_decide (type ctx = initialization)) && _ then _ else h2).
  assert (S3 : width (geo (h3 this)) = r_width res /\ height (geo (h3 this)) = r_height res).
  { unfold h3. destruct (negb _ && negb _); [|done].
    destruct (clipPath (h2 this)) as [cp|]; [|done].
    destruct (negb _); [|done].
    unfold _adjustObjectPosition, upd. by case_decide; subst. }
  destruct (_ || _); [|done].
  unfold set_initialTransform. destruct (initialTransformOf ctx) as [[[a sx] sy]|].
  - rewrite !upd_eq. simpl. done.
  - rewrite upd_eq. simpl. done.
Qed.

(** X13 (layout 'fit-content' after the first layout). In layout
    "fit-content", after the first layout, every trigger other than
    [initialization] and [imperative] takes the bounding box of all the
    objects: the group gets its width and height and the objects are
    translated; with no objects there is no result. *)
Theorem fit_content_takes_the_box this ctx h :
  layout (h this) = "fit-content" ->
  _firstLayoutDone (h this) = true ->
  type ctx <> initialization -> type ctx <> imperative ->
  match getObjectsBoundingBox h this (_objects (h this)) false with
  | Some r =>
      exists h' d, layout_body this ctx h = Completed h' r (Some d)
        /\ width (geo (h' this)) = r_width r /\ height (geo (h' this)) = r_height r
  | None => _objects (h this) = [] /\ layout_body this ctx h = NoResult
  end.
Proof.
  intros Hl Hfl Ht1 Ht2.
  assert (Hres : getLayoutStrategyResult h this (layout (h this)) (_objects (h this)) ctx
                 = getObjectsBoundingBox h this (_objects (h this)) false).
  { unfold getLayoutStrategyResult. rewrite Hl.
    string_tests. by apply prepareBoundingBox_plain. }
  assert (Hb : layout_body this ctx h =
    match getObjectsBoundingBox h this (_objects (h this)) false with
    | Some r => Completed (layout_apply_result h this ctx (getRelativeCenterPoint (geo (h this))) r) r
                  (Some (layout_diff h this (getRelativeCenterPoint (geo (h this))) r))
    | None => NoResult
    end).
  { unfold layout_body. rewrite Hres, Hfl.
    rewrite (bool_decide_eq_false_2 (type ctx = initialization)) by done. simpl.
    by destruct (getObjectsBoundingBox _ _ _ _). }
  destruct (getObjectsBoundingBox h this (_objects (h this)) false) as [r|] eqn:Hbox.
  - do 2 eexists. split; [exact Hb|]. by eapply completed_size.
  - split; [|done]. destruct (_objects (h this)) as [|o os]; [done|].
    unfold getObjectsBoundingBox in Hbox. by destruct (fold_left _ _ _).
Qed.

End LayoutRuns.


(** ** The canvas of a subtree *)

Section CanvasOnly.
Context {SC : Scalars}.
Implicit Types (h : Heap) (l : list id).

Lemma canvas_only_refl h : canvas_only h h.
Proof. intros i. by destruct (h i). Qed.

Lemma canvas_only_trans h1 h2 h3 : canvas_only h1 h2 -> canvas_only h2 h3 -> canvas_only h1 h3.
Proof.
  intros H1 H2 i. rewrite <- (H1 i) at 2. rewrite <- (H2 i). by destruct (h3 i).
Qed.

Lemma canvas_only_upd h o v : canvas_only h (upd h o (fun n => with_canvas n v)).
Proof.
  intros i. unfold upd. case_decide; subst; by destruct (h _).
Qed.

Lemma set_canvas_only fuel o v h h' :
  _set_canvas fuel o v h = Some h' -> canvas_only h h'.
Proof.
  revert o h h'. induction fuel as [|f IH]; intros o h h'; rewrite set_canvas_unfold; cbv zeta.
  - destruct (decide _); [destruct (decide _); [|done]|]; intros [= <-]; apply canvas_only_upd.
  - destruct (decide _); [destruct (decide _)|]; try (intros [= <-]; apply canvas_only_upd).
    intros H. eapply canvas_only_trans; [apply canvas_only_upd|].
    eapply (forEachM_inv (P := canvas_only)); [apply canvas_only_refl|apply canvas_only_trans| |exact H].
    intros o' s s' _. apply IH.
Qed.

Lemma canvas_only_fields h h' i :
  canvas_only h h' ->
  _activeObjects (h' i) = _activeObjects (h i) /\ dirty (h' i) = dirty (h i)
  /\ geo (h' i) = geo (h i) /\ watchers (h' i) = watchers (h i)
  /\ _firstLayoutDone (h' i) = _firstLayoutDone (h i) /\ layout (h' i) = layout (h i).
Proof. intros H. rewrite <- (H i). by destruct (h' i). Qed.

End CanvasOnly.

Section Reach.
Context {SC : Scalars}.
Implicit Types (h : Heap) (l : list id).

Lemma reach_trans h a b c : reach h a b -> reach h b c -> reach h a c.
Proof. intros Hab Hbc. induction Hbc; [done|]. by eapply reach_child. Qed.

Lemma reach_down h o c i :
  kind (h o) = KGroup -> c ∈ _objects (h o) -> reach h c i -> reach h o i.
Proof.
  intros Hk Hc Hr. eapply reach_trans; [|exact Hr].
  eapply reach_child; [apply reach_refl|done|done].
Qed.

Lemma reach_root h o i :
  reach h o i ->
  i = o \/ exists c, kind (h o) = KGroup /\ c ∈ _objects (h o) /\ reach h c i.
Proof.
  induction 1 as [|d c Hr IH Hk Hc]; [by left|]. right.
  destruct IH as [->|(c0 & Hk0 & Hc0 & Hr0)].
  - exists c. split; [done|]. split; [done|]. apply reach_refl.
  - exists c0. split; [done|]. split; [done|]. by eapply reach_child.
Qed.

Lemma reach_same_tree h h' o i : same_tree h h' -> reach h o i -> reach h' o i.
Proof.
  intros Ht. induction 1 as [|d c Hr IH Hk Hc]; [apply reach_refl|].
  eapply reach_child; [exact IH| |].
  - by destruct (Ht d) as (-> & _).
  - by destruct (Ht d) as (_ & _ & ->).
Qed.

Lemma canvas_only_same_tree h h' : canvas_only h h' -> same_tree h h'.
Proof. intros H i. rewrite <- (H i). by destruct (h' i). Qed.

Lemma chain_suffix_elem h p l c :
  chain true h p l -> c ∈ l -> exists pre post, l = pre ++ c :: post /\ chain true h (Some c) (c :: post).
Proof.
  intros Hc Hin. apply list_elem_of_split in Hin as (pre & post & ->).
  exists pre, post. split; [done|]. by eapply chain_split.
Qed.

Lemma reach_chain h o lo i :
  consistent_below h o -> chain true h (Some o) lo -> reach h o i ->
  exists pre, chain true h (Some i) (pre ++ lo).
Proof.
  intros Hcb Hlo. induction 1 as [|d c Hr IH Hk Hc]; [by exists []|].
  destruct IH as [pre Hd].
  assert (o ∈ pre ++ lo) as Ho.
  { inversion Hlo; subst. set_solver. }
  pose proof (Hcb d _ c Hd Ho Hk Hc) as Hg.
  exists (c :: pre). simpl. constructor. unfold parentOf. by rewrite Hg.
Qed.

Lemma consistent_below_down h o c lc :
  consistent_below h o -> chain true h (Some c) lc -> o ∈ lc -> consistent_below h c.
Proof.
  intros Hcb Hlc Ho d l c' Hd Hc.
  apply Hcb with (l := l); [done|].
  destruct (chain_suffix_elem Hd Hc) as (pre & post & -> & Hcc).
  rewrite (chain_functional Hcc Hlc). set_solver.
Qed.

Lemma acyclic_from_chains h o lo :
  consistent_below h o -> chain true h (Some o) lo -> acyclic_below h o.
Proof.
  intros Hcb Hlo d c Hr Hk Hc Hcyc.
  destruct (reach_chain Hcb Hlo Hr) as [pre Hd].
  assert (o ∈ pre ++ lo) as Ho by (inversion Hlo; subst; set_solver).
  pose proof (Hcb d _ c Hd Ho Hk Hc) as Hg.
  assert (Hcc : chain true h (Some c) (c :: pre ++ lo)).
  { constructor. unfold parentOf. by rewrite Hg. }
  assert (Hcb' : consistent_below h c).
  { eapply consistent_below_down; [exact Hcb|exact Hcc|set_solver]. }
  destruct (reach_chain Hcb' Hcc Hcyc) as [pre' Hd'].
  pose proof (chain_functional Hd Hd') as Heq.
  apply (f_equal length) in Heq. rewrite !length_app in Heq. simpl in Heq.
  rewrite length_app in Heq. lia.
Qed.

Lemma closed_reach v h hx o i :
  closed_below v h hx o -> canvas (hx o) = v -> reach h o i -> canvas (hx i) = v.
Proof.
  intros Hcl Ho. induction 1 as [|d c Hr IH Hk Hc]; [done|]. by eapply Hcl.
Qed.

Lemma acyclic_below_down h o c :
  acyclic_below h o -> kind (h o) = KGroup -> c ∈ _objects (h o) -> acyclic_below h c.
Proof.
  intros Ha Hk Hc d c' Hr. apply Ha. by eapply reach_down.
Qed.

(* the objects of a list, one after the other *)
Lemma set_canvas_list f v h (D : id -> Prop) :
  (forall o hx hx', _set_canvas f o v hx = Some hx' ->
     canvas_only h hx -> acyclic_below h o -> closed_below v h hx o ->
     (forall i, reach h o i -> canvas (hx' i) = v)
     /\ (forall i, canvas (hx' i) = canvas (hx i) \/ reach h o i)) ->
  forall L hcur h', forEachM (fun o h => _set_canvas f o v h) L hcur = Some h' ->
    canvas_only h hcur ->
    (forall c, c ∈ L -> acyclic_below h c) ->
    (forall c d, c ∈ L -> reach h c d -> D d) ->
    (forall d c, D d -> kind (h d) = KGroup -> c ∈ _objects (h d) ->
                 canvas (hcur d) = v -> canvas (hcur c) = v) ->
    (forall c i, c ∈ L -> reach h c i -> canvas (h' i) = v)
    /\ (forall i, canvas (h' i) = canvas (hcur i) \/ exists c, c ∈ L /\ reach h c i).
Proof.
  intros IHf. induction L as [|c L IH]; intros hcur h' Hrun Hco Hacyc HD Hcl.
  { rewrite forEachM_nil in Hrun. injection Hrun as <-. split; [set_solver|by left]. }
  rewrite forEachM_cons in Hrun.
  destruct (_set_canvas f c v hcur) as [hc|] eqn:Hc; [|done]. simpl in Hrun.
  destruct (IHf c hcur hc Hc Hco) as [A1 B1].
  { apply Hacyc. set_solver. }
  { intros d c' Hr. apply Hcl. eapply HD; [|exact Hr]. set_solver. }
  pose proof (set_canvas_only Hc) as Hco1.
  assert (Hco' : canvas_only h hc) by (eapply canvas_only_trans; eauto).
  destruct (IH hc h' Hrun Hco') as [A2 B2].
  { intros c' Hc'. apply Hacyc. set_solver. }
  { intros c' d Hc'. apply HD. set_solver. }
  { intros d c' Hd Hk Hc' Hv.
    destruct (B1 c') as [E|Hr]; [|by apply A1].
    destruct (B1 d) as [E'|Hr'].
    - rewrite E. apply (Hcl d c' Hd Hk Hc'). by rewrite <- E'.
    - apply A1. by eapply reach_child. }
  split.
  - intros c' i [->|Hc']%elem_of_cons Hr; [|by eapply A2].
    destruct (B2 i) as [E|(c2 & Hc2 & Hr2)]; [|by eapply A2].
    rewrite E. by apply A1.
  - intros i. destruct (B2 i) as [E|(c2 & Hc2 & Hr2)].
    + rewrite E. destruct (B1 i) as [E1|Hr1]; [by left|].
      right. exists c. split; [set_solver|done].
    + right. exists c2. split; [set_solver|done].
Qed.

Lemma set_canvas_reach fuel v h :
  forall o hx hx', _set_canvas fuel o v hx = Some hx' ->
    canvas_only h hx -> acyclic_below h o -> closed_below v h hx o ->
    (forall i, reach h o i -> canvas (hx' i) = v)
    /\ (forall i, canvas (hx' i) = canvas (hx i) \/ reach h o i).
Proof.
  induction fuel as [|f IH]; intros o hx hx'; rewrite set_canvas_unfold; cbv zeta;
    intros Hrun Hco Hacyc Hcl.
  all: pose proof (canvas_only_same_tree Hco) as Ht.
  all: destruct (Ht o) as (Hko & _ & Hoo).
  all: assert (Hbase : forall i, canvas (upd hx o (fun n => with_canvas n v) i)
                         = if decide (i = o) then v else canvas (hx i)).
  1,3: intros i; unfold upd; destruct (decide (i = o)); simpl; done.
  all: assert (Hleaf : kind (hx o) <> KGroup ->
         (forall i, reach h o i -> canvas (upd hx o (fun n => with_canvas n v) i) = v)
         /\ (forall i, canvas (upd hx o (fun n => with_canvas n v) i) = canvas (hx i) \/ reach h o i)).
  1,3: intros Hnk; split;
       [ intros i Hr; apply reach_root in Hr as [->|(c & Hk & _)];
           [rewrite Hbase; by rewrite decide_True|congruence]
       | intros i; rewrite Hbase; destruct (decide (i = o)); [subst; right; apply reach_refl|by left] ].
  all: assert (Hsame : canvas (hx o) = v ->
         (forall i, reach h o i -> canvas (upd hx o (fun n => with_canvas n v) i) = v)
         /\ (forall i, canvas (upd hx o (fun n => with_canvas n v) i) = canvas (hx i) \/ reach h o i)).
  1,3: intros Hv; split;
       [ intros i Hr; rewrite Hbase; destruct (decide (i = o)); [done|]; by eapply closed_reach
       | intros i; rewrite Hbase; destruct (decide (i = o)); [subst; right; apply reach_refl|by left] ].
  - destruct (decide _); [destruct (decide _); [|done]|]; injection Hrun as <-; auto.
  - destruct (decide (kind (hx o) = KGroup)) as [Hk|Hk]; [|injection Hrun as <-; auto].
    destruct (decide (canvas (hx o) = v)) as [Hv|Hv]; [injection Hrun as <-; auto|].
    set (h1 := upd hx o (fun n => with_canvas n v)) in *.
    assert (Hco1 : canvas_only h h1).
    { eapply canvas_only_trans; [exact Hco|]. apply canvas_only_upd. }
    assert (Ho1 : _objects (h1 o) = _objects (h o)).
    { unfold h1. rewrite upd_eq. simpl. done. }
    rewrite Ho1 in Hrun. rewrite Hko in Hk.
    destruct (@set_canvas_list f v h (fun d => exists c, c ∈ _objects (h o) /\ reach h c d) (IH)
                (_objects (h o)) h1 hx' Hrun Hco1) as [A B].
    + intros c Hc. by eapply acyclic_below_down.
    + intros c d Hc Hr. by exists c.
    + intros d c (c0 & Hc0 & Hr0) Hkd Hc.
      assert (reach h o d) as Hrd by (by eapply reach_down).
      assert (d <> o) as Hdo.
      { intros ->. by apply (Hacyc o c0 (reach_refl h o) Hk Hc0). }
      assert (c <> o) as Hco'.
      { intros ->. by apply (Hacyc d o Hrd Hkd Hc). }
      rewrite !Hbase. rewrite !decide_False by done. by apply Hcl.
    + split.
      * intros i Hr. apply reach_root in Hr as [->|(c & _ & Hc & Hr)]; [|by eapply A].
        destruct (B o) as [E|(c & Hc & Hr)].
        -- rewrite E, Hbase. by rewrite decide_True.
        -- by eapply A.
      * intros i. destruct (B i) as [E|(c & Hc & Hr)].
        -- rewrite E, Hbase. destruct (decide (i = o)); [subst; right; apply reach_refl|by left].
        -- right. by eapply reach_down.
Qed.

Lemma reach_inv_child h o i :
  reach h o i -> i <> o ->
  exists d, reach h o d /\ kind (h d) = KGroup /\ i ∈ _objects (h d).
Proof. destruct 1 as [|d c Hr Hk Hc]; [done|]. intros _. by exists d. Qed.

(* the canvas setter on [o], in a heap that is consistent but for [o] *)
Lemma set_canvas_cc fuel o v h h' :
  _set_canvas fuel o v h = Some h' ->
  acyclic_below h o ->
  (forall i g, group (h i) = Some g -> reach h o g ->
               kind (h g) = KGroup /\ i ∈ _objects (h g)) ->
  (forall d c, reach h o d -> kind (h d) = KGroup -> c ∈ _objects (h d) ->
               group (h c) = Some d) ->
  (forall i g, i <> o -> group (h i) = Some g -> canvas (h i) = canvas (h g)) ->
  (forall g, group (h o) = Some g -> canvas (h g) = v /\ ~ reach h o g) ->
  canvas_consistent h'
  /\ (forall i, reach h o i -> canvas (h' i) = v)
  /\ (forall i, canvas (h' i) = canvas (h i) \/ reach h o i).
Proof.
  intros Hrun Hacyc Hmem Hcons Hcc Hroot.
  assert (Hcl : closed_below v h h o).
  { intros d c Hr Hk Hc Hv. rewrite <- Hv. apply Hcc; [|by apply Hcons].
    intros ->. by apply (Hacyc d o Hr Hk Hc). }
  destruct (set_canvas_reach Hrun (canvas_only_refl h) Hacyc Hcl) as [A B].
  split; [|done].
  pose proof (canvas_only_same_tree (set_canvas_only Hrun)) as Ht.
  intros i g Hg. destruct (Ht i) as (_ & Hgi & _). rewrite Hgi in Hg.
  destruct (decide (i = o)) as [->|Hio].
  - destruct (Hroot g Hg) as [Hv Hnr]. rewrite (A o (reach_refl h o)).
    destruct (B g) as [E|Hr]; [|done]. by rewrite E.
  - destruct (B i) as [E|Hr].
    + destruct (B g) as [E'|Hr'].
      * rewrite E, E'. by apply Hcc.
      * destruct (Hmem i g Hg Hr') as [Hk Hin].
        rewrite (A g Hr'). apply A. by eapply reach_child.
    + rewrite (A i Hr). destruct (reach_inv_child Hr Hio) as (d & Hrd & Hk & Hin).
      pose proof (Hcons d i Hrd Hk Hin) as Hgd. assert (d = g) as -> by congruence.
      by rewrite (A g Hrd).
Qed.

Lemma wf_region N h o :
  wf N h ->
  acyclic_below h o
  /\ (forall i g, group (h i) = Some g -> kind (h g) = KGroup /\ i ∈ _objects (h g))
  /\ (forall d c, kind (h d) = KGroup -> c ∈ _objects (h d) -> group (h c) = Some d).
Proof.
  intros Hwf. split; [|split].
  - destruct (wf_bounded Hwf o) as (lo & Hlo & _).
    eapply acyclic_from_chains; [|exact Hlo].
    intros d l c _ _ Hk Hc. by apply (wf_member Hwf).
  - intros i g Hg. by apply (wf_member Hwf).
  - intros d c Hk Hc. by apply (wf_member Hwf).
Qed.

(** X14 (handing the canvas down). In a well-formed heap in which every node
    in a group has the canvas of its group, setting the canvas of a node
    returns, changes nothing but [canvas] fields, gives the new canvas to
    every node of the subtree, and leaves the canvas of every node outside it
    as it was. *)
Theorem set_canvas_reaches_the_subtree N fuel g v h :
  wf N h -> canvas_consistent h -> N <= fuel ->
  exists h', _set_canvas fuel g v h = Some h'
    /\ canvas_only h h'
    /\ (forall i, reach h g i -> canvas (h' i) = v)
    /\ (forall i, canvas (h' i) = canvas (h i) \/ reach h g i).
Proof.
  intros Hwf Hcc Hf.
  destruct (wf_bounded Hwf g) as (lg & Hlg & Hlen).
  destruct (@set_canvas_total _ N h g v) with (fuel := fuel) (d := g) (l := lg) (h := h)
    as (h' & Hs & _).
  - intros x l Hl. destruct (wf_bounded Hwf x) as (l' & Hl' & Hlen').
    by rewrite (chain_functional Hl Hl').
  - intros d l c _ _ Hk Hc. by apply (wf_member Hwf).
  - done.
  - inversion Hlg; subst. set_solver.
  - inversion Hlg; subst. simpl in *. lia.
  - apply same_tree_refl.
  - exists h'. split; [done|]. split; [by eapply set_canvas_only|].
    destruct (wf_region g Hwf) as (Hacyc & Hmem & Hcons).
    assert (Hcl : closed_below v h h g).
    { intros d c Hr Hk Hc Hv. rewrite <- Hv. apply Hcc. by apply Hcons. }
    apply (set_canvas_reach Hs (canvas_only_refl h) Hacyc Hcl).
Qed.

End Reach.


(** ** Removing objects *)

Section Detaching.
Context {SC : Scalars} {BO : BaseObject}.
Implicit Types (h : Heap) (l : list id).

Lemma exitGroup_activeObjects_ne this o rpt h i :
  i <> this -> _activeObjects (_exitGroup this o rpt h i) = _activeObjects (h i).
Proof.
  intros Hi. unfold _exitGroup.
  set (h1 := upd h o _). set (h2 := if rpt then h1 else _).
  set (h3 := _watchObject this false o h2).
  assert (H1 : _activeObjects (h1 i) = _activeObjects (h i)).
  { unfold h1, upd. by case_decide; subst. }
  assert (H2 : _activeObjects (h2 i) = _activeObjects (h i)).
  { unfold h2. destruct rpt; [done|]. unfold upd. case_decide; [|done]. subst. simpl.
    rewrite <- H1. unfold h1. by rewrite upd_eq. }
  assert (H3 : _activeObjects (h3 i) = _activeObjects (h i)).
  { unfold h3, _watchObject, upd. case_decide; [|done]. subst. simpl. done. }
  destruct (_ <? _)%Z; [|done]. by rewrite upd_ne.
Qed.

Lemma onObjectRemoved_effects fuel this o rpt w w' :
  _onObjectRemoved fuel this o rpt w = Some w' ->
  events w' = events w ++ [EvRemoved o this]
  /\ _activeObjects (heap w' this) = remove_first o (_activeObjects (heap w this)).
Proof.
  unfold _onObjectRemoved, exitGroup.
  destruct (_set_canvas _ _ _ _) as [h'|] eqn:Hs; [|done]. intros [= <-]. simpl.
  split; [done|].
  destruct (canvas_only_fields this (set_canvas_only Hs)) as (-> & _).
  apply exitGroup_activeObjects.
Qed.

Lemma sublist_full (r l : list id) :
  sublist r l -> (forall x, x ∈ l -> x ∈ r) -> NoDup l -> r = l.
Proof.
  induction 1 as [|x r l Hs IH|x r l Hs IH]; intros Hall Hnd; [done| |].
  - apply NoDup_cons in Hnd as [Hx Hnd]. f_equal. apply IH; [|done].
    intros y Hy. assert (y ∈ x :: r) as Hin by (apply Hall; set_solver).
    apply elem_of_cons in Hin as [->|Hin]; done.
  - exfalso. apply NoDup_cons in Hnd as [Hx Hnd].
    apply Hx. eapply elem_of_sublist; [|exact Hs]. apply Hall. set_solver.
Qed.

Lemma filter_remove_first (o : id) r l :
  NoDup l ->
  filter (fun x => x ∉ r) (remove_first o l) = filter (fun x => x ∉ o :: r) l.
Proof.
  induction l as [|y l IHl]; intros Hnd; [done|].
  apply NoDup_cons in Hnd as [Hy Hnd]. simpl. case_decide as Hyo.
  - subst y. rewrite (filter_cons_False (fun x => x ∉ o :: r)) by set_solver.
    apply filter_ext_in. intros x Hx. rewrite not_elem_of_cons.
    split; [|tauto]. intros ?. split; [|done]. by intros ->.
  - rewrite !filter_cons. destruct (decide (y ∉ r)).
    + rewrite decide_True by set_solver. f_equal. by apply IHl.
    + rewrite decide_False by set_solver. by apply IHl.
Qed.

Lemma filter_none (P : id -> Prop) `{forall x, Decision (P x)} l :
  (forall x, x ∈ l -> ~ P x) -> filter P l = [].
Proof.
  induction l as [|y l IHl]; intros Hall; [done|].
  rewrite filter_cons_False by (apply Hall; set_solver).
  apply IHl. intros x Hx. apply Hall. set_solver.
Qed.

Lemma reach_mono (h hx : Heap) o i :
  (forall d, kind (hx d) = kind (h d)) ->
  (forall d c, c ∈ _objects (hx d) -> c ∈ _objects (h d)) ->
  reach hx o i -> reach h o i.
Proof.
  intros Hk Ho. induction 1 as [|d c Hr IH Hkd Hc]; [apply reach_refl|].
  eapply reach_child; [exact IH| |by apply Ho]. by rewrite <- Hk.
Qed.

Lemma onObjectRemoved_canvas fuel this o rpt w w' :
  _onObjectRemoved fuel this o rpt w = Some w' ->
  _set_canvas fuel o None (_exitGroup this o rpt (heap w)) = Some (heap w').
Proof.
  unfold _onObjectRemoved, exitGroup.
  destruct (_set_canvas _ _ _ _) as [h'|]; [|done]. by intros [= <-].
Qed.

(* an object that has left its group hands "no canvas" down *)
Lemma exit_canvas N fuel o hx h2 :
  wf N hx -> group (hx o) = None ->
  (forall i g, group (hx i) = Some g -> canvas (hx i) = canvas (hx g)) ->
  _set_canvas fuel o None hx = Some h2 ->
  canvas_consistent h2 /\ canvas (h2 o) = None
  /\ (forall i, canvas (h2 i) = canvas (hx i) \/ reach hx o i).
Proof.
  intros Hwf Hgo Hcc Hs. destruct (wf_region o Hwf) as (Hacyc & Hmem & Hcons).
  destruct (set_canvas_cc Hs Hacyc) as (C & A & B).
  - intros i g Hg _. by apply Hmem.
  - intros d c _. apply Hcons.
  - intros i g _. apply Hcc.
  - intros g Hg. congruence.
  - split; [done|]. split; [apply A, reach_refl|done].
Qed.

Lemma collection_remove_spec N fuel this :
  N <= fuel ->
  forall objs acc w, wf N (heap w) -> kind (heap w this) = KGroup ->
  exists r w',
    collection_remove this objs (fun o => _onObjectRemoved fuel this o false) acc w
    = Some (acc ++ r, w')
    /\ wf N (heap w')
    /\ (forall o, o ∈ r <-> o ∈ objs /\ o ∈ _objects (heap w this))
    /\ NoDup r /\ sublist r objs
    /\ (forall i, kind (heap w' i) = kind (heap w i)
          /\ group (heap w' i) = (if decide (i ∈ r) then None else group (heap w i))
          /\ _objects (heap w' i)
             = (if decide (i = this) then filter (fun x => x ∉ r) (_objects (heap w this))
                else _objects (heap w i)))
    /\ events w' = events w ++ ((fun o => EvRemoved o this) <$> r)
    /\ _activeObjects (heap w' this)
       = fold_left (fun l o => remove_first o l) r (_activeObjects (heap w this))
    /\ (canvas_consistent (heap w) ->
        canvas_consistent (heap w')
        /\ canvas (heap w' this) = canvas (heap w this)
        /\ (forall x, x ∈ r -> canvas (heap w' x) = None)
        /\ (forall i, canvas (heap w i) = None -> canvas (heap w' i) = None)).
Proof.
  intros Hf. induction objs as [|o objs IH]; intros acc w Hwf Hk.
  { exists [], w. simpl. rewrite !app_nil_r. split; [done|]. split; [done|].
    split; [set_solver|]. split; [constructor|]. split; [constructor|].
    split; [|split; [done|split; [done|]]].
    - intros i. split; [done|]. split; [done|].
      case_decide; [|done]. subst. rewrite filter_all; [done|]. intros x _. set_solver.
    - intros Hcc. split; [done|]. split; [done|]. split; [set_solver|done]. }
  destruct (decide (o ∈ _objects (heap w this))) as [Hin|Hin].
  2:{ rewrite collection_remove_skip by done.
      destruct (IH acc w Hwf Hk) as (r & w' & Hr & Hwf' & Hel & Hnd & Hsub & HT & Hev & Hact & Hcan).
      exists r, w'. split; [done|]. split; [done|].
      split. { intros x. rewrite Hel. set_solver. }
      split; [done|]. split; [by constructor|]. done. }
  rewrite collection_remove_found by done.
  set (w1 := on_heap (spliced this o) w).
  set (hx := _exitGroup this o false (heap w1)).
  assert (Hg : group (heap w o) = Some this) by (by apply (wf_member Hwf)).
  pose proof (wf_nodup Hwf Hk) as Hnd0.
  assert (Tx : forall i, kind (hx i) = kind (heap w i)
                 /\ group (hx i) = (if decide (i = o) then None else group (heap w i))
                 /\ _objects (hx i) = (if decide (i = this) then remove_first o (_objects (heap w this))
                                       else _objects (heap w i))).
  { intros i. destruct (exitGroup_tree this o false (heap w1) i) as (Hk' & Ho & _ & Hg').
    fold hx in Hk', Ho, Hg'. rewrite Hk', Ho, Hg'. unfold w1. simpl.
    destruct (spliced_tree (h := heap w) i Hin) as (-> & -> & _ & ->). done. }
  assert (Cx : forall i, canvas (hx i) = canvas (heap w i)).
  { intros i. destruct (exitGroup_tree this o false (heap w1) i) as (_ & _ & Hc & _).
    fold hx in Hc. rewrite Hc. unfold w1. simpl.
    by destruct (spliced_tree (h := heap w) i Hin) as (_ & _ & -> & _). }
  assert (Htcx : typed_canvas hx).
  { intros i c Hi. rewrite Cx in Hi. destruct (Tx c) as (-> & _). by apply (wf_canvas_kind Hwf) in Hi. }
  pose proof (wf_cut Hwf Hg Tx Htcx) as Hwfx.
  destruct (@onObjectRemoved_ok _ _ fuel N this o w1) as (w2 & Hw2 & Hs2 & Hc2);
    [intros x; apply (wf_bounded Hwfx)|by eapply wf_consistent_below|done|].
  rewrite Hw2. simpl.
  destruct (onObjectRemoved_effects Hw2) as [Hev2 Hact2].
  assert (Hwf2 : wf N (heap w2)).
  { eapply wf_same_tree; [exact Hs2| |exact Hwfx].
    eapply (typed_canvas_step (v := None)); [eapply wf_typed, Hwf| |done|].
    + intros c. etransitivity; [apply Hs2|apply Tx].
    + intros i. destruct (Hc2 i) as [E|E]; rewrite E; [|by right]. left.
      unfold w1. simpl. by destruct (spliced_tree (h := heap w) i Hin) as (_ & _ & -> & _). }
  assert (Hk2 : kind (heap w2 this) = KGroup).
  { rewrite <- Hk. etransitivity; [apply Hs2|apply Tx]. }
  assert (T2 : forall i, kind (heap w2 i) = kind (heap w i)
                 /\ group (heap w2 i) = (if decide (i = o) then None else group (heap w i))
                 /\ _objects (heap w2 i) = (if decide (i = this) then remove_first o (_objects (heap w this))
                                       else _objects (heap w i))).
  { intros i. destruct (Hs2 i) as (-> & -> & ->). apply Tx. }
  destruct (IH (acc ++ [o]) w2 Hwf2 Hk2) as (r & w' & Hr & Hwf' & Hel & Hnd & Hsub & HT & Hev & Hact & Hcan).
  exists (o :: r), w'. split.
  { rewrite Hr. by rewrite <- app_assoc. }
  split; [done|].
  assert (Hor : o ∉ r).
  { intros Hx. apply Hel in Hx as [_ Hx]. destruct (T2 this) as (_ & _ & Ho2).
    rewrite decide_True in Ho2 by done. rewrite Ho2 in Hx.
    apply elem_of_remove_first in Hx as [_ ?]; done. }
  split.
  { intros x. rewrite elem_of_cons, Hel. destruct (T2 this) as (_ & _ & Ho2).
    rewrite decide_True in Ho2 by done. rewrite Ho2.
    rewrite elem_of_remove_first by done. rewrite elem_of_cons.
    destruct (decide (x = o)) as [->|Hxo]; [tauto|]. tauto. }
  split; [by constructor|]. split; [by constructor|].
  split.
  { intros i. destruct (HT i) as (-> & -> & ->). destruct (T2 i) as (-> & -> & _).
    split; [done|]. split.
    - destruct (decide (i = o)) as [->|Hio].
      + rewrite (decide_True (P := o ∈ o :: r)) by set_solver. by case_decide.
      + destruct (decide (i ∈ r)); [rewrite decide_True by set_solver|rewrite decide_False by set_solver]; done.
    - case_decide; [|by destruct (T2 i) as (_ & _ & ->); rewrite decide_False by done].
      destruct (T2 this) as (_ & _ & ->). rewrite decide_True by done.
      by apply filter_remove_first. }
  split.
  { rewrite Hev, Hev2. unfold w1. simpl. by rewrite <- app_assoc. }
  split.
  { rewrite Hact, Hact2. unfold w1. simpl. unfold spliced. by rewrite upd_eq. }
  intros Hcc.
  assert (Hgx : group (hx o) = None).
  { destruct (Tx o) as (_ & -> & _). by rewrite decide_True. }
  assert (Hccx : forall i g, group (hx i) = Some g -> canvas (hx i) = canvas (hx g)).
  { intros i g Hgi. rewrite !Cx. apply Hcc. destruct (Tx i) as (_ & Hgi' & _).
    rewrite Hgi' in Hgi. by case_decide. }
  destruct (exit_canvas Hwfx Hgx Hccx (onObjectRemoved_canvas Hw2)) as (C2 & Ho2 & B2).
  assert (Hthis2 : canvas (heap w2 this) = canvas (heap w this)).
  { destruct (B2 this) as [E|Hr2]; [by rewrite E, Cx|]. exfalso.
    destruct (wf_region this Hwf) as (Hacyc & _).
    apply (Hacyc this o (reach_refl _ _) Hk Hin).
    eapply reach_mono; [| |exact Hr2].
    - intros d. by destruct (Tx d) as (-> & _).
    - intros d c. destruct (Tx d) as (_ & _ & ->). case_decide; [|done].
      subst. intros Hc. by apply elem_of_remove_first in Hc as [? _]. }
  assert (Hnone2 : forall i, canvas (heap w i) = None -> canvas (heap w2 i) = None).
  { intros i Hi. destruct (B2 i) as [E|Hr2]; [by rewrite E, Cx|].
    destruct (set_canvas_frame (onObjectRemoved_canvas Hw2)) as [_ Hst].
    destruct (Hst i) as [E|E]; [|done]. by rewrite E, Cx. }
  destruct (Hcan C2) as (C' & Hthis' & Hr' & Hnone').
  split; [done|]. split; [by rewrite Hthis'|]. split.
  - intros x [->|Hx]%elem_of_cons; [by apply Hnone'|by apply Hr'].
  - intros i Hi. by apply Hnone', Hnone2.
Qed.

Lemma afterObjectsChange_spec N fuel this t ts w :
  wf N (heap w) -> N <= fuel ->
  exists w', _onAfterObjectsChange fuel this t ts w = Some w'
    /\ wf N (heap w')
    /\ same_tree (heap w) (heap w') /\ same_canvas (heap w) (heap w')
    /\ dirty (heap w' this) = true
    /\ (forall i, _activeObjects (heap w' i) = _activeObjects (heap w i))
    /\ exists evs, events w' = events w ++ evs
         /\ forall e, e ∈ evs -> exists g c r d, e = EvLayout g c r d /\ type c = t.
Proof.
  intros Hwf Hf. destruct (afterObjectsChange_wf this t ts Hwf Hf) as (w' & Hw' & Hwf').
  exists w'. split; [done|]. split; [done|].
  unfold _onAfterObjectsChange in Hw'.
  destruct (_applyLayoutStrategy _ _ _ _) as [w3|] eqn:Hw3; [|done]. simpl in Hw'.
  injection Hw' as <-. simpl.
  destruct (applyLayout_frame Hw3) as [F3 Cv3].
  destruct (@upd_tree_blind _ (heap w3) this (fun n => with_dirty n true)) as [F4 Cv4]; [by intros n|].
  split; [eapply same_tree_trans; [exact F3|exact F4]|].
  split; [eapply same_canvas_trans; [exact Cv3|exact Cv4]|].
  split; [unfold _set_dirty; by rewrite upd_eq|].
  split.
  - intros i. transitivity (_activeObjects (heap w3 i)).
    + unfold _set_dirty, upd. by case_decide; subst.
    + by destruct (same_but_layout_fields (applyLayout_lframe Hw3 i)) as (_ & _ & _ & _ & -> & _).
  - apply (applyLayout_extends Hw3).
Qed.

Lemma remove_spec N fuel this objs w :
  wf N (heap w) -> kind (heap w this) = KGroup -> N <= fuel ->
  exists r w',
    remove fuel this objs w = Some (r, w')
    /\ wf N (heap w')
    /\ (forall o, o ∈ r <-> o ∈ objs /\ o ∈ _objects (heap w this))
    /\ NoDup r /\ sublist r objs
    /\ (forall i, kind (heap w' i) = kind (heap w i))
    /\ _objects (heap w' this) = filter (fun x => x ∉ objs) (_objects (heap w this))
    /\ (forall o, group (heap w' o) = if decide (o ∈ r) then None else group (heap w o))
    /\ (forall g, g <> this -> _objects (heap w' g) = _objects (heap w g))
    /\ _activeObjects (heap w' this)
       = fold_left (fun l o => remove_first o l) r (_activeObjects (heap w this))
    /\ (canvas_consistent (heap w) ->
        canvas_consistent (heap w')
        /\ canvas (heap w' this) = canvas (heap w this)
        /\ (forall x, x ∈ r -> canvas (heap w' x) = None)).
Proof.
  intros Hwf Hk Hf. unfold remove.
  destruct (@collection_remove_spec N fuel this Hf objs [] w Hwf Hk)
    as (r & w1 & -> & Hwf1 & Hel & Hnd & Hsub & HT & Hev & Hact & Hcan).
  simpl.
  destruct (@afterObjectsChange_spec N fuel this removed r w1 Hwf1 Hf)
    as (w2 & -> & Hwf2 & F & Fc & _ & Ha & _).
  simpl. exists r, w2. split; [done|]. split; [done|]. split; [done|].
  split; [done|]. split; [done|].
  split.
  { intros i. destruct (F i) as (-> & _). by destruct (HT i) as (-> & _). }
  split.
  { destruct (F this) as (_ & _ & ->). destruct (HT this) as (_ & _ & ->).
    rewrite decide_True by done. apply filter_ext_in. intros x Hx.
    rewrite Hel. tauto. }
  split.
  { intros o. destruct (F o) as (_ & -> & _). by destruct (HT o) as (_ & -> & _). }
  split.
  { intros g Hg. destruct (F g) as (_ & _ & ->). destruct (HT g) as (_ & _ & ->).
    by rewrite decide_False. }
  split; [by rewrite Ha|].
  intros Hcc. destruct (Hcan Hcc) as (C1 & Hthis & Hr1 & _).
  split; [|split].
  - intros i g Hg. rewrite !Fc. apply C1. by destruct (F i) as (_ & <- & _).
  - by rewrite Fc.
  - intros x Hx. rewrite Fc. by apply Hr1.
Qed.

(** X15 (what [remove] removes). From a well-formed heap [remove] returns; it
    returns the listed nodes that are objects of the group, once each and in
    the order listed; the group keeps its other objects in their order;
    exactly the returned nodes lose their group; no other group changes its
    objects; and each returned node is taken off the list of active objects
    once. *)
Theorem remove_takes_out_the_children N fuel this objs w :
  wf N (heap w) -> kind (heap w this) = KGroup -> N <= fuel ->
  exists r w',
    remove fuel this objs w = Some (r, w')
    /\ (forall o, o ∈ r <-> o ∈ objs /\ o ∈ _objects (heap w this))
    /\ NoDup r /\ sublist r objs
    /\ _objects (heap w' this) = filter (fun x => x ∉ objs) (_objects (heap w this))
    /\ (forall o, group (heap w' o) = if decide (o ∈ r) then None else group (heap w o))
    /\ (forall g, g <> this -> _objects (heap w' g) = _objects (heap w g))
    /\ _activeObjects (heap w' this)
       = fold_left (fun l o => remove_first o l) r (_activeObjects (heap w this)).
Proof.
  intros Hwf Hk Hf.
  destruct (remove_spec objs Hwf Hk Hf)
    as (r & w' & H1 & _ & H2 & H3 & H4 & _ & H5 & H6 & H7 & H8 & _).
  by exists r, w'.
Qed.


(** X17 ([removeAll]). From a well-formed heap [removeAll] returns all the
    objects of the group, in their order, and leaves the group with no objects
    and no active objects; exactly these nodes lose their group and no other
    group changes its objects. *)
Theorem removeAll_empties_the_group N fuel this w :
  wf N (heap w) -> kind (heap w this) = KGroup -> N <= fuel ->
  exists w',
    removeAll fuel this w = Some (_objects (heap w this), w')
    /\ _objects (heap w' this) = []
    /\ _activeObjects (heap w' this) = []
    /\ (forall o, group (heap w' o)
                   = if decide (o ∈ _objects (heap w this)) then None else group (heap w o))
    /\ (forall g, g <> this -> _objects (heap w' g) = _objects (heap w g)).
Proof.
  intros Hwf Hk Hf. unfold removeAll.
  set (w0 := on_heap (fun h => upd h this (fun n => with_activeObjects n [])) w).
  destruct (@upd_tree_blind _ (heap w) this (fun n => with_activeObjects n [])) as [F C]; [by intros n|].
  assert (Hwf0 : wf N (heap w0)).
  { simpl. eapply wf_same_tree; [exact F| |done].
    intros i c Hi. rewrite C in Hi. destruct (F c) as (-> & _ & _).
    by apply (wf_canvas_kind Hwf) in Hi. }
  assert (Hk0 : kind (heap w0 this) = KGroup) by (simpl; by destruct (F this) as (-> & _)).
  assert (Ho0 : _objects (heap w0 this) = _objects (heap w this)) by (simpl; by destruct (F this) as (_ & _ & ->)).
  unfold remove.
  destruct (@collection_remove_spec N fuel this Hf (_objects (heap w0 this)) [] w0 Hwf0 Hk0)
    as (r & w1 & -> & Hwf1 & Hel & Hnd & Hsub & HT & Hev & Hact & _).
  simpl.
  destruct (@afterObjectsChange_spec N fuel this removed r w1 Hwf1 Hf)
    as (w2 & -> & Hwf2 & Ft & _ & _ & Ha & _).
  simpl.
  assert (r = _objects (heap w this)) as Hr.
  { rewrite <- Ho0. apply sublist_full; [done| |by apply (wf_nodup Hwf0)].
    intros x Hx. apply Hel. done. }
  exists w2. split; [by rewrite Hr|].
  split.
  { destruct (Ft this) as (_ & _ & ->). destruct (HT this) as (_ & _ & ->).
    rewrite decide_True by done. rewrite Hr, Ho0.
    apply filter_none. intros x Hx Hn. done. }
  split.
  { rewrite Ha, Hact. simpl. rewrite upd_eq. simpl.
    clear. induction r; simpl; done. }
  split.
  { intros o. destruct (Ft o) as (_ & -> & _). destruct (HT o) as (_ & -> & _).
    rewrite Hr. simpl. by destruct (F o) as (_ & -> & _). }
  intros g Hg. destruct (Ft g) as (_ & _ & ->). destruct (HT g) as (_ & _ & ->).
  rewrite decide_False by done. simpl. by destruct (F g) as (_ & _ & ->).
Qed.

(** X18 (removed nodes leave the canvas). From a well-formed heap in which
    every node in a group has the canvas of its group, [remove] and
    [removeAll] keep that property and the canvas of the group, and every
    removed node ends with no canvas. *)
Theorem remove_clears_the_canvas N fuel this objs w :
  wf N (heap w) -> kind (heap w this) = KGroup ->
  canvas_consistent (heap w) -> N <= fuel ->
  (exists r w', remove fuel this objs w = Some (r, w')
     /\ canvas_consistent (heap w')
     /\ canvas (heap w' this) = canvas (heap w this)
     /\ forall x, x ∈ r -> canvas (heap w' x) = None)
  /\ (exists r w', removeAll fuel this w = Some (r, w')
     /\ canvas_consistent (heap w')
     /\ canvas (heap w' this) = canvas (heap w this)
     /\ forall x, x ∈ r -> canvas (heap w' x) = None).
Proof.
  intros Hwf Hk Hcc Hf. split.
  - destruct (remove_spec objs Hwf Hk Hf)
      as (r & w' & H1 & _ & _ & _ & _ & _ & _ & _ & _ & _ & Hcan).
    exists r, w'. split; [done|]. by apply Hcan.
  - unfold removeAll.
    set (w0 := on_heap (fun h => upd h this (fun n => with_activeObjects n [])) w).
    destruct (@upd_tree_blind _ (heap w) this (fun n => with_activeObjects n [])) as [F C]; [by intros n|].
    assert (Hwf0 : wf N (heap w0)).
    { simpl. eapply wf_same_tree; [exact F| |done].
      intros i c Hi. rewrite C in Hi. destruct (F c) as (-> & _ & _).
      by apply (wf_canvas_kind Hwf) in Hi. }
    assert (Hk0 : kind (heap w0 this) = KGroup) by (simpl; by destruct (F this) as (-> & _)).
    assert (Hcc0 : canvas_consistent (heap w0)).
    { intros i g Hg. simpl in *. rewrite !C. apply Hcc. by destruct (F i) as (_ & <- & _). }
    destruct (remove_spec (_objects (heap w0 this)) Hwf0 Hk0 Hf)
      as (r & w' & H1 & _ & _ & _ & _ & _ & _ & _ & _ & _ & Hcan).
    exists r, w'. split; [done|]. destruct (Hcan Hcc0) as (? & Ht & ?).
    split; [done|]. split; [|done]. rewrite Ht. simpl. apply C.
Qed.

End Detaching.

Section RoundTrip.
Context {SC : Scalars} {BO : BaseObject}.
Implicit Types (h : Heap) (l : list id).

Lemma accepted_single h this anc o :
  may_enter h this anc o -> accepted h this anc [o] = [o].
Proof.
  intros Hm. unfold accepted. simpl. rewrite decide_True; [done|]. split; [done|set_solver].
Qed.

(** X19 (adding, then removing). From a well-formed heap, adding a node that
    may enter and then removing it both return, the second returning that
    node; the node ends in no group, its former group has lost it, and nothing
    else of the tree has changed: for a node that was in no group the tree is
    as before. *)
Theorem add_then_remove_detaches N fuel this o w anc :
  wf N (heap w) -> kind (heap w this) = KGroup ->
  chain true (heap w) (parentOf true (heap w) this) anc ->
  may_enter (heap w) this anc o ->
  N + N <= fuel ->
  exists w1 w2,
    add fuel this [o] w = Some w1
    /\ remove fuel this [o] w1 = Some ([o], w2)
    /\ (forall i, kind (heap w2 i) = kind (heap w i)
          /\ group (heap w2 i) = (if decide (i = o) then None else group (heap w i))
          /\ _objects (heap w2 i)
             = (if decide (kind (heap w i) = KGroup)
                then filter (fun x => x <> o) (_objects (heap w i))
                else _objects (heap w i)))
    /\ (group (heap w o) = None -> same_tree (heap w) (heap w2)).
Proof.
  intros Hwf Hk Hc Hm Hf.
  destruct (add_ok [o] Hwf Hk Hc Hf) as (w1 & Hadd & HT & Htc).
  assert (Hwf1 : wf (N + N) (heap w1)).
  { eapply wf_after_adding; [exact Hwf|exact Hk|exact Hc| |exact HT|exact Htc]. done. }
  rewrite (accepted_single Hm) in HT.
  destruct (T_membership HT) as (Ho1 & Hg1 & Hother).
  assert (Hk1 : kind (heap w1 this) = KGroup) by (destruct (HT this) as (-> & _); done).
  destruct (remove_spec [o] Hwf1 Hk1 Hf)
    as (r & w2 & Hrem & Hwf2 & Hel & Hnd & Hsub & Hkind & Hobj & Hgrp & Hoth & _ & _).
  assert (r = [o]) as ->.
  { apply sublist_full; [done| |apply NoDup_singleton].
    intros x ->%list_elem_of_singleton. apply Hel. split; [set_solver|]. rewrite Ho1. set_solver. }
  destruct Hm as (Hne & _ & Hnin).
  assert (Hdesc : forall i, kind (heap w2 i) = kind (heap w i)
          /\ group (heap w2 i) = (if decide (i = o) then None else group (heap w i))
          /\ _objects (heap w2 i)
             = (if decide (kind (heap w i) = KGroup)
                then filter (fun x => x <> o) (_objects (heap w i))
                else _objects (heap w i))).
  { intros i. split; [|split].
    - rewrite Hkind. by destruct (HT i) as (-> & _).
    - rewrite Hgrp, Hg1. destruct (decide (i = o)) as [->|Hio].
      + by rewrite decide_True by set_solver.
      + rewrite decide_False by set_solver. by rewrite decide_False by set_solver.
    - destruct (decide (i = this)) as [->|Hit].
      + rewrite Hobj, Ho1, decide_True by done. rewrite filter_app.
        rewrite (filter_none (P := fun x => x ∉ [o]) (l := [o])) by set_solver.
        rewrite app_nil_r. apply filter_ext_in. intros x Hx. set_solver.
      + rewrite Hoth, Hother by done. case_decide; [|done].
        apply filter_ext_in. intros x Hx. set_solver. }
  exists w1, w2. split; [done|]. split; [done|]. split; [done|].
  intros Hgo i. destruct (Hdesc i) as (-> & -> & ->). split; [done|]. split.
  - case_decide; [by subst|done].
  - case_decide as Hki; [|done]. apply filter_all. intros x Hx ->.
    assert (group (heap w o) = Some i) by (apply (wf_member Hwf); done). congruence.
Qed.

End RoundTrip.


(** ** The events of an insertion *)

Section EventsFacts.
Context {SC : Scalars} {BO : BaseObject}.
Implicit Types (h : Heap) (l : list id).

Lemma membership_events_app evs evs' :
  membership_events (evs ++ evs') = membership_events evs ++ membership_events evs'.
Proof. apply omap_app. Qed.

Lemma membership_events_layout evs (t : LayoutContextType) :
  (forall e, e ∈ evs -> exists g c r d, e = EvLayout g c r d /\ type c = t) ->
  membership_events evs = [].
Proof.
  induction evs as [|e evs IH]; intros Hall; [done|].
  destruct (Hall e) as (g & c & r & d & -> & _); [set_solver|].
  simpl. apply IH. intros e' He'. apply Hall. set_solver.
Qed.

Lemma afterObjectsChange_events fuel this t ts w w' :
  _onAfterObjectsChange fuel this t ts w = Some w' ->
  exists evs, events w' = events w ++ evs /\ membership_events evs = [].
Proof.
  unfold _onAfterObjectsChange.
  destruct (_applyLayoutStrategy _ _ _ _) as [w3|] eqn:Hw3; [|done]. intros [= <-]. simpl.
  destruct (applyLayout_extends Hw3) as (evs & Hev & Hall).
  exists evs. split; [done|]. by eapply membership_events_layout.
Qed.

Lemma remove_one_events fuel g o w r w' :
  o ∈ _objects (heap w g) ->
  remove fuel g [o] w = Some (r, w') ->
  exists evs, events w' = events w ++ evs /\ membership_events evs = [EvRemoved o g].
Proof.
  intros Hin. unfold remove. rewrite collection_remove_found by done.
  destruct (_onObjectRemoved _ _ _ _ _) as [w2|] eqn:Hw2; [|done]. simpl.
  destruct (_onAfterObjectsChange _ _ _ _ _) as [w3|] eqn:Hw3; [|done]. simpl.
  intros [= _ <-].
  destruct (onObjectRemoved_effects Hw2) as [Hev2 _]. simpl in Hev2.
  destruct (afterObjectsChange_events Hw3) as (evs & Hev3 & Hm).
  exists (EvRemoved o g :: evs). split.
  - rewrite Hev3, Hev2. by rewrite <- app_assoc.
  - simpl. by rewrite Hm.
Qed.

End EventsFacts.

Section EventsAdding.
Context {SC : Scalars} {BO : BaseObject}.
Variables (N : nat) (h0 : Heap) (this : id) (lt : list id) (A X : list id).
Hypothesis Hwf : wf N h0.
Hypothesis Hlt : chain true h0 (Some this) lt.
Hypothesis HA : forall a, a ∈ A -> (a ∉ lt) /\ (a ∉ _objects (h0 this)).
Hypothesis Hkind : kind (h0 this) = KGroup.

Lemma onObjectAdded_events E o fuel w w' :
  T h0 this X E E (heap w) -> E ⊆ A -> o ∈ A -> o ∉ E ->
  _onObjectAdded fuel this o w = Some w' ->
  exists evs, events w' = events w ++ evs
    /\ membership_events evs = entering_events h0 this o.
Proof.
  intros HT HEA Ho HoE. unfold _onObjectAdded, enterGroup, entering_events.
  destruct (HT o) as (_ & Hgo & _). repeat (rewrite decide_False in Hgo by done).
  rewrite Hgo. destruct (group (h0 o)) as [g|] eqn:Hg.
  - apply (wf_member Hwf) in Hg as Hg'. destruct Hg' as [Hkg Hog].
    assert (g <> this) by (intros ->; by apply HA in Ho as [_ ?]).
    assert (Hin : o ∈ _objects (heap w g)).
    { destruct (HT g) as (_ & _ & ->). rewrite decide_False, decide_True by done.
      apply list_elem_of_filter. done. }
    destruct (remove fuel g [o] w) as [[r w1]|] eqn:Hr; [|done]. simpl.
    destruct (_enterGroup _ _ _ _ _) as [h'|]; [|done]. simpl. intros [= <-]. simpl.
    destruct (remove_one_events Hin Hr) as (evs & Hev & Hm).
    exists (evs ++ [EvAdded o this]). split.
    + rewrite Hev. by rewrite <- app_assoc.
    + rewrite membership_events_app, Hm. done.
  - simpl. destruct (_enterGroup _ _ _ _ _) as [h'|]; [|done]. simpl. intros [= <-]. simpl.
    by exists [EvAdded o this].
Qed.

Lemma callbacks_events fuel rest :
  N + N <= fuel ->
  forall E w w', E ++ rest = A -> NoDup A ->
  T h0 this X E E (heap w) -> typed_canvas (heap w) ->
  forEachM (_onObjectAdded fuel this) rest w = Some w' ->
  exists evs, events w' = events w ++ evs
    /\ membership_events evs = flat_map (entering_events h0 this) rest.
Proof.
  intros Hf. induction rest as [|o rest IH]; intros E w w' HEA Hnd HT Htc.
  - rewrite forEachM_nil. intros [= <-]. exists []. by rewrite app_nil_r.
  - rewrite forEachM_cons.
    assert (o ∈ A) by (rewrite <- HEA; set_solver).
    assert (o ∉ E).
    { rewrite <- HEA in Hnd. apply NoDup_app in Hnd as (_ & Hd & _).
      intros Hin. apply (Hd o Hin). set_solver. }
    assert (E ⊆ A) by (rewrite <- HEA; set_solver).
    destruct (onObjectAdded_ok Hwf Hlt HA Hkind (X := X) (E := E) (o := o) (fuel := fuel) (w := w))
      as (w1 & Hw1 & HT1 & Htc1); try done.
    rewrite Hw1. simpl. intros Hrest.
    destruct (onObjectAdded_events HT H1 H H0 Hw1) as (evs1 & Hev1 & Hm1).
    destruct (IH (E ++ [o]) w1 w') as (evs & Hev & Hm); try done.
    { by rewrite <- app_assoc. }
    exists (evs1 ++ evs). split.
    + rewrite Hev, Hev1. by rewrite <- app_assoc.
    + rewrite membership_events_app, Hm1, Hm. done.
Qed.

End EventsAdding.

Section EventsAdd.
Context {SC : Scalars} {BO : BaseObject}.

Lemma entering_events_spec N fuel this lt A X w w1 w' :
  wf N (heap w) -> chain true (heap w) (Some this) lt ->
  (forall a, a ∈ A -> (a ∉ lt) /\ (a ∉ _objects (heap w this))) -> NoDup A ->
  kind (heap w this) = KGroup -> N + N <= fuel ->
  (forall i, kind (heap w1 i) = kind (heap w i) /\ group (heap w1 i) = group (heap w i)
             /\ canvas (heap w1 i) = canvas (heap w i)
             /\ _objects (heap w1 i) = (if decide (i = this) then X else _objects (heap w i))) ->
  (forEachM (_onObjectAdded fuel this) A w1
     ≫= _onAfterObjectsChange fuel this added A) = Some w' ->
  exists evs, events w' = events w1 ++ evs
    /\ membership_events evs = flat_map (entering_events (heap w) this) A.
Proof.
  intros Hwf Hlt HA Hnd Hk Hf H1.
  assert (HT0 : T (heap w) this X [] [] (heap w1)).
  { intros i. destruct (H1 i) as (-> & -> & _ & ->). split; [done|]. split; [done|].
    destruct (decide (i = this)); [done|]. destruct (decide _); [|done].
    symmetry. apply filter_all. set_solver. }
  assert (Htc1 : typed_canvas (heap w1)).
  { intros i c Hi. destruct (H1 i) as (_ & _ & Hc & _). rewrite Hc in Hi.
    destruct (H1 c) as (-> & _). by apply (wf_canvas_kind Hwf) in Hi. }
  destruct (forEachM _ A w1) as [w2|] eqn:Hw2; [|done]. simpl. intros Hw3.
  destruct (callbacks_events Hwf Hlt HA Hk (X := X) Hf (E := []) (rest := A) eq_refl Hnd HT0 Htc1 Hw2)
    as (evs2 & Hev2 & Hm2).
  destruct (afterObjectsChange_events Hw3) as (evs3 & Hev3 & Hm3).
  exists (evs2 ++ evs3). split.
  - rewrite Hev3, Hev2. by rewrite <- app_assoc.
  - rewrite membership_events_app, Hm2, Hm3. by rewrite app_nil_r.
Qed.

(** X20 (the events of [add] and [insertAt]). Apart from 'layout' events,
    [add] and [insertAt] fire, for each accepted node in order, a 'removed'
    event with its former group as target, if it had one, and then an 'added'
    event with the group as target; nothing is fired for a rejected node. *)
Theorem add_fires_removed_then_added N fuel w this objs index anc :
  wf N (heap w) -> kind (heap w this) = KGroup ->
  chain true (heap w) (parentOf true (heap w) this) anc ->
  N + N <= fuel ->
  let A := accepted (heap w) this anc objs in
  (exists w' evs, add fuel this objs w = Some w'
     /\ events w' = events w ++ evs
     /\ membership_events evs = flat_map (entering_events (heap w) this) A)
  /\ (exists w' evs, insertAt fuel this objs index w = Some w'
     /\ events w' = events w ++ evs
     /\ membership_events evs = flat_map (entering_events (heap w) this) A).
Proof.
  intros Hwf Hk Hc Hf A.
  assert (Hlt : chain true (heap w) (Some this) (this :: anc)) by (by constructor).
  pose proof (lt_length Hwf Hlt) as Hlen. simpl in Hlen.
  assert (Hfilter : _filterObjectsBeforeEnteringGroup fuel (heap w) this objs = Some A).
  { apply filter_spec; [by eapply wf_typed|intros; by eapply wf_group_kind|done|lia]. }
  assert (HA : forall a, a ∈ A -> (a ∉ this :: anc) /\ (a ∉ _objects (heap w this)))
    by (by eapply accepted_props).
  assert (Hnd : NoDup A) by apply accepted_from_NoDup.
  split.
  - destruct (add_ok objs Hwf Hk Hc Hf) as (w' & Hadd & _).
    unfold add in Hadd. rewrite Hfilter in Hadd. simpl in Hadd.
    unfold collection_add in Hadd.
    set (w1 := on_heap _ w) in Hadd.
    destruct (@entering_events_spec N fuel this (this :: anc) A (_objects (heap w this) ++ A)
                w w1 w' Hwf Hlt HA Hnd Hk Hf) as (evs & Hev & Hm); [|exact Hadd|].
    { intros i. unfold w1. simpl. destruct (decide (i = this)) as [->|?];
        rewrite ?upd_eq, ?upd_ne by done; done. }
    exists w', evs. unfold add. rewrite Hfilter. simpl. by split.
  - destruct (insertAt_ok objs index Hwf Hk Hc Hf) as (w' & Hadd & _).
    unfold insertAt in Hadd. rewrite Hfilter in Hadd. simpl in Hadd.
    unfold collection_insertAt in Hadd.
    set (w1 := on_heap _ w) in Hadd.
    destruct (@entering_events_spec N fuel this (this :: anc) A
                (splice_in index A (_objects (heap w this)))
                w w1 w' Hwf Hlt HA Hnd Hk Hf) as (evs & Hev & Hm); [|exact Hadd|].
    { intros i. unfold w1. simpl. destruct (decide (i = this)) as [->|?];
        rewrite ?upd_eq, ?upd_ne by done; done. }
    exists w', evs. unfold insertAt. rewrite Hfilter. simpl. by split.
Qed.

End EventsAdd.

Section CanvasSteps.
Context {SC : Scalars} {BO : BaseObject}.
Implicit Types (h : Heap) (l : list id).

Lemma afterObjectsChange_frame fuel this t ts w w' :
  _onAfterObjectsChange fuel this t ts w = Some w' ->
  same_tree (heap w) (heap w') /\ same_canvas (heap w) (heap w').
Proof.
  unfold _onAfterObjectsChange.
  destruct (_applyLayoutStrategy _ _ _ _) as [w3|] eqn:Hw3; [|done]. intros [= <-]. simpl.
  eapply frames_trans; [by eapply applyLayout_frame|].
  apply upd_tree_blind. by intros n.
Qed.

Lemma enterGroup_inner_canvas fuel this o rpt h h' :
  _enterGroup fuel this o rpt h = Some h' ->
  exists h2 h3,
    (forall i, kind (h2 i) = kind (h i) /\ _objects (h2 i) = _objects (h i)
               /\ canvas (h2 i) = canvas (h i)
               /\ group (h2 i) = (if decide (i = o) then Some this else group (h i)))
    /\ _set_canvas fuel o (canvas (h2 this)) h2 = Some h3
    /\ same_tree h3 h' /\ same_canvas h3 h'.
Proof.
  unfold _enterGroup.
  set (h1 := if rpt then _ else h).
  assert (F1 : same_tree h h1 /\ same_canvas h h1).
  { unfold h1. destruct rpt; [|apply frames_refl]. apply upd_tree_blind. by intros n. }
  set (h2 := upd h1 o (fun n => with_group n (Some this))).
  assert (T2 : forall i, kind (h2 i) = kind (h i) /\ _objects (h2 i) = _objects (h i)
                 /\ canvas (h2 i) = canvas (h i)
                 /\ group (h2 i) = (if decide (i = o) then Some this else group (h i))).
  { intros i. destruct F1 as [F1 F1c]. destruct (F1 i) as (Hk & Hg & Ho).
    specialize (F1c i). unfold h2.
    destruct (decide (i = o)) as [->|?]; rewrite ?upd_eq, ?upd_ne by done; simpl; auto. }
  destruct (_set_canvas fuel o (canvas (h2 this)) h2) as [h3|] eqn:Hs; [|done]. simpl.
  set (h4 := if interactive (h3 this) then _ else h3).
  assert (F4 : same_tree h3 h4 /\ same_canvas h3 h4).
  { unfold h4. destruct (interactive _); [|apply frames_refl].
    unfold _watchObject. eapply frames_trans; apply upd_tree_blind; by intros n. }
  assert (F5 : same_tree h3 (upd h4 this (fun n => with_activeObjects n (_activeObjects n ++ [o])))
               /\ same_canvas h3 (upd h4 this (fun n => with_activeObjects n (_activeObjects n ++ [o])))).
  { eapply frames_trans; [exact F4|]. apply upd_tree_blind. by intros n. }
  intros Hres. exists h2, h3. split; [done|]. split; [done|].
  destruct (canvas (h4 this) ≫= (fun c => activeObject (h4 c))) as [a|]; [|by simplify_eq].
  destruct (decide (a = o)); [by simplify_eq|].
  destruct (isDescendantOf fuel h4 o a) as [[|]|]; simpl in Hres; by simplify_eq.
Qed.

End CanvasSteps.

Section CanvasAdding.
Context {SC : Scalars} {BO : BaseObject}.
Variables (N : nat) (h0 : Heap) (this : id) (lt : list id) (A X : list id).
Hypothesis Hwf : wf N h0.
Hypothesis Hlt : chain true h0 (Some this) lt.
Hypothesis HA : forall a, a ∈ A -> (a ∉ lt) /\ (a ∉ _objects (h0 this)).
Hypothesis Hkind : kind (h0 this) = KGroup.

Local Abbreviation St := (T h0 this X).

Lemma this_in_lt : this ∈ lt.
Proof. inversion Hlt; subst. apply elem_of_cons; by left. Qed.

Lemma T_region E R h o :
  St E R h -> E ⊆ R -> R ⊆ A -> o ∈ A ->
  acyclic_below h o
  /\ (forall i g, group (h i) = Some g -> reach h o g ->
                  kind (h g) = KGroup /\ i ∈ _objects (h g))
  /\ (forall d c, reach h o d -> kind (h d) = KGroup -> c ∈ _objects (h d) ->
                  group (h c) = Some d)
  /\ (forall t, t ∈ lt -> ~ reach h o t).
Proof.
  intros HT HER HRA Ho.
  destruct (T_bounded Hwf Hlt HA Hkind HT HER HRA o) as (lo & Hlo & _).
  pose proof (T_consistent Hwf Hlt HA Hkind HT HER HRA Ho) as Hcb.
  assert (o ∈ lo) as Holo by (inversion Hlo; subst; set_solver).
  assert (Hnot : forall t, t ∈ lt -> ~ reach h o t).
  { intros t Ht Hr. destruct (reach_chain Hcb Hlo Hr) as [pre Hct].
    pose proof (T_chain_this Hwf Hlt HA Hkind HT HER HRA) as Hc.
    destruct (chain_suffix_elem Hc Ht) as (pre' & post & -> & Hct').
    pose proof (chain_functional Hct Hct') as Heq.
    apply HA in Ho as [Ho _]. apply Ho. rewrite <- Heq. set_solver. }
  split; [by eapply acyclic_from_chains|]. split; [|split; [|done]].
  - intros i g Hg Hr.
    assert (g <> this) as Hgt by (intros ->; apply (Hnot this); [apply this_in_lt|done]).
    destruct (HT i) as (_ & Hgi & _). rewrite Hgi in Hg.
    destruct (decide (i ∈ E)); [congruence|]. destruct (decide (i ∈ R)); [done|].
    apply (wf_member Hwf) in Hg as [Hkg Hig].
    destruct (HT g) as (-> & _ & ->). split; [done|].
    rewrite decide_False, decide_True by done. by apply list_elem_of_filter.
  - intros d c Hr Hk Hc. destruct (reach_chain Hcb Hlo Hr) as [pre Hd].
    eapply Hcb; [exact Hd|set_solver|done|done].
Qed.

Lemma onObjectAdded_canvas E o fuel w w' :
  St E E (heap w) -> canvas_consistent (heap w) ->
  E ⊆ A -> o ∈ A -> o ∉ E ->
  _onObjectAdded fuel this o w = Some w' ->
  canvas_consistent (heap w')
  /\ (forall t, t ∈ lt -> canvas (heap w' t) = canvas (heap w t)).
Proof.
  intros HT Hcc HEA Ho HoE. unfold _onObjectAdded, enterGroup.
  assert (HEA' : E ++ [o] ⊆ A) by set_solver.
  assert (Hstep1 : forall w1,
     match group (heap w o) with
     | Some g => snd <$> remove fuel g [o] w
     | None => Some w
     end = Some w1 ->
     St E (E ++ [o]) (heap w1) /\ canvas_consistent (heap w1)
     /\ (forall t, t ∈ lt -> canvas (heap w1 t) = canvas (heap w t))).
  { intros w1. destruct (HT o) as (_ & Hgo & _). repeat (rewrite decide_False in Hgo by done).
    rewrite Hgo. destruct (group (h0 o)) as [g|] eqn:Hg.
    2: { intros [= <-]. split; [|done].
         eapply T_cut; eauto. intros i. rewrite Hg. split; [done|]. split; [|done].
         destruct (decide (i = o)) as [->|]; [|done]. done. }
    apply (wf_member Hwf) in Hg as Hg'. destruct Hg' as [Hkg Hog].
    assert (g <> this) by (intros ->; by apply HA in Ho as [_ ?]).
    assert (Hin : o ∈ _objects (heap w g)).
    { destruct (HT g) as (_ & _ & ->). rewrite decide_False, decide_True by done.
      apply list_elem_of_filter. done. }
    unfold remove. rewrite collection_remove_found by done.
    set (ws := on_heap (spliced g o) w).
    destruct (_onObjectRemoved fuel g o false ws) as [w2|] eqn:Hw2; [|done]. simpl.
    destruct (_onAfterObjectsChange fuel g removed [o] w2) as [w3|] eqn:Hw3; [|done]. simpl.
    intros [= <-].
    set (hx := _exitGroup g o false (heap ws)).
    assert (Tx : forall i, kind (hx i) = kind (heap w i)
                 /\ group (hx i) = (if decide (i = o) then None else group (heap w i))
                 /\ _objects (hx i) = (if decide (i = g) then remove_first o (_objects (heap w g))
                                       else _objects (heap w i))).
    { intros i. destruct (exitGroup_tree g o false (heap ws) i) as (Hk' & Ho' & _ & Hg').
      fold hx in Hk', Ho', Hg'. rewrite Hk', Ho', Hg'. unfold ws. simpl.
      destruct (spliced_tree (h := heap w) i Hin) as (-> & -> & _ & ->). done. }
    assert (Cx : forall i, canvas (hx i) = canvas (heap w i)).
    { intros i. destruct (exitGroup_tree g o false (heap ws) i) as (_ & _ & Hc & _).
      fold hx in Hc. rewrite Hc. unfold ws. simpl.
      by destruct (spliced_tree (h := heap w) i Hin) as (_ & _ & -> & _). }
    assert (HTx : St E (E ++ [o]) hx).
    { eapply T_cut; eauto. intros i. rewrite Hg. apply Tx. }
    destruct (T_region (o := o) HTx) as (Hacyc & Hmem & Hcons & Hnot); [set_solver|done|done|].
    pose proof (onObjectRemoved_canvas Hw2) as Hs. fold hx in Hs.
    destruct (set_canvas_cc Hs Hacyc Hmem Hcons) as (C2 & A2 & B2).
    { intros i g' Hio Hgi. rewrite !Cx. apply Hcc. destruct (Tx i) as (_ & Hgi' & _).
      rewrite Hgi' in Hgi. by rewrite decide_False in Hgi. }
    { intros g' Hg'. destruct (Tx o) as (_ & Hgo' & _). rewrite decide_True in Hgo' by done.
      congruence. }
    pose proof (canvas_only_same_tree (set_canvas_only Hs)) as Ft2.
    destruct (afterObjectsChange_frame Hw3) as [Ft3 Fc3].
    split; [|split].
    - intros i. destruct (Ft3 i) as (-> & -> & ->). destruct (Ft2 i) as (-> & -> & ->).
      apply HTx.
    - intros i g' Hgi. rewrite !Fc3. apply C2. by destruct (Ft3 i) as (_ & <- & _).
    - intros t Ht. rewrite Fc3. destruct (B2 t) as [E2|Hr]; [by rewrite E2, Cx|].
      by apply Hnot in Hr. }
  destruct (match group (heap w o) with
            | Some g => snd <$> remove fuel g [o] w
            | None => Some w
            end) as [w1|] eqn:Hw1; [|done]. simpl.
  destruct (Hstep1 w1 eq_refl) as (HT1 & Hcc1 & Hlt1).
  destruct (_enterGroup fuel this o true (heap w1)) as [h'|] eqn:He; [|done]. simpl.
  intros [= <-]. simpl.
  destruct (enterGroup_inner_canvas He) as (h2 & h3 & T2 & Hs & Ft & Fc).
  assert (HT2 : St (E ++ [o]) (E ++ [o]) h2).
  { eapply (T_graft Hwf Hlt HA Hkind); [exact HT1|]. intros i. destruct (T2 i) as (? & ? & _ & ?). done. }
  destruct (T_region (o := o) HT2) as (Hacyc & Hmem & Hcons & Hnot); [done|done|done|].
  destruct (set_canvas_cc Hs Hacyc Hmem Hcons) as (C3 & A3 & B3).
  { intros i g' Hio Hgi. destruct (T2 i) as (_ & _ & -> & Hgi'). destruct (T2 g') as (_ & _ & -> & _).
    apply Hcc1. rewrite Hgi' in Hgi. by rewrite decide_False in Hgi. }
  { intros g' Hg'. destruct (T2 o) as (_ & _ & _ & Hgo). rewrite decide_True in Hgo by done.
    assert (g' = this) as -> by congruence. split; [done|]. apply Hnot, this_in_lt. }
  split.
  - intros i g' Hgi. rewrite !Fc. apply C3. by destruct (Ft i) as (_ & <- & _).
  - intros t Ht. rewrite Fc. rewrite <- Hlt1 by done.
    destruct (B3 t) as [E3|Hr]; [|by apply Hnot in Hr].
    rewrite E3. by destruct (T2 t) as (_ & _ & -> & _).
Qed.

Lemma callbacks_canvas fuel rest :
  N + N <= fuel ->
  forall E w w', E ++ rest = A -> NoDup A ->
  St E E (heap w) -> typed_canvas (heap w) -> canvas_consistent (heap w) ->
  forEachM (_onObjectAdded fuel this) rest w = Some w' ->
  canvas_consistent (heap w')
  /\ (forall t, t ∈ lt -> canvas (heap w' t) = canvas (heap w t)).
Proof.
  intros Hf. induction rest as [|o rest IH]; intros E w w' HEA Hnd HT Htc Hcc.
  - rewrite forEachM_nil. by intros [= <-].
  - rewrite forEachM_cons.
    assert (o ∈ A) by (rewrite <- HEA; set_solver).
    assert (o ∉ E).
    { rewrite <- HEA in Hnd. apply NoDup_app in Hnd as (_ & Hd & _).
      intros Hin. apply (Hd o Hin). set_solver. }
    assert (E ⊆ A) by (rewrite <- HEA; set_solver).
    destruct (onObjectAdded_ok Hwf Hlt HA Hkind (X := X) (E := E) (o := o) (fuel := fuel) (w := w))
      as (w1 & Hw1 & HT1 & Htc1); try done.
    rewrite Hw1. simpl. intros Hrest.
    destruct (onObjectAdded_canvas HT Hcc H1 H H0 Hw1) as (Hcc1 & Hlt1).
    destruct (IH (E ++ [o]) w1 w') as (Hcc' & Hlt'); try done.
    { by rewrite <- app_assoc. }
    split; [done|]. intros t Ht. rewrite Hlt', Hlt1; done.
Qed.

End CanvasAdding.

Section CanvasAdd.
Context {SC : Scalars} {BO : BaseObject}.

Lemma entering_canvas N fuel this lt A X w w1 w' :
  wf N (heap w) -> chain true (heap w) (Some this) lt ->
  (forall a, a ∈ A -> (a ∉ lt) /\ (a ∉ _objects (heap w this))) -> NoDup A ->
  kind (heap w this) = KGroup -> N + N <= fuel ->
  canvas_consistent (heap w) ->
  (forall i, kind (heap w1 i) = kind (heap w i) /\ group (heap w1 i) = group (heap w i)
             /\ canvas (heap w1 i) = canvas (heap w i)
             /\ _objects (heap w1 i) = (if decide (i = this) then X else _objects (heap w i))) ->
  (forEachM (_onObjectAdded fuel this) A w1
     ≫= _onAfterObjectsChange fuel this added A) = Some w' ->
  canvas_consistent (heap w')
  /\ (forall t, t ∈ lt -> canvas (heap w' t) = canvas (heap w t)).
Proof.
  intros Hwf Hlt HA Hnd Hk Hf Hcc H1.
  assert (HT0 : T (heap w) this X [] [] (heap w1)).
  { intros i. destruct (H1 i) as (-> & -> & _ & ->). split; [done|]. split; [done|].
    destruct (decide (i = this)); [done|]. destruct (decide _); [|done].
    symmetry. apply filter_all. set_solver. }
  assert (Htc1 : typed_canvas (heap w1)).
  { intros i c Hi. destruct (H1 i) as (_ & _ & Hc & _). rewrite Hc in Hi.
    destruct (H1 c) as (-> & _). by apply (wf_canvas_kind Hwf) in Hi. }
  assert (Hcc1 : canvas_consistent (heap w1)).
  { intros i g Hg. destruct (H1 i) as (_ & Hgi & -> & _). destruct (H1 g) as (_ & _ & -> & _).
    apply Hcc. by rewrite <- Hgi. }
  destruct (forEachM _ A w1) as [w2|] eqn:Hw2; [|done]. simpl. intros Hw3.
  destruct (callbacks_canvas Hwf Hlt HA Hk (X := X) Hf (E := []) (rest := A) eq_refl Hnd HT0 Htc1 Hcc1 Hw2)
    as (Hcc2 & Hlt2).
  destruct (afterObjectsChange_frame Hw3) as [Ft3 Fc3].
  split.
  - intros i g Hg. rewrite !Fc3. apply Hcc2. by destruct (Ft3 i) as (_ & <- & _).
  - intros t Ht. rewrite Fc3, Hlt2 by done. by destruct (H1 t) as (_ & _ & -> & _).
Qed.

(** X21 (the canvas of added nodes). From a well-formed heap in which every
    node in a group has the canvas of its group, [add] and [insertAt] keep
    that property, leave the canvas of the group and of the groups above it as
    it was, and give the canvas of the group to every accepted node. *)
Theorem add_keeps_the_canvas_in_step N fuel w this objs index anc :
  wf N (heap w) -> kind (heap w this) = KGroup ->
  chain true (heap w) (parentOf true (heap w) this) anc ->
  canvas_consistent (heap w) ->
  N + N <= fuel ->
  let A := accepted (heap w) this anc objs in
  (exists w', add fuel this objs w = Some w'
     /\ canvas_consistent (heap w')
     /\ (forall t, t ∈ this :: anc -> canvas (heap w' t) = canvas (heap w t))
     /\ (forall a, a ∈ A -> canvas (heap w' a) = canvas (heap w this)))
  /\ (exists w', insertAt fuel this objs index w = Some w'
     /\ canvas_consistent (heap w')
     /\ (forall t, t ∈ this :: anc -> canvas (heap w' t) = canvas (heap w t))
     /\ (forall a, a ∈ A -> canvas (heap w' a) = canvas (heap w this))).
Proof.
  intros Hwf Hk Hc Hcc Hf A.
  assert (Hlt : chain true (heap w) (Some this) (this :: anc)) by (by constructor).
  pose proof (lt_length Hwf Hlt) as Hlen. simpl in Hlen.
  assert (Hfilter : _filterObjectsBeforeEnteringGroup fuel (heap w) this objs = Some A).
  { apply filter_spec; [by eapply wf_typed|intros; by eapply wf_group_kind|done|lia]. }
  assert (HA : forall a, a ∈ A -> (a ∉ this :: anc) /\ (a ∉ _objects (heap w this)))
    by (by eapply accepted_props).
  assert (Hnd : NoDup A) by apply accepted_from_NoDup.
  assert (Hfin : forall w' Xs, T (heap w) this Xs A A (heap w') ->
            canvas_consistent (heap w') ->
            (forall t, t ∈ this :: anc -> canvas (heap w' t) = canvas (heap w t)) ->
            forall a, a ∈ A -> canvas (heap w' a) = canvas (heap w this)).
  { intros w' Xs HT Hcc' Hlt' a Ha. destruct (T_membership HT) as (_ & Hg & _).
    rewrite (Hcc' a this); [apply Hlt'; set_solver|]. rewrite Hg. by rewrite decide_True. }
  split.
  - destruct (add_ok objs Hwf Hk Hc Hf) as (w' & Hadd & HT & _).
    exists w'. split; [done|].
    unfold add in Hadd. rewrite Hfilter in Hadd. simpl in Hadd.
    unfold collection_add in Hadd.
    set (w1 := on_heap _ w) in Hadd.
    destruct (@entering_canvas N fuel this (this :: anc) A (_objects (heap w this) ++ A)
                w w1 w' Hwf Hlt HA Hnd Hk Hf Hcc) as (Hcc' & Hlt'); [|exact Hadd|].
    { intros i. unfold w1. simpl. destruct (decide (i = this)) as [->|?];
        rewrite ?upd_eq, ?upd_ne by done; done. }
    split; [done|]. split; [done|]. by eapply Hfin.
  - destruct (insertAt_ok objs index Hwf Hk Hc Hf) as (w' & Hadd & HT & _).
    exists w'. split; [done|].
    unfold insertAt in Hadd. rewrite Hfilter in Hadd. simpl in Hadd.
    unfold collection_insertAt in Hadd.
    set (w1 := on_heap _ w) in Hadd.
    destruct (@entering_canvas N fuel this (this :: anc) A
                (splice_in index A (_objects (heap w this)))
                w w1 w' Hwf Hlt HA Hnd Hk Hf Hcc) as (Hcc' & Hlt'); [|exact Hadd|].
    { intros i. unfold w1. simpl. destruct (decide (i = this)) as [->|?];
        rewrite ?upd_eq, ?upd_ne by done; done. }
    split; [done|]. split; [done|]. by eapply Hfin.
Qed.

Lemma accepted_from_none h this anc rest before :
  (forall o, o ∈ rest -> ~ may_enter h this anc o) ->
  accepted_from h this anc before rest = [].
Proof.
  revert before. induction rest as [|o rest IH]; intros before Hall; [done|].
  simpl. rewrite decide_False.
  - apply IH. intros x Hx. apply Hall. set_solver.
  - intros [Hm _]. apply (Hall o); [set_solver|done].
Qed.

(** X22 (adding the same nodes again). After [add] on a well-formed heap, the
    filter accepts none of the same arguments, and a second [add] of them
    returns and leaves the tree as the first one made it. *)
Theorem add_twice_adds_once N fuel w this objs anc :
  wf N (heap w) -> kind (heap w this) = KGroup ->
  chain true (heap w) (parentOf true (heap w) this) anc ->
  canvas_consistent (heap w) ->
  N + N + (N + N) <= fuel ->
  exists w1 w2,
    add fuel this objs w = Some w1
    /\ _filterObjectsBeforeEnteringGroup fuel (heap w1) this objs = Some []
    /\ add fuel this objs w1 = Some w2
    /\ same_tree (heap w1) (heap w2).
Proof.
  intros Hwf Hk Hc Hcc Hf.
  assert (Hf1 : N + N <= fuel) by lia.
  set (A := accepted (heap w) this anc objs).
  assert (Hlt : chain true (heap w) (Some this) (this :: anc)) by (by constructor).
  pose proof (lt_length Hwf Hlt) as Hlen. simpl in Hlen.
  assert (Hfilter : _filterObjectsBeforeEnteringGroup fuel (heap w) this objs = Some A).
  { apply filter_spec; [by eapply wf_typed|intros; by eapply wf_group_kind|done|lia]. }
  assert (HA : forall a, a ∈ A -> (a ∉ this :: anc) /\ (a ∉ _objects (heap w this)))
    by (by eapply accepted_props).
  assert (Hnd : NoDup A) by apply accepted_from_NoDup.
  destruct (add_ok objs Hwf Hk Hc Hf1) as (w1 & Hadd & HT & Htc). fold A in HT.
  assert (Hcan : forall t, t ∈ this :: anc -> canvas (heap w1 t) = canvas (heap w t)).
  { pose proof Hadd as Hadd'. unfold add in Hadd'. rewrite Hfilter in Hadd'. simpl in Hadd'.
    unfold collection_add in Hadd'. set (w0 := on_heap _ w) in Hadd'.
    destruct (@entering_canvas N fuel this (this :: anc) A (_objects (heap w this) ++ A)
                w w0 w1 Hwf Hlt HA Hnd Hk Hf1 Hcc) as (_ & Hlt'); [|exact Hadd'|done].
    intros i. unfold w0. simpl. destruct (decide (i = this)) as [->|?];
      rewrite ?upd_eq, ?upd_ne by done; done. }
  assert (Hwf1 : wf (N + N) (heap w1)).
  { eapply wf_after_adding; [exact Hwf|exact Hk|exact Hc| |exact HT|exact Htc]. done. }
  destruct (T_membership HT) as (Ho1 & Hg1 & Hother).
  assert (Hk1 : kind (heap w1 this) = KGroup) by (destruct (HT this) as (-> & _); done).
  assert (Hc1 : chain true (heap w1) (parentOf true (heap w1) this) anc).
  { pose proof (T_chain_this Hwf Hlt HA Hk HT (reflexivity A) (reflexivity A)) as Hc1.
    by inversion Hc1. }
  assert (Hwalk : walked (heap w1) this anc = walked (heap w) this anc).
  { unfold walked. f_equal. f_equal. apply Hcan.
    destruct (last anc) as [t|] eqn:Hl; simpl; [|set_solver].
    apply last_Some in Hl as [l' ->]. set_solver. }
  assert (Hnone : accepted (heap w1) this anc objs = []).
  { apply accepted_from_none. intros o Ho (Hne & Hw & Hin).
    rewrite Hwalk in Hw. rewrite Ho1 in Hin.
    assert (o ∉ A) as HoA by set_solver.
    apply HoA. apply accepted_from_complete; [done|set_solver|].
    split; [done|]. split; [done|]. set_solver. }
  assert (Hlen1 : S (length anc) <= N + N) by lia.
  exists w1.
  destruct (add_ok objs Hwf1 Hk1 Hc1 Hf) as (w2 & Hadd2 & HT2 & _).
  exists w2. split; [done|]. split.
  { rewrite <- Hnone. apply filter_spec; [done|intros; by eapply wf_group_kind|done|lia]. }
  split; [done|].
  rewrite Hnone in HT2. intros i. destruct (HT2 i) as (-> & -> & ->).
  split; [done|]. split; [by rewrite decide_False by set_solver|].
  rewrite app_nil_r. case_decide; [by subst|]. case_decide; [|done].
  apply filter_all. set_solver.
Qed.

End CanvasAdd.


(** ** The constructor *)

Section Construction.
Context {SC : Scalars} {BO : BaseObject}.
Variables (N : nat) (h0 : Heap) (this : id) (lt : list id) (A X : list id).
Hypothesis Hwf : wf N h0.
Hypothesis Hlt : chain true h0 (Some this) lt.
Hypothesis HA : forall a, a ∈ A -> (a ∉ lt) /\ (a ∉ _objects (h0 this)).
Hypothesis Hkind : kind (h0 this) = KGroup.

(* [enterGroup] without the ['added'] event, in either coordinate plane *)
Lemma enterGroup_ok E o fuel rpt w :
  T h0 this X E E (heap w) -> typed_canvas (heap w) ->
  E ⊆ A -> o ∈ A -> o ∉ E -> N + N <= fuel ->
  exists w' evs, enterGroup fuel this o rpt w = Some w'
    /\ T h0 this X (E ++ [o]) (E ++ [o]) (heap w') /\ typed_canvas (heap w')
    /\ events w' = events w ++ evs
    /\ membership_events evs = leaving_events h0 o.
Proof.
  intros HT Htc HEA Ho HoE Hf. unfold enterGroup, leaving_events.
  assert (HEA' : E ++ [o] ⊆ A) by set_solver.
  assert (Hstep1 : exists w1 evs,
     match group (heap w o) with
     | Some g => snd <$> remove fuel g [o] w
     | None => Some w
     end = Some w1 /\ T h0 this X E (E ++ [o]) (heap w1) /\ typed_canvas (heap w1)
     /\ events w1 = events w ++ evs
     /\ membership_events evs = match group (h0 o) with
                                | Some g => [EvRemoved o g]
                                | None => []
                                end).
  { destruct (HT o) as (_ & Hgo & _). repeat (rewrite decide_False in Hgo by done).
    rewrite Hgo. destruct (group (h0 o)) as [g|] eqn:Hg.
    - apply (wf_member Hwf) in Hg as Hg'. destruct Hg' as [Hkg Hog].
      assert (g <> this) by (intros ->; by apply HA in Ho as [_ ?]).
      assert (Hin : o ∈ _objects (heap w g)).
      { destruct (HT g) as (_ & _ & ->). rewrite decide_False, decide_True by done.
        apply list_elem_of_filter. done. }
      destruct (@remove_one_ok _ _ fuel (N + N) g o w Hin) as (w1 & Hr & Hd & Htc1); [|done|done|].
      + intros hx Hx.
        assert (T h0 this X E (E ++ [o]) hx).
        { eapply (T_cut Hwf Hlt HA Hkind); eauto. intros i. rewrite Hg. apply Hx. }
        split; [eapply (T_bounded Hwf Hlt HA Hkind)
               | eapply (T_consistent Hwf Hlt HA Hkind)]; eauto; set_solver.
      + destruct (remove_one_events Hin Hr) as (evs & Hev & Hm).
        exists w1, evs. split; [by rewrite Hr|]. split; [|done].
        eapply (T_cut Hwf Hlt HA Hkind); eauto. intros i. rewrite Hg. apply Hd.
    - exists w, []. split; [done|]. split; [|by rewrite app_nil_r].
      eapply (T_cut Hwf Hlt HA Hkind); eauto. intros i. rewrite Hg. split; [done|]. split; [|done].
      destruct (decide (i = o)) as [->|]; [|done]. done. }
  destruct Hstep1 as (w1 & evs & -> & HT1 & Htc1 & Hev & Hm). simpl.
  destruct (@enterGroup_inner_ok _ _ fuel (N + N) this o rpt (heap w1)) as (h' & -> & Hd & Htc');
    [|done|done|].
  - intros h2 H2. assert (T h0 this X (E ++ [o]) (E ++ [o]) h2).
    { eapply (T_graft Hwf Hlt HA Hkind); [exact HT1|done]. }
    split; [eapply (T_bounded Hwf Hlt HA Hkind)
           | eapply (T_consistent Hwf Hlt HA Hkind)]; eauto.
  - simpl. exists {| heap := h'; events := events w1 |}, evs.
    split; [done|]. simpl. split; [|done].
    eapply (T_graft Hwf Hlt HA Hkind); [exact HT1|done].
Qed.

Lemma enterGroup_each fuel rpt rest :
  N + N <= fuel ->
  forall E w, E ++ rest = A -> NoDup A ->
  T h0 this X E E (heap w) -> typed_canvas (heap w) ->
  exists w' evs, forEachM (fun o => enterGroup fuel this o rpt) rest w = Some w'
    /\ T h0 this X A A (heap w') /\ typed_canvas (heap w')
    /\ events w' = events w ++ evs
    /\ membership_events evs = flat_map (leaving_events h0) rest.
Proof.
  intros Hf. induction rest as [|o rest IH]; intros E w HEA Hnd HT Htc.
  - rewrite app_nil_r in HEA. subst E. exists w, []. by rewrite app_nil_r.
  - rewrite forEachM_cons.
    assert (o ∈ A) by (rewrite <- HEA; set_solver).
    assert (o ∉ E).
    { rewrite <- HEA in Hnd. apply NoDup_app in Hnd as (_ & Hd & _).
      intros Hin. apply (Hd o Hin). set_solver. }
    assert (E ⊆ A) by (rewrite <- HEA; set_solver).
    destruct (@enterGroup_ok E o fuel rpt w) as (w1 & evs1 & -> & HT1 & Htc1 & Hev1 & Hm1);
      try done.
    simpl. destruct (IH (E ++ [o]) w1) as (w' & evs & Hw' & HT' & Htc' & Hev & Hm); try done.
    { by rewrite <- app_assoc. }
    exists w', (evs1 ++ evs). split; [done|]. split; [done|]. split; [done|]. split.
    + rewrite Hev, Hev1. by rewrite <- app_assoc.
    + rewrite membership_events_app, Hm1, Hm. done.
Qed.

End Construction.

Section Constructor.
Context {SC : Scalars} {BO : BaseObject}.

Lemma constructor_spec N fuel this objects opts relative w :
  wf N (heap w) -> kind (heap w this) = KGroup -> group (heap w this) = None ->
  _objects (heap w this) = [] -> NoDup objects -> this ∉ objects -> N + N <= fuel ->
  exists w' evs ctx r d,
    constructor fuel this objects opts relative w = Some w'
    /\ wf (N + N) (heap w')
    /\ _objects (heap w' this) = objects
    /\ (forall o, group (heap w' o)
                  = if decide (o ∈ objects) then Some this else group (heap w o))
    /\ _firstLayoutDone (heap w' this) = true
    /\ events w' = events w ++ evs ++ [EvLayout this ctx r d]
    /\ type ctx = initialization
    /\ membership_events evs = flat_map (leaving_events (heap w)) objects.
Proof.
  intros Hwf Hk Hg Hobj Hnd Hthis Hf. unfold constructor.
  set (w0 := on_heap _ w). set (w1 := on_heap _ w0).
  assert (Hlt : chain true (heap w) (Some this) [this]).
  { constructor. unfold parentOf. rewrite Hg. constructor. }
  assert (HA : forall a, a ∈ objects -> (a ∉ [this]) /\ (a ∉ _objects (heap w this))).
  { intros a Ha. rewrite Hobj. split; [|apply not_elem_of_nil]. set_solver. }
  assert (H1 : forall i, kind (heap w1 i) = kind (heap w i)
             /\ group (heap w1 i) = group (heap w i)
             /\ canvas (heap w1 i) = canvas (heap w i)
             /\ _objects (heap w1 i) = (if decide (i = this) then objects else _objects (heap w i))).
  { intros i. unfold w1, w0. simpl. destruct (decide (i = this)) as [->|?];
      rewrite ?upd_eq, ?upd_ne by done; done. }
  assert (HT0 : T (heap w) this objects [] [] (heap w1)).
  { intros i. destruct (H1 i) as (-> & -> & _ & ->). split; [done|]. split; [done|].
    destruct (decide (i = this)); [done|]. destruct (decide _); [|done].
    symmetry. apply filter_all. set_solver. }
  assert (Htc1 : typed_canvas (heap w1)).
  { intros i c Hi. destruct (H1 i) as (_ & _ & Hc & _). rewrite Hc in Hi.
    destruct (H1 c) as (-> & _). by apply (wf_canvas_kind Hwf) in Hi. }
  assert (Hobj1 : _objects (heap w1 this) = objects).
  { destruct (H1 this) as (_ & _ & _ & ->). by rewrite decide_True. }
  rewrite Hobj1.
  destruct (enterGroup_each Hwf Hlt HA Hk (X := objects) (fuel := fuel) false Hf
              (rest := objects) (E := []) (w := w1) eq_refl Hnd HT0 Htc1)
    as (w2 & evs & -> & HT2 & Htc2 & Hev2 & Hm2).
  simpl. rewrite applyLayout_unfold. cbv zeta.
  set (ctx := {| type := initialization; targets := []; options := opts;
                 objectsRelativeToGroup := relative; context := None; path := [] |}).
  destruct (@layout_body_initialization _ _ this ctx (heap w2) eq_refl) as (h' & r & d & Hb & _).
  rewrite Hb. apply layout_body_tree in Hb as [F3 Cv3].
  set (h'' := upd h' this _).
  assert (F4 : same_tree h' h'' /\ same_canvas h' h'') by (apply upd_tree_blind; by intros n).
  destruct F4 as [F4 Cv4].
  assert (Hfinal : forall i, kind (h'' i) = kind (heap w2 i)
             /\ group (h'' i) = group (heap w2 i) /\ _objects (h'' i) = _objects (heap w2 i)).
  { intros i. destruct (F4 i) as (-> & -> & ->). apply F3. }
  assert (Hgthis : group (h'' this) = None).
  { destruct (Hfinal this) as (_ & -> & _). destruct (HT2 this) as (_ & -> & _).
    by rewrite !decide_False by done. }
  rewrite Hgthis. exists (fire (EvLayout this ctx r d) {| heap := h''; events := events w2 |}).
  exists evs, ctx, r, d. split; [done|]. simpl.
  assert (HT3 : T (heap w) this objects objects objects h'').
  { intros i. destruct (Hfinal i) as (-> & -> & ->). apply HT2. }
  split; [|split; [|split; [|split; [|split; [|split]]]]].
  - eapply wf_from_T; eauto.
    + intros o. rewrite Hobj. set_solver.
    + intros i c Hi. rewrite Cv4, Cv3 in Hi. destruct (Hfinal c) as (-> & _). eauto.
  - destruct (HT3 this) as (_ & _ & ->). by rewrite decide_True.
  - intros o. destruct (HT3 o) as (_ & -> & _). by destruct (decide (o ∈ objects)).
  - unfold h''. by rewrite upd_eq.
  - rewrite Hev2. unfold w1, w0. simpl. by rewrite <- app_assoc.
  - done.
  - done.
Qed.

(** X23 (the constructor). On a fresh group (in no group, with no objects) in
    a well-formed heap, and for objects without duplicates that do not include
    it, the constructor returns and leaves a well-formed heap; the group holds
    exactly the given objects in the given order, unfiltered; exactly these
    nodes get the group as parent; the first layout is done; the last event is
    the 'layout' event of type [initialization] on the group; and before it,
    apart from 'layout' events, there is one 'removed' event for each object
    that had a group, and no 'added' event. *)
Theorem constructor_takes_its_objects N fuel this objects opts relative w :
  wf N (heap w) -> kind (heap w this) = KGroup -> group (heap w this) = None ->
  _objects (heap w this) = [] -> NoDup objects -> this ∉ objects -> N + N <= fuel ->
  exists w' evs ctx r d,
    constructor fuel this objects opts relative w = Some w'
    /\ wf (N + N) (heap w')
    /\ _objects (heap w' this) = objects
    /\ (forall o, group (heap w' o)
                  = if decide (o ∈ objects) then Some this else group (heap w o))
    /\ _firstLayoutDone (heap w' this) = true
    /\ events w' = events w ++ evs ++ [EvLayout this ctx r d]
    /\ type ctx = initialization
    /\ membership_events evs = flat_map (leaving_events (heap w)) objects.
Proof. apply constructor_spec. Qed.

Lemma enterGroup_inner_geo fuel this o h h' :
  _enterGroup fuel this o false h = Some h' ->
  (forall i, geo (h' i) = geo (h i))
  /\ (forall i, i <> o -> group (h' i) = group (h i)).
Proof.
  unfold _enterGroup. cbv zeta.
  set (h2 := upd h o (fun n => with_group n (Some this))).
  assert (G2 : forall i, geo (h2 i) = geo (h i)
                 /\ (i <> o -> group (h2 i) = group (h i))).
  { intros i. unfold h2. destruct (decide (i = o)) as [->|?];
      rewrite ?upd_eq, ?upd_ne by done; done. }
  destruct (_set_canvas fuel o (canvas (h2 this)) h2) as [h3|] eqn:Hs; [|done]. simpl.
  pose proof (set_canvas_only Hs) as Hco.
  assert (G3 : forall i, geo (h3 i) = geo (h i)
                 /\ (i <> o -> group (h3 i) = group (h i))).
  { intros i. destruct (canvas_only_fields i Hco) as (_ & _ & -> & _).
    destruct (canvas_only_same_tree Hco i) as (_ & -> & _). apply G2. }
  set (h4 := if interactive (h3 this) then _ else h3).
  assert (G4 : forall i, geo (h4 i) = geo (h i)
                 /\ (i <> o -> group (h4 i) = group (h i))).
  { intros i. unfold h4. destruct (interactive _); [|apply G3].
    unfold _watchObject.
    destruct (decide (i = o)) as [->|?]; rewrite ?upd_eq, ?upd_ne by done; simpl; apply G3. }
  assert (G5 : forall i,
             geo (upd h4 this (fun n => with_activeObjects n (_activeObjects n ++ [o])) i)
             = geo (h i)
             /\ (i <> o ->
                 group (upd h4 this (fun n => with_activeObjects n (_activeObjects n ++ [o])) i)
                 = group (h i))).
  { intros i. destruct (decide (i = this)) as [->|?];
      rewrite ?upd_eq, ?upd_ne by done; simpl; apply G4. }
  intros Hres.
  assert (forall i, geo (h' i) = geo (h i) /\ (i <> o -> group (h' i) = group (h i))) as G.
  { destruct (canvas (h4 this) ≫= (fun c => activeObject (h4 c))) as [a|]; [|by simplify_eq].
    destruct (decide (a = o)); [by simplify_eq|].
    destruct (isDescendantOf fuel h4 o a) as [[|]|]; simpl in Hres; by simplify_eq. }
  split; intros i; apply G.
Qed.

Lemma enterGroup_each_parentless fuel this rest :
  forall w w', NoDup rest -> (forall o, o ∈ rest -> group (heap w o) = None) ->
  forEachM (fun o => enterGroup fuel this o false) rest w = Some w' ->
  (forall i, geo (heap w' i) = geo (heap w i))
  /\ (forall i, i ∉ rest -> group (heap w' i) = group (heap w i))
  /\ events w' = events w.
Proof.
  induction rest as [|o rest IH]; intros w w' Hnd Hnone.
  - rewrite forEachM_nil. by intros [= <-].
  - rewrite forEachM_cons. apply NoDup_cons in Hnd as [Ho Hnd].
    assert (Hstep : enterGroup fuel this o false w
                    = h ← _enterGroup fuel this o false (heap w);
                      Some {| heap := h; events := events w |}).
    { unfold enterGroup. rewrite Hnone by set_solver. done. }
    rewrite Hstep.
    destruct (_enterGroup fuel this o false (heap w)) as [h1|] eqn:H1; [|done]. simpl.
    apply enterGroup_inner_geo in H1 as [G1 P1]. intros Hrest.
    apply IH in Hrest as (G & P & E); [|done|].
    + simpl in *. split; [|split; [|done]].
      * intros i. by rewrite G, G1.
      * intros i Hi. rewrite P by set_solver. apply P1. set_solver.
    + intros c Hc. simpl. rewrite P1 by set_solver. apply Hnone. set_solver.
Qed.

Lemma layout_body_relative this ctx h h' r d :
  type ctx = initialization -> objectsRelativeToGroup ctx = true ->
  layout_body this ctx h = Completed h' r d ->
  forall i, i <> this -> h' i = h i.
Proof.
  intros Ht Hrel. unfold layout_body. rewrite bool_decide_eq_true_2 by done. simpl.
  assert (Hinit : forall hx i, i <> this -> set_initialTransform this ctx hx i = hx i).
  { intros hx i Hi. unfold set_initialTransform.
    destruct (initialTransformOf ctx) as [[[a sx] sy]|]; [|done]. by rewrite upd_ne. }
  destruct (getLayoutStrategyResult _ _ _ _ _) as [res|].
  - intros [= <- _ _] i Hi. unfold layout_apply_result. rewrite Hrel.
    rewrite (bool_decide_eq_true_2 _ Ht). simpl.
    destruct (_ || _); [rewrite Hinit by done|]; by rewrite ?upd_ne by done.
  - intros [= <- _ _] i Hi. by apply Hinit.
Qed.

(** X24 (objects given relative to the group). When the constructor is told
    that the objects are relative to the group, and none of them is in a
    group, the geometry of every node other than the group is as it was, and
    the only event is the 'layout' event on the group. *)
Theorem constructor_relative_leaves_the_objects_in_place N fuel this objects opts w :
  wf N (heap w) -> kind (heap w this) = KGroup -> group (heap w this) = None ->
  _objects (heap w this) = [] -> NoDup objects -> this ∉ objects ->
  (forall o, o ∈ objects -> group (heap w o) = None) -> N + N <= fuel ->
  exists w' ctx r d,
    constructor fuel this objects opts true w = Some w'
    /\ (forall i, i <> this -> geo (heap w' i) = geo (heap w i))
    /\ events w' = events w ++ [EvLayout this ctx r d].
Proof.
  intros Hwf Hk Hg Hobj Hnd Hthis Hnone Hf.
  destruct (@constructor_spec N fuel this objects opts true w) as (w' & _ & _ & _ & _ & Hrun & _);
    try done.
  exists w'. unfold constructor in Hrun. unfold constructor.
  set (w0 := on_heap _ w) in *. set (w1 := on_heap _ w0) in *.
  assert (H1 : forall i, (i <> this -> heap w1 i = heap w i)
                         /\ group (heap w1 i) = group (heap w i)).
  { intros i. unfold w1, w0. simpl. destruct (decide (i = this)) as [->|?];
      rewrite ?upd_eq, ?upd_ne by done; done. }
  assert (Hobj1 : _objects (heap w1 this) = objects).
  { unfold w1. simpl. by rewrite upd_eq. }
  rewrite Hobj1 in *.
  destruct (forEachM _ objects w1) as [w2|] eqn:Hw2; [|done]. simpl in *.
  apply enterGroup_each_parentless in Hw2 as (G2 & P2 & E2); [|done|].
  2:{ intros o Ho. destruct (H1 o) as [_ E]. etransitivity; [exact E|]. by apply Hnone. }
  rewrite applyLayout_unfold in Hrun. rewrite applyLayout_unfold. cbv zeta in *.
  set (ctx := {| type := initialization; targets := []; options := opts;
                 objectsRelativeToGroup := true; context := None; path := [] |}) in *.
  destruct (@layout_body_initialization _ _ this ctx (heap w2) eq_refl) as (h' & r & d & Hb & _).
  rewrite Hb in *. pose proof (layout_body_tree Hb) as [F3 _].
  set (h'' := upd h' this _) in *.
  assert (Hgthis : group (h'' this) = None).
  { unfold h''. rewrite upd_eq. simpl. destruct (F3 this) as (_ & -> & _).
    rewrite P2 by done. destruct (H1 this) as [_ E]. etransitivity; [exact E|]. done. }
  rewrite Hgthis in *. injection Hrun as <-. exists ctx, r, d. split; [done|]. split.
  - intros i Hi. change (geo (h'' i) = geo (heap w i)). unfold h''. rewrite upd_ne by done.
    rewrite (layout_body_relative (ctx := ctx) eq_refl eq_refl Hb Hi).
    rewrite G2. destruct (H1 i) as [E _]. f_equal. by apply E.
  - simpl. rewrite E2. done.
Qed.

End Constructor.


(** ** The setter, modified objects and caching *)

Section Setter.
Context {SC : Scalars} {BO : BaseObject}.
Implicit Types (h : Heap) (l : list id).

Lemma layout_body_fixed_change this ctx h :
  layout (h this) = "fixed" -> type ctx = layout_change ->
  layout_body this ctx h = Rejected \/ layout_body this ctx h = NoResult.
Proof.
  intros Hl Ht. unfold layout_body. rewrite Hl, resolver_fixed, Ht. simpl.
  destruct (_firstLayoutDone (h this)); simpl; auto.
Qed.



End Setter.

Section Caching.
Context {SC : Scalars}.
Implicit Types (h : Heap) (l : list id).

Lemma first_true_spec (f : id -> option bool) (P : id -> Prop) L :
  (forall c, c ∈ L -> exists b, f c = Some b /\ (b = true <-> P c)) ->
  exists b, first_true f L = Some b /\ (b = true <-> exists c, c ∈ L /\ P c).
Proof.
  induction L as [|c L IH]; intros Hall; simpl.
  - exists false. split; [done|]. split; [done|]. intros (c & Hc & _). by apply elem_of_nil in Hc.
  - destruct (Hall c) as (b & -> & Hb); [set_solver|]. simpl. destruct b.
    + exists true. split; [done|]. split; [|done]. intros _. exists c. split; [set_solver|].
      by apply Hb.
    + destruct IH as (b & -> & Hb'); [intros c' Hc'; apply Hall; set_solver|].
      exists b. split; [done|]. rewrite Hb'. split.
      * intros (c' & Hc' & HP). exists c'. split; [set_solver|done].
      * intros (c' & [->|Hc']%elem_of_cons & HP); [|by exists c'].
        apply Hb in HP. done.
Qed.

Lemma willDrawShadow_unfold fuel own h this :
  willDrawShadow fuel own h this =
  if decide (kind (h this) = KGroup) then
    if own this then Some true
    else
      match fuel with
      | O => None
      | S f => first_true (willDrawShadow f own h) (_objects (h this))
      end
  else Some (own this).
Proof. by destruct fuel. Qed.

Lemma willDrawShadow_spec N own h :
  wf N h ->
  forall fuel d l, chain true h (Some d) l -> N < fuel + length l ->
  exists b, willDrawShadow fuel own h d = Some b
    /\ (b = true <-> exists i, reach h d i /\ own i = true).
Proof.
  intros Hwf. induction fuel as [|f IH]; intros d l Hc Hlt;
    rewrite willDrawShadow_unfold.
  all: destruct (decide (kind (h d) = KGroup)) as [Hk|Hk].
  2,4: exists (own d); split; [done|]; split;
       [ intros Ho; exists d; split; [apply reach_refl|done]
       | intros (i & Hr & Ho); apply reach_root in Hr as [->|(c & Hk' & _)]; [done|congruence] ].
  all: destruct (own d) eqn:Hod.
  1,3: exists true; split; [done|]; split; [|done]; intros _; exists d; split;
       [apply reach_refl|done].
  - destruct (wf_bounded Hwf d) as (l' & Hl' & Hlen).
    rewrite (chain_functional Hc Hl') in Hlt. simpl in Hlt. lia.
  - destruct (@first_true_spec (willDrawShadow f own h)
                (fun c => exists i, reach h c i /\ own i = true) (_objects (h d)))
      as (b & -> & Hb).
    { intros c Hin. apply (IH c (c :: l)); [|simpl; lia].
      constructor. unfold parentOf.
      assert (group (h c) = Some d) as -> by (by apply (wf_member Hwf)). done. }
    exists b. split; [done|]. rewrite Hb. split.
    + intros (c & Hin & i & Hr & Ho). exists i. split; [|done]. by eapply reach_down.
    + intros (i & Hr & Ho). apply reach_root in Hr as [->|(c & _ & Hin & Hr)]; [congruence|].
      exists c. split; [done|]. by exists i.
Qed.

(** X27 ([willDrawShadow]). In a well-formed heap [willDrawShadow] returns,
    and it is true exactly when the node or one of the nodes below it casts a
    shadow of its own. *)
Theorem willDrawShadow_iff_some_descendant N fuel own h this :
  wf N h -> N <= fuel ->
  exists b, willDrawShadow fuel own h this = Some b
    /\ (b = true <-> exists i, reach h this i /\ own i = true).
Proof.
  intros Hwf Hf. destruct (wf_bounded Hwf this) as (l & Hl & Hlen).
  apply (willDrawShadow_spec own Hwf Hl). inversion Hl; subst. simpl. lia.
Qed.

(** X28 ([shouldCache]). In a well-formed heap [shouldCache] of a group
    returns; it is true exactly when the base class says so and no node below
    the group casts a shadow; and [ownCaching] is written, to false, exactly
    when the base class says so and some node below casts a shadow. *)
Theorem shouldCache_unless_a_shadow_below N fuel base own h this :
  wf N h -> kind (h this) = KGroup -> N <= fuel ->
  let shadow_below := exists c i, c ∈ _objects (h this) /\ reach h c i /\ own i = true in
  exists b written, shouldCache fuel base own h this = Some (b, written)
    /\ (b = true <-> base this = true /\ ~ shadow_below)
    /\ (written = Some false <-> base this = true /\ shadow_below)
    /\ (written = None \/ written = Some false).
Proof.
  intros Hwf Hk Hf shadow_below. unfold shouldCache.
  destruct (base this) eqn:Hb.
  2:{ exists false, None. split; [done|].
      split; [split; [done|by intros [? _]]|].
      split; [split; [done|by intros [? _]]|by left]. }
  destruct (wf_bounded Hwf this) as (l & Hl & Hlen).
  destruct (@first_true_spec (willDrawShadow fuel own h)
              (fun c => exists i, reach h c i /\ own i = true) (_objects (h this)))
    as (b & -> & Hs).
  { intros c Hin. apply (@willDrawShadow_spec N own h Hwf fuel c (c :: l)); [|simpl; lia].
    constructor. unfold parentOf.
    assert (group (h c) = Some this) as -> by (by apply (wf_member Hwf)). done. }
  assert (Hs' : b = true <-> shadow_below).
  { rewrite Hs. unfold shadow_below. split.
    - intros (c & Hc & i & Hi). by exists c, i.
    - intros (c & i & Hc & Hi). exists c. split; [done|]. by exists i. }
  simpl. destruct b.
  - exists false, (Some false). split; [done|].
    split; [split; [done|intros [_ Hn]; exfalso; apply Hn; by apply Hs']|].
    split; [|by right]. split; [intros _; split; [done|by apply Hs']|done].
  - exists true, None. split; [done|].
    split; [split; [intros _; split; [done|]; intros Hx; apply Hs' in Hx; done|done]|].
    split; [|by left]. split; [done|]. intros [_ Hx]. apply Hs' in Hx. done.
Qed.

Lemma isOnACache_unfold fuel oc h this :
  isOnACache fuel oc h this =
  if oc this then Some true
  else
    match group (h this) with
    | Some g =>
        match fuel with
        | O => None
        | S f => isOnACache f oc h g
        end
    | None => Some false
    end.
Proof. by destruct fuel. Qed.

(** X29 ([isOnACache]). [isOnACache] returns (fuel for the chain of groups
    above suffices), and it is true exactly when the node or one of the groups
    above it has [ownCaching] set. *)
Theorem isOnACache_iff_some_ancestor_caches fuel oc h this anc :
  chain true h (parentOf true h this) anc -> length anc <= fuel ->
  exists b, isOnACache fuel oc h this = Some b
    /\ (b = true <-> exists a, a ∈ this :: anc /\ oc a = true).
Proof.
  revert this anc. induction fuel as [|f IH]; intros this anc Hc Hl;
    rewrite isOnACache_unfold.
  all: destruct (oc this) eqn:Ho.
  1,3: exists true; split; [done|]; split; [|done]; intros _; exists this; set_solver.
  all: unfold parentOf in Hc; destruct (group (h this)) as [g|] eqn:Hg.
  2,4: inversion Hc; subst; exists false; split; [done|]; split; [done|];
       intros (a & Ha & Hoa); apply list_elem_of_singleton in Ha as ->; congruence.
  - inversion Hc; subst. simpl in Hl. lia.
  - inversion Hc as [|? l' Hc']; subst. simpl in Hl.
    destruct (IH g l' Hc') as (b & -> & Hb); [lia|].
    exists b. split; [done|]. rewrite Hb. split.
    + intros (a & Ha & Hoa). exists a. split; [set_solver|done].
    + intros (a & [->|Ha]%elem_of_cons & Hoa); [congruence|]. by exists a.
Qed.

End Caching.

(** ** The sample heaps *)

Ltac first_ids i := destruct i as [|[|[|[|[|i]]]]].

Import Sample.

(** The sample heap [family] is well-formed, with chains of length at most 2. *)
Lemma family_wf : wf 2 family.
Proof.
  split.
  - intros o g. first_ids o; first_ids g; vm_compute; split.
    all: try (intros [? ?]; congruence); try congruence.
    all: try (intros _; split; [reflexivity|]; set_solver).
    all: intros [_ Hin]; exfalso; set_solver.
  - intros g. first_ids g; vm_compute; intros; try congruence.
    all: repeat constructor; set_solver.
  - intros o c. first_ids o; vm_compute; congruence.
  - intros o. first_ids o.
    2: exists [1; 0]. 5: exists [4; 0].
    all: try (eexists; split; [repeat constructor|simpl; lia]).
    all: split; [repeat constructor|simpl; lia].
Qed.


(** An [added] request on a group that has not had its first layout. *)
Lemma layout_rejected_before_first_layout_at_sample :
  layout_body 0 (mkContext added [2]) clipped_group = Rejected
  /\ _applyLayoutStrategy 0 0 (mkContext added [2]) {| heap := clipped_group; events := [] |}
     = Some {| heap := clipped_group; events := [] |}.
Proof.
  apply (@layout_rejected_before_first_layout _ _ 0 0 (mkContext added [2]) {| heap := clipped_group; events := [] |});
    [reflexivity | discriminate].
Defined.

(** An [added] request on the "fixed" group 0 of [family]. *)
Lemma fixed_layout_keeps_declared_size_at_sample :
  getLayoutStrategyResult family 0 "fixed" [1; 4] (mkContext added [4]) = None
  /\ layout_body 0 (mkContext added [4]) family = NoResult
  /\ _applyLayoutStrategy 1 0 (mkContext added [4]) {| heap := family; events := [] |}
     = Some {| heap := family; events := [] |}
  /\ forall objs ctx',
       getLayoutStrategyResult family 0 "fixed" objs ctx' =
       if bool_decide (type ctx' = initialization) || bool_decide (type ctx' = imperative)
       then prepareBoundingBox family 0 "fixed" objs ctx'
       else None.
Proof.
  apply (@fixed_layout_keeps_declared_size _ _ 1 0 (mkContext added [4]) {| heap := family; events := [] |});
    [reflexivity | reflexivity | simpl; set_solver].
Defined.

(** C5 as first written does not hold: on [object_modified], which is none of
    initialization, imperative and removed, the lazy resolver measures all
    the objects of the group (a box 60 wide, where the group records 20). *)
Lemma fit_content_lazy_recomputes_on_modification :
  type (mkContext object_modified []) <> initialization
  /\ type (mkContext object_modified []) <> imperative
  /\ type (mkContext object_modified []) <> removed
  /\ getLayoutStrategyResult lazy_group 0 "fit-content-lazy" [1; 2]
       (mkContext object_modified [])
     = getObjectsBoundingBox lazy_group 0 [1; 2] false
  /\ getObjectsBoundingBox lazy_group 0 [1; 2] false
     = Some {| centerX := JNum 10; centerY := JNum 0;
               correctionX := JUndef; correctionY := JUndef;
               r_width := JNum 60; r_height := JNum 20;
               offsetX := JNum (-20); offsetY := JNum (-10) |}
  /\ width (geo (lazy_group 0)) = JNum 20.
Proof. repeat split; try discriminate; reflexivity. Qed.


(** C7 as first written does not hold: on the initialization layout of a
    group whose layout is not "clip-path", the objects are translated by
    (-30, -10) and the clip path, which is not absolutely positioned, stays
    where it was. *)
Lemma clip_path_kept_on_first_layout :
  clipPath (clipped_group 0) = Some 3
  /\ absolutePositioned (clipped_group 3) = false
  /\ layout (clipped_group 0) <> "clip-path"
  /\ match layout_body 0 (mkContext initialization []) clipped_group with
     | Completed h' r diff =>
         diff = Some {| px := JNum (-30); py := JNum (-10) |}
         /\ geo (h' 1) = translate {| px := JNum (-30); py := JNum (-10) |} (geo (clipped_group 1))
         /\ geo (h' 2) = translate {| px := JNum (-30); py := JNum (-10) |} (geo (clipped_group 2))
         /\ geo (h' 3) = geo (clipped_group 3)
         /\ geo (h' 3) <> translate {| px := JNum (-30); py := JNum (-10) |} (geo (clipped_group 3))
     | _ => False
     end.
Proof. vm_compute. repeat split; try reflexivity; discriminate. Qed.

(** A later [added] layout of the same group: the clip path moves with the
    objects. *)
Lemma clip_path_shift_at_sample :
  {| px := JNum (-30); py := JNum (-10) |}
  = layout_diff clipped_group_built 0 (getRelativeCenterPoint (geo (clipped_group_built 0)))
      {| centerX := JNum 30; centerY := JNum 10; correctionX := JUndef;
         correctionY := JUndef; r_width := JNum 60; r_height := JNum 20;
         offsetX := JNum 0; offsetY := JNum 0 |}
  /\ geo (layout_apply_result clipped_group_built 0 (mkContext added [2])
            (getRelativeCenterPoint (geo (clipped_group_built 0)))
            {| centerX := JNum 30; centerY := JNum 10; correctionX := JUndef;
               correctionY := JUndef; r_width := JNum 60; r_height := JNum 20;
               offsetX := JNum 0; offsetY := JNum 0 |} 3)
     = (if bool_decide (type (mkContext added [2]) <> initialization)
           && bool_decide (layout (clipped_group_built 0) <> "clip-path")
        then translate {| px := JNum (-30); py := JNum (-10) |} (geo (clipped_group_built 3))
        else geo (clipped_group_built 3))
  /\ (objectsRelativeToGroup (mkContext added [2]) = false ->
      NoDup (_objects (clipped_group_built 0)) ->
      0 ∉ _objects (clipped_group_built 0) ->
      forall o, o ∈ _objects (clipped_group_built 0) ->
        geo (layout_apply_result clipped_group_built 0 (mkContext added [2])
               (getRelativeCenterPoint (geo (clipped_group_built 0)))
               {| centerX := JNum 30; centerY := JNum 10; correctionX := JUndef;
                  correctionY := JUndef; r_width := JNum 60; r_height := JNum 20;
                  offsetX := JNum 0; offsetY := JNum 0 |} o)
        = translate {| px := JNum (-30); py := JNum (-10) |} (geo (clipped_group_built o))).
Proof.
  apply (@clip_path_shift _ _ 0 (mkContext added [2]) clipped_group_built);
    [reflexivity | reflexivity | reflexivity | discriminate | vm_compute; set_solver].
Defined.

(** The four operations on group 2 of [family]. *)
Lemma membership_invariant_at_sample :
  (exists w', add 4 2 [1; 3; 1; 2; 0] {| heap := family; events := [] |} = Some w'
     /\ wf (2 + 2) (heap w') /\ membership_consistent (heap w') /\ exclusive (heap w'))
  /\ (exists w', insertAt 4 2 [1; 3; 1; 2; 0] 0 {| heap := family; events := [] |} = Some w'
     /\ wf (2 + 2) (heap w') /\ membership_consistent (heap w') /\ exclusive (heap w'))
  /\ (exists r w', remove 4 2 [1; 3; 1; 2; 0] {| heap := family; events := [] |} = Some (r, w')
     /\ wf 2 (heap w') /\ membership_consistent (heap w') /\ exclusive (heap w'))
  /\ (exists r w', removeAll 4 2 {| heap := family; events := [] |} = Some (r, w')
     /\ wf 2 (heap w') /\ membership_consistent (heap w') /\ exclusive (heap w')).
Proof.
  apply (@membership_invariant _ _ 2 4 {| heap := family; events := [] |} 2 [1; 3; 1; 2; 0] 0);
    [exact family_wf | reflexivity | simpl; lia].
Defined.

(** Of the arguments 1, 3, 1, 2, 0 group 2 accepts 1, 3 and 0. *)
Example accepted_family : accepted family 2 [] [1; 3; 1; 2; 0] = [1; 3; 0].
Proof. vm_compute. reflexivity. Qed.

(** [add(1, 3, 1, 2, 0)] on group 2 of [family]. *)
Lemma add_accepts_valid_nodes_at_sample :
  _filterObjectsBeforeEnteringGroup 4 family 2 [1; 3; 1; 2; 0]
    = Some (accepted family 2 [] [1; 3; 1; 2; 0])
  /\ (forall o, o ∈ accepted family 2 [] [1; 3; 1; 2; 0]
                <-> o ∈ [1; 3; 1; 2; 0] /\ may_enter family 2 [] o)
  /\ NoDup (accepted family 2 [] [1; 3; 1; 2; 0])
  /\ sublist (accepted family 2 [] [1; 3; 1; 2; 0]) [1; 3; 1; 2; 0]
  /\ (exists w', add 4 2 [1; 3; 1; 2; 0] {| heap := family; events := [] |} = Some w'
        /\ _objects (heap w' 2) = _objects (family 2) ++ accepted family 2 [] [1; 3; 1; 2; 0]
        /\ (forall o, group (heap w' o)
                      = if decide (o ∈ accepted family 2 [] [1; 3; 1; 2; 0])
                        then Some 2 else group (family o))
        /\ (forall g, g <> 2 ->
              _objects (heap w' g)
              = if decide (kind (family g) = KGroup)
                then filter (fun x => x ∉ accepted family 2 [] [1; 3; 1; 2; 0])
                            (_objects (family g))
                else _objects (family g)))
  /\ (exists w', insertAt 4 2 [1; 3; 1; 2; 0] 0 {| heap := family; events := [] |} = Some w'
        /\ _objects (heap w' 2)
           = splice_in 0 (accepted family 2 [] [1; 3; 1; 2; 0]) (_objects (family 2))
        /\ (forall o, group (heap w' o)
                      = if decide (o ∈ accepted family 2 [] [1; 3; 1; 2; 0])
                        then Some 2 else group (family o))
        /\ (forall g, g <> 2 ->
              _objects (heap w' g)
              = if decide (kind (family g) = KGroup)
                then filter (fun x => x ∉ accepted family 2 [] [1; 3; 1; 2; 0])
                            (_objects (family g))
                else _objects (family g)))
  /\ (accepted family 2 [] [1; 3; 1; 2; 0] = [] ->
      exists w', add 4 2 [1; 3; 1; 2; 0] {| heap := family; events := [] |} = Some w'
        /\ forall i, group (heap w' i) = group (family i)
                     /\ _objects (heap w' i) = _objects (family i)).
Proof.
  apply (@add_accepts_valid_nodes _ _ 2 4 {| heap := family; events := [] |} 2 [1; 3; 1; 2; 0] 0 []);
    [exact family_wf | reflexivity | constructor | simpl; lia].
Defined.

(** A node added to a group whose layout is "fixed": the declared size and
    the geometry of the children stay as they were. *)
Example scenario_B :
  match add 4 0 [3] {| heap := family; events := [] |} with
  | Some w' =>
      _objects (heap w' 0) = [1; 4; 3]
      /\ width (geo (heap w' 0)) = JNum 100 /\ height (geo (heap w' 0)) = JNum 100
      /\ geo (heap w' 1) = geo (family 1) /\ geo (heap w' 4) = geo (family 4)
  | None => False
  end.
Proof. vm_compute. repeat split; reflexivity. Qed.

(** The cycle guard: group 0 cannot enter group 1, which it holds, and
    neither can group 1 itself or object 2, which is already there. *)
Example cycle_guard :
  match add 4 1 [0; 1; 2] {| heap := nested; events := [] |} with
  | Some w' => map (fun i => (group (heap w' i), _objects (heap w' i))) [0; 1; 2]
               = map (fun i => (group (nested i), _objects (nested i))) [0; 1; 2]
  | None => False
  end.
Proof. vm_compute. reflexivity. Qed.

(** ** More sample heaps *)

Ltac first_six i := destruct i as [|[|[|[|[|[|i]]]]]].

(** The sample heap [staged] is well-formed, with chains of length at most 3. *)
Lemma staged_wf : wf 3 staged.
Proof.
  split.
  - intros o g. first_six o; first_six g; vm_compute; split.
    all: try (intros [? ?]; congruence); try congruence.
    all: try (intros _; split; [reflexivity|]; set_solver).
    all: intros [_ Hin]; exfalso; set_solver.
  - intros g. first_six g; vm_compute; intros; try congruence.
    all: repeat constructor; set_solver.
  - intros o c Hc. first_six o; vm_compute in Hc; try discriminate Hc.
    all: injection Hc as <-; reflexivity.
  - intros o. first_six o.
    3: exists [2; 1]. 4: exists [3; 1]. 6: exists [5; 3; 1].
    all: try (eexists; split; [repeat constructor|simpl; lia]).
    all: split; [repeat constructor|simpl; lia].
Qed.

(** Its canvas has no parent. *)
Lemma staged_canvas_top c :
  kind (staged c) = KCanvas -> group (staged c) = None /\ canvas (staged c) = None.
Proof. intros Hk. first_six c; vm_compute in Hk; try discriminate Hk. done. Qed.

(** Every object of [staged] is among the objects of its parent. *)
Lemma staged_parents o p : parentOf false staged o = Some p -> o ∈ _objects (staged p).
Proof.
  intros Hp. first_six o; vm_compute in Hp; try discriminate Hp.
  all: injection Hp as <-; vm_compute; set_solver.
Qed.

Lemma staged_canvas_consistent : canvas_consistent staged.
Proof.
  intros o g Hg. first_six o; vm_compute in Hg; try discriminate Hg.
  all: injection Hg as <-; reflexivity.
Qed.

Lemma family_canvas_consistent : canvas_consistent family.
Proof.
  intros o g Hg. first_ids o; vm_compute in Hg; try discriminate Hg.
  all: injection Hg as <-; reflexivity.
Qed.

(** The ancestors of object 5 of [staged]. *)
Lemma getAncestors_ends_at_canvas_at_sample :
  exists anc,
    getAncestors 3 staged 5 true = Some anc
    /\ Forall (fun a => kind (staged a) = KGroup) anc
    /\ getAncestors 3 staged 5 false
       = Some (anc ++ option_list (canvas (staged (default 5 (last anc))))).
Proof.
  apply (getAncestors_ends_at_canvas 5 staged_wf staged_canvas_top). lia.
Defined.

(** Is object 5 of [staged] a descendant of group 1? *)
Lemma isDescendantOf_iff_ancestor_at_sample :
  exists l, getAncestors 3 staged 5 false = Some l
    /\ isDescendantOf 3 staged 5 1 = Some (bool_decide (1 ∈ l)).
Proof.
  apply (isDescendantOf_iff_ancestor 5 1 staged_wf staged_canvas_top). lia.
Defined.

(** Objects 2 and 5 of [staged], the other way round. *)
Lemma findCommonAncestors_swap_at_sample :
  exists r,
    findCommonAncestors 3 staged 5 2 true = Some r
    /\ findCommonAncestors 3 staged 2 5 true
       = Some {| fork := otherFork r; otherFork := fork r; common := common r |}.
Proof.
  apply (@findCommonAncestors_swap _ 3 staged 5 2 true [3; 1] [1]); reflexivity.
Defined.

(** Objects 2 and 5 of [staged]: 5 is in front of 2. *)
Lemma isInFrontOf_antisymmetric_at_sample :
  isInFrontOf 3 staged 5 2 = option_map negb <$> isInFrontOf 3 staged 2 5.
Proof.
  apply (@isInFrontOf_antisymmetric _ 3 staged 2 5 [1; 0] [3; 1; 0]);
    [discriminate | reflexivity | reflexivity | exact staged_parents].
Defined.

(** The first layout of the group under construction. *)
Lemma initialization_layout_completes_at_sample :
  exists w' r d rest,
    _applyLayoutStrategy 0 0 (mkContext initialization [])
      {| heap := clipped_group; events := [] |} = Some w'
    /\ _firstLayoutDone (heap w' 0) = true
    /\ events w' = [] ++ EvLayout 0 (mkContext initialization []) r d :: rest.
Proof.
  apply (@initialization_layout_completes _ _ 0 0 (mkContext initialization [])
           {| heap := clipped_group; events := [] |} []);
    [reflexivity | constructor | simpl; lia].
Defined.

(** An [added] request on a "clip-path" group that has no clip path. *)
Lemma no_strategy_no_layout_at_sample :
  getLayoutStrategyResult unclipped 0 (layout (unclipped 0)) (_objects (unclipped 0))
    (mkContext added [1]) = None
  /\ (type (mkContext added [1]) <> initialization ->
      _applyLayoutStrategy 1 0 (mkContext added [1]) {| heap := unclipped; events := [] |}
      = Some {| heap := unclipped; events := [] |}).
Proof.
  apply (@no_strategy_no_layout _ _ 1 0 (mkContext added [1]) {| heap := unclipped; events := [] |}).
  right. left. split; reflexivity.
Defined.

(** An [added] layout of the built group. *)
Lemma fit_content_takes_the_box_at_sample :
  match getObjectsBoundingBox clipped_group_built 0 (_objects (clipped_group_built 0)) false with
  | Some r =>
      exists h' d, layout_body 0 (mkContext added [2]) clipped_group_built = Completed h' r (Some d)
        /\ width (geo (h' 0)) = r_width r /\ height (geo (h' 0)) = r_height r
  | None => _objects (clipped_group_built 0) = []
            /\ layout_body 0 (mkContext added [2]) clipped_group_built = NoResult
  end.
Proof.
  apply (@fit_content_takes_the_box _ _ 0 (mkContext added [2]) clipped_group_built);
    [reflexivity | reflexivity | discriminate | discriminate].
Defined.

(** [remove(1, 3)] on group 0 of [family], which holds 1 and not 3. *)
Lemma remove_takes_out_the_children_at_sample :
  exists r w',
    remove 2 0 [1; 3] {| heap := family; events := [] |} = Some (r, w')
    /\ (forall o, o ∈ r <-> o ∈ [1; 3] /\ o ∈ _objects (family 0))
    /\ NoDup r /\ sublist r [1; 3]
    /\ _objects (heap w' 0) = filter (fun x => x ∉ [1; 3]) (_objects (family 0))
    /\ (forall o, group (heap w' o) = if decide (o ∈ r) then None else group (family o))
    /\ (forall g, g <> 0 -> _objects (heap w' g) = _objects (family g))
    /\ _activeObjects (heap w' 0)
       = fold_left (fun l o => remove_first o l) r (_activeObjects (family 0)).
Proof.
  apply (@remove_takes_out_the_children _ _ 2 2 0 [1; 3] {| heap := family; events := [] |});
    [exact family_wf | reflexivity | lia].
Defined.

(** [removeAll()] on group 0 of [family]. *)
Lemma removeAll_empties_the_group_at_sample :
  exists w',
    removeAll 2 0 {| heap := family; events := [] |} = Some (_objects (family 0), w')
    /\ _objects (heap w' 0) = []
    /\ _activeObjects (heap w' 0) = []
    /\ (forall o, group (heap w' o)
                   = if decide (o ∈ _objects (family 0)) then None else group (family o))
    /\ (forall g, g <> 0 -> _objects (heap w' g) = _objects (family g)).
Proof.
  apply (@removeAll_empties_the_group _ _ 2 2 0 {| heap := family; events := [] |});
    [exact family_wf | reflexivity | lia].
Defined.

(** Object 3 added to group 2 of [family] and removed again. *)
Lemma add_then_remove_detaches_at_sample :
  exists w1 w2,
    add 4 2 [3] {| heap := family; events := [] |} = Some w1
    /\ remove 4 2 [3] w1 = Some ([3], w2)
    /\ (forall i, kind (heap w2 i) = kind (family i)
          /\ group (heap w2 i) = (if decide (i = 3) then None else group (family i))
          /\ _objects (heap w2 i)
             = (if decide (kind (family i) = KGroup)
                then filter (fun x => x <> 3) (_objects (family i))
                else _objects (family i)))
    /\ (group (family 3) = None -> same_tree family (heap w2)).
Proof.
  apply (@add_then_remove_detaches _ _ 2 4 2 3 {| heap := family; events := [] |} []);
    [exact family_wf | reflexivity | constructor | vm_compute; set_solver | lia].
Defined.

(** [add(3, 1)] twice on group 2 of [family]. *)
Lemma add_twice_adds_once_at_sample :
  exists w1 w2,
    add 8 2 [3; 1] {| heap := family; events := [] |} = Some w1
    /\ _filterObjectsBeforeEnteringGroup 8 (heap w1) 2 [3; 1] = Some []
    /\ add 8 2 [3; 1] w1 = Some w2
    /\ same_tree (heap w1) (heap w2).
Proof.
  apply (@add_twice_adds_once _ _ 2 8 {| heap := family; events := [] |} 2 [3; 1] []);
    [exact family_wf | reflexivity | constructor | exact family_canvas_consistent | lia].
Defined.

(** Objects 3 and 1 added to group 2 of [family]; 1 leaves group 0. *)
Lemma add_fires_removed_then_added_at_sample :
  (exists w' evs, add 4 2 [3; 1] {| heap := family; events := [] |} = Some w'
     /\ events w' = [] ++ evs
     /\ membership_events evs
        = flat_map (entering_events family 2) (accepted family 2 [] [3; 1]))
  /\ (exists w' evs, insertAt 4 2 [3; 1] 0 {| heap := family; events := [] |} = Some w'
     /\ events w' = [] ++ evs
     /\ membership_events evs
        = flat_map (entering_events family 2) (accepted family 2 [] [3; 1])).
Proof.
  apply (@add_fires_removed_then_added _ _ 2 4 {| heap := family; events := [] |} 2 [3; 1] 0%Z []);
    [exact family_wf | reflexivity | constructor | lia].
Defined.


(** Object 4 of the canvas added to the nested group 3 of [staged]. *)
Lemma add_keeps_the_canvas_in_step_at_sample :
  (exists w', add 6 3 [4] {| heap := staged; events := [] |} = Some w'
     /\ canvas_consistent (heap w')
     /\ (forall t, t ∈ 3 :: [1] -> canvas (heap w' t) = canvas (staged t))
     /\ (forall a, a ∈ accepted staged 3 [1] [4] -> canvas (heap w' a) = canvas (staged 3)))
  /\ (exists w', insertAt 6 3 [4] 0 {| heap := staged; events := [] |} = Some w'
     /\ canvas_consistent (heap w')
     /\ (forall t, t ∈ 3 :: [1] -> canvas (heap w' t) = canvas (staged t))
     /\ (forall a, a ∈ accepted staged 3 [1] [4] -> canvas (heap w' a) = canvas (staged 3))).
Proof.
  apply (@add_keeps_the_canvas_in_step _ _ 3 6 {| heap := staged; events := [] |} 3 [4] 0%Z [1]);
    [exact staged_wf | reflexivity | repeat constructor | exact staged_canvas_consistent | lia].
Defined.

(** Object 2 removed from group 1 of [staged]. *)
Lemma remove_clears_the_canvas_at_sample :
  (exists r w', remove 3 1 [2] {| heap := staged; events := [] |} = Some (r, w')
     /\ canvas_consistent (heap w')
     /\ canvas (heap w' 1) = canvas (staged 1)
     /\ forall x, x ∈ r -> canvas (heap w' x) = None)
  /\ (exists r w', removeAll 3 1 {| heap := staged; events := [] |} = Some (r, w')
     /\ canvas_consistent (heap w')
     /\ canvas (heap w' 1) = canvas (staged 1)
     /\ forall x, x ∈ r -> canvas (heap w' x) = None).
Proof.
  apply (@remove_clears_the_canvas _ _ 3 3 1 [2] {| heap := staged; events := [] |});
    [exact staged_wf | reflexivity | exact staged_canvas_consistent | lia].
Defined.

(** Group 1 of [staged] taken off the canvas. *)
Lemma set_canvas_reaches_the_subtree_at_sample :
  exists h', _set_canvas 3 1 None staged = Some h'
    /\ canvas_only staged h'
    /\ (forall i, reach staged 1 i -> canvas (h' i) = None)
    /\ (forall i, canvas (h' i) = canvas (staged i) \/ reach staged 1 i).
Proof.
  apply (set_canvas_reaches_the_subtree 1 None staged_wf staged_canvas_consistent). lia.
Defined.

(** Group 2 of [family] built from objects 3 and 1. *)
Lemma constructor_takes_its_objects_at_sample :
  exists w' evs ctx r d,
    constructor 4 2 [3; 1] None false {| heap := family; events := [] |} = Some w'
    /\ wf (2 + 2) (heap w')
    /\ _objects (heap w' 2) = [3; 1]
    /\ (forall o, group (heap w' o)
                  = if decide (o ∈ [3; 1]) then Some 2 else group (family o))
    /\ _firstLayoutDone (heap w' 2) = true
    /\ events w' = [] ++ evs ++ [EvLayout 2 ctx r d]
    /\ type ctx = initialization
    /\ membership_events evs = flat_map (leaving_events family) [3; 1].
Proof.
  apply (@constructor_takes_its_objects _ _ 2 4 2 [3; 1] None false {| heap := family; events := [] |});
    [exact family_wf | reflexivity | reflexivity | reflexivity
    | repeat constructor; set_solver | set_solver | lia].
Defined.

(** Group 2 of [family] built around object 3, given in group coordinates. *)
Lemma constructor_relative_leaves_the_objects_in_place_at_sample :
  exists w' ctx r d,
    constructor 4 2 [3] None true {| heap := family; events := [] |} = Some w'
    /\ (forall i, i <> 2 -> geo (heap w' i) = geo (family i))
    /\ events w' = [] ++ [EvLayout 2 ctx r d].
Proof.
  apply (@constructor_relative_leaves_the_objects_in_place _ _ 2 4 2 [3] None
           {| heap := family; events := [] |});
    [exact family_wf | reflexivity | reflexivity | reflexivity
    | repeat constructor; set_solver | set_solver
    | intros o ->%list_elem_of_singleton; reflexivity | lia].
Defined.


(** Group 1 of [staged], when object 5 casts a shadow. *)
Lemma willDrawShadow_iff_some_descendant_at_sample :
  exists b, willDrawShadow 3 (fun i => bool_decide (i = 5)) staged 1 = Some b
    /\ (b = true <-> exists i, reach staged 1 i /\ bool_decide (i = 5) = true).
Proof.
  apply (willDrawShadow_iff_some_descendant (fun i => bool_decide (i = 5)) 1 staged_wf). lia.
Defined.

(** Group 1 of [staged], when object 5 casts a shadow. *)
Lemma shouldCache_unless_a_shadow_below_at_sample :
  exists b written,
    shouldCache 3 (fun _ => true) (fun i => bool_decide (i = 5)) staged 1 = Some (b, written)
    /\ (b = true <-> true = true
                     /\ ~ (exists c i, c ∈ _objects (staged 1) /\ reach staged c i
                                       /\ bool_decide (i = 5) = true))
    /\ (written = Some false <-> true = true
                     /\ (exists c i, c ∈ _objects (staged 1) /\ reach staged c i
                                     /\ bool_decide (i = 5) = true))
    /\ (written = None \/ written = Some false).
Proof.
  apply (@shouldCache_unless_a_shadow_below _ 3 3 (fun _ => true) (fun i => bool_decide (i = 5))
           staged 1); [exact staged_wf | reflexivity | lia].
Defined.

(** Object 5 of [staged], when group 1 caches. *)
Lemma isOnACache_iff_some_ancestor_caches_at_sample :
  exists b, isOnACache 2 (fun i => bool_decide (i = 1)) staged 5 = Some b
    /\ (b = true <-> exists a, a ∈ 5 :: [3; 1] /\ bool_decide (a = 1) = true).
Proof.
  apply (@isOnACache_iff_some_ancestor_caches _ 2 (fun i => bool_decide (i = 1)) staged 5 [3; 1]);
    [repeat constructor | simpl; lia].
Defined.

(** ** The sample heaps, once more *)

(** The rationals of the sample have no rounding. *)
Lemma sample_exact_midpoint : @exact_midpoint scalars.
Proof.
  intros [x| |] [y| |]; try reflexivity. cbn.
  f_equal. apply Qred_complete. rewrite !Qred_correct. field.
Qed.


(** An [added] request on the lazy group: object 2 is not measured; the
    initial box of the same objects would take their width and height. *)
Lemma fit_content_lazy_resolver_at_sample :
  getLayoutStrategyResult lazy_group 0 "fit-content-lazy" [1; 2] (mkContext added [1]) =
    getObjectsBoundingBox lazy_group 0 [1; 0] false
  /\ getObjectsBoundingBox lazy_group 0 [1; 0] false =
     getObjectsBoundingBox lazy_group_moved 0 [1; 0] false
  /\ exists r,
       prepareInitialBoundingBox lazy_group 0 "fit-content-lazy" [1; 2] (mkContext added [1])
       = Some r
       /\ r_width r
          = or0 (r_width (default emptyResult (getObjectsBoundingBox lazy_group 0 [1; 2] false)))
       /\ r_height r
          = or0 (r_height (default emptyResult (getObjectsBoundingBox lazy_group 0 [1; 2] false))).
Proof.
  apply (@fit_content_lazy_resolver _ _ lazy_group lazy_group_moved 0 [1; 2] (mkContext added [1])).
  intros o Ho. simpl in Ho. rewrite !elem_of_cons, elem_of_nil in Ho.
  destruct Ho as [->|[->|[]]]; reflexivity.
Defined.

(** With the box given in full and objects in the plane of the group, the
    first layout of the lazy group measures nothing, though its objects
    have a box. *)
Example fit_content_lazy_skips_a_given_box :
  getLayoutStrategyResult lazy_group 0 "fit-content-lazy" [1; 2] boxed_first_layout = None
  /\ is_Some (getObjectsBoundingBox lazy_group 0 [1; 2] false).
Proof. split; [reflexivity|by eexists]. Qed.

(** Objects 5 and 2 of [staged], canvas included: the scan of the ancestors
    of 5 passes group 3 and stops at group 1, the first of the two that are
    shared; from 2 it stops at once, and finds group 1 second in the other
    list. *)
Lemma findCommonAncestors_refines_spec_at_sample :
  (exists anc oanc,
    getAncestors 3 staged 5 false = Some anc
    /\ getAncestors 3 staged 2 false = Some oanc
    /\ findCommonAncestors 3 staged 5 2 false =
         Some (findCommonAncestors_spec 5 2 anc oanc)
    /\ (5 ∉ oanc -> (forall a, a ∈ anc -> a <> 2 /\ a ∉ oanc) ->
        findCommonAncestors 3 staged 5 2 false =
          Some {| fork := 5 :: anc; otherFork := 2 :: oanc; common := [] |}))
  /\ findCommonAncestors 3 staged 5 2 false
     = Some {| fork := [5; 3]; otherFork := [2]; common := [1; 0] |}
  /\ findCommonAncestors_spec 5 2 [3; 1; 0] [1; 0]
     = {| fork := [5; 3]; otherFork := [2]; common := [1; 0] |}
  /\ findCommonAncestors 3 staged 2 5 false
     = Some {| fork := [2]; otherFork := [5; 3]; common := [1; 0] |}
  /\ findCommonAncestors_spec 2 5 [1; 0] [3; 1; 0]
     = {| fork := [2]; otherFork := [5; 3]; common := [1; 0] |}
  /\ findCommonAncestors 3 staged 5 3 false
     = Some {| fork := [5]; otherFork := []; common := [3; 1; 0] |}.
Proof.
  split; [|repeat split; reflexivity].
  apply (@findCommonAncestors_refines_spec _ 3 3 staged 5 2 false);
    [exact staged_wf | exact staged_canvas_top | lia | discriminate].
Defined.

(** Objects 5 and 2 of [staged]: 5 is below group 3, which comes after 2
    among the objects of group 1. *)
Lemma isInFrontOf_decides_order_at_sample :
  (isInFrontOf 3 staged 5 5 = Some None
   /\ (5 <> 2 ->
       exists anc oanc,
         getAncestors 3 staged 5 false = Some anc
         /\ getAncestors 3 staged 2 false = Some oanc
         /\ let r := findCommonAncestors_spec 5 2 anc oanc in
            findCommonAncestors 3 staged 5 2 false = Some r
            /\ isInFrontOf 3 staged 5 2 =
                 Some (match head (common r) with
                       | None => None
                       | Some c =>
                           let thisIndex := indexOf_opt (_objects (staged c)) (last (fork r)) in
                           let otherIndex := indexOf_opt (_objects (staged c)) (last (otherFork r)) in
                           Some ((-1 <? thisIndex)%Z && (otherIndex <? thisIndex)%Z)
                       end)
            /\ (isInFrontOf 3 staged 5 2 = Some None <-> common r = [])
            /\ (2 ∈ anc -> isInFrontOf 3 staged 5 2 = Some (Some true))
            /\ (5 ∈ oanc -> isInFrontOf 3 staged 5 2 = Some (Some false))
            /\ (forall g, group (staged 5) = Some g -> group (staged 2) = Some g ->
                  (0 <= indexOf (_objects (staged g)) 2%nat < indexOf (_objects (staged g)) 5%nat)%Z ->
                  isInFrontOf 3 staged 5 2 = Some (Some true)
                  /\ isInFrontOf 3 staged 2 5 = Some (Some false))))
  /\ isInFrontOf 3 staged 5 2 = Some (Some true)
  /\ isInFrontOf 3 staged 2 5 = Some (Some false)
  /\ isInFrontOf 3 staged 5 1 = Some (Some true).
Proof.
  split; [|repeat split; reflexivity].
  apply (@isInFrontOf_decides_order _ 3 3 staged 5 2);
    [exact staged_wf | exact staged_canvas_top | lia | discriminate].
Defined.

(** Objects 5 and 2 of [staged], which meet in group 1. *)
Lemma findCommonAncestors_partition_at_sample :
  (exists anc oanc r,
    getAncestors 3 staged 5 true = Some anc
    /\ getAncestors 3 staged 2 true = Some oanc
    /\ findCommonAncestors 3 staged 5 2 true = Some r
    /\ fork r ++ common r = 5 :: anc
    /\ otherFork r ++ common r = 2 :: oanc
    /\ (forall x, x ∈ fork r -> x ∉ otherFork r))
  /\ findCommonAncestors 3 staged 5 2 true
     = Some {| fork := [5; 3]; otherFork := [2]; common := [1] |}.
Proof.
  split; [|reflexivity].
  apply (@findCommonAncestors_partition _ 3 3 staged 5 2 true);
    [exact staged_wf | exact staged_canvas_top | lia].
Defined.

(** Objects 5 and 2 of [staged] meet in group 1; objects 4 and 5 meet in
    the canvas only. *)
Lemma hasCommonAncestors_iff_paths_meet_at_sample :
  (exists anc oanc b,
    getAncestors 3 staged 5 true = Some anc
    /\ getAncestors 3 staged 2 true = Some oanc
    /\ hasCommonAncestors 3 staged 5 2 true = Some b
    /\ hasCommonAncestors 3 staged 2 5 true = Some b
    /\ (b = true <-> exists x, x ∈ 5 :: anc /\ x ∈ 2 :: oanc))
  /\ hasCommonAncestors 3 staged 5 2 true = Some true
  /\ hasCommonAncestors 3 staged 4 5 true = Some false
  /\ hasCommonAncestors 3 staged 4 5 false = Some true.
Proof.
  split; [|repeat split; reflexivity].
  apply (@hasCommonAncestors_iff_paths_meet _ 3 3 staged 5 2 true);
    [exact staged_wf | exact staged_canvas_top | lia].
Defined.

(** A layout of the nested group 3 of [staged] goes on to group 1: two
    events, the second with the path through 3. *)
Lemma layout_events_follow_the_chain_at_sample :
  (exists w' evs,
    _applyLayoutStrategy 1 3 (mkContext object_modified [])
      {| heap := staged; events := [] |} = Some w'
    /\ events w' = [] ++ evs
    /\ forall k e, evs !! k = Some e ->
         exists t r d, (3 :: [1]) !! k = Some t
           /\ e = EvLayout t (with_path (mkContext object_modified []) (take k (3 :: [1]))) r d
           /\ _firstLayoutDone (heap w' t) = true)
  /\ layout_trail
       (events (default {| heap := staged; events := [] |}
                  (_applyLayoutStrategy 1 3 (mkContext object_modified [])
                     {| heap := staged; events := [] |})))
     = [Some (3, []); Some (1, [3])].
Proof.
  split; [|vm_compute; reflexivity].
  apply (@layout_events_follow_the_chain _ _ 1 3 (mkContext object_modified [])
           {| heap := staged; events := [] |} [1]);
    [repeat constructor | simpl; lia].
Defined.

(** The same layout: object 4, on the canvas and in neither group, is left
    as it was. *)
Lemma layout_changes_geometry_only_at_sample :
  exists w',
    _applyLayoutStrategy 1 3 (mkContext object_modified [])
      {| heap := staged; events := [] |} = Some w'
    /\ forall i,
         layout_may_change (staged i) (heap w' i)
         /\ ((forall g, g ∈ 3 :: [1] ->
                i <> g /\ (i ∉ _objects (staged g)) /\ clipPath (staged g) <> Some i) ->
             with_dirty (heap w' i) (dirty (staged i)) = staged i).
Proof.
  apply (@layout_changes_geometry_only _ _ 1 3 (mkContext object_modified [])
           {| heap := staged; events := [] |} [1]);
    [repeat constructor | simpl; lia].
Defined.

(** The first layout of the group under construction, with its box given
    in full and its two objects in its own plane. *)
Lemma explicit_box_skips_measuring_at_sample :
  getLayoutStrategyResult clipped_group 0 (layout (clipped_group 0))
    (_objects (clipped_group 0)) boxed_first_layout = None
  /\ exists r,
       layout_body 0 boxed_first_layout clipped_group
       = Completed (set_initialTransform 0 boxed_first_layout clipped_group) r None
       /\ r_width r = width (geo (clipped_group 0))
       /\ r_height r = height (geo (clipped_group 0))
       /\ (forall i, i <> 0 -> set_initialTransform 0 boxed_first_layout clipped_group i
                               = clipped_group i)
       /\ geo (set_initialTransform 0 boxed_first_layout clipped_group 0)
          = set_angle_skew (geo (clipped_group 0)) (or0 (o_angle boxed))
              (or0 (o_skewX boxed)) (or0 (o_skewY boxed)).
Proof.
  apply (@explicit_box_skips_measuring _ _ 0 boxed_first_layout clipped_group boxed);
    [reflexivity | vm_compute; set_solver | reflexivity | left; repeat split].
Defined.

(** [triggerLayout({ layout: 'fixed' })] on the lazy group. *)
Lemma triggerLayout_sets_the_mode_at_sample :
  exists w' evs,
    triggerLayout 0 0
      (Some {| p_centerX := None; p_centerY := None; p_correctionX := None;
               p_correctionY := None; p_width := None; p_height := None;
               p_layout := Some "fixed" |})
      {| heap := lazy_group; events := [] |} = Some w'
    /\ layout (heap w' 0) = "fixed"
    /\ events w' = [] ++ evs
    /\ (forall e, e ∈ evs ->
          exists t ctx r d, e = EvLayout t ctx r d /\ type ctx = imperative)
    /\ (_firstLayoutDone (lazy_group 0) = false ->
        evs = []
        /\ forall i, heap w' i
                     = if decide (i = 0) then with_layout (lazy_group 0) "fixed"
                       else lazy_group i).
Proof.
  apply (@triggerLayout_sets_the_mode _ _ 0 0
           (Some {| p_centerX := None; p_centerY := None; p_correctionX := None;
                    p_correctionY := None; p_width := None; p_height := None;
                    p_layout := Some "fixed" |})
           {| heap := lazy_group; events := [] |} []);
    [constructor | simpl; lia].
Defined.

